(** * ARM LPAE I/O page-table allocator (drivers/iommu/io-pgtable-arm.c)

    A shallow embedding of the allocator: the descriptor codec, the
    geometry macros, the format initialisers and the four operations
    [arm_lpae_map], [arm_lpae_map_sg], [arm_lpae_unmap] and
    [arm_lpae_iova_to_phys], over a flat model of physical memory.

    Conventions.
    - [arm_lpae_iopte] is [u64]: a [Z] in [0, 2^64).  C's [~x] on it is
      written [Z.lnot x]; [Z.land] with a non-negative operand brings the
      result back into range.
    - Pointers to descriptors are the physical byte addresses of the
      cells ([__va] and [__pa] are the kernel's linear map, taken as the
      identity); [0] is [NULL].
    - Memory is a function from the address of an 8-byte cell to its
      contents. *)

From Stdlib Require Import ZArith List Bool Lia.
From coqutil Require Import Z.bitblast.
Import ListNotations.
Local Open Scope Z_scope.

(** ** Constants *)

Definition ARM_LPAE_MAX_ADDR_BITS : Z := 48.
Definition ARM_LPAE_S2_MAX_CONCAT_PAGES : Z := 16.
Definition ARM_LPAE_MAX_LEVELS : Z := 4.

(** linux/sizes.h *)
Definition SZ_4K : Z := 0x1000.
Definition SZ_16K : Z := 0x4000.
Definition SZ_64K : Z := 0x10000.
Definition SZ_1M : Z := 0x100000.
Definition SZ_2M : Z := 0x200000.
Definition SZ_32M : Z := 0x2000000.
Definition SZ_512M : Z := 0x20000000.
Definition SZ_1G : Z := 0x40000000.

(** errno *)
Definition ENOMEM : Z := 12.
Definition EEXIST : Z := 17.
Definition EINVAL : Z := 22.

(** Page table bits *)
Definition ARM_LPAE_PTE_TYPE_SHIFT : Z := 0.
Definition ARM_LPAE_PTE_TYPE_MASK : Z := 0x3.

Definition ARM_LPAE_PTE_TYPE_BLOCK : Z := 1.
Definition ARM_LPAE_PTE_TYPE_TABLE : Z := 3.
Definition ARM_LPAE_PTE_TYPE_PAGE : Z := 3.

Definition ARM_LPAE_PTE_NSTABLE : Z := Z.shiftl 1 63.
Definition ARM_LPAE_PTE_XN : Z := Z.shiftl 3 53.
Definition ARM_LPAE_PTE_AF : Z := Z.shiftl 1 10.
Definition ARM_LPAE_PTE_SH_NS : Z := Z.shiftl 0 8.
Definition ARM_LPAE_PTE_SH_OS : Z := Z.shiftl 2 8.
Definition ARM_LPAE_PTE_SH_IS : Z := Z.shiftl 3 8.
Definition ARM_LPAE_PTE_NS : Z := Z.shiftl 1 5.
Definition ARM_LPAE_PTE_VALID : Z := Z.shiftl 1 0.

Definition ARM_LPAE_PTE_ATTR_LO_MASK : Z := Z.shiftl 0x3ff 2.
Definition ARM_LPAE_PTE_ATTR_HI_MASK : Z := Z.shiftl 6 52.
Definition ARM_LPAE_PTE_ATTR_MASK : Z :=
  Z.lor ARM_LPAE_PTE_ATTR_LO_MASK ARM_LPAE_PTE_ATTR_HI_MASK.

(** Stage-1 PTE *)
Definition ARM_LPAE_PTE_AP_PRIV_RW : Z := Z.shiftl 0 6.
Definition ARM_LPAE_PTE_AP_RW : Z := Z.shiftl 1 6.
Definition ARM_LPAE_PTE_AP_PRIV_RO : Z := Z.shiftl 2 6.
Definition ARM_LPAE_PTE_AP_RO : Z := Z.shiftl 3 6.
Definition ARM_LPAE_PTE_ATTRINDX_SHIFT : Z := 2.
Definition ARM_LPAE_PTE_nG : Z := Z.shiftl 1 11.

(** Stage-2 PTE *)
Definition ARM_LPAE_PTE_HAP_FAULT : Z := Z.shiftl 0 6.
Definition ARM_LPAE_PTE_HAP_READ : Z := Z.shiftl 1 6.
Definition ARM_LPAE_PTE_HAP_WRITE : Z := Z.shiftl 2 6.
Definition ARM_LPAE_PTE_MEMATTR_OIWB : Z := Z.shiftl 0xf 2.
Definition ARM_LPAE_PTE_MEMATTR_NC : Z := Z.shiftl 0x5 2.
Definition ARM_LPAE_PTE_MEMATTR_DEV : Z := Z.shiftl 0x1 2.

(** Register bits *)
Definition ARM_32_LPAE_TCR_EAE : Z := Z.shiftl 1 31.
Definition ARM_64_LPAE_S2_TCR_RES1 : Z := Z.shiftl 1 31.

Definition ARM_LPAE_TCR_TG0_4K : Z := Z.shiftl 0 14.
Definition ARM_LPAE_TCR_TG0_64K : Z := Z.shiftl 1 14.
Definition ARM_LPAE_TCR_TG0_16K : Z := Z.shiftl 2 14.

Definition ARM_LPAE_TCR_SH0_SHIFT : Z := 12.
Definition ARM_LPAE_TCR_SH0_MASK : Z := 0x3.
Definition ARM_LPAE_TCR_SH_NS : Z := 0.
Definition ARM_LPAE_TCR_SH_OS : Z := 2.
Definition ARM_LPAE_TCR_SH_IS : Z := 3.

Definition ARM_LPAE_TCR_ORGN0_SHIFT : Z := 10.
Definition ARM_LPAE_TCR_IRGN0_SHIFT : Z := 8.
Definition ARM_LPAE_TCR_RGN_MASK : Z := 0x3.
Definition ARM_LPAE_TCR_RGN_NC : Z := 0.
Definition ARM_LPAE_TCR_RGN_WBWA : Z := 1.
Definition ARM_LPAE_TCR_RGN_WT : Z := 2.
Definition ARM_LPAE_TCR_RGN_WB : Z := 3.

Definition ARM_LPAE_TCR_SL0_SHIFT : Z := 6.
Definition ARM_LPAE_TCR_SL0_MASK : Z := 0x3.

Definition ARM_LPAE_TCR_T0SZ_SHIFT : Z := 0.
Definition ARM_LPAE_TCR_SZ_MASK : Z := 0xf.

Definition ARM_LPAE_TCR_PS_SHIFT : Z := 16.
Definition ARM_LPAE_TCR_PS_MASK : Z := 0x7.

Definition ARM_LPAE_TCR_IPS_SHIFT : Z := 32.
Definition ARM_LPAE_TCR_IPS_MASK : Z := 0x7.

Definition ARM_LPAE_TCR_PS_32_BIT : Z := 0x0.
Definition ARM_LPAE_TCR_PS_36_BIT : Z := 0x1.
Definition ARM_LPAE_TCR_PS_40_BIT : Z := 0x2.
Definition ARM_LPAE_TCR_PS_42_BIT : Z := 0x3.
Definition ARM_LPAE_TCR_PS_44_BIT : Z := 0x4.
Definition ARM_LPAE_TCR_PS_48_BIT : Z := 0x5.

Definition ARM_LPAE_TCR_EPD1_SHIFT : Z := 23.
Definition ARM_LPAE_TCR_EPD1_FAULT : Z := 1.

Definition ARM_LPAE_MAIR_ATTR_SHIFT (n : Z) : Z := Z.shiftl n 3.
Definition ARM_LPAE_MAIR_ATTR_MASK : Z := 0xff.
Definition ARM_LPAE_MAIR_ATTR_DEVICE : Z := 0x04.
Definition ARM_LPAE_MAIR_ATTR_NC : Z := 0x44.
Definition ARM_LPAE_MAIR_ATTR_WBRWA : Z := 0xff.
Definition ARM_LPAE_MAIR_ATTR_IDX_NC : Z := 0.
Definition ARM_LPAE_MAIR_ATTR_IDX_CACHE : Z := 1.
Definition ARM_LPAE_MAIR_ATTR_IDX_DEV : Z := 2.

(** ** Machine integers *)

(** Truncation to [u64] and to C's [int] (two's complement). *)
Definition u64 (x : Z) : Z := x mod 2 ^ 64.
Definition u32 (x : Z) : Z := x mod 2 ^ 32.
Definition to_int (x : Z) : Z := (x + 2 ^ 31) mod 2 ^ 32 - 2 ^ 31.

(** [ilog2 (sizeof (arm_lpae_iopte))]. *)
Definition sizeof_iopte : Z := 8.
Definition ilog2_sizeof_iopte : Z := 3.

(** ** The table-use counter hidden in ignored bits *)

Definition BOTTOM_IGNORED_MASK : Z := 0x3ff.
Definition BOTTOM_IGNORED_SHIFT : Z := 2.
Definition BOTTOM_IGNORED_NUM_BITS : Z := 10.
Definition TOP_IGNORED_MASK : Z := 0x7f.
Definition TOP_IGNORED_SHIFT : Z := 52.
Definition IOPTE_RESERVED_MASK : Z :=
  Z.lor (Z.shiftl BOTTOM_IGNORED_MASK BOTTOM_IGNORED_SHIFT)
        (Z.shiftl TOP_IGNORED_MASK TOP_IGNORED_SHIFT).

Definition iopte_val (table_pte : Z) : Z :=
  Z.land table_pte (Z.lnot IOPTE_RESERVED_MASK).

Definition _iopte_bottom_ignored_val (table_pte : Z) : Z :=
  Z.shiftr (Z.land table_pte (Z.shiftl BOTTOM_IGNORED_MASK BOTTOM_IGNORED_SHIFT))
           BOTTOM_IGNORED_SHIFT.

Definition _iopte_top_ignored_val (table_pte : Z) : Z :=
  Z.shiftr (Z.land table_pte (Z.shiftl TOP_IGNORED_MASK TOP_IGNORED_SHIFT))
           TOP_IGNORED_SHIFT.

Definition iopte_tblcnt (table_pte : Z) : Z :=
  Z.lor (_iopte_bottom_ignored_val table_pte)
        (Z.shiftl (_iopte_top_ignored_val table_pte) BOTTOM_IGNORED_NUM_BITS).

(** [iopte_tblcnt_set (arm_lpae_iopte *table_pte, int val)]: the value
    stored back through the pointer.  [val] is an [int]; in the second
    operand it is converted to [u64] before the mask is applied. *)
Definition iopte_tblcnt_set (table_pte : Z) (val : Z) : Z :=
  let pte := iopte_val table_pte in
  Z.lor pte
    (Z.lor (Z.shiftl (Z.land val BOTTOM_IGNORED_MASK) BOTTOM_IGNORED_SHIFT)
           (Z.shiftl
              (Z.shiftr
                 (Z.land (u64 val)
                         (Z.shiftl TOP_IGNORED_MASK BOTTOM_IGNORED_NUM_BITS))
                 BOTTOM_IGNORED_NUM_BITS)
              TOP_IGNORED_SHIFT)).

(** [current_cnt] is an [arm_lpae_iopte]: the subtraction wraps in 64
    bits and the result is narrowed to [int] on the call. *)
Definition iopte_tblcnt_sub (table_pte : Z) (cnt : Z) : Z :=
  let current_cnt := iopte_tblcnt table_pte in
  let current_cnt := u64 (current_cnt - cnt) in
  iopte_tblcnt_set table_pte (to_int current_cnt).

Definition iopte_tblcnt_add (table_pte : Z) (cnt : Z) : Z :=
  let current_cnt := iopte_tblcnt table_pte in
  let current_cnt := u64 (current_cnt + cnt) in
  iopte_tblcnt_set table_pte (to_int current_cnt).

(** Bits [2..11] and [52..58], spelled out. *)
Definition reserved_bit (i : Z) : bool :=
  ((2 <=? i) && (i <=? 11)) || ((52 <=? i) && (i <=? 58)).

(** ** Configuration and per-domain data *)

Inductive io_pgtable_fmt :=
  | ARM_32_LPAE_S1
  | ARM_32_LPAE_S2
  | ARM_64_LPAE_S1
  | ARM_64_LPAE_S2.

(** Modelled from the spec: the flag constants of io-pgtable.h and
    linux/iommu.h are not part of the source at hand.  The spec gives
    [quirks] as a flag set whose one recognised option is ARM_NS, and
    [prot] as the capability set READ, WRITE, EXEC, CACHE, DEVICE, PRIV,
    NOEXEC.  The test [x & FLAG] of the C code is membership. *)
Inductive io_pgtable_quirk := IO_PGTABLE_QUIRK_ARM_NS.

Inductive iommu_cap :=
  | IOMMU_READ
  | IOMMU_WRITE
  | IOMMU_EXEC
  | IOMMU_CACHE
  | IOMMU_DEVICE
  | IOMMU_PRIV
  | IOMMU_NOEXEC.

Definition iommu_cap_eqb (a b : iommu_cap) : bool :=
  match a, b with
  | IOMMU_READ, IOMMU_READ | IOMMU_WRITE, IOMMU_WRITE
  | IOMMU_EXEC, IOMMU_EXEC | IOMMU_CACHE, IOMMU_CACHE
  | IOMMU_DEVICE, IOMMU_DEVICE | IOMMU_PRIV, IOMMU_PRIV
  | IOMMU_NOEXEC, IOMMU_NOEXEC => true
  | _, _ => false
  end.

Definition has_cap (prot : list iommu_cap) (c : iommu_cap) : bool :=
  existsb (iommu_cap_eqb c) prot.

Definition io_pgtable_quirk_eqb (a b : io_pgtable_quirk) : bool :=
  match a, b with
  | IO_PGTABLE_QUIRK_ARM_NS, IO_PGTABLE_QUIRK_ARM_NS => true
  end.

Definition has_quirk (q : list io_pgtable_quirk) (c : io_pgtable_quirk) : bool :=
  existsb (io_pgtable_quirk_eqb c) q.

Record arm_lpae_s1_cfg_t := {
  tcr : Z;
  mair : Z * Z;
  ttbr : Z * Z
}.

Record arm_lpae_s2_cfg_t := {
  vtcr : Z;
  vttbr : Z
}.

Record io_pgtable_cfg := {
  quirks : list io_pgtable_quirk;
  pgsize_bitmap : Z;
  ias : Z;
  oas : Z;
  arm_lpae_s1_cfg : arm_lpae_s1_cfg_t;
  arm_lpae_s2_cfg : arm_lpae_s2_cfg_t
}.

Record io_pgtable := {
  fmt : io_pgtable_fmt;
  cfg : io_pgtable_cfg
}.

Record arm_lpae_io_pgtable := {
  iop : io_pgtable;
  levels : Z;
  pgd_size : Z;
  pg_shift : Z;
  bits_per_level : Z;
  pgd : Z
}.

(** ** Geometry macros *)

(** linux/log2.h: [fls - 1], hence [-1] at [0]. *)
Definition ilog2 (n : Z) : Z := if n <=? 0 then -1 else Z.log2 n.

Definition ARM_LPAE_START_LVL (d : arm_lpae_io_pgtable) : Z :=
  ARM_LPAE_MAX_LEVELS - levels d.

Definition ARM_LPAE_LVL_SHIFT (l : Z) (d : arm_lpae_io_pgtable) : Z :=
  (levels d - (l - ARM_LPAE_START_LVL d + 1)) * bits_per_level d + pg_shift d.

Definition ARM_LPAE_PAGES_PER_PGD (d : arm_lpae_io_pgtable) : Z :=
  Z.shiftr (pgd_size d) (pg_shift d).

Definition ARM_LPAE_PGD_IDX (l : Z) (d : arm_lpae_io_pgtable) : Z :=
  if l =? ARM_LPAE_START_LVL d then ilog2 (ARM_LPAE_PAGES_PER_PGD d) else 0.

Definition ARM_LPAE_LVL_IDX (a l : Z) (d : arm_lpae_io_pgtable) : Z :=
  Z.land (Z.shiftr a (ARM_LPAE_LVL_SHIFT l d))
         (Z.shiftl 1 (bits_per_level d + ARM_LPAE_PGD_IDX l d) - 1).

(** The C expression shifts the [int] constant [1]; it is defined for
    exponents up to 30, which covers every supported block size.  The
    embedding keeps the power of two for the larger exponents of the
    upper levels as well; no supported size equals one of those. *)
Definition ARM_LPAE_BLOCK_SIZE (l : Z) (d : arm_lpae_io_pgtable) : Z :=
  Z.shiftl 1 (ilog2_sizeof_iopte + (ARM_LPAE_MAX_LEVELS - l) * bits_per_level d).

(** ** IOPTE accessors *)

Definition iopte_deref (pte : Z) (d : arm_lpae_io_pgtable) : Z :=
  Z.land (Z.land (iopte_val pte) (Z.shiftl 1 ARM_LPAE_MAX_ADDR_BITS - 1))
         (Z.lnot (Z.shiftl 1 (pg_shift d) - 1)).

Definition iopte_type (pte l : Z) : Z :=
  Z.land (Z.shiftr pte ARM_LPAE_PTE_TYPE_SHIFT) ARM_LPAE_PTE_TYPE_MASK.

Definition iopte_prot (pte : Z) : Z := Z.land pte ARM_LPAE_PTE_ATTR_MASK.

Definition iopte_leaf (pte l : Z) : bool :=
  if l =? ARM_LPAE_MAX_LEVELS - 1
  then iopte_type pte l =? ARM_LPAE_PTE_TYPE_PAGE
  else iopte_type pte l =? ARM_LPAE_PTE_TYPE_BLOCK.

Definition iopte_to_pfn (pte : Z) (d : arm_lpae_io_pgtable) : Z :=
  Z.shiftr (Z.land pte (Z.shiftl 1 ARM_LPAE_MAX_ADDR_BITS - 1)) (pg_shift d).

Definition pfn_to_iopte (pfn : Z) (d : arm_lpae_io_pgtable) : Z :=
  Z.land (Z.shiftl pfn (pg_shift d)) (Z.shiftl 1 ARM_LPAE_MAX_ADDR_BITS - 1).

(** ** Machine state *)

(** Calls made to the collaborators, most recent first. *)
Inductive event :=
  | flush_pgtable (ptr len : Z)
  | tlb_flush_all
  | free_pages_exact (ptr size : Z).

(** [mem]: physical memory, one [u64] per descriptor address.
    [pool]: the answers the page allocator will give, in order; [0] is a
    refusal.  [frame]: the address of the stack cell that holds the local
    [table] of [arm_lpae_split_blk_unmap], whose address the code takes.
    [suppress_map_failures]: the file-scope selftest switch. *)
Record machine := {
  mem : Z -> Z;
  pool : list Z;
  trace : list event;
  frame : Z;
  suppress_map_failures : bool
}.

(** A call either returns or stops in [BUG_ON]. *)
Inductive outcome (A : Type) :=
  | Ret (a : A)
  | BUG.
Arguments Ret {A} a.
Arguments BUG {A}.

Definition store (m : Z -> Z) (a v : Z) : Z -> Z :=
  fun x => if x =? a then v else m x.

Definition memzero (m : Z -> Z) (a len : Z) : Z -> Z :=
  fun x => if (a <=? x) && (x <? a + len) then 0 else m x.

Definition set_mem (st : machine) (m : Z -> Z) : machine :=
  {| mem := m; pool := pool st; trace := trace st; frame := frame st;
     suppress_map_failures := suppress_map_failures st |}.

Definition emit (st : machine) (e : event) : machine :=
  {| mem := mem st; pool := pool st; trace := e :: trace st;
     frame := frame st; suppress_map_failures := suppress_map_failures st |}.

(** Modelled from the spec: the page allocator is an external
    collaborator handing out zeroed, physically contiguous, naturally
    aligned chunks, or nothing.  [io_pgtable_alloc_pages_exact] with
    [__GFP_ZERO] takes the next answer from [pool] and zero-fills it. *)
Definition io_pgtable_alloc_pages_exact (size : Z) (st : machine) : Z * machine :=
  match pool st with
  | [] => (0, st)
  | p :: rest =>
      if p =? 0
      then (0, {| mem := mem st; pool := rest; trace := trace st;
                  frame := frame st; suppress_map_failures := suppress_map_failures st |})
      else (p, {| mem := memzero (mem st) p size; pool := rest; trace := trace st;
                  frame := frame st; suppress_map_failures := suppress_map_failures st |})
  end.

Definition io_pgtable_free_pages_exact (virt size : Z) (st : machine) : machine :=
  emit st (free_pages_exact virt size).

(** ** Installing a leaf *)

(** The descriptor [arm_lpae_init_pte] composes before it stores it. *)
Definition arm_lpae_init_pte_val (d : arm_lpae_io_pgtable)
    (paddr prot lvl : Z) : Z :=
  let pte := prot in
  let pte := if has_quirk (quirks (cfg (iop d))) IO_PGTABLE_QUIRK_ARM_NS
             then Z.lor pte ARM_LPAE_PTE_NS else pte in
  let pte := if lvl =? ARM_LPAE_MAX_LEVELS - 1
             then Z.lor pte ARM_LPAE_PTE_TYPE_PAGE
             else Z.lor pte ARM_LPAE_PTE_TYPE_BLOCK in
  let pte := Z.lor pte (Z.lor ARM_LPAE_PTE_AF ARM_LPAE_PTE_SH_IS) in
  Z.lor pte (pfn_to_iopte (Z.shiftr paddr (pg_shift d)) d).

Definition arm_lpae_init_pte (d : arm_lpae_io_pgtable)
    (iova paddr prot lvl ptep prev_ptep : Z) (flush : bool)
    (st : machine) : outcome (Z * machine) :=
  (* We require an unmap first *)
  if negb (Z.land (mem st ptep) ARM_LPAE_PTE_VALID =? 0) then
    if suppress_map_failures st then Ret (- EEXIST, st) else BUG
  else
    let pte := arm_lpae_init_pte_val d paddr prot lvl in
    let st := set_mem st (store (mem st) ptep pte) in
    let st := if flush then emit st (flush_pgtable ptep sizeof_iopte) else st in
    let st := if prev_ptep =? 0 then st
              else set_mem st (store (mem st) prev_ptep
                                     (iopte_tblcnt_add (mem st prev_ptep) 1)) in
    Ret (0, st).

Record map_state := {
  iova_end : Z;
  pgsize : Z;
  pgtable : Z;
  prev_pgtable : Z;
  pte_start : Z;
  num_pte : Z
}.

Definition map_state_zero : map_state :=
  {| iova_end := 0; pgsize := 0; pgtable := 0; prev_pgtable := 0;
     pte_start := 0; num_pte := 0 |}.

(* map state optimization works at level 3 (the 2nd-to-last level) *)
Definition MAP_STATE_LVL : Z := 3.

Definition round_down (x y : Z) : Z := Z.land x (Z.lnot (y - 1)).

Definition ms_flush (ms : map_state) (st : machine) : machine :=
  if pgtable ms =? 0 then st
  else emit st (flush_pgtable (pte_start ms) (num_pte ms * sizeof_iopte)).

(** [__arm_lpae_map].  The result carries the caller's [map_state] as
    the call leaves it ([None] when called with [ms == NULL]).  The
    recursion descends one level per call and stops at the last level;
    [fuel] counts the levels that may still be entered. *)
Fixpoint __arm_lpae_map (fuel : nat) (d : arm_lpae_io_pgtable)
    (iova paddr size prot lvl ptep prev_ptep : Z) (ms : option map_state)
    (st : machine) {struct fuel} : outcome (Z * option map_state * machine) :=
  let block_size := ARM_LPAE_BLOCK_SIZE lvl d in
  let pgtable_ := ptep in
  (* Find our entry at the current level *)
  let ptep := ptep + sizeof_iopte * ARM_LPAE_LVL_IDX iova lvl d in
  (* If we can install a leaf entry at this level, then do so *)
  if (size =? block_size)
     && negb (Z.land size (pgsize_bitmap (cfg (iop d))) =? 0) then
    match ms with
    | None =>
        match arm_lpae_init_pte d iova paddr prot lvl ptep prev_ptep true st with
        | Ret (r, st') => Ret (r, None, st')
        | BUG => BUG
        end
    | Some s =>
        if lvl =? MAP_STATE_LVL then
          let st := ms_flush s st in
          let s' := {| iova_end := round_down iova SZ_2M + SZ_2M;
                       pgsize := size;
                       pgtable := pgtable_;
                       prev_pgtable := prev_ptep;
                       pte_start := ptep;
                       num_pte := 1 |} in
          match arm_lpae_init_pte d iova paddr prot lvl ptep prev_ptep false st with
          | Ret (r, st') => Ret (r, Some s', st')
          | BUG => BUG
          end
        else
          let st := ms_flush s st in
          match arm_lpae_init_pte d iova paddr prot lvl ptep prev_ptep true st with
          | Ret (r, st') => Ret (r, Some map_state_zero, st')
          | BUG => BUG
          end
    end
  (* We can't allocate tables at the final level *)
  else if lvl >=? ARM_LPAE_MAX_LEVELS - 1 then Ret (- EINVAL, ms, st)
  else
    match fuel with
    | O => BUG
    | S fuel' =>
        (* Grab a pointer to the next level *)
        let pte := mem st ptep in
        if pte =? 0 then
          let '(cptep, st) :=
            io_pgtable_alloc_pages_exact (Z.shiftl 1 (pg_shift d)) st in
          if cptep =? 0 then Ret (- ENOMEM, ms, st)
          else
            let st := emit st (flush_pgtable cptep (Z.shiftl 1 (pg_shift d))) in
            let pte := Z.lor cptep ARM_LPAE_PTE_TYPE_TABLE in
            let pte := if has_quirk (quirks (cfg (iop d))) IO_PGTABLE_QUIRK_ARM_NS
                       then Z.lor pte ARM_LPAE_PTE_NSTABLE else pte in
            let st := set_mem st (store (mem st) ptep pte) in
            let st := emit st (flush_pgtable ptep sizeof_iopte) in
            __arm_lpae_map fuel' d iova paddr size prot (lvl + 1) cptep ptep ms st
        else
          let cptep := iopte_deref pte d in
          __arm_lpae_map fuel' d iova paddr size prot (lvl + 1) cptep ptep ms st
    end.

(** Levels that can still be entered below [lvl]. *)
Definition levels_below (lvl : Z) : nat :=
  Z.to_nat (ARM_LPAE_MAX_LEVELS - 1 - lvl).

Definition arm_lpae_prot_to_pte (d : arm_lpae_io_pgtable)
    (prot : list iommu_cap) : Z :=
  let pte :=
    match fmt (iop d) with
    | ARM_64_LPAE_S1 | ARM_32_LPAE_S1 =>
        let pte := ARM_LPAE_PTE_nG in
        let pte :=
          if has_cap prot IOMMU_WRITE
          then Z.lor pte (if has_cap prot IOMMU_PRIV
                          then ARM_LPAE_PTE_AP_PRIV_RW else ARM_LPAE_PTE_AP_RW)
          else Z.lor pte (if has_cap prot IOMMU_PRIV
                          then ARM_LPAE_PTE_AP_PRIV_RO else ARM_LPAE_PTE_AP_RO) in
        let pte :=
          if has_cap prot IOMMU_CACHE
          then Z.lor pte (Z.shiftl ARM_LPAE_MAIR_ATTR_IDX_CACHE
                                   ARM_LPAE_PTE_ATTRINDX_SHIFT)
          else pte in
        if has_cap prot IOMMU_DEVICE
        then Z.lor pte (Z.shiftl ARM_LPAE_MAIR_ATTR_IDX_DEV
                                 ARM_LPAE_PTE_ATTRINDX_SHIFT)
        else pte
    | _ =>
        let pte := ARM_LPAE_PTE_HAP_FAULT in
        let pte := if has_cap prot IOMMU_READ
                   then Z.lor pte ARM_LPAE_PTE_HAP_READ else pte in
        let pte := if has_cap prot IOMMU_WRITE
                   then Z.lor pte ARM_LPAE_PTE_HAP_WRITE else pte in
        let pte := if has_cap prot IOMMU_CACHE
                   then Z.lor pte ARM_LPAE_PTE_MEMATTR_OIWB
                   else Z.lor pte ARM_LPAE_PTE_MEMATTR_NC in
        if has_cap prot IOMMU_DEVICE
        then Z.lor pte ARM_LPAE_PTE_MEMATTR_DEV else pte
    end in
  if has_cap prot IOMMU_NOEXEC then Z.lor pte ARM_LPAE_PTE_XN else pte.

Definition arm_lpae_map (d : arm_lpae_io_pgtable)
    (iova paddr size : Z) (iommu_prot : list iommu_cap)
    (st : machine) : outcome (Z * machine) :=
  let ptep := pgd d in
  let lvl := ARM_LPAE_START_LVL d in
  (* If no access, then nothing to do *)
  if negb (has_cap iommu_prot IOMMU_READ || has_cap iommu_prot IOMMU_WRITE)
  then Ret (0, st)
  else
    let prot := arm_lpae_prot_to_pte d iommu_prot in
    match __arm_lpae_map (levels_below lvl) d iova paddr size prot lvl ptep 0
                         None st with
    | Ret (r, _, st') => Ret (r, st')
    | BUG => BUG
    end.

(** ** Scatter-gather mapping *)

(** Bit positions of an [unsigned long]. *)
Definition bit_positions : list Z := map Z.of_nat (seq 0 64).

(** [__ffs]: index of the lowest set bit (undefined at 0; 64 here). *)
Definition __ffs (x : Z) : Z :=
  match find (Z.testbit x) bit_positions with
  | Some i => i
  | None => 64
  end.

(** [__fls]: index of the highest set bit (undefined at 0). *)
Definition __fls (x : Z) : Z := Z.log2 x.

Definition IS_ALIGNED (x a : Z) : bool := Z.land x (a - 1) =? 0.

(** Modelled from the spec: [iommu_pgsize] lives in the IOMMU core, not
    in this file.  The spec has it pick the largest page size of
    [pgsize_bitmap] that divides the alignment of the address and does
    not exceed the remaining length.  When no page size fits the helper
    stops in [BUG_ON]: [None]. *)
Definition iommu_pgsize (pgsize_bitmap addr_merge size : Z) : option Z :=
  match
    find (fun i => Z.testbit pgsize_bitmap i
                   && (Z.shiftl 1 i <=? size)
                   && (Z.land addr_merge (Z.shiftl 1 i - 1) =? 0))
         (rev bit_positions)
  with
  | Some i => Some (Z.shiftl 1 i)
  | None => None
  end.

(** One entry of the scatterlist: [page_to_phys (sg_page s)],
    [s->offset], [s->length]. *)
Record scatterlist := {
  sg_page_phys : Z;
  sg_offset : Z;
  sg_length : Z
}.

(** How the [while (size)] loop over one entry ends: all of it mapped,
    [goto out_err], or [BUG_ON]. *)
Inductive sg_result :=
  | SgDone (iova mapped : Z) (ms : map_state) (st : machine)
  | SgErr (mapped : Z) (st : machine)
  | SgBug.

(** The [while (size)] loop.  Every round maps at least the smallest
    page, so [fuel] rounds are enough when [fuel] is the number of
    smallest pages in [size]. *)
Fixpoint map_sg_while (fuel : nat) (d : arm_lpae_io_pgtable)
    (prot lvl ptep : Z) (iova phys size mapped : Z) (ms : map_state)
    (st : machine) {struct fuel} : sg_result :=
  if size =? 0 then SgDone iova mapped ms st
  else
    match fuel with
    | O => SgBug
    | S fuel' =>
        match iommu_pgsize (pgsize_bitmap (cfg (iop d))) (Z.lor iova phys) size with
        | None => SgBug
        | Some pgsz =>
            if negb (pgtable ms =? 0) && (iova <? iova_end ms) then
              let ptep' := pgtable ms
                           + sizeof_iopte * ARM_LPAE_LVL_IDX iova MAP_STATE_LVL d in
              match arm_lpae_init_pte d iova phys prot MAP_STATE_LVL ptep'
                                      (prev_pgtable ms) false st with
              | BUG => SgBug
              | Ret (ret, st') =>
                  if negb (ret =? 0) then SgErr mapped st'
                  else
                    let ms' := {| iova_end := iova_end ms; pgsize := pgsize ms;
                                  pgtable := pgtable ms;
                                  prev_pgtable := prev_pgtable ms;
                                  pte_start := pte_start ms;
                                  num_pte := num_pte ms + 1 |} in
                    map_sg_while fuel' d prot lvl ptep (iova + pgsz) (phys + pgsz)
                                 (size - pgsz) (mapped + pgsz) ms' st'
              end
            else
              match __arm_lpae_map (levels_below lvl) d iova phys pgsz prot lvl
                                   ptep 0 (Some ms) st with
              | BUG => SgBug
              | Ret (ret, ms', st') =>
                  if negb (ret =? 0) then SgErr mapped st'
                  else
                    let ms' := match ms' with Some s => s | None => ms end in
                    map_sg_while fuel' d prot lvl ptep (iova + pgsz) (phys + pgsz)
                                 (size - pgsz) (mapped + pgsz) ms' st'
              end
        end
    end.

(** [for_each_sg]. *)
Fixpoint map_sg_for_each (d : arm_lpae_io_pgtable) (prot lvl ptep : Z)
    (min_pagesz : Z) (sg : list scatterlist) (iova mapped : Z)
    (ms : map_state) (st : machine) {struct sg} : sg_result :=
  match sg with
  | [] => SgDone iova mapped ms st
  | s :: rest =>
      let phys := sg_page_phys s + sg_offset s in
      let size := sg_length s in
      if negb (IS_ALIGNED (sg_offset s) min_pagesz) then SgErr mapped st
      else
        match map_sg_while (Z.to_nat (size / min_pagesz)) d prot lvl ptep
                           iova phys size mapped ms st with
        | SgDone iova' mapped' ms' st' =>
            map_sg_for_each d prot lvl ptep min_pagesz rest iova' mapped' ms' st'
        | r => r
        end
  end.

(** [arm_lpae_map_sg]: the returned byte count, what the call stores in
    [*size] ([None] when it leaves it alone), and the machine. *)
Definition arm_lpae_map_sg (d : arm_lpae_io_pgtable) (iova : Z)
    (sg : list scatterlist) (iommu_prot : list iommu_cap)
    (st : machine) : outcome (Z * option Z * machine) :=
  let ptep := pgd d in
  let lvl := ARM_LPAE_START_LVL d in
  let mapped := 0 in
  (* If no access, then nothing to do *)
  if negb (has_cap iommu_prot IOMMU_READ || has_cap iommu_prot IOMMU_WRITE)
  then Ret (0, Some mapped, st)
  else
    let prot := arm_lpae_prot_to_pte d iommu_prot in
    let min_pagesz := Z.shiftl 1 (__ffs (pgsize_bitmap (cfg (iop d)))) in
    match map_sg_for_each d prot lvl ptep min_pagesz sg iova mapped
                          map_state_zero st with
    | SgDone _ mapped ms st' => Ret (mapped, None, ms_flush ms st')
    | SgErr mapped st' =>
        (* Return the size of the partial mapping so that they can be undone *)
        Ret (0, Some mapped, st')
    | SgBug => BUG
    end.

(** ** Freeing tables *)

(** [__arm_lpae_free_pgtable].  The walk over the entries reads them in
    order; a child is freed before the walk moves on.  The recursion
    ends at the last level; a walk that would leave the four levels has
    no bound in C and is [BUG] here. *)
Fixpoint __arm_lpae_free_pgtable (fuel : nat) (d : arm_lpae_io_pgtable)
    (lvl ptep : Z) (st : machine) {struct fuel} : outcome machine :=
  let table_size := if lvl =? ARM_LPAE_START_LVL d then pgd_size d
                    else Z.shiftl 1 (pg_shift d) in
  let start := ptep in
  let walked :=
    (* Only leaf entries at the last level *)
    if lvl =? ARM_LPAE_MAX_LEVELS - 1 then Ret st
    else
      match fuel with
      | O => BUG
      | S fuel' =>
          fold_left
            (fun acc i =>
               match acc with
               | BUG => BUG
               | Ret st =>
                   let pte := mem st (ptep + sizeof_iopte * Z.of_nat i) in
                   if (pte =? 0) || iopte_leaf pte lvl then Ret st
                   else __arm_lpae_free_pgtable fuel' d (lvl + 1)
                                                (iopte_deref pte d) st
               end)
            (seq 0 (Z.to_nat (table_size / sizeof_iopte)))
            (Ret st)
      end in
  match walked with
  | BUG => BUG
  | Ret st => Ret (io_pgtable_free_pages_exact start table_size st)
  end.

(** ** Unmapping *)

(** The [for] loop of [arm_lpae_split_blk_unmap].  The local [table]
    lives in the cell at [frame st]; [tablep] is that address moved back
    by the index, so that [__arm_lpae_map] lands on the cell. *)
Fixpoint split_blk_for (fuel : nat) (d : arm_lpae_io_pgtable)
    (iova size prot lvl prev_ptep : Z) (blk_start blk_end blk_paddr : Z)
    (st : machine) {struct fuel} : outcome (bool * machine) :=
  if blk_start <? blk_end then
    match fuel with
    | O => BUG
    | S fuel' =>
        (* Unmap! *)
        if blk_start =? iova then
          split_blk_for fuel' d iova size prot lvl prev_ptep
                        (blk_start + size) blk_end (blk_paddr + size) st
        else
          (* __arm_lpae_map expects a pointer to the start of the table *)
          let tablep := frame st
                        - sizeof_iopte * ARM_LPAE_LVL_IDX blk_start lvl d in
          match __arm_lpae_map (levels_below lvl) d blk_start blk_paddr size
                               prot lvl tablep prev_ptep None st with
          | BUG => BUG
          | Ret (r, _, st) =>
              if r <? 0 then
                let table := mem st (frame st) in
                if negb (table =? 0) then
                  (* Free the table we allocated *)
                  let tablep := iopte_deref table d in
                  match __arm_lpae_free_pgtable (levels_below (lvl + 1)) d
                                                (lvl + 1) tablep st with
                  | BUG => BUG
                  | Ret st => Ret (false, st)
                  end
                else Ret (false, st)
              else
                split_blk_for fuel' d iova size prot lvl prev_ptep
                              (blk_start + size) blk_end (blk_paddr + size) st
          end
    end
  else Ret (true, st).

Definition arm_lpae_split_blk_unmap (d : arm_lpae_io_pgtable)
    (iova size prot lvl ptep prev_ptep blk_size : Z)
    (st : machine) : outcome (Z * machine) :=
  let st := set_mem st (store (mem st) (frame st) 0) in   (* table = 0 *)
  let blk_start := Z.land iova (Z.lnot (blk_size - 1)) in
  let blk_end := blk_start + blk_size in
  let blk_paddr := Z.shiftl (iopte_to_pfn (mem st ptep) d) (pg_shift d) in
  let size := ARM_LPAE_BLOCK_SIZE (lvl + 1) d in
  match split_blk_for (Z.to_nat (blk_size / size)) d iova size prot lvl
                      prev_ptep blk_start blk_end blk_paddr st with
  | BUG => BUG
  | Ret (false, st) => Ret (0, st)   (* Bytes unmapped *)
  | Ret (true, st) =>
      let st := set_mem st (store (mem st) ptep (mem st (frame st))) in
      let st := emit st (flush_pgtable ptep sizeof_iopte) in
      Ret (size, st)
  end.

(** [__arm_lpae_unmap].  The walk stops at [ARM_LPAE_MAX_LEVELS]. *)
Fixpoint __arm_lpae_unmap (fuel : nat) (d : arm_lpae_io_pgtable)
    (iova size lvl ptep prev_ptep : Z) (st : machine)
    {struct fuel} : outcome (Z * machine) :=
  let blk_size := ARM_LPAE_BLOCK_SIZE lvl d in
  let ptep := ptep + sizeof_iopte * ARM_LPAE_LVL_IDX iova lvl d in
  let pte := mem st ptep in
  (* Something went horribly wrong and we ran out of page table *)
  if (pte =? 0) || (lvl =? ARM_LPAE_MAX_LEVELS) then Ret (0, st)
  (* If the size matches this level, we're in the right place *)
  else if size =? blk_size then
    let st := set_mem st (store (mem st) ptep 0) in
    let st := emit st (flush_pgtable ptep sizeof_iopte) in
    if negb (iopte_leaf pte lvl) then
      (* Also flush any partial walks *)
      match __arm_lpae_free_pgtable (levels_below (lvl + 1)) d (lvl + 1)
                                    (iopte_deref pte d) st with
      | BUG => BUG
      | Ret st => Ret (size, st)
      end
    else Ret (size, st)
  else if (lvl =? ARM_LPAE_MAX_LEVELS - 2) && negb (iopte_leaf pte lvl) then
    let table := iopte_deref pte d in
    let table_base := table in
    let tl_offset := ARM_LPAE_LVL_IDX iova (lvl + 1) d in
    let entry_size := Z.shiftl 1 (pg_shift d) in
    let max_entries := ARM_LPAE_BLOCK_SIZE lvl d / entry_size in
    let entries := Z.min (size / entry_size) (max_entries - tl_offset) in
    let table_len := entries * sizeof_iopte in
    (* This isn't a block mapping so it must be a table mapping and since
       it's the 2nd-to-last level the next level has to be all page
       mappings.  Zero them all out in one fell swoop. *)
    let table := table + sizeof_iopte * tl_offset in
    let st := set_mem st (memzero (mem st) table table_len) in
    let st := emit st (flush_pgtable table table_len) in
    let st := set_mem st (store (mem st) ptep
                                (iopte_tblcnt_sub (mem st ptep) entries)) in
    let st :=
      if iopte_tblcnt (mem st ptep) =? 0 then
        (* no valid mappings left under this table. free it. *)
        let st := set_mem st (store (mem st) ptep 0) in
        let st := emit st (flush_pgtable ptep sizeof_iopte) in
        io_pgtable_free_pages_exact table_base (max_entries * sizeof_iopte) st
      else st in
    Ret (entries * entry_size, st)
  else if iopte_leaf pte lvl then
    (* Insert a table at the next level to map the old region, minus the
       part we want to unmap *)
    arm_lpae_split_blk_unmap d iova size (iopte_prot pte) lvl ptep prev_ptep
                             blk_size st
  else
    match fuel with
    | O => BUG
    | S fuel' =>
        (* Keep on walkin' *)
        __arm_lpae_unmap fuel' d iova size (lvl + 1) (iopte_deref pte d) ptep st
    end.

(** The [while (unmapped < size)] loop of [arm_lpae_unmap]; every round
    that does not break adds at least one byte. *)
Fixpoint unmap_while (fuel : nat) (d : arm_lpae_io_pgtable)
    (iova size unmapped lvl ptep : Z) (st : machine)
    {struct fuel} : outcome (Z * machine) :=
  if unmapped <? size then
    match fuel with
    | O => BUG
    | S fuel' =>
        let remaining := size - unmapped in
        match (if remaining <? SZ_2M then Some remaining
               else iommu_pgsize (pgsize_bitmap (cfg (iop d))) iova remaining) with
        | None => BUG
        | Some size_to_unmap =>
            match __arm_lpae_unmap (Z.to_nat (ARM_LPAE_MAX_LEVELS - lvl)) d iova
                                   size_to_unmap lvl ptep 0 st with
            | BUG => BUG
            | Ret (ret, st) =>
                if ret =? 0 then Ret (unmapped, st)
                else unmap_while fuel' d (iova + ret) size (unmapped + ret)
                                 lvl ptep st
            end
        end
    end
  else Ret (unmapped, st).

Definition arm_lpae_unmap (d : arm_lpae_io_pgtable) (iova size : Z)
    (st : machine) : outcome (Z * machine) :=
  let unmapped := 0 in
  let ptep := pgd d in
  let lvl := ARM_LPAE_START_LVL d in
  match unmap_while (Z.to_nat size) d iova size unmapped lvl ptep st with
  | BUG => BUG
  | Ret (unmapped, st) =>
      let st := if negb (unmapped =? 0) then emit st tlb_flush_all else st in
      Ret (unmapped, st)
  end.

(** ** Translation *)

(** The [do ... while (++lvl < ARM_LPAE_MAX_LEVELS)] loop of
    [arm_lpae_iova_to_phys]. *)
Fixpoint iova_to_phys_walk (fuel : nat) (d : arm_lpae_io_pgtable)
    (m : Z -> Z) (iova lvl ptep : Z) {struct fuel} : Z :=
  (* Valid IOPTE pointer? *)
  if ptep =? 0 then 0
  else
    (* Grab the IOPTE we're interested in *)
    let pte := m (ptep + sizeof_iopte * ARM_LPAE_LVL_IDX iova lvl d) in
    (* Valid entry? *)
    if pte =? 0 then 0
    (* Leaf entry? *)
    else if iopte_leaf pte lvl then
      let iova := Z.land iova (Z.shiftl 1 (ARM_LPAE_LVL_SHIFT lvl d) - 1) in
      Z.lor (Z.shiftl (iopte_to_pfn pte d) (pg_shift d)) iova
    else if lvl + 1 <? ARM_LPAE_MAX_LEVELS then
      match fuel with
      | O => 0
      | S fuel' =>
          (* Take it to the next level *)
          iova_to_phys_walk fuel' d m iova (lvl + 1) (iopte_deref pte d)
      end
    (* Ran out of page tables to walk *)
    else 0.

Definition arm_lpae_iova_to_phys (d : arm_lpae_io_pgtable) (iova : Z)
    (st : machine) : Z :=
  let lvl := ARM_LPAE_START_LVL d in
  iova_to_phys_walk (levels_below lvl) d (mem st) iova lvl (pgd d).

(** ** Format initialisers *)

Definition set_pgsize_bitmap (c : io_pgtable_cfg) (b : Z) : io_pgtable_cfg :=
  {| quirks := quirks c; pgsize_bitmap := b; ias := ias c; oas := oas c;
     arm_lpae_s1_cfg := arm_lpae_s1_cfg c; arm_lpae_s2_cfg := arm_lpae_s2_cfg c |}.

Definition set_s1_cfg (c : io_pgtable_cfg) (s : arm_lpae_s1_cfg_t) : io_pgtable_cfg :=
  {| quirks := quirks c; pgsize_bitmap := pgsize_bitmap c; ias := ias c;
     oas := oas c; arm_lpae_s1_cfg := s; arm_lpae_s2_cfg := arm_lpae_s2_cfg c |}.

Definition set_s2_cfg (c : io_pgtable_cfg) (s : arm_lpae_s2_cfg_t) : io_pgtable_cfg :=
  {| quirks := quirks c; pgsize_bitmap := pgsize_bitmap c; ias := ias c;
     oas := oas c; arm_lpae_s1_cfg := arm_lpae_s1_cfg c; arm_lpae_s2_cfg := s |}.

Definition set_pgd (d : arm_lpae_io_pgtable) (p : Z) : arm_lpae_io_pgtable :=
  {| iop := iop d; levels := levels d; pgd_size := pgd_size d;
     pg_shift := pg_shift d; bits_per_level := bits_per_level d; pgd := p |}.

Definition set_iop (d : arm_lpae_io_pgtable) (i : io_pgtable) : arm_lpae_io_pgtable :=
  {| iop := i; levels := levels d; pgd_size := pgd_size d;
     pg_shift := pg_shift d; bits_per_level := bits_per_level d; pgd := pgd d |}.

Definition DIV_ROUND_UP (n d : Z) : Z := u64 (n + d - 1) / d.

(** The [switch (cfg->oas)] shared by both stages: the PS/IPS code, or
    [None] for [default]. *)
Definition oas_to_ps (oas : Z) : option Z :=
  if oas =? 32 then Some ARM_LPAE_TCR_PS_32_BIT
  else if oas =? 36 then Some ARM_LPAE_TCR_PS_36_BIT
  else if oas =? 40 then Some ARM_LPAE_TCR_PS_40_BIT
  else if oas =? 42 then Some ARM_LPAE_TCR_PS_42_BIT
  else if oas =? 44 then Some ARM_LPAE_TCR_PS_44_BIT
  else if oas =? 48 then Some ARM_LPAE_TCR_PS_48_BIT
  else None.

Section FormatInit.

(** The CPU page size, a build-time constant of the kernel. *)
Variable PAGE_SIZE : Z.

Definition PAGE_MASK : Z := Z.lnot (PAGE_SIZE - 1).

Definition arm_lpae_restrict_pgsizes (c : io_pgtable_cfg) : io_pgtable_cfg :=
  let bm := pgsize_bitmap c in
  (* We need to restrict the supported page sizes to match the
     translation regime for a particular granule. *)
  let granule :=
    if negb (Z.land bm PAGE_SIZE =? 0) then PAGE_SIZE
    else if negb (Z.land bm (Z.lnot PAGE_MASK) =? 0)
    then Z.shiftl 1 (__fls (Z.land bm (Z.lnot PAGE_MASK)))
    else if negb (Z.land bm PAGE_MASK =? 0)
    then Z.shiftl 1 (__ffs (Z.land bm PAGE_MASK))
    else 0 in
  if granule =? SZ_4K
  then set_pgsize_bitmap c (Z.land bm (Z.lor SZ_4K (Z.lor SZ_2M SZ_1G)))
  else if granule =? SZ_16K
  then set_pgsize_bitmap c (Z.land bm (Z.lor SZ_16K SZ_32M))
  else if granule =? SZ_64K
  then set_pgsize_bitmap c (Z.land bm (Z.lor SZ_64K SZ_512M))
  else set_pgsize_bitmap c 0.

(** [arm_lpae_alloc_pgtable]: the configuration as the call leaves it
    and the new data ([None] for [NULL]).  The [kmalloc] of the
    structure is taken to succeed.  The [iop] member is left for
    [alloc_io_pgtable_ops] to fill in; [pgd] is not yet set.  Arithmetic
    on [unsigned long] wraps; [levels] is an [int]. *)
Definition arm_lpae_alloc_pgtable (c : io_pgtable_cfg)
    : io_pgtable_cfg * option arm_lpae_io_pgtable :=
  let c := arm_lpae_restrict_pgsizes c in
  if Z.land (pgsize_bitmap c) (Z.lor SZ_4K (Z.lor SZ_16K SZ_64K)) =? 0
  then (c, None)
  else if ias c >? ARM_LPAE_MAX_ADDR_BITS then (c, None)
  else if oas c >? ARM_LPAE_MAX_ADDR_BITS then (c, None)
  else
    let pg_shift_ := __ffs (pgsize_bitmap c) in
    let bits_per_level_ := pg_shift_ - ilog2_sizeof_iopte in
    let va_bits := u64 (ias c - pg_shift_) in
    let levels_ := to_int (DIV_ROUND_UP va_bits bits_per_level_) in
    (* Calculate the actual size of our pgd (without concatenation) *)
    let pgd_bits := u64 (va_bits - bits_per_level_ * (levels_ - 1)) in
    let pgd_size_ := u64 (Z.shiftl 1 (pgd_bits + ilog2_sizeof_iopte)) in
    (c, Some {| iop := {| fmt := ARM_64_LPAE_S1; cfg := c |};
                levels := levels_;
                pgd_size := pgd_size_;
                pg_shift := pg_shift_;
                bits_per_level := bits_per_level_;
                pgd := 0 |}).

(** The granule selector both stages put in the register. *)
Definition tcr_tg0 (pg_shift_ : Z) : Z :=
  let g := Z.shiftl 1 pg_shift_ in
  if g =? SZ_4K then ARM_LPAE_TCR_TG0_4K
  else if g =? SZ_16K then ARM_LPAE_TCR_TG0_16K
  else if g =? SZ_64K then ARM_LPAE_TCR_TG0_64K
  else 0.

Definition arm_64_lpae_alloc_pgtable_s1 (c : io_pgtable_cfg) (st : machine)
    : io_pgtable_cfg * machine * option arm_lpae_io_pgtable :=
  match arm_lpae_alloc_pgtable c with
  | (c, None) => (c, st, None)
  | (c, Some data) =>
      (* TCR *)
      let reg :=
        Z.lor (Z.shiftl ARM_LPAE_TCR_SH_IS ARM_LPAE_TCR_SH0_SHIFT)
              (Z.lor (Z.shiftl ARM_LPAE_TCR_RGN_NC ARM_LPAE_TCR_IRGN0_SHIFT)
                     (Z.shiftl ARM_LPAE_TCR_RGN_NC ARM_LPAE_TCR_ORGN0_SHIFT)) in
      let reg := Z.lor reg (tcr_tg0 (pg_shift data)) in
      match oas_to_ps (oas c) with
      | None => (c, st, None)   (* goto out_free_data *)
      | Some ps =>
          let reg := Z.lor reg (Z.shiftl ps ARM_LPAE_TCR_IPS_SHIFT) in
          let reg := Z.lor reg (Z.shiftl (u64 (64 - ias c))
                                         ARM_LPAE_TCR_T0SZ_SHIFT) in
          let reg := Z.lor reg (Z.shiftl ARM_LPAE_TCR_EPD1_FAULT
                                         ARM_LPAE_TCR_EPD1_SHIFT) in
          (* MAIRs *)
          let mair0 :=
            Z.lor (Z.shiftl ARM_LPAE_MAIR_ATTR_NC
                            (ARM_LPAE_MAIR_ATTR_SHIFT ARM_LPAE_MAIR_ATTR_IDX_NC))
              (Z.lor (Z.shiftl ARM_LPAE_MAIR_ATTR_WBRWA
                               (ARM_LPAE_MAIR_ATTR_SHIFT ARM_LPAE_MAIR_ATTR_IDX_CACHE))
                     (Z.shiftl ARM_LPAE_MAIR_ATTR_DEVICE
                               (ARM_LPAE_MAIR_ATTR_SHIFT ARM_LPAE_MAIR_ATTR_IDX_DEV))) in
          let c := set_s1_cfg c {| tcr := reg; mair := (mair0, 0);
                                   ttbr := ttbr (arm_lpae_s1_cfg c) |} in
          (* Looking good; allocate a pgd *)
          let '(p, st) := io_pgtable_alloc_pages_exact (pgd_size data) st in
          if p =? 0 then (c, st, None)
          else
            let st := emit st (flush_pgtable p (pgd_size data)) in
            (* TTBRs *)
            let c := set_s1_cfg c {| tcr := tcr (arm_lpae_s1_cfg c);
                                     mair := mair (arm_lpae_s1_cfg c);
                                     ttbr := (p, 0) |} in
            (c, st, Some (set_pgd data p))
      end
  end.

Definition arm_64_lpae_alloc_pgtable_s2 (c : io_pgtable_cfg) (st : machine)
    : io_pgtable_cfg * machine * option arm_lpae_io_pgtable :=
  match arm_lpae_alloc_pgtable c with
  | (c, None) => (c, st, None)
  | (c, Some data) =>
      (* Concatenate PGDs at level 1 if possible in order to reduce the
         depth of the stage-2 walk. *)
      let data :=
        if levels data =? ARM_LPAE_MAX_LEVELS then
          let pgd_pages := Z.shiftr (pgd_size data) ilog2_sizeof_iopte in
          if pgd_pages <=? ARM_LPAE_S2_MAX_CONCAT_PAGES then
            {| iop := iop data; levels := levels data - 1;
               pgd_size := u64 (Z.shiftl pgd_pages (pg_shift data));
               pg_shift := pg_shift data;
               bits_per_level := bits_per_level data; pgd := pgd data |}
          else data
        else data in
      (* VTCR *)
      let reg :=
        Z.lor ARM_64_LPAE_S2_TCR_RES1
          (Z.lor (Z.shiftl ARM_LPAE_TCR_SH_IS ARM_LPAE_TCR_SH0_SHIFT)
             (Z.lor (Z.shiftl ARM_LPAE_TCR_RGN_WBWA ARM_LPAE_TCR_IRGN0_SHIFT)
                    (Z.shiftl ARM_LPAE_TCR_RGN_WBWA ARM_LPAE_TCR_ORGN0_SHIFT))) in
      let sl := u64 (ARM_LPAE_START_LVL data) in
      let reg := Z.lor reg (tcr_tg0 (pg_shift data)) in
      (* SL0 format is different for 4K granule size *)
      let sl := if Z.shiftl 1 (pg_shift data) =? SZ_4K then u64 (sl + 1) else sl in
      match oas_to_ps (oas c) with
      | None => (c, st, None)   (* goto out_free_data *)
      | Some ps =>
          let reg := Z.lor reg (Z.shiftl ps ARM_LPAE_TCR_PS_SHIFT) in
          let reg := Z.lor reg (Z.shiftl (u64 (64 - ias c))
                                         ARM_LPAE_TCR_T0SZ_SHIFT) in
          let reg := Z.lor reg (Z.shiftl (Z.land (Z.lnot sl) ARM_LPAE_TCR_SL0_MASK)
                                         ARM_LPAE_TCR_SL0_SHIFT) in
          let c := set_s2_cfg c {| vtcr := reg;
                                   vttbr := vttbr (arm_lpae_s2_cfg c) |} in
          (* Allocate pgd pages *)
          let '(p, st) := io_pgtable_alloc_pages_exact (pgd_size data) st in
          if p =? 0 then (c, st, None)
          else
            let st := emit st (flush_pgtable p (pgd_size data)) in
            (* VTTBR *)
            let c := set_s2_cfg c {| vtcr := vtcr (arm_lpae_s2_cfg c);
                                     vttbr := p |} in
            (c, st, Some (set_pgd data p))
      end
  end.

Definition arm_32_lpae_alloc_pgtable_s1 (c : io_pgtable_cfg) (st : machine)
    : io_pgtable_cfg * machine * option arm_lpae_io_pgtable :=
  if (ias c >? 32) || (oas c >? 40) then (c, st, None)
  else
    let c := set_pgsize_bitmap c
               (Z.land (pgsize_bitmap c) (Z.lor SZ_4K (Z.lor SZ_2M SZ_1G))) in
    match arm_64_lpae_alloc_pgtable_s1 c st with
    | (c, st, Some data) =>
        let t := Z.lor (tcr (arm_lpae_s1_cfg c)) ARM_32_LPAE_TCR_EAE in
        let t := Z.land t 0xffffffff in
        (set_s1_cfg c {| tcr := t; mair := mair (arm_lpae_s1_cfg c);
                         ttbr := ttbr (arm_lpae_s1_cfg c) |}, st, Some data)
    | r => r
    end.

Definition arm_32_lpae_alloc_pgtable_s2 (c : io_pgtable_cfg) (st : machine)
    : io_pgtable_cfg * machine * option arm_lpae_io_pgtable :=
  if (ias c >? 40) || (oas c >? 40) then (c, st, None)
  else
    let c := set_pgsize_bitmap c
               (Z.land (pgsize_bitmap c) (Z.lor SZ_4K (Z.lor SZ_2M SZ_1G))) in
    match arm_64_lpae_alloc_pgtable_s2 c st with
    | (c, st, Some data) =>
        let t := Z.land (vtcr (arm_lpae_s2_cfg c)) 0xffffffff in
        (set_s2_cfg c {| vtcr := t; vttbr := vttbr (arm_lpae_s2_cfg c) |},
         st, Some data)
    | r => r
    end.

(** Modelled from the spec: [alloc_io_pgtable_ops] belongs to
    io-pgtable.c, which is not part of the source at hand.  The driver
    constructs a per-format allocator and obtains the register values
    and a handle bound to the root: the call picks the initialiser by
    format and records the format and the final configuration in the
    handle. *)
Definition alloc_io_pgtable_ops (f : io_pgtable_fmt) (c : io_pgtable_cfg)
    (st : machine) : io_pgtable_cfg * machine * option arm_lpae_io_pgtable :=
  let r := match f with
           | ARM_32_LPAE_S1 => arm_32_lpae_alloc_pgtable_s1 c st
           | ARM_32_LPAE_S2 => arm_32_lpae_alloc_pgtable_s2 c st
           | ARM_64_LPAE_S1 => arm_64_lpae_alloc_pgtable_s1 c st
           | ARM_64_LPAE_S2 => arm_64_lpae_alloc_pgtable_s2 c st
           end in
  match r with
  | (c, st, Some data) => (c, st, Some (set_iop data {| fmt := f; cfg := c |}))
  | r => r
  end.

End FormatInit.

(** Register fields read back from a TCR word. *)
Definition tcr_field (reg shift width : Z) : Z :=
  Z.land (Z.shiftr reg shift) (Z.ones width).

(** ** Predicates used by the statements *)

(** Two descriptors agree on every bit outside [2..11] and [52..58]. *)
Definition same_outside_reserved (a b : Z) : Prop :=
  forall i, reserved_bit i = false -> Z.testbit a i = Z.testbit b i.

(** Position in the descriptor of bit [j] of the counter. *)
Definition cnt_pos (j : Z) : Z := if j <? 10 then j + 2 else j + 42.

(** The slot [__arm_lpae_map] arrives at for a leaf of [size] when the
    walk only follows descriptors that are already there ([None]: the
    walk would have to allocate a table, or no level has that block
    size). *)
Fixpoint install_slot (fuel : nat) (d : arm_lpae_io_pgtable) (m : Z -> Z)
    (iova size lvl ptep : Z) {struct fuel} : option Z :=
  let ptep := ptep + sizeof_iopte * ARM_LPAE_LVL_IDX iova lvl d in
  if (size =? ARM_LPAE_BLOCK_SIZE lvl d)
     && negb (Z.land size (pgsize_bitmap (cfg (iop d))) =? 0)
  then Some ptep
  else if lvl >=? ARM_LPAE_MAX_LEVELS - 1 then None
  else
    match fuel with
    | O => None
    | S fuel' =>
        let pte := m ptep in
        if pte =? 0 then None
        else install_slot fuel' d m iova size (lvl + 1) (iopte_deref pte d)
    end.

Definition has_access (prot : list iommu_cap) : bool :=
  has_cap prot IOMMU_READ || has_cap prot IOMMU_WRITE.



(** ** Tables on a walk, and their separation *)

(** Bytes covered by the entries [ARM_LPAE_LVL_IDX] can select at a
    level. *)
Definition table_span (d : arm_lpae_io_pgtable) (lvl : Z) : Z :=
  sizeof_iopte * Z.shiftl 1 (bits_per_level d + ARM_LPAE_PGD_IDX lvl d).

(** The tables the walk for [iova] goes through, from the table at
    [ptep] of level [lvl] down to the one where it meets an empty slot
    or a leaf: base address and span of each. *)
Fixpoint walk_tables (fuel : nat) (d : arm_lpae_io_pgtable) (m : Z -> Z)
    (iova lvl ptep : Z) {struct fuel} : list (Z * Z) :=
  (ptep, table_span d lvl) ::
  let pte := m (ptep + sizeof_iopte * ARM_LPAE_LVL_IDX iova lvl d) in
  if (pte =? 0) || iopte_leaf pte lvl || negb (lvl + 1 <? ARM_LPAE_MAX_LEVELS)
  then []
  else
    match fuel with
    | O => []
    | S fuel' => walk_tables fuel' d m iova (lvl + 1) (iopte_deref pte d)
    end.

(** The chunks the allocator will hand out (its refusals left out). *)
Definition pool_chunks (d : arm_lpae_io_pgtable) (pool : list Z) : list (Z * Z) :=
  map (fun p => (p, Z.shiftl 1 (pg_shift d)))
      (filter (fun p => negb (p =? 0)) pool).

(** A chunk is aligned to the granule and lies below [2^48]. *)
Definition chunk_ok (d : arm_lpae_io_pgtable) (r : Z * Z) : bool :=
  (Z.land (fst r) (Z.shiftl 1 (pg_shift d) - 1) =? 0)
  && (fst r <? Z.shiftl 1 ARM_LPAE_MAX_ADDR_BITS).

Definition disjointb (r1 r2 : Z * Z) : bool :=
  (fst r1 + snd r1 <=? fst r2) || (fst r2 + snd r2 <=? fst r1).

(** Regions that start above [NULL] and do not overlap one another. *)
Fixpoint separatedb (l : list (Z * Z)) : bool :=
  match l with
  | [] => true
  | r :: rest => (0 <? fst r) && forallb (disjointb r) rest && separatedb rest
  end.

Definition in_region (a : Z) (r : Z * Z) : Prop :=
  fst r <= a < fst r + snd r.

Definition outside (a : Z) (l : list (Z * Z)) : Prop :=
  forall r, In r l -> ~ in_region a r.

(** The tables on the walk for [iova] and the chunks the allocator will
    hand out occupy memory of their own, and the chunks are well
    formed. *)
Definition walk_separated (d : arm_lpae_io_pgtable) (st : machine) (iova : Z) : bool :=
  separatedb (walk_tables (levels_below (ARM_LPAE_START_LVL d)) d (mem st) iova
                          (ARM_LPAE_START_LVL d) (pgd d)
              ++ pool_chunks d (pool st))
  && forallb (chunk_ok d) (pool_chunks d (pool st)).

(** Geometry of a granule of at least 4 KiB with 8-byte descriptors. *)
Definition geometry_ok (d : arm_lpae_io_pgtable) : Prop :=
  12 <= pg_shift d /\ bits_per_level d = pg_shift d - 3 /\ 1 <= levels d.

(** ** A concrete domain: the selftest configuration *)

(** [arm_lpae_do_selftests]: 4K granule with 2M and 1G blocks,
    [oas = 48]. *)
Definition selftest_cfg (i : Z) : io_pgtable_cfg :=
  {| quirks := [];
     pgsize_bitmap := Z.lor SZ_4K (Z.lor SZ_2M SZ_1G);
     ias := i;
     oas := 48;
     arm_lpae_s1_cfg := {| tcr := 0; mair := (0, 0); ttbr := (0, 0) |};
     arm_lpae_s2_cfg := {| vtcr := 0; vttbr := 0 |} |}.

(** Memory all zero; the allocator will hand out eight chunks from
    1 MiB on, 64 KiB apart; the selftest switch is on. *)
Definition boot : machine :=
  {| mem := fun _ => 0;
     pool := map (fun i => 0x100000 + 0x10000 * Z.of_nat i) (seq 0 8);
     trace := [];
     frame := 0x8000;
     suppress_map_failures := true |}.

(** The same machine with the selftest switch off. *)
Definition boot_loud : machine :=
  {| mem := mem boot; pool := pool boot; trace := trace boot;
     frame := frame boot; suppress_map_failures := false |}.

(** The Stage-1 domain that [alloc_io_pgtable_ops] builds from
    [selftest_cfg 48] on [boot] (see [selftest_domain_built]). *)
Definition selftest_data : arm_lpae_io_pgtable :=
  {| iop := {| fmt := ARM_64_LPAE_S1;
               cfg := {| quirks := [];
                         pgsize_bitmap := Z.lor SZ_4K (Z.lor SZ_2M SZ_1G);
                         ias := 48;
                         oas := 48;
                         arm_lpae_s1_cfg :=
                           {| tcr := 0x500803010; mair := (0x4ff44, 0);
                              ttbr := (0x100000, 0) |};
                         arm_lpae_s2_cfg := {| vtcr := 0; vttbr := 0 |} |} |};
     levels := 4;
     pgd_size := 0x1000;
     pg_shift := 12;
     bits_per_level := 9;
     pgd := 0x100000 |}.

(** [boot] once the root has been taken from the allocator. *)
Definition selftest_machine : machine :=
  {| mem := memzero (mem boot) 0x100000 0x1000;
     pool := map (fun i => 0x100000 + 0x10000 * Z.of_nat i) (seq 1 7);
     trace := [flush_pgtable 0x100000 0x1000];
     frame := frame boot;
     suppress_map_failures := true |}.

(** Running a call on the machine a previous call left. *)
Definition then_run {A B : Type} (o : outcome (A * machine))
    (f : machine -> outcome (B * machine)) : outcome (B * machine) :=
  match o with
  | Ret (_, st) => f st
  | BUG => BUG
  end.

Definition machine_of {A : Type} (o : outcome (A * machine)) : machine :=
  match o with
  | Ret (_, st) => st
  | BUG => boot
  end.

Definition result_of {A : Type} (o : outcome (A * machine)) : option A :=
  match o with
  | Ret (a, _) => Some a
  | BUG => None
  end.

(** Number of non-zero entries among the first [n] of the table at
    [table]. *)
Definition nonzero_entries (m : Z -> Z) (table : Z) (n : nat) : Z :=
  Z.of_nat (List.length
              (filter (fun i => negb (m (table + sizeof_iopte * Z.of_nat i) =? 0))
                      (seq 0 n))).

(** What a format initialiser returned, for the statements below. *)
Definition data_of (r : io_pgtable_cfg * machine * option arm_lpae_io_pgtable)
    : arm_lpae_io_pgtable :=
  match r with
  | (_, _, Some d) => d
  | _ => selftest_data
  end.

Definition geometry_of (r : io_pgtable_cfg * machine * option arm_lpae_io_pgtable)
    : option (Z * Z) :=
  match r with
  | (_, _, Some d) => Some (levels d, pgd_size d)
  | _ => None
  end.

(** ** Runs on the selftest domain used as examples *)

Definition RW : list iommu_cap := [IOMMU_READ; IOMMU_WRITE].

(** The machine with the selftest switch off, as outside the selftest. *)
Definition loud (st : machine) : machine :=
  {| mem := mem st; pool := pool st; trace := trace st; frame := frame st;
     suppress_map_failures := false |}.

(** [map(0, 0x80000000, 4K)], then [map(0x1000, 0x80001000, 4K)]. *)
Definition one_page : outcome (Z * machine) :=
  arm_lpae_map selftest_data 0 0x80000000 SZ_4K RW selftest_machine.

Definition two_pages : outcome (Z * machine) :=
  then_run one_page (arm_lpae_map selftest_data 0x1000 0x80001000 SZ_4K RW).

(** ... then [unmap(0x2000, 4K)], a page that was never mapped. *)
Definition two_pages_unmap_hole : outcome (Z * machine) :=
  then_run two_pages (arm_lpae_unmap selftest_data 0x2000 SZ_4K).

(** [map(0, 0x40000000, 2M)], then [map(0x1000, 0x5000, 4K)] inside it. *)
Definition one_block : outcome (Z * machine) :=
  arm_lpae_map selftest_data 0 0x40000000 SZ_2M RW selftest_machine.

Definition page_inside_block : outcome (Z * machine) :=
  then_run one_block (arm_lpae_map selftest_data 0x1000 0x5000 SZ_4K RW).

(** [map(1G, 1G, 1G)], then [unmap(1G + 4K, 4K)]. *)
Definition one_gig : outcome (Z * machine) :=
  arm_lpae_map selftest_data SZ_1G SZ_1G SZ_1G [IOMMU_READ] selftest_machine.

Definition one_gig_unmap_page : outcome (Z * machine) :=
  then_run one_gig (arm_lpae_unmap selftest_data (SZ_1G + SZ_4K) SZ_4K).

(** [map(1G, 1G, 2M)], then [unmap(1G + 4K, 4K)]: selftest scenario 3. *)
Definition two_meg : outcome (Z * machine) :=
  arm_lpae_map selftest_data SZ_1G SZ_1G SZ_2M [IOMMU_READ] selftest_machine.

Definition two_meg_unmap_page : outcome (Z * machine) :=
  then_run two_meg (arm_lpae_unmap selftest_data (SZ_1G + SZ_4K) SZ_4K).



(** ** Descriptors as the walk meets them *)

(** The attribute word handed to [__arm_lpae_map] keeps clear of the
    type bits and of the output address. *)
Definition prot_ok (prot : Z) : Prop :=
  forall i, i < 2 \/ 12 <= i < 48 -> Z.testbit prot i = false.

(** A table descriptor as [__arm_lpae_map] writes it. *)
Definition table_desc (d : arm_lpae_io_pgtable) (cptep : Z) : Z :=
  let pte := Z.lor cptep ARM_LPAE_PTE_TYPE_TABLE in
  if has_quirk (quirks (cfg (iop d))) IO_PGTABLE_QUIRK_ARM_NS
  then Z.lor pte ARM_LPAE_PTE_NSTABLE else pte.

(** Number of [tlb_flush_all] calls in a trace. *)
Definition tlb_flushes (t : list event) : nat :=
  List.length (filter (fun e => match e with tlb_flush_all => true | _ => false end) t).

(** ** Blocks and their pieces *)

(** The leaf the walk for [iova] arrives at: its level and the address
    of its slot. *)
Fixpoint walk_to_leaf (fuel : nat) (d : arm_lpae_io_pgtable) (m : Z -> Z)
    (iova lvl ptep : Z) {struct fuel} : option (Z * Z) :=
  if ptep =? 0 then None
  else
    let s := ptep + sizeof_iopte * ARM_LPAE_LVL_IDX iova lvl d in
    let pte := m s in
    if pte =? 0 then None
    else if iopte_leaf pte lvl then Some (lvl, s)
    else if lvl + 1 <? ARM_LPAE_MAX_LEVELS then
      match fuel with
      | O => None
      | S fuel' => walk_to_leaf fuel' d m iova (lvl + 1) (iopte_deref pte d)
      end
    else None.

(** The tables on the walk for [iova], the stack cell of
    [arm_lpae_split_blk_unmap] and the chunks the allocator will hand
    out occupy memory of their own, and the chunks are well formed. *)
Definition split_separated (d : arm_lpae_io_pgtable) (st : machine) (iova : Z) : bool :=
  separatedb (walk_tables (levels_below (ARM_LPAE_START_LVL d)) d (mem st) iova
                          (ARM_LPAE_START_LVL d) (pgd d)
              ++ (frame st, sizeof_iopte) :: pool_chunks d (pool st))
  && forallb (chunk_ok d) (pool_chunks d (pool st)).

(** What the allocator answers next ([0]: nothing). *)
Definition next_chunk (pool : list Z) : Z :=
  match pool with
  | c :: _ => c
  | [] => 0
  end.

(** [blk_start] and [blk_paddr] of [arm_lpae_split_blk_unmap]. *)
Definition block_base (d : arm_lpae_io_pgtable) (iova l : Z) : Z :=
  Z.land iova (Z.lnot (ARM_LPAE_BLOCK_SIZE l d - 1)).

Definition block_out (d : arm_lpae_io_pgtable) (pte : Z) : Z :=
  Z.shiftl (iopte_to_pfn pte d) (pg_shift d).

(** ** The rest of the interface, and further predicates *)

(** [arm_lpae_free_pgtable]: the whole tree from the root.  The
    [kfree (data)] that follows releases the structure itself, which is
    not held in [mem]. *)
Definition arm_lpae_free_pgtable (d : arm_lpae_io_pgtable) (st : machine)
    : outcome machine :=
  __arm_lpae_free_pgtable (levels_below (ARM_LPAE_START_LVL d)) d
                          (ARM_LPAE_START_LVL d) (pgd d) st.

(** Calls to the collaborators, by kind. *)
Definition is_flush_pgtable (e : event) : bool :=
  match e with flush_pgtable _ _ => true | _ => false end.

Definition is_free_pages (e : event) : bool :=
  match e with free_pages_exact _ _ => true | _ => false end.

(** The calls made between two machines all satisfy [P]. *)
Definition trace_grows (P : event -> bool) (st st' : machine) : Prop :=
  exists new, trace st' = new ++ trace st /\ forallb P new = true.


(** The arithmetic of [arm_lpae_alloc_pgtable] for one granule and one
    [ias], checked by evaluation. *)
Definition geometry_check (pg i : Z) : bool :=
  let bpl := pg - 3 in
  let lv := to_int (DIV_ROUND_UP (u64 (i - pg)) bpl) in
  let pb := u64 (u64 (i - pg) - bpl * (lv - 1)) in
  (1 <=? lv) && (lv <=? 4) && (1 <=? pb) && (pb <=? bpl)
  && (u64 (Z.shiftl 1 (pb + 3)) =? 2 ^ (pb + 3))
  && (pg + bpl * (lv - 1) + pb =? i).

(** The table of level [target] on the walk for [iova], when the walk
    gets that far through table descriptors. *)
Fixpoint walk_to_table (fuel : nat) (d : arm_lpae_io_pgtable) (m : Z -> Z)
    (iova lvl ptep target : Z) {struct fuel} : option Z :=
  if ptep =? 0 then None
  else if lvl =? target then Some ptep
  else
    let pte := m (ptep + sizeof_iopte * ARM_LPAE_LVL_IDX iova lvl d) in
    if (pte =? 0) || iopte_leaf pte lvl || negb (lvl + 1 <? ARM_LPAE_MAX_LEVELS)
    then None
    else
      match fuel with
      | O => None
      | S fuel' => walk_to_table fuel' d m iova (lvl + 1) (iopte_deref pte d) target
      end.

(** The tables the walk for [b] goes through after it has left the
    walk for [a]: none as long as the two read the same slots. *)
Fixpoint other_tables (fuel : nat) (d : arm_lpae_io_pgtable) (m : Z -> Z)
    (a b lvl ptep : Z) {struct fuel} : list (Z * Z) :=
  if ARM_LPAE_LVL_IDX b lvl d =? ARM_LPAE_LVL_IDX a lvl d then
    let pte := m (ptep + sizeof_iopte * ARM_LPAE_LVL_IDX a lvl d) in
    if (pte =? 0) || iopte_leaf pte lvl || negb (lvl + 1 <? ARM_LPAE_MAX_LEVELS)
    then []
    else
      match fuel with
      | O => []
      | S fuel' => other_tables fuel' d m a b (lvl + 1) (iopte_deref pte d)
      end
  else
    let pte := m (ptep + sizeof_iopte * ARM_LPAE_LVL_IDX b lvl d) in
    if (pte =? 0) || iopte_leaf pte lvl || negb (lvl + 1 <? ARM_LPAE_MAX_LEVELS)
    then []
    else
      match fuel with
      | O => []
      | S fuel' => walk_tables fuel' d m b (lvl + 1) (iopte_deref pte d)
      end.

(** The tables on the walks for [a] and for [b] and the chunks the
    allocator will hand out occupy memory of their own, and the chunks
    are well formed. *)
Definition walks_separated (d : arm_lpae_io_pgtable) (st : machine) (a b : Z) : bool :=
  separatedb (walk_tables (levels_below (ARM_LPAE_START_LVL d)) d (mem st) a
                          (ARM_LPAE_START_LVL d) (pgd d)
              ++ other_tables (levels_below (ARM_LPAE_START_LVL d)) d (mem st) a b
                              (ARM_LPAE_START_LVL d) (pgd d)
              ++ pool_chunks d (pool st))
  && forallb (chunk_ok d) (pool_chunks d (pool st)).



(** * Properties *)

(** ** Tactics for bit-level goals *)

Ltac cmp_cases :=
  repeat match goal with
         | |- context [?a <=? ?b] => destruct (Z.leb_spec a b)
         | |- context [?a <? ?b] => destruct (Z.ltb_spec a b)
         | |- context [?a =? ?b] => destruct (Z.eqb_spec a b)
         end.

Ltac bits_done :=
  cmp_cases; simpl;
  rewrite ?andb_false_r, ?andb_true_r, ?orb_false_r, ?orb_true_r;
  try reflexivity; try lia; try (f_equal; lia);
  try (repeat match goal with
              | |- context [Z.testbit ?a ?b] => destruct (Z.testbit a b)
              end; reflexivity).

(** ** The counter codec *)

Example tblcnt_set_ex : iopte_tblcnt (iopte_tblcnt_set 0x40001003 511) = 511.
Proof. reflexivity. Qed.

Example tblcnt_sub_wraps : iopte_tblcnt (iopte_tblcnt_sub 0x40001003 1) = 0x1ffff.
Proof. reflexivity. Qed.

Lemma testbit_shiftl_ones n s i :
  0 <= n -> 0 <= s ->
  Z.testbit (Z.shiftl (Z.ones n) s) i = (s <=? i) && (i <? s + n).
Proof.
  intros Hn Hs. destruct (Z.ltb_spec i 0).
  - rewrite Z.testbit_neg_r by lia. bits_done.
  - rewrite Z.shiftl_spec by lia.
    destruct (Z.ltb_spec (i - s) 0).
    + rewrite Z.testbit_neg_r by lia. bits_done.
    + rewrite Z.testbit_ones_nonneg by lia. bits_done.
Qed.

Lemma bottom_mask_bit i :
  Z.testbit (Z.shiftl BOTTOM_IGNORED_MASK BOTTOM_IGNORED_SHIFT) i
  = (2 <=? i) && (i <? 12).
Proof. apply (testbit_shiftl_ones 10 2); lia. Qed.

Lemma top_mask_bit i :
  Z.testbit (Z.shiftl TOP_IGNORED_MASK TOP_IGNORED_SHIFT) i
  = (52 <=? i) && (i <? 59).
Proof. apply (testbit_shiftl_ones 7 52); lia. Qed.

Lemma testbit_reserved_mask i :
  Z.testbit IOPTE_RESERVED_MASK i = reserved_bit i.
Proof.
  unfold IOPTE_RESERVED_MASK, reserved_bit.
  rewrite Z.lor_spec, bottom_mask_bit, top_mask_bit. bits_done.
Qed.

Lemma testbit_iopte_val d i :
  Z.testbit (iopte_val d) i = Z.testbit d i && negb (reserved_bit i).
Proof.
  unfold iopte_val. rewrite Z.land_spec.
  destruct (Z.ltb_spec i 0).
  - rewrite !Z.testbit_neg_r by lia. reflexivity.
  - rewrite Z.lnot_spec by lia. now rewrite testbit_reserved_mask.
Qed.

Lemma testbit_iopte_tblcnt d j :
  Z.testbit (iopte_tblcnt d) j =
  (0 <=? j) && (j <? 17) && Z.testbit d (cnt_pos j).
Proof.
  unfold iopte_tblcnt, _iopte_bottom_ignored_val, _iopte_top_ignored_val, cnt_pos.
  destruct (Z.ltb_spec j 0).
  - rewrite Z.testbit_neg_r by lia. bits_done.
  - rewrite Z.lor_spec, Z.shiftr_spec, Z.land_spec, bottom_mask_bit by lia.
    unfold BOTTOM_IGNORED_SHIFT, BOTTOM_IGNORED_NUM_BITS, TOP_IGNORED_SHIFT.
    destruct (Z.ltb_spec j 10).
    + rewrite Z.shiftl_spec_low by lia. bits_done.
    + rewrite Z.shiftl_spec, Z.shiftr_spec, Z.land_spec by lia.
      change (Z.shiftl TOP_IGNORED_MASK 52)
        with (Z.shiftl TOP_IGNORED_MASK TOP_IGNORED_SHIFT).
      rewrite top_mask_bit.
      replace (j - 10 + 52) with (j + 42) by lia. bits_done.
Qed.

(** Bit [i] of the word [iopte_tblcnt_set] stores. *)
Lemma testbit_iopte_tblcnt_set d v i :
  0 <= i ->
  Z.testbit (iopte_tblcnt_set d v) i =
  if (2 <=? i) && (i <? 12) then Z.testbit v (i - 2)
  else if (52 <=? i) && (i <? 59) then Z.testbit v (i - 42)
  else Z.testbit d i.
Proof.
  intros Hi. unfold iopte_tblcnt_set.
  rewrite !Z.lor_spec, testbit_iopte_val. unfold reserved_bit.
  unfold BOTTOM_IGNORED_SHIFT, BOTTOM_IGNORED_NUM_BITS, TOP_IGNORED_SHIFT.
  destruct (Z.ltb_spec i 2).
  { rewrite !Z.shiftl_spec_low by lia. bits_done. }
  rewrite (Z.shiftl_spec _ 2) by lia. rewrite Z.land_spec.
  replace BOTTOM_IGNORED_MASK with (Z.ones 10) by reflexivity.
  rewrite Z.testbit_ones_nonneg by lia.
  destruct (Z.ltb_spec i 52).
  { rewrite Z.shiftl_spec_low by lia. bits_done. }
  rewrite Z.shiftl_spec, Z.shiftr_spec, Z.land_spec by lia.
  replace (Z.shiftl TOP_IGNORED_MASK 10) with (Z.shiftl (Z.ones 7) 10) by reflexivity.
  rewrite testbit_shiftl_ones by lia.
  unfold u64. rewrite Z.testbit_mod_pow2 by lia.
  replace (i - 52 + 10) with (i - 42) by lia.
  bits_done.
Qed.

Lemma tblcnt_set_same_outside d v :
  same_outside_reserved (iopte_tblcnt_set d v) d.
Proof.
  intros i Hr. destruct (Z.ltb_spec i 0).
  - now rewrite !Z.testbit_neg_r by lia.
  - rewrite testbit_iopte_tblcnt_set by lia.
    unfold reserved_bit in Hr. revert Hr. bits_done; discriminate.
Qed.

Lemma tblcnt_add_same_outside d c :
  same_outside_reserved (iopte_tblcnt_add d c) d.
Proof. apply tblcnt_set_same_outside. Qed.

Lemma tblcnt_sub_same_outside d c :
  same_outside_reserved (iopte_tblcnt_sub d c) d.
Proof. apply tblcnt_set_same_outside. Qed.

Lemma same_outside_iopte_val a b :
  same_outside_reserved a b -> iopte_val a = iopte_val b.
Proof.
  intros H. apply Z.bits_inj'. intros i _.
  rewrite !testbit_iopte_val.
  destruct (reserved_bit i) eqn:E; [now rewrite !andb_false_r|].
  now rewrite (H i E).
Qed.

Lemma same_outside_deref a b g :
  same_outside_reserved a b -> iopte_deref a g = iopte_deref b g.
Proof. intros H. unfold iopte_deref. now rewrite (same_outside_iopte_val a b H). Qed.

Lemma same_outside_type a b l :
  same_outside_reserved a b -> iopte_type a l = iopte_type b l.
Proof.
  intros H. unfold iopte_type, ARM_LPAE_PTE_TYPE_SHIFT, ARM_LPAE_PTE_TYPE_MASK.
  rewrite !Z.shiftr_0_r. apply Z.bits_inj'. intros i Hi.
  rewrite !Z.land_spec.
  replace 3 with (Z.ones 2) by reflexivity.
  rewrite Z.testbit_ones_nonneg by lia.
  destruct (Z.ltb_spec i 2); [|now rewrite !andb_false_r].
  rewrite (H i); [reflexivity|]. unfold reserved_bit. bits_done.
Qed.

Lemma same_outside_leaf a b l :
  same_outside_reserved a b -> iopte_leaf a l = iopte_leaf b l.
Proof. intros H. unfold iopte_leaf. now rewrite (same_outside_type a b l H). Qed.

Lemma same_outside_to_pfn a b g :
  12 <= pg_shift g ->
  same_outside_reserved a b -> iopte_to_pfn a g = iopte_to_pfn b g.
Proof.
  intros Hg H. unfold iopte_to_pfn, ARM_LPAE_MAX_ADDR_BITS.
  apply Z.bits_inj'. intros i Hi.
  rewrite !Z.shiftr_spec, !Z.land_spec by lia.
  change (Z.shiftl 1 48 - 1) with (Z.ones 48).
  rewrite Z.testbit_ones_nonneg by lia.
  destruct (Z.ltb_spec (i + pg_shift g) 48); [|now rewrite !andb_false_r].
  rewrite (H (i + pg_shift g)); [reflexivity|]. unfold reserved_bit. bits_done.
Qed.

Lemma tblcnt_set_get d v :
  0 <= v < 2 ^ 17 -> iopte_tblcnt (iopte_tblcnt_set d v) = v.
Proof.
  intros Hv. apply Z.bits_inj'. intros j Hj.
  rewrite testbit_iopte_tblcnt. unfold cnt_pos.
  destruct (Z.ltb_spec j 17).
  - rewrite testbit_iopte_tblcnt_set by (destruct (j <? 10); lia).
    bits_done.
  - replace (0 <=? j) with true by (symmetry; apply Z.leb_le; lia). simpl.
    symmetry. destruct (Z.eq_dec v 0) as [->|Hz]; [apply Z.testbit_0_l|].
    apply Z.bits_above_log2; [lia|].
    apply Z.lt_le_trans with 17; [|lia]. apply Z.log2_lt_pow2; lia.
Qed.

(** C9.  The table-use counter codec round-trips and leaves the rest of
    the descriptor alone: for every descriptor [d] and every [v] below
    [2^17], the counter read after [iopte_tblcnt_set d v] is [v]; the
    bits outside [2..11] and [52..58] are the same after
    [iopte_tblcnt_set], [iopte_tblcnt_add] and [iopte_tblcnt_sub]
    (whatever the operand); and the type, the table address
    ([iopte_deref]) and the output frame ([iopte_to_pfn], for every
    granule of at least 4 KiB) of a descriptor do not depend on what
    those bits hold. *)
Theorem tblcnt_codec_roundtrip :
  forall d v : Z,
    0 <= v < 2 ^ 17 ->
    iopte_tblcnt (iopte_tblcnt_set d v) = v
    /\ (forall c, same_outside_reserved (iopte_tblcnt_set d c) d
                  /\ same_outside_reserved (iopte_tblcnt_add d c) d
                  /\ same_outside_reserved (iopte_tblcnt_sub d c) d)
    /\ (forall d' g l,
           same_outside_reserved d' d ->
           iopte_type d' l = iopte_type d l
           /\ iopte_deref d' g = iopte_deref d g
           /\ (12 <= pg_shift g -> iopte_to_pfn d' g = iopte_to_pfn d g)).
Proof.
  intros d v Hv. split; [now apply tblcnt_set_get|]. split.
  - intros c. repeat split.
    + apply tblcnt_set_same_outside.
    + apply tblcnt_add_same_outside.
    + apply tblcnt_sub_same_outside.
  - intros d' g l H. repeat split.
    + now apply same_outside_type.
    + now apply same_outside_deref.
    + intros Hg. now apply same_outside_to_pfn.
Qed.

Lemma tblcnt_codec_roundtrip_witness :
  0 <= 511 < 2 ^ 17
  /\ iopte_tblcnt (iopte_tblcnt_set 0x40001003 511) = 511.
Proof.
  split; [lia|]. apply (tblcnt_codec_roundtrip 0x40001003 511). lia.
Defined.

(** ** Leaf descriptors *)

Lemma testbit_high_small c n i :
  0 <= c < 2 ^ n -> 0 <= n <= i -> Z.testbit c i = false.
Proof.
  intros Hc Hi. rewrite <- (Z.mod_small c (2 ^ n)) by lia.
  apply Z.mod_pow2_bits_high. lia.
Qed.

Lemma pfn_to_iopte_high pfn g i :
  48 <= i -> Z.testbit (pfn_to_iopte pfn g) i = false.
Proof.
  intros Hi. unfold pfn_to_iopte, ARM_LPAE_MAX_ADDR_BITS.
  rewrite Z.land_spec. change (Z.shiftl 1 48 - 1) with (Z.ones 48).
  rewrite Z.testbit_ones_nonneg by lia. bits_done.
Qed.

Lemma testbit_XN i :
  Z.testbit ARM_LPAE_PTE_XN i = (i =? 53) || (i =? 54).
Proof.
  change ARM_LPAE_PTE_XN with (Z.shiftl (Z.ones 2) 53).
  rewrite testbit_shiftl_ones by lia. bits_done.
Qed.

(** Constants of the low attribute field vanish from bit 48 on. *)
Ltac low_const_bits i :=
  repeat match goal with
         | |- context [Z.testbit ?c i] =>
             rewrite (testbit_high_small c 12 i)
               by first [lia | split; [vm_compute; discriminate | vm_compute; reflexivity]]
         end.

Lemma prot_to_pte_high d prot i :
  48 <= i ->
  Z.testbit (arm_lpae_prot_to_pte d prot) i =
  has_cap prot IOMMU_NOEXEC && ((i =? 53) || (i =? 54)).
Proof.
  intros Hi. unfold arm_lpae_prot_to_pte.
  destruct (has_cap prot IOMMU_NOEXEC); rewrite ?Z.lor_spec, ?testbit_XN;
  destruct (fmt (iop d)), (has_cap prot IOMMU_WRITE), (has_cap prot IOMMU_PRIV),
      (has_cap prot IOMMU_CACHE), (has_cap prot IOMMU_DEVICE), (has_cap prot IOMMU_READ);
  rewrite ?Z.lor_spec; low_const_bits i; reflexivity.
Qed.

Lemma init_pte_val_high d paddr prot lvl i :
  48 <= i ->
  Z.testbit (arm_lpae_init_pte_val d paddr prot lvl) i = Z.testbit prot i.
Proof.
  intros Hi. unfold arm_lpae_init_pte_val.
  destruct (has_quirk _ _), (lvl =? _);
  rewrite ?Z.lor_spec, pfn_to_iopte_high by lia;
  low_const_bits i; rewrite ?orb_false_r; reflexivity.
Qed.

Lemma init_pte_val_AF d paddr prot lvl :
  Z.testbit (arm_lpae_init_pte_val d paddr prot lvl) 10 = true.
Proof.
  unfold arm_lpae_init_pte_val. rewrite !Z.lor_spec.
  replace (Z.testbit ARM_LPAE_PTE_AF 10) with true by reflexivity.
  rewrite ?orb_true_r. reflexivity.
Qed.

Lemma init_pte_stores d iova paddr prot lvl ptep prev flush st st' :
  arm_lpae_init_pte d iova paddr prot lvl ptep prev flush st = Ret (0, st') ->
  prev <> ptep ->
  mem st' ptep = arm_lpae_init_pte_val d paddr prot lvl.
Proof.
  unfold arm_lpae_init_pte. intros H Hne.
  destruct (negb _).
  - destruct (suppress_map_failures st); inversion H.
  - inversion H; subst; clear H.
    destruct flush, (Z.eqb_spec prev 0); simpl; unfold store;
      rewrite ?Z.eqb_refl; try reflexivity;
      destruct (Z.eqb_spec ptep prev); try congruence; reflexivity.
Qed.

(** C8 (amended).  Every leaf descriptor that [arm_lpae_init_pte]
    installs, in any format and at any level, has bit 10 (AF) set.  When
    the protection set contains NOEXEC, the descriptor has bits 53 and
    54 set (the [ARM_LPAE_PTE_XN] mask is [3 << 53]: PXN together with
    XN) and no other bit from bit 48 upwards. *)
Theorem leaf_descriptor_xn_af :
  forall d iova paddr prot lvl ptep prev_ptep flush st st',
    arm_lpae_init_pte d iova paddr (arm_lpae_prot_to_pte d prot) lvl
                      ptep prev_ptep flush st = Ret (0, st') ->
    prev_ptep <> ptep ->
    Z.testbit (mem st' ptep) 10 = true
    /\ (has_cap prot IOMMU_NOEXEC = true ->
        forall i, 48 <= i ->
                  Z.testbit (mem st' ptep) i = ((i =? 53) || (i =? 54))).
Proof.
  intros d iova paddr prot lvl ptep prev flush st st' H Hne.
  rewrite (init_pte_stores _ _ _ _ _ _ _ _ _ _ H Hne). split.
  - apply init_pte_val_AF.
  - intros Hx i Hi. rewrite init_pte_val_high, prot_to_pte_high by lia.
    now rewrite Hx.
Qed.

Lemma leaf_descriptor_xn_af_witness :
  Z.testbit (mem (machine_of (arm_lpae_init_pte selftest_data 0 0x80000000
      (arm_lpae_prot_to_pte selftest_data [IOMMU_READ; IOMMU_NOEXEC]) 3
      0x130000 0x120000 true selftest_machine)) 0x130000) 10 = true.
Proof.
  apply (leaf_descriptor_xn_af selftest_data 0 0x80000000
           [IOMMU_READ; IOMMU_NOEXEC] 3 0x130000 0x120000 true selftest_machine).
  - reflexivity.
  - discriminate.
Defined.

(** C8 as stated fails: mapping a page with NOEXEC in the selftest
    domain stores a descriptor in which bit 53 is set next to bit 54. *)
Lemma xn_sets_bit_53_as_well :
  result_of (arm_lpae_map selftest_data 0 0x80000000 SZ_4K
                          [IOMMU_READ; IOMMU_NOEXEC] selftest_machine) = Some 0
  /\ Z.testbit (mem (machine_of (arm_lpae_map selftest_data 0 0x80000000 SZ_4K
                       [IOMMU_READ; IOMMU_NOEXEC] selftest_machine)) 0x130000) 54 = true
  /\ Z.testbit (mem (machine_of (arm_lpae_map selftest_data 0 0x80000000 SZ_4K
                       [IOMMU_READ; IOMMU_NOEXEC] selftest_machine)) 0x130000) 53 = true.
Proof. vm_compute. repeat split. Qed.

(** ** Format initialisers *)

Lemma find_first (P : Z -> bool) n : forall a k,
  (a <= k < a + n)%nat ->
  P (Z.of_nat k) = true ->
  (forall i, (a <= i < k)%nat -> P (Z.of_nat i) = false) ->
  find P (map Z.of_nat (seq a n)) = Some (Z.of_nat k).
Proof.
  induction n as [|n IH]; intros a k Hk Pk Plow; [lia|].
  simpl. destruct (Nat.eq_dec a k) as [->|Hne].
  - now rewrite Pk.
  - rewrite (Plow a) by lia. apply IH; [lia|assumption|].
    intros i Hi. apply Plow. lia.
Qed.

Lemma __ffs_eq x k :
  0 <= k < 64 ->
  Z.testbit x k = true ->
  (forall i, 0 <= i < k -> Z.testbit x i = false) ->
  __ffs x = k.
Proof.
  intros Hk Hx Hlow. unfold __ffs, bit_positions.
  rewrite (find_first (Z.testbit x) 64 0 (Z.to_nat k)).
  - now rewrite Z2Nat.id by lia.
  - lia.
  - now rewrite Z2Nat.id by lia.
  - intros i Hi. apply Hlow. lia.
Qed.

(** The lowest bit of a bitmap cut down to [m << k], [m] odd, is [k]
    as soon as bit [k] survives. *)
Lemma __ffs_land_shifted bm m k :
  0 <= k < 64 ->
  Z.testbit (Z.land bm (Z.shiftl m k)) k = true ->
  __ffs (Z.land bm (Z.shiftl m k)) = k.
Proof.
  intros Hk Hb. apply __ffs_eq; [assumption|assumption|].
  intros i Hi. rewrite Z.land_spec, Z.shiftl_spec_low by lia. apply andb_false_r.
Qed.

Lemma land_pow2_nonzero x k :
  0 <= k -> Z.land x (2 ^ k) <> 0 -> Z.testbit x k = true.
Proof.
  intros Hk H. destruct (Z.testbit x k) eqn:E; [reflexivity|].
  exfalso. apply H. apply Z.bits_inj'. intros i Hi.
  rewrite Z.land_spec, Z.pow2_bits_eqb, Z.testbit_0_l by lia.
  destruct (Z.eqb_spec k i); [subst; now rewrite E|apply andb_false_r].
Qed.

Lemma restrict_pgsizes_cases P c :
  let c' := arm_lpae_restrict_pgsizes P c in
  quirks c' = quirks c /\ ias c' = ias c /\ oas c' = oas c
  /\ arm_lpae_s1_cfg c' = arm_lpae_s1_cfg c
  /\ arm_lpae_s2_cfg c' = arm_lpae_s2_cfg c
  /\ (pgsize_bitmap c' = Z.land (pgsize_bitmap c) (Z.lor SZ_4K (Z.lor SZ_2M SZ_1G))
      \/ pgsize_bitmap c' = Z.land (pgsize_bitmap c) (Z.lor SZ_16K SZ_32M)
      \/ pgsize_bitmap c' = Z.land (pgsize_bitmap c) (Z.lor SZ_64K SZ_512M)
      \/ pgsize_bitmap c' = 0).
Proof.
  unfold arm_lpae_restrict_pgsizes.
  match goal with |- context [if ?g =? SZ_4K then _ else _] => set (granule := g) end.
  destruct (granule =? SZ_4K); [|destruct (granule =? SZ_16K); [|destruct (granule =? SZ_64K)]];
    simpl; repeat split; auto.
Qed.

(** The granule the restricted bitmap is left with. *)
Lemma restricted_bitmap_ffs P c :
  let b := pgsize_bitmap (arm_lpae_restrict_pgsizes P c) in
  Z.land b (Z.lor SZ_4K (Z.lor SZ_16K SZ_64K)) <> 0 ->
  __ffs b = 12 \/ __ffs b = 14 \/ __ffs b = 16.
Proof.
  intros b Hb.
  destruct (restrict_pgsizes_cases P c) as (_ & _ & _ & _ & _ & [E|[E|[E|E]]]);
    fold b in E; rewrite E in *.
  - left. change (Z.lor SZ_4K (Z.lor SZ_2M SZ_1G)) with (Z.shiftl 0x40201 12) in *.
    apply __ffs_land_shifted; [lia|].
    rewrite <- Z.land_assoc in Hb.
    change (Z.land (Z.shiftl 262657 12) (Z.lor SZ_4K (Z.lor SZ_16K SZ_64K))) with (2 ^ 12) in Hb.
    rewrite Z.land_spec. rewrite (land_pow2_nonzero _ 12) by (lia || assumption). reflexivity.
  - right; left. change (Z.lor SZ_16K SZ_32M) with (Z.shiftl 0x801 14) in *.
    apply __ffs_land_shifted; [lia|].
    rewrite <- Z.land_assoc in Hb.
    change (Z.land (Z.shiftl 2049 14) (Z.lor SZ_4K (Z.lor SZ_16K SZ_64K))) with (2 ^ 14) in Hb.
    rewrite Z.land_spec. rewrite (land_pow2_nonzero _ 14) by (lia || assumption). reflexivity.
  - right; right. change (Z.lor SZ_64K SZ_512M) with (Z.shiftl 0x2001 16) in *.
    apply __ffs_land_shifted; [lia|].
    rewrite <- Z.land_assoc in Hb.
    change (Z.land (Z.shiftl 8193 16) (Z.lor SZ_4K (Z.lor SZ_16K SZ_64K))) with (2 ^ 16) in Hb.
    rewrite Z.land_spec. rewrite (land_pow2_nonzero _ 16) by (lia || assumption). reflexivity.
  - exfalso. apply Hb. reflexivity.
Qed.

(** What a successful [arm_lpae_alloc_pgtable] has established. *)
Lemma alloc_pgtable_some P c c' d :
  arm_lpae_alloc_pgtable P c = (c', Some d) ->
  c' = arm_lpae_restrict_pgsizes P c
  /\ ias c <= 48 /\ oas c <= 48
  /\ (pg_shift d = 12 \/ pg_shift d = 14 \/ pg_shift d = 16)
  /\ bits_per_level d = pg_shift d - 3
  /\ levels d = to_int (DIV_ROUND_UP (u64 (ias c - pg_shift d)) (bits_per_level d))
  /\ pgd_size d = u64 (Z.shiftl 1 (u64 (u64 (ias c - pg_shift d)
                                        - bits_per_level d * (levels d - 1)) + 3)).
Proof.
  unfold arm_lpae_alloc_pgtable. intros H.
  destruct (restrict_pgsizes_cases P c) as (_ & Hi & Ho & _).
  destruct (Z.eqb_spec (Z.land (pgsize_bitmap (arm_lpae_restrict_pgsizes P c))
                               (Z.lor SZ_4K (Z.lor SZ_16K SZ_64K))) 0) as [|Hb];
    [discriminate|].
  rewrite Hi, Ho in H.
  destruct (Z.gtb_spec (ias c) ARM_LPAE_MAX_ADDR_BITS); [discriminate|].
  destruct (Z.gtb_spec (oas c) ARM_LPAE_MAX_ADDR_BITS); [discriminate|].
  inversion H; subst; clear H. cbn [pg_shift bits_per_level levels pgd_size].
  unfold ARM_LPAE_MAX_ADDR_BITS, ilog2_sizeof_iopte in *.
  repeat split; try lia.
  apply restricted_bitmap_ffs. assumption.
Qed.

Lemma tcr_field_lor a b s w :
  tcr_field (Z.lor a b) s w = Z.lor (tcr_field a s w) (tcr_field b s w).
Proof. unfold tcr_field. now rewrite Z.shiftr_lor, Z.land_lor_distr_l. Qed.

Lemma tcr_field_below x s w :
  0 <= x < 2 ^ s -> 0 <= s -> tcr_field x s w = 0.
Proof.
  intros Hx Hs. unfold tcr_field. rewrite Z.shiftr_div_pow2 by lia.
  rewrite Z.div_small by lia. reflexivity.
Qed.

Lemma tcr_field_low x w :
  0 <= x < 2 ^ w -> 0 <= w -> tcr_field x 0 w = x.
Proof.
  intros Hx Hw. unfold tcr_field. rewrite Z.shiftr_0_r, Z.land_ones by lia.
  apply Z.mod_small. lia.
Qed.

(** The TCR word of [arm_64_lpae_alloc_pgtable_s1], as composed in the
    source. *)
Lemma alloc_s1_tcr P c st c' st' d :
  arm_64_lpae_alloc_pgtable_s1 P c st = (c', st', Some d) ->
  exists ps,
    oas_to_ps (oas c) = Some ps
    /\ ias c <= 48
    /\ (pg_shift d = 12 \/ pg_shift d = 14 \/ pg_shift d = 16)
    /\ tcr (arm_lpae_s1_cfg c') =
       Z.lor (Z.lor (Z.lor (Z.lor
         (Z.lor (Z.shiftl ARM_LPAE_TCR_SH_IS ARM_LPAE_TCR_SH0_SHIFT)
                (Z.lor (Z.shiftl ARM_LPAE_TCR_RGN_NC ARM_LPAE_TCR_IRGN0_SHIFT)
                       (Z.shiftl ARM_LPAE_TCR_RGN_NC ARM_LPAE_TCR_ORGN0_SHIFT)))
         (tcr_tg0 (pg_shift d)))
         (Z.shiftl ps ARM_LPAE_TCR_IPS_SHIFT))
         (Z.shiftl (u64 (64 - ias c)) ARM_LPAE_TCR_T0SZ_SHIFT))
         (Z.shiftl ARM_LPAE_TCR_EPD1_FAULT ARM_LPAE_TCR_EPD1_SHIFT).
Proof.
  unfold arm_64_lpae_alloc_pgtable_s1. intros H.
  destruct (arm_lpae_alloc_pgtable P c) as [c1 [d1|]] eqn:Ha; [|discriminate].
  destruct (alloc_pgtable_some _ _ _ _ Ha) as (Hc1 & Hi & Ho & Hpg & _).
  destruct (restrict_pgsizes_cases P c) as (_ & Hi' & Ho' & _).
  rewrite <- Hc1 in Hi', Ho'. rewrite Hi', Ho' in H.
  destruct (oas_to_ps (oas c)) as [ps|]; [|discriminate].
  exists ps. split; [reflexivity|]. split; [assumption|].
  destruct (io_pgtable_alloc_pages_exact (pgd_size d1) st) as [p st1].
  destruct (p =? 0); [discriminate|].
  inversion H; subst; clear H. cbn. split; [assumption|reflexivity].
Qed.

Lemma oas_to_ps_cases o ps :
  oas_to_ps o = Some ps ->
  In (o, ps) [(32, 0); (36, 1); (40, 2); (42, 3); (44, 4); (48, 5)].
Proof.
  unfold oas_to_ps. intros H.
  repeat match type of H with
         | (if ?a =? ?b then _ else _) = _ =>
             destruct (Z.eqb_spec a b); [inversion H; subst; simpl; tauto|]
         end.
  discriminate.
Qed.

Lemma oas_to_ps_none o :
  ~ In o [32; 36; 40; 42; 44; 48] -> oas_to_ps o = None.
Proof.
  unfold oas_to_ps. intros H.
  repeat match goal with
         | |- (if ?a =? ?b then _ else _) = _ =>
             destruct (Z.eqb_spec a b); [exfalso; apply H; subst; simpl; tauto|]
         end.
  reflexivity.
Qed.








Example selftest_domain_built :
  alloc_io_pgtable_ops SZ_4K ARM_64_LPAE_S1 (selftest_cfg 48) boot
  = (cfg (iop selftest_data), selftest_machine, Some selftest_data).
Proof. reflexivity. Qed.

(** ** Runs that show where the code departs from the specification *)

(** C2.  The counter of a penultimate-level table descriptor does not
    always equal the number of non-zero entries of the child table.
    Two pages are mapped at 0 and 0x1000; both calls return 0 and the
    descriptor at 0x120000 counts 2.  [unmap(0x2000, 4K)] of the
    neighbouring page, which was never mapped, takes the bulk path of
    [__arm_lpae_unmap], which subtracts the number of slots it zeroes
    without looking at them: the call returns 4096, the counter drops to
    1, and the child table at 0x130000 still holds two entries. *)
Theorem unmap_of_hole_desyncs_counter :
  result_of one_page = Some 0
  /\ result_of two_pages = Some 0
  /\ iopte_tblcnt (mem (machine_of two_pages) 0x120000) = 2
  /\ result_of two_pages_unmap_hole = Some SZ_4K
  /\ iopte_type (mem (machine_of two_pages_unmap_hole) 0x120000) 2
     = ARM_LPAE_PTE_TYPE_TABLE
  /\ iopte_deref (mem (machine_of two_pages_unmap_hole) 0x120000) selftest_data
     = 0x130000
  /\ iopte_tblcnt (mem (machine_of two_pages_unmap_hole) 0x120000) = 1
  /\ nonzero_entries (mem (machine_of two_pages_unmap_hole)) 0x130000 512 = 2.
Proof. vm_compute. repeat split. Qed.

(** C10.  With the same two pages mapped, no address of
    [0x2000, 0x3000) translates; yet [unmap(0x2000, 4K)] returns 4096
    and its last call to the collaborators is [tlb_flush_all]. *)
Theorem unmap_of_hole_reports_bytes_and_flushes :
  forallb (fun k => arm_lpae_iova_to_phys selftest_data (0x2000 + Z.of_nat k)
                                          (machine_of two_pages) =? 0)
          (seq 0 4096) = true
  /\ result_of two_pages_unmap_hole = Some SZ_4K
  /\ trace (machine_of two_pages_unmap_hole)
     = tlb_flush_all :: flush_pgtable 0x130010 8 :: trace (machine_of two_pages).
Proof. vm_compute. repeat split. Qed.

(** C3 as stated fails.  Outside the selftest the switch
    [suppress_map_failures] is off, and mapping over an existing page
    stops in [BUG_ON] instead of returning. *)
Lemma remap_hits_bug_on :
  result_of one_page = Some 0
  /\ arm_lpae_map selftest_data 0 0x80001000 SZ_4K RW (loud (machine_of one_page))
     = BUG.
Proof. vm_compute. repeat split. Qed.

(** The slip next to it: a page mapped inside an existing 2 MiB block.
    The walk takes the block descriptor at 0x120000 for a table, writes
    a page descriptor into the memory the block maps (0x40000008), bumps
    a "counter" inside the block's attribute bits and returns 0. *)
Example map_page_inside_block :
  result_of one_block = Some 0
  /\ mem (machine_of one_block) 0x120000 = 0x40000f41
  /\ result_of page_inside_block = Some 0
  /\ mem (machine_of page_inside_block) 0x120000 = 0x40000f45
  /\ mem (machine_of one_block) 0x40000008 = 0
  /\ mem (machine_of page_inside_block) 0x40000008 = 0x5f43.
Proof. vm_compute. repeat split. Qed.

(** C4 as stated fails.  A 4 KiB unmap inside a 1 GiB block is answered
    by a split into 2 MiB blocks: the call returns 2 MiB, neither the
    4 KiB asked for nor 0, and since no 2 MiB piece starts at the
    address, nothing is left out: the page still translates. *)
Lemma unmap_page_of_1g_block :
  result_of one_gig = Some 0
  /\ result_of one_gig_unmap_page = Some SZ_2M
  /\ arm_lpae_iova_to_phys selftest_data (SZ_1G + SZ_4K + 42)
                           (machine_of one_gig_unmap_page)
     = SZ_1G + SZ_4K + 42.
Proof. vm_compute. repeat split. Qed.

(** Selftest scenario 3: the split of a 2 MiB block. *)
Example unmap_page_of_2m_block :
  result_of two_meg = Some 0
  /\ result_of two_meg_unmap_page = Some SZ_4K
  /\ arm_lpae_iova_to_phys selftest_data (SZ_1G + SZ_4K + 42)
                           (machine_of two_meg_unmap_page) = 0
  /\ arm_lpae_iova_to_phys selftest_data (SZ_1G + 42)
                           (machine_of two_meg_unmap_page) = SZ_1G + 42.
Proof. vm_compute. repeat split. Qed.



(** ** Mapping over a valid descriptor *)

Lemma levels_below_step lvl :
  lvl < ARM_LPAE_MAX_LEVELS - 1 ->
  levels_below lvl = S (levels_below (lvl + 1)).
Proof.
  unfold levels_below, ARM_LPAE_MAX_LEVELS. intros H.
  replace (4 - 1 - lvl) with (Z.succ (4 - 1 - (lvl + 1))) by lia.
  rewrite Z2Nat.inj_succ by lia. reflexivity.
Qed.

(** The levels left bound the depth of the recursion: more fuel changes
    nothing. *)
Lemma __arm_lpae_map_fuel d iova paddr size prot :
  forall fuel lvl ptep prev_ptep ms st,
    (levels_below lvl <= fuel)%nat ->
    __arm_lpae_map fuel d iova paddr size prot lvl ptep prev_ptep ms st
    = __arm_lpae_map (levels_below lvl) d iova paddr size prot lvl ptep
                     prev_ptep ms st.
Proof.
  induction fuel as [|fuel IH]; intros lvl ptep prev ms st Hf.
  - replace (levels_below lvl) with O by lia. reflexivity.
  - destruct (Z.ltb_spec lvl (ARM_LPAE_MAX_LEVELS - 1)) as [Hl|Hl].
    + rewrite (levels_below_step lvl Hl) in *. cbn [__arm_lpae_map].
      destruct (_ && _); [reflexivity|].
      destruct (lvl >=? ARM_LPAE_MAX_LEVELS - 1); [reflexivity|].
      destruct (mem st _ =? 0).
      * destruct (io_pgtable_alloc_pages_exact _ st) as [c st1].
        destruct (c =? 0); [reflexivity|]. apply IH. lia.
      * apply IH. lia.
    + assert (E : (lvl >=? ARM_LPAE_MAX_LEVELS - 1) = true)
        by (apply Z.geb_le; lia).
      destruct (levels_below lvl); cbn [__arm_lpae_map]; rewrite E;
        destruct (_ && _); reflexivity.
Qed.

Lemma map_over_valid_slot d iova paddr size prot s :
  forall fuel lvl ptep prev_ptep st,
    install_slot fuel d (mem st) iova size lvl ptep = Some s ->
    Z.land (mem st s) ARM_LPAE_PTE_VALID <> 0 ->
    __arm_lpae_map fuel d iova paddr size prot lvl ptep prev_ptep None st
    = if suppress_map_failures st then Ret (- EEXIST, None, st) else BUG.
Proof.
  induction fuel as [|fuel IH]; intros lvl ptep prev st Hs Hv;
    cbn [install_slot __arm_lpae_map] in *;
    destruct (_ && _).
  - assert (E : ptep + sizeof_iopte * ARM_LPAE_LVL_IDX iova lvl d = s) by congruence.
    rewrite E. unfold arm_lpae_init_pte.
    destruct (Z.eqb_spec (Z.land (mem st s) ARM_LPAE_PTE_VALID) 0); [contradiction|].
    cbn [negb]. destruct (suppress_map_failures st); reflexivity.
  - destruct (lvl >=? ARM_LPAE_MAX_LEVELS - 1); discriminate.
  - assert (E : ptep + sizeof_iopte * ARM_LPAE_LVL_IDX iova lvl d = s) by congruence.
    rewrite E. unfold arm_lpae_init_pte.
    destruct (Z.eqb_spec (Z.land (mem st s) ARM_LPAE_PTE_VALID) 0); [contradiction|].
    cbn [negb]. destruct (suppress_map_failures st); reflexivity.
  - destruct (lvl >=? ARM_LPAE_MAX_LEVELS - 1); [discriminate|].
    destruct (mem st _ =? 0); [discriminate|]. now apply IH.
Qed.

(** C3 (amended).  For every call [map(iova, pa, size, prot)] with read
    or write access whose walk, following the descriptors already in
    place, arrives at the level whose block size is [size] and finds a
    valid descriptor in the slot (a leaf of that size, or a table of
    smaller mappings where a block is asked for): with the selftest
    switch [suppress_map_failures] on, the call returns [-EEXIST] and
    the machine (memory, allocator, calls to the collaborators) is
    exactly as before; with the switch off it stops in [BUG_ON].  What
    happens when the range lies inside a larger block is left out. *)
Theorem map_conflict_detected :
  forall d st iova paddr size prot s,
    has_access prot = true ->
    install_slot (levels_below (ARM_LPAE_START_LVL d)) d (mem st) iova size
                 (ARM_LPAE_START_LVL d) (pgd d) = Some s ->
    Z.land (mem st s) ARM_LPAE_PTE_VALID <> 0 ->
    arm_lpae_map d iova paddr size prot st
    = if suppress_map_failures st then Ret (- EEXIST, st) else BUG.
Proof.
  intros d st iova paddr size prot s Ha Hs Hv. unfold arm_lpae_map.
  unfold has_access in Ha. rewrite Ha. cbn [negb].
  rewrite (map_over_valid_slot d iova paddr size _ s _ _ _ _ st Hs Hv).
  destruct (suppress_map_failures st); reflexivity.
Qed.

Lemma map_conflict_detected_witness :
  arm_lpae_map selftest_data 0 0x80001000 SZ_4K RW (machine_of one_page)
  = Ret (- EEXIST, machine_of one_page).
Proof.
  apply (map_conflict_detected selftest_data (machine_of one_page) 0 0x80001000
           SZ_4K RW 0x130000).
  - reflexivity.
  - reflexivity.
  - vm_compute. discriminate.
Defined.


(** ** Scatter-gather mapping and misaligned entries *)

Lemma bit_positions_range i : In i bit_positions -> 0 <= i < 64.
Proof.
  unfold bit_positions. rewrite in_map_iff. intros (n & <- & Hn).
  apply in_seq in Hn. lia.
Qed.

Lemma iommu_pgsize_some b a s p :
  iommu_pgsize b a s = Some p ->
  exists i, 0 <= i < 64 /\ p = 2 ^ i /\ Z.testbit b i = true /\ p <= s.
Proof.
  unfold iommu_pgsize. destruct (find _ _) as [i|] eqn:E; [|discriminate].
  intros H. injection H as <-. apply find_some in E. destruct E as [Hin Hc].
  apply in_rev, bit_positions_range in Hin.
  apply andb_prop in Hc. destruct Hc as [Hc _].
  apply andb_prop in Hc. destruct Hc as [Hb Hle].
  exists i. rewrite Z.shiftl_1_l in *. repeat split; try lia; try assumption.
Qed.

Lemma find_at_most (P : Z -> bool) n : forall a k,
  (a <= k < a + n)%nat -> P (Z.of_nat k) = true ->
  exists j, find P (map Z.of_nat (seq a n)) = Some (Z.of_nat j) /\ (j <= k)%nat.
Proof.
  induction n as [|n IH]; intros a k Hk Pk; [lia|].
  simpl. destruct (P (Z.of_nat a)) eqn:Pa.
  - exists a. split; [reflexivity|lia].
  - destruct (Nat.eq_dec a k) as [->|Hne]; [congruence|].
    apply IH; [lia|assumption].
Qed.

Lemma __ffs_le b i :
  0 <= i < 64 -> Z.testbit b i = true -> 0 <= __ffs b <= i.
Proof.
  intros Hi Hb. unfold __ffs, bit_positions.
  destruct (find_at_most (Z.testbit b) 64 0 (Z.to_nat i)) as (j & -> & Hj).
  - lia.
  - now rewrite Z2Nat.id by lia.
  - lia.
Qed.

(** No page size is smaller than the smallest one. *)
Lemma iommu_pgsize_min b a s p :
  iommu_pgsize b a s = Some p ->
  Z.shiftl 1 (__ffs b) <= p <= s.
Proof.
  intros H. destruct (iommu_pgsize_some _ _ _ _ H) as (i & Hi & -> & Hb & Hs).
  pose proof (__ffs_le b i Hi Hb). rewrite Z.shiftl_1_l.
  split; [|assumption]. apply Z.pow_le_mono_r; lia.
Qed.

Lemma min_pagesz_pos b : 0 < Z.shiftl 1 (__ffs b).
Proof.
  rewrite Z.shiftl_1_l. apply Z.pow_pos_nonneg; [lia|].
  unfold __ffs. destruct (find _ _) as [i|] eqn:E; [|lia].
  apply find_some in E. destruct E as [E _]. apply bit_positions_range in E. lia.
Qed.

Lemma map_sg_while_S fuel d prot lvl ptep iova phys size mapped ms st :
  map_sg_while (S fuel) d prot lvl ptep iova phys size mapped ms st =
  if size =? 0 then SgDone iova mapped ms st
  else
    match iommu_pgsize (pgsize_bitmap (cfg (iop d))) (Z.lor iova phys) size with
    | None => SgBug
    | Some pgsz =>
        if negb (pgtable ms =? 0) && (iova <? iova_end ms) then
          match arm_lpae_init_pte d iova phys prot MAP_STATE_LVL
                  (pgtable ms + sizeof_iopte * ARM_LPAE_LVL_IDX iova MAP_STATE_LVL d)
                  (prev_pgtable ms) false st with
          | BUG => SgBug
          | Ret (ret, st') =>
              if negb (ret =? 0) then SgErr mapped st'
              else
                map_sg_while fuel d prot lvl ptep (iova + pgsz) (phys + pgsz)
                  (size - pgsz) (mapped + pgsz)
                  {| iova_end := iova_end ms; pgsize := pgsize ms;
                     pgtable := pgtable ms; prev_pgtable := prev_pgtable ms;
                     pte_start := pte_start ms; num_pte := num_pte ms + 1 |} st'
          end
        else
          match __arm_lpae_map (levels_below lvl) d iova phys pgsz prot lvl
                               ptep 0 (Some ms) st with
          | BUG => SgBug
          | Ret (ret, ms', st') =>
              if negb (ret =? 0) then SgErr mapped st'
              else
                map_sg_while fuel d prot lvl ptep (iova + pgsz) (phys + pgsz)
                  (size - pgsz) (mapped + pgsz)
                  (match ms' with Some s => s | None => ms end) st'
          end
    end.
Proof. reflexivity. Qed.

(** The rounds counted by [fuel] are enough for the loop over one
    entry: with one more round the result is the same. *)
Lemma map_sg_while_fuel d prot lvl ptep :
  forall fuel iova phys size mapped ms st,
    0 <= size ->
    size / Z.shiftl 1 (__ffs (pgsize_bitmap (cfg (iop d)))) <= Z.of_nat fuel ->
    map_sg_while fuel d prot lvl ptep iova phys size mapped ms st
    = map_sg_while (S fuel) d prot lvl ptep iova phys size mapped ms st.
Proof.
  set (minp := Z.shiftl 1 (__ffs (pgsize_bitmap (cfg (iop d))))).
  assert (Hminp : 0 < minp) by apply min_pagesz_pos.
  induction fuel as [|fuel IH]; intros iova phys size mapped ms st Hs Hf.
  - rewrite map_sg_while_S. cbn [map_sg_while].
    destruct (Z.eqb_spec size 0); [reflexivity|].
    destruct (iommu_pgsize _ _ size) as [p|] eqn:E; [|reflexivity].
    apply iommu_pgsize_min in E. fold minp in E.
    assert (size / minp = 0) by (pose proof (Z.div_pos size minp); lia).
    apply Z.div_small_iff in H; lia.
  - rewrite (map_sg_while_S (S fuel)), (map_sg_while_S fuel).
    destruct (Z.eqb_spec size 0); [reflexivity|].
    destruct (iommu_pgsize _ _ size) as [p|] eqn:E; [|reflexivity].
    apply iommu_pgsize_min in E. fold minp in E.
    assert (Hrec : (size - p) / minp <= Z.of_nat fuel).
    { assert ((size - p) / minp <= (size - minp) / minp)
        by (apply Z.div_le_mono; lia).
      replace (size - minp) with (size + (-1) * minp) in H by lia.
      rewrite Z.div_add in H by lia. lia. }
    destruct (negb (pgtable ms =? 0) && (iova <? iova_end ms)).
    + destruct (arm_lpae_init_pte _ _ _ _ _ _ _ _ _) as [[r st1]|]; [|reflexivity].
      destruct (negb (r =? 0)); [reflexivity|]. apply IH; lia.
    + destruct (__arm_lpae_map _ _ _ _ _ _ _ _ _ _ _) as [[[r ms1] st1]|]; [|reflexivity].
      destruct (negb (r =? 0)); [reflexivity|]. apply IH; lia.
Qed.






(** ** Map, then translate *)

(** ** Arithmetic of the walk *)

Lemma testbit_high_small' c n i :
  0 <= c < 2 ^ n -> 0 <= n <= i -> Z.testbit c i = false.
Proof.
  intros Hc Hi. rewrite <- (Z.mod_small c (2 ^ n)) by lia.
  apply Z.mod_pow2_bits_high. lia.
Qed.

Lemma testbit_aligned x n i :
  0 <= n -> x mod 2 ^ n = 0 -> i < n -> Z.testbit x i = false.
Proof.
  intros Hn Hx Hi. destruct (Z.ltb_spec i 0); [now apply Z.testbit_neg_r|].
  rewrite <- (Z.mod_pow2_bits_low x n i) by lia. rewrite Hx. apply Z.testbit_0_l.
Qed.

Lemma aligned_weaken x n m :
  0 <= m <= n -> x mod 2 ^ n = 0 -> x mod 2 ^ m = 0.
Proof.
  intros Hm Hx. apply Z.mod_divide; [apply Z.pow_nonzero; lia|].
  apply Z.mod_divide in Hx; [|apply Z.pow_nonzero; lia].
  apply Z.divide_trans with (2 ^ n); [|assumption].
  exists (2 ^ (n - m)). rewrite <- Z.pow_add_r by lia. f_equal. lia.
Qed.

(** Adding an offset below the alignment does not change the higher
    part of an address. *)
Lemma shiftr_add_small x k n s :
  0 <= n <= s -> x mod 2 ^ n = 0 -> 0 <= k < 2 ^ n ->
  Z.shiftr (x + k) s = Z.shiftr x s.
Proof.
  intros Hn Hx Hk. rewrite !Z.shiftr_div_pow2 by lia.
  replace s with (n + (s - n)) by lia. rewrite Z.pow_add_r by lia.
  rewrite <- !Z.div_div by (try apply Z.pow_pos_nonneg; lia).
  f_equal. apply Z.mod_divide in Hx; [|apply Z.pow_nonzero; lia].
  destruct Hx as [q ->]. rewrite Z.div_add_l by (apply Z.pow_nonzero; lia).
  rewrite Z.div_small by lia. rewrite Z.div_mul by (apply Z.pow_nonzero; lia). lia.
Qed.

Lemma land_add_small x k n :
  0 <= n -> x mod 2 ^ n = 0 -> 0 <= k < 2 ^ n ->
  Z.land (x + k) (Z.shiftl 1 n - 1) = k.
Proof.
  intros Hn Hx Hk. rewrite Z.shiftl_1_l. change (2 ^ n - 1) with (Z.pred (2 ^ n)).
  rewrite <- Z.ones_equiv, Z.land_ones by lia.
  rewrite Z.add_mod, Hx, Z.add_0_l, Z.mod_mod by (apply Z.pow_nonzero; lia).
  apply Z.mod_small. lia.
Qed.

Lemma lor_aligned_small x k n :
  0 <= n -> x mod 2 ^ n = 0 -> 0 <= k < 2 ^ n -> Z.lor x k = x + k.
Proof.
  intros Hn Hx Hk. apply Z.or_to_plus. apply Z.bits_inj'. intros i Hi.
  rewrite Z.land_spec, Z.testbit_0_l.
  destruct (Z.ltb_spec i n).
  - rewrite (testbit_aligned x n i) by lia. reflexivity.
  - rewrite (testbit_high_small' k n i) by lia. apply andb_false_r.
Qed.

Lemma ilog2_lower n : -1 <= ilog2 n.
Proof.
  unfold ilog2. destruct (n <=? 0); [lia|]. pose proof (Z.log2_nonneg n). lia.
Qed.

Section Geometry.

Variable d : arm_lpae_io_pgtable.
Hypothesis Hgeo : geometry_ok d.

Lemma lvl_shift_eq l :
  ARM_LPAE_LVL_SHIFT l d = (3 - l) * bits_per_level d + pg_shift d.
Proof.
  unfold ARM_LPAE_LVL_SHIFT, ARM_LPAE_START_LVL, ARM_LPAE_MAX_LEVELS.
  f_equal. f_equal. lia.
Qed.

Lemma block_size_eq l :
  ARM_LPAE_BLOCK_SIZE l d = 2 ^ ARM_LPAE_LVL_SHIFT l d.
Proof.
  destruct Hgeo as (Hpg & Hbpl & _).
  unfold ARM_LPAE_BLOCK_SIZE, ilog2_sizeof_iopte, ARM_LPAE_MAX_LEVELS.
  rewrite Z.shiftl_1_l, lvl_shift_eq. f_equal. lia.
Qed.

Lemma lvl_shift_lower l : l <= 3 -> pg_shift d <= ARM_LPAE_LVL_SHIFT l d.
Proof.
  destruct Hgeo as (Hpg & Hbpl & _). intros Hl. rewrite lvl_shift_eq. nia.
Qed.

Lemma lvl_shift_mono l l' :
  l <= l' -> ARM_LPAE_LVL_SHIFT l' d <= ARM_LPAE_LVL_SHIFT l d.
Proof.
  destruct Hgeo as (Hpg & Hbpl & _). intros Hl. rewrite !lvl_shift_eq. nia.
Qed.

Lemma idx_width_nonneg l : 0 <= bits_per_level d + ARM_LPAE_PGD_IDX l d.
Proof.
  destruct Hgeo as (Hpg & Hbpl & _). unfold ARM_LPAE_PGD_IDX.
  destruct (l =? _); [|lia]. pose proof (ilog2_lower (ARM_LPAE_PAGES_PER_PGD d)). lia.
Qed.

Lemma lvl_idx_range a l :
  0 <= ARM_LPAE_LVL_IDX a l d < Z.shiftl 1 (bits_per_level d + ARM_LPAE_PGD_IDX l d).
Proof.
  unfold ARM_LPAE_LVL_IDX. pose proof (idx_width_nonneg l) as Hw.
  rewrite Z.shiftl_1_l.
  change (2 ^ (bits_per_level d + ARM_LPAE_PGD_IDX l d) - 1)
    with (Z.pred (2 ^ (bits_per_level d + ARM_LPAE_PGD_IDX l d))).
  rewrite <- Z.ones_equiv, Z.land_ones by lia.
  apply Z.mod_pos_bound. apply Z.pow_pos_nonneg; lia.
Qed.

(** The slot of an address lies in the table. *)
Lemma slot_in_table a l ptep :
  in_region (ptep + sizeof_iopte * ARM_LPAE_LVL_IDX a l d) (ptep, table_span d l).
Proof.
  unfold in_region, table_span, sizeof_iopte. cbn [fst snd].
  pose proof (lvl_idx_range a l). lia.
Qed.

(** Below the start level a table is one granule. *)
Lemma table_span_inner l :
  l <> ARM_LPAE_START_LVL d -> table_span d l = Z.shiftl 1 (pg_shift d).
Proof.
  destruct Hgeo as (Hpg & Hbpl & _). intros Hl.
  unfold table_span, ARM_LPAE_PGD_IDX, sizeof_iopte.
  destruct (Z.eqb_spec l (ARM_LPAE_START_LVL d)); [contradiction|].
  rewrite !Z.shiftl_1_l, Z.add_0_r, Hbpl.
  replace (pg_shift d) with (3 + (pg_shift d - 3)) at 2 by lia.
  rewrite Z.pow_add_r by lia. reflexivity.
Qed.

(** The index of an address does not change when an offset within the
    block of a lower level is added. *)
Lemma lvl_idx_add_small iova k l l' :
  l <= l' -> l' <= 3 ->
  iova mod 2 ^ ARM_LPAE_LVL_SHIFT l' d = 0 ->
  0 <= k < 2 ^ ARM_LPAE_LVL_SHIFT l' d ->
  ARM_LPAE_LVL_IDX (iova + k) l d = ARM_LPAE_LVL_IDX iova l d.
Proof.
  intros Hl Hl' Ha Hk. unfold ARM_LPAE_LVL_IDX. f_equal.
  destruct Hgeo as (Hpg & _).
  apply shiftr_add_small with (n := ARM_LPAE_LVL_SHIFT l' d); try assumption.
  pose proof (lvl_shift_lower l' Hl'). pose proof (lvl_shift_mono l l' Hl). lia.
Qed.

End Geometry.

(** ** Descriptors as the walk reads them *)


Lemma testbit_XN' i :
  Z.testbit ARM_LPAE_PTE_XN i = (i =? 53) || (i =? 54).
Proof.
  change ARM_LPAE_PTE_XN with (Z.shiftl (Z.ones 2) 53).
  rewrite testbit_shiftl_ones by lia. bits_done.
Qed.

(** A constant that is a multiple of 4 below [2^12]. *)
Lemma attr_const_bits c i :
  c mod 4 = 0 -> 0 <= c < 2 ^ 12 ->
  i < 2 \/ 12 <= i < 48 -> Z.testbit c i = false.
Proof.
  intros Hc Hr [Hi|Hi].
  - apply (testbit_aligned c 2 i); [lia|assumption|assumption].
  - apply (testbit_high_small' c 12 i); lia.
Qed.

Ltac attr_consts i H :=
  repeat match goal with
         | |- context [Z.testbit ?c i] =>
             rewrite (attr_const_bits c i)
               by first [exact H | reflexivity
                        | split; [vm_compute; discriminate | vm_compute; reflexivity]]
         end.

Lemma prot_to_pte_ok d prot : prot_ok (arm_lpae_prot_to_pte d prot).
Proof.
  intros i Hi. unfold arm_lpae_prot_to_pte.
  assert (Hx : Z.testbit ARM_LPAE_PTE_XN i = false).
  { rewrite testbit_XN'. bits_done. }
  destruct (has_cap prot IOMMU_NOEXEC), (fmt (iop d)), (has_cap prot IOMMU_WRITE),
      (has_cap prot IOMMU_PRIV), (has_cap prot IOMMU_CACHE),
      (has_cap prot IOMMU_DEVICE), (has_cap prot IOMMU_READ);
    rewrite ?Z.lor_spec, ?Hx; attr_consts i Hi; reflexivity.
Qed.

Lemma pfn_to_iopte_low pfn g i :
  0 <= pg_shift g -> i < pg_shift g -> Z.testbit (pfn_to_iopte pfn g) i = false.
Proof.
  intros Hg Hi. unfold pfn_to_iopte. rewrite Z.land_spec.
  destruct (Z.ltb_spec i 0); [now rewrite Z.testbit_neg_r|].
  rewrite Z.shiftl_spec_low by lia. reflexivity.
Qed.

(** Bits of the descriptor [arm_lpae_init_pte] composes. *)
Lemma init_pte_val_low d paddr prot lvl i :
  12 <= pg_shift d -> prot_ok prot -> i < 2 ->
  Z.testbit (arm_lpae_init_pte_val d paddr prot lvl) i =
  Z.testbit (if lvl =? ARM_LPAE_MAX_LEVELS - 1
             then ARM_LPAE_PTE_TYPE_PAGE else ARM_LPAE_PTE_TYPE_BLOCK) i.
Proof.
  intros Hg Hp Hi. unfold arm_lpae_init_pte_val.
  assert (Hi' : i < 2 \/ 12 <= i < 48) by lia.
  destruct (has_quirk _ _), (lvl =? _);
    rewrite ?Z.lor_spec, (pfn_to_iopte_low _ d i), (Hp i) by lia;
    attr_consts i Hi'; rewrite ?orb_false_r; reflexivity.
Qed.

Lemma init_pte_val_addr d paddr prot lvl i :
  12 <= pg_shift d -> prot_ok prot -> pg_shift d <= i < 48 ->
  Z.testbit (arm_lpae_init_pte_val d paddr prot lvl) i = Z.testbit paddr i.
Proof.
  intros Hg Hp Hi. unfold arm_lpae_init_pte_val.
  assert (Hi' : i < 2 \/ 12 <= i < 48) by lia.
  assert (Ha : Z.testbit (pfn_to_iopte (Z.shiftr paddr (pg_shift d)) d) i
               = Z.testbit paddr i).
  { unfold pfn_to_iopte, ARM_LPAE_MAX_ADDR_BITS. rewrite Z.land_spec.
    change (Z.shiftl 1 48 - 1) with (Z.ones 48).
    rewrite Z.testbit_ones_nonneg, Z.shiftl_spec, Z.shiftr_spec by lia.
    replace (i - pg_shift d + pg_shift d) with i by lia. bits_done. }
  destruct (has_quirk _ _), (lvl =? _);
    rewrite ?Z.lor_spec, Ha, (Hp i) by lia;
    replace (Z.testbit ARM_LPAE_PTE_TYPE_PAGE i) with false
      by (symmetry; apply (testbit_high_small' _ 2 i); [vm_compute; split; [discriminate|reflexivity]|lia]);
    replace (Z.testbit ARM_LPAE_PTE_TYPE_BLOCK i) with false
      by (symmetry; apply (testbit_high_small' _ 2 i); [vm_compute; split; [discriminate|reflexivity]|lia]);
    attr_consts i Hi'; reflexivity.
Qed.

Lemma iopte_type_bits pte l :
  iopte_type pte l = Z.land pte 3.
Proof. unfold iopte_type, ARM_LPAE_PTE_TYPE_SHIFT. now rewrite Z.shiftr_0_r. Qed.

Lemma land3_eq a b :
  (forall i, 0 <= i < 2 -> Z.testbit a i = Z.testbit b i) ->
  Z.land a 3 = Z.land b 3.
Proof.
  intros H. apply Z.bits_inj'. intros i Hi. rewrite !Z.land_spec.
  change 3 with (Z.ones 2). rewrite Z.testbit_ones_nonneg by lia.
  destruct (Z.ltb_spec i 2); [now rewrite H by lia|now rewrite !andb_false_r].
Qed.

Lemma init_pte_val_leaf d paddr prot lvl :
  12 <= pg_shift d -> prot_ok prot ->
  iopte_leaf (arm_lpae_init_pte_val d paddr prot lvl) lvl = true.
Proof.
  intros Hg Hp. unfold iopte_leaf. rewrite iopte_type_bits.
  rewrite (land3_eq _ (if lvl =? ARM_LPAE_MAX_LEVELS - 1
                       then ARM_LPAE_PTE_TYPE_PAGE else ARM_LPAE_PTE_TYPE_BLOCK))
    by (intros i Hi; apply init_pte_val_low; [assumption|assumption|lia]).
  destruct (lvl =? ARM_LPAE_MAX_LEVELS - 1); reflexivity.
Qed.

Lemma leaf_nonzero pte l : iopte_leaf pte l = true -> pte <> 0.
Proof.
  intros H ->. unfold iopte_leaf in H. destruct (l =? _); discriminate.
Qed.

(** The output address of the installed leaf. *)
Lemma init_pte_val_out d paddr prot lvl :
  12 <= pg_shift d -> prot_ok prot ->
  0 <= paddr < 2 ^ 48 -> paddr mod 2 ^ pg_shift d = 0 ->
  Z.shiftl (iopte_to_pfn (arm_lpae_init_pte_val d paddr prot lvl) d) (pg_shift d)
  = paddr.
Proof.
  intros Hg Hp Hr Ha. unfold iopte_to_pfn, ARM_LPAE_MAX_ADDR_BITS.
  apply Z.bits_inj'. intros i Hi.
  destruct (Z.ltb_spec i (pg_shift d)).
  - rewrite Z.shiftl_spec_low by lia.
    symmetry. apply (testbit_aligned paddr (pg_shift d) i); lia.
  - rewrite Z.shiftl_spec, Z.shiftr_spec, Z.land_spec by lia.
    replace (i - pg_shift d + pg_shift d) with i by lia.
    change (Z.shiftl 1 48 - 1) with (Z.ones 48).
    rewrite Z.testbit_ones_nonneg by lia.
    destruct (Z.ltb_spec i 48).
    + rewrite init_pte_val_addr by (assumption || lia). apply andb_true_r.
    + rewrite andb_false_r. symmetry. apply (testbit_high_small' paddr 48 i); lia.
Qed.


Lemma testbit_NSTABLE i :
  Z.testbit ARM_LPAE_PTE_NSTABLE i = (i =? 63).
Proof.
  change ARM_LPAE_PTE_NSTABLE with (Z.shiftl (Z.ones 1) 63).
  rewrite testbit_shiftl_ones by lia. bits_done.
Qed.

Lemma chunk_bits d c i :
  12 <= pg_shift d -> 0 < c -> chunk_ok d (c, Z.shiftl 1 (pg_shift d)) = true ->
  i < pg_shift d \/ 48 <= i -> Z.testbit c i = false.
Proof.
  unfold chunk_ok, ARM_LPAE_MAX_ADDR_BITS. cbn [fst]. intros Hg Hc Hok Hi.
  apply andb_prop in Hok. destruct Hok as [Ha Hb].
  apply Z.eqb_eq in Ha. apply Z.ltb_lt in Hb. rewrite Z.shiftl_1_l in *.
  destruct Hi as [Hi|Hi].
  - apply (testbit_aligned c (pg_shift d) i); [lia| |lia].
    change (2 ^ pg_shift d - 1) with (Z.pred (2 ^ pg_shift d)) in Ha.
    rewrite <- Z.ones_equiv, Z.land_ones in Ha by lia. assumption.
  - apply (testbit_high_small' c 48 i); lia.
Qed.

Lemma table_desc_deref d c :
  12 <= pg_shift d -> 0 < c -> chunk_ok d (c, Z.shiftl 1 (pg_shift d)) = true ->
  iopte_deref (table_desc d c) d = c.
Proof.
  intros Hg Hc Hok. unfold iopte_deref, ARM_LPAE_MAX_ADDR_BITS.
  apply Z.bits_inj'. intros i Hi.
  rewrite !Z.land_spec, testbit_iopte_val, Z.lnot_spec by lia.
  change (Z.shiftl 1 48 - 1) with (Z.ones 48).
  rewrite Z.shiftl_1_l.
  change (2 ^ pg_shift d - 1) with (Z.pred (2 ^ pg_shift d)).
  rewrite <- Z.ones_equiv, !Z.testbit_ones_nonneg by lia.
  destruct (Z.ltb_spec i (pg_shift d)).
  - rewrite (chunk_bits d c i) by (assumption || lia). now rewrite !andb_false_r.
  - destruct (Z.ltb_spec i 48).
    + assert (Hr : reserved_bit i = false) by (unfold reserved_bit; bits_done).
      rewrite Hr. unfold table_desc.
      destruct (has_quirk _ _); rewrite ?Z.lor_spec, ?testbit_NSTABLE;
        replace (Z.testbit ARM_LPAE_PTE_TYPE_TABLE i) with false
          by (symmetry; apply (testbit_high_small' _ 2 i);
              [vm_compute; split; [discriminate|reflexivity]|lia]);
        bits_done.
    + rewrite (chunk_bits d c i) by (assumption || lia). now rewrite !andb_false_r.
Qed.

Lemma table_desc_type d c l :
  12 <= pg_shift d -> 0 < c -> chunk_ok d (c, Z.shiftl 1 (pg_shift d)) = true ->
  iopte_type (table_desc d c) l = ARM_LPAE_PTE_TYPE_TABLE.
Proof.
  intros Hg Hc Hok. rewrite iopte_type_bits.
  rewrite (land3_eq _ ARM_LPAE_PTE_TYPE_TABLE); [reflexivity|].
  intros i Hi. unfold table_desc.
  destruct (has_quirk _ _); rewrite ?Z.lor_spec, ?testbit_NSTABLE,
    (chunk_bits d c i) by (assumption || lia); bits_done.
Qed.

Lemma table_desc_not_leaf d c l :
  12 <= pg_shift d -> 0 < c -> chunk_ok d (c, Z.shiftl 1 (pg_shift d)) = true ->
  l < ARM_LPAE_MAX_LEVELS - 1 ->
  iopte_leaf (table_desc d c) l = false.
Proof.
  intros Hg Hc Hok Hl. unfold iopte_leaf. rewrite table_desc_type by assumption.
  destruct (Z.eqb_spec l (ARM_LPAE_MAX_LEVELS - 1)); [lia|reflexivity].
Qed.

Lemma deref_nonzero pte d : iopte_deref pte d <> 0 -> pte <> 0.
Proof. intros H ->. apply H. reflexivity. Qed.

(** ** Separation *)

Lemma disjointb_outside a r r' :
  in_region a r -> disjointb r r' = true -> ~ in_region a r'.
Proof.
  unfold in_region, disjointb. intros Ha Hd Ha'.
  apply orb_prop in Hd. destruct Hd as [Hd|Hd]; apply Z.leb_le in Hd; lia.
Qed.

Lemma separatedb_cons r l :
  separatedb (r :: l) = true ->
  0 < fst r /\ (forall r', In r' l -> disjointb r r' = true) /\ separatedb l = true.
Proof.
  cbn [separatedb]. intros H.
  apply andb_prop in H. destruct H as [H H3].
  apply andb_prop in H. destruct H as [H1 H2].
  apply Z.ltb_lt in H1. rewrite forallb_forall in H2. auto.
Qed.

(** An address inside the first region is outside all the others. *)
Lemma separatedb_head_outside a r l :
  separatedb (r :: l) = true -> in_region a r -> outside a l.
Proof.
  intros H Ha r' Hr'. destruct (separatedb_cons _ _ H) as (_ & Hd & _).
  eapply disjointb_outside; eauto.
Qed.

Lemma outside_cons a r l :
  outside a (r :: l) -> ~ in_region a r /\ outside a l.
Proof.
  intros H. split; [apply H; now left|]. intros r' Hr'. apply H. now right.
Qed.

Lemma outside_not_slot d (Hgeo : geometry_ok d) a x l ptep rest :
  outside a ((ptep, table_span d l) :: rest) ->
  a <> ptep + sizeof_iopte * ARM_LPAE_LVL_IDX x l d.
Proof.
  intros H ->. apply outside_cons in H. destruct H as [H _]. apply H.
  now apply slot_in_table.
Qed.

(** ** One step of the walks *)

Lemma walk_at_empty n d m a lvl ptep :
  m (ptep + sizeof_iopte * ARM_LPAE_LVL_IDX a lvl d) = 0 ->
  iova_to_phys_walk n d m a lvl ptep = 0.
Proof.
  intros H. destruct n; cbn [iova_to_phys_walk]; rewrite H;
    destruct (ptep =? 0); reflexivity.
Qed.

Lemma walk_at_leaf n d m a lvl ptep pte :
  ptep <> 0 ->
  m (ptep + sizeof_iopte * ARM_LPAE_LVL_IDX a lvl d) = pte ->
  iopte_leaf pte lvl = true ->
  iova_to_phys_walk n d m a lvl ptep =
  Z.lor (Z.shiftl (iopte_to_pfn pte d) (pg_shift d))
        (Z.land a (Z.shiftl 1 (ARM_LPAE_LVL_SHIFT lvl d) - 1)).
Proof.
  intros Hp Hm Hl. pose proof (leaf_nonzero _ _ Hl) as Hnz.
  destruct n; cbn [iova_to_phys_walk]; rewrite Hm, Hl;
    destruct (Z.eqb_spec ptep 0); try contradiction;
    destruct (Z.eqb_spec pte 0); try contradiction; reflexivity.
Qed.

Lemma walk_at_table n d m a lvl ptep pte :
  ptep <> 0 ->
  m (ptep + sizeof_iopte * ARM_LPAE_LVL_IDX a lvl d) = pte ->
  pte <> 0 -> iopte_leaf pte lvl = false ->
  lvl + 1 < ARM_LPAE_MAX_LEVELS ->
  iova_to_phys_walk (S n) d m a lvl ptep =
  iova_to_phys_walk n d m a (lvl + 1) (iopte_deref pte d).
Proof.
  intros Hp Hm Hnz Hl Hlv. cbn [iova_to_phys_walk]. rewrite Hm, Hl.
  destruct (Z.eqb_spec ptep 0); try contradiction.
  destruct (Z.eqb_spec pte 0); try contradiction.
  destruct (Z.ltb_spec (lvl + 1) ARM_LPAE_MAX_LEVELS); [reflexivity|lia].
Qed.

Lemma walk_tables_end n d m a lvl ptep :
  m (ptep + sizeof_iopte * ARM_LPAE_LVL_IDX a lvl d) = 0 ->
  walk_tables n d m a lvl ptep = [(ptep, table_span d lvl)].
Proof. intros H. destruct n; cbn [walk_tables]; rewrite H; reflexivity. Qed.

Lemma walk_tables_head n d m a lvl ptep :
  exists rest, walk_tables n d m a lvl ptep = (ptep, table_span d lvl) :: rest.
Proof. destruct n; cbn [walk_tables]; eexists; reflexivity. Qed.

Lemma walk_tables_table n d m a lvl ptep pte :
  m (ptep + sizeof_iopte * ARM_LPAE_LVL_IDX a lvl d) = pte ->
  pte <> 0 -> iopte_leaf pte lvl = false ->
  lvl + 1 < ARM_LPAE_MAX_LEVELS ->
  walk_tables (S n) d m a lvl ptep =
  (ptep, table_span d lvl) :: walk_tables n d m a (lvl + 1) (iopte_deref pte d).
Proof.
  intros Hm Hnz Hl Hlv. cbn [walk_tables]. rewrite Hm, Hl.
  destruct (Z.eqb_spec pte 0); try contradiction.
  destruct (Z.ltb_spec (lvl + 1) ARM_LPAE_MAX_LEVELS); [reflexivity|lia].
Qed.

(** ** What [arm_lpae_init_pte] leaves in memory *)

Lemma init_pte_installed d iova paddr prot lvl ptep prev flush st st' :
  arm_lpae_init_pte d iova paddr prot lvl ptep prev flush st = Ret (0, st') ->
  prev <> ptep ->
  mem st' ptep = arm_lpae_init_pte_val d paddr prot lvl
  /\ (forall a, a <> prev -> a <> ptep -> mem st' a = mem st a)
  /\ (prev <> 0 -> mem st' prev = iopte_tblcnt_add (mem st prev) 1)
  /\ pool st' = pool st.
Proof.
  unfold arm_lpae_init_pte. intros H Hne.
  destruct (negb _).
  { destruct (suppress_map_failures st); inversion H. }
  injection H as <-.
  destruct flush, (Z.eqb_spec prev 0); cbn [mem set_mem emit pool]; unfold store;
    rewrite ?Z.eqb_refl; repeat split; try reflexivity; try contradiction;
    intros;
    repeat match goal with
           | |- context [?x =? ?y] => destruct (Z.eqb_spec x y); try congruence
           end.
Qed.

(** The level at which a successful call installed its leaf. *)
Lemma map_success_level d iova paddr size prot :
  forall n lvl ptep prev ms st msr st',
    lvl <= 3 ->
    __arm_lpae_map n d iova paddr size prot lvl ptep prev ms st = Ret (0, msr, st') ->
    exists L, lvl <= L <= 3 /\ size = ARM_LPAE_BLOCK_SIZE L d.
Proof.
  induction n as [|n IH]; intros lvl ptep prev ms st msr st' Hl H;
    cbn [__arm_lpae_map] in H;
    destruct (Z.eqb_spec size (ARM_LPAE_BLOCK_SIZE lvl d)); cbn [andb] in H;
    try (destruct (negb (Z.land size _ =? 0)); [exists lvl; split; [lia|assumption]|]);
    destruct (Z.geb_spec lvl (ARM_LPAE_MAX_LEVELS - 1)); try discriminate;
    unfold ARM_LPAE_MAX_LEVELS in *.
  - destruct (mem st _ =? 0).
    + destruct (io_pgtable_alloc_pages_exact _ st) as [c st1].
      destruct (c =? 0); [discriminate|].
      apply IH in H; [|lia]. destruct H as (L & HL & Hs). exists L. split; [lia|assumption].
    + apply IH in H; [|lia]. destruct H as (L & HL & Hs). exists L. split; [lia|assumption].
  - destruct (mem st _ =? 0).
    + destruct (io_pgtable_alloc_pages_exact _ st) as [c st1].
      destruct (c =? 0); [discriminate|].
      apply IH in H; [|lia]. destruct H as (L & HL & Hs). exists L. split; [lia|assumption].
    + apply IH in H; [|lia]. destruct H as (L & HL & Hs). exists L. split; [lia|assumption].
Qed.

Lemma lor_odd_nonzero x a s :
  1 <= s -> Z.testbit a 0 = true -> Z.lor x (Z.land a (Z.shiftl 1 s - 1)) <> 0.
Proof.
  intros Hs Ha E. apply (f_equal (fun z => Z.testbit z 0)) in E.
  rewrite Z.lor_spec, Z.land_spec, Ha, Z.shiftl_1_l in E.
  change (2 ^ s - 1) with (Z.pred (2 ^ s)) in E.
  rewrite <- Z.ones_equiv, Z.testbit_ones_nonneg in E by lia.
  destruct (Z.ltb_spec 0 s); [|lia]. rewrite orb_true_r in E. discriminate.
Qed.

Lemma aligned_succ_odd x n :
  1 <= n -> x mod 2 ^ n = 0 -> Z.testbit (x + 1) 0 = true.
Proof.
  intros Hn Hx. rewrite Z.bit0_odd, Z.odd_add.
  rewrite <- Z.bit0_odd, (testbit_aligned x n 0) by lia. reflexivity.
Qed.

Lemma pool_chunks_cons d c rest :
  c <> 0 ->
  pool_chunks d (c :: rest) = (c, Z.shiftl 1 (pg_shift d)) :: pool_chunks d rest.
Proof.
  intros Hc. unfold pool_chunks. cbn [filter].
  destruct (Z.eqb_spec c 0); [contradiction|reflexivity].
Qed.

(** What the allocator did when it did not refuse. *)
Lemma alloc_pages_some size st c st1 :
  io_pgtable_alloc_pages_exact size st = (c, st1) -> c <> 0 ->
  exists rest,
    pool st = c :: rest /\ pool st1 = rest
    /\ mem st1 = memzero (mem st) c size.
Proof.
  unfold io_pgtable_alloc_pages_exact. intros H Hc.
  destruct (pool st) as [|p rest]; [inversion H; congruence|].
  destruct (Z.eqb_spec p 0); inversion H; subst; [congruence|].
  exists rest. auto.
Qed.

Section MapThenTranslate.

Variable d : arm_lpae_io_pgtable.
Hypothesis Hgeo : geometry_ok d.
Variables iova paddr size prot : Z.
Hypothesis Hprot : prot_ok prot.
Hypothesis Hpa : 0 <= paddr < 2 ^ 48.
Hypothesis Hia : iova mod size = 0.
Hypothesis Hpaa : paddr mod size = 0.

Lemma map_installs_leaf n lvl ptep prev flush st st' :
  lvl <= 3 -> size = ARM_LPAE_BLOCK_SIZE lvl d -> 0 < ptep ->
  (prev = 0 \/ outside prev (walk_tables n d (mem st) iova lvl ptep
                             ++ pool_chunks d (pool st))) ->
  arm_lpae_init_pte d iova paddr prot lvl
    (ptep + sizeof_iopte * ARM_LPAE_LVL_IDX iova lvl d) prev flush st
  = Ret (0, st') ->
  (forall a, a <> prev ->
             outside a (walk_tables n d (mem st) iova lvl ptep
                        ++ pool_chunks d (pool st)) ->
             mem st' a = mem st a)
  /\ (prev <> 0 -> same_outside_reserved (mem st' prev) (mem st prev))
  /\ (forall k, 0 <= k < size ->
                iova_to_phys_walk n d (mem st') (iova + k) lvl ptep = paddr + k).
Proof.
  destruct Hgeo as (Hpg & Hbpl & Hlv).
  intros Hl Hs Hp Hprev H.
  rewrite block_size_eq in Hs by assumption.
  pose proof (lvl_shift_lower d Hgeo lvl Hl) as Hlow.
  destruct (walk_tables_head n d (mem st) iova lvl ptep) as [wrest Hw].
  rewrite Hw in *. cbn [app] in *.
  pose proof (lvl_idx_range d Hgeo iova lvl) as Hidx.
  assert (Hne : prev <> ptep + sizeof_iopte * ARM_LPAE_LVL_IDX iova lvl d).
  { destruct Hprev as [->|Hout]; [unfold sizeof_iopte; lia|].
    eapply outside_not_slot; eauto. }
  destruct (init_pte_installed _ _ _ _ _ _ _ _ _ _ H Hne) as (Hleaf & Hfr & Hcnt & _).
  split; [|split].
  - intros a Ha Hout. apply Hfr; [assumption|]. eapply outside_not_slot; eauto.
  - intros Hnz. rewrite (Hcnt Hnz). apply tblcnt_add_same_outside.
  - intros k Hk. rewrite Hs in Hia, Hpaa, Hk.
    rewrite (walk_at_leaf n d (mem st') (iova + k) lvl ptep
               (arm_lpae_init_pte_val d paddr prot lvl)); try lia.
    + rewrite init_pte_val_out; try assumption.
      * rewrite land_add_small by (assumption || lia).
        apply lor_aligned_small with (n := ARM_LPAE_LVL_SHIFT lvl d); assumption || lia.
      * apply aligned_weaken with (n := ARM_LPAE_LVL_SHIFT lvl d); assumption || lia.
    + rewrite (lvl_idx_add_small d Hgeo iova k lvl lvl); assumption || lia.
    + now apply init_pte_val_leaf.
Qed.

Lemma map_installs :
  forall n lvl ptep prev st msr st',
    ARM_LPAE_START_LVL d <= lvl <= 3 ->
    levels_below lvl = n ->
    separatedb (walk_tables n d (mem st) iova lvl ptep
                ++ pool_chunks d (pool st)) = true ->
    forallb (chunk_ok d) (pool_chunks d (pool st)) = true ->
    (prev = 0 \/ outside prev (walk_tables n d (mem st) iova lvl ptep
                               ++ pool_chunks d (pool st))) ->
    iova_to_phys_walk n d (mem st) (iova + 1) lvl ptep = 0 ->
    __arm_lpae_map n d iova paddr size prot lvl ptep prev None st
    = Ret (0, msr, st') ->
    (forall a, a <> prev ->
               outside a (walk_tables n d (mem st) iova lvl ptep
                          ++ pool_chunks d (pool st)) ->
               mem st' a = mem st a)
    /\ (prev <> 0 -> same_outside_reserved (mem st' prev) (mem st prev))
    /\ (forall k, 0 <= k < size ->
                  iova_to_phys_walk n d (mem st') (iova + k) lvl ptep = paddr + k).
Proof.
  destruct Hgeo as (Hpg & Hbpl & Hlv).
  assert (Hcommon : forall n lvl ptep prev st msr st',
    ARM_LPAE_START_LVL d <= lvl <= 3 ->
    separatedb (walk_tables n d (mem st) iova lvl ptep
                ++ pool_chunks d (pool st)) = true ->
    __arm_lpae_map n d iova paddr size prot lvl ptep prev None st
    = Ret (0, msr, st') ->
    (exists L, lvl <= L <= 3 /\ size = 2 ^ ARM_LPAE_LVL_SHIFT L d
               /\ pg_shift d <= ARM_LPAE_LVL_SHIFT L d)
    /\ 0 < ptep
    /\ outside (ptep + sizeof_iopte * ARM_LPAE_LVL_IDX iova lvl d)
               (tl (walk_tables n d (mem st) iova lvl ptep) ++ pool_chunks d (pool st))).
  { intros n lvl ptep prev st msr st' Hl Hsep H.
    destruct (map_success_level _ _ _ _ _ _ _ _ _ _ _ _ _ (proj2 Hl) H)
      as (L & HL & HsL).
    rewrite block_size_eq in HsL by assumption.
    pose proof (lvl_shift_lower d Hgeo L (proj2 HL)) as HsLlow.
    split; [exists L; auto|].
    destruct (walk_tables_head n d (mem st) iova lvl ptep) as [wrest Hw].
    rewrite Hw in *. cbn [tl app] in *.
    split; [apply separatedb_cons in Hsep; apply Hsep|].
    eapply separatedb_head_outside; [exact Hsep|]. now apply slot_in_table. }
  induction n as [|n IH]; intros lvl ptep prev st msr st' Hl Hn Hsep Hok Hprev Hun H.
  - (* the last level *)
    destruct (Hcommon _ _ _ _ _ _ _ Hl Hsep H) as (_ & Hp & _).
    cbn [__arm_lpae_map] in H.
    destruct (Z.eqb_spec size (ARM_LPAE_BLOCK_SIZE lvl d)) as [Hs|]; cbn [andb] in H.
    2:{ destruct (lvl >=? ARM_LPAE_MAX_LEVELS - 1); discriminate. }
    destruct (negb (Z.land size _ =? 0)).
    2:{ destruct (lvl >=? ARM_LPAE_MAX_LEVELS - 1); discriminate. }
    destruct (arm_lpae_init_pte _ _ _ _ _ _ _ _ _) as [[r st1]|] eqn:Hi; [|discriminate].
    injection H as -> _ <-.
    apply (map_installs_leaf 0 lvl ptep prev true st st1); auto; lia.
  - destruct (Hcommon _ _ _ _ _ _ _ Hl Hsep H) as ((L & HL & HsL & HsLlow) & Hp & Hsout).
    cbn [__arm_lpae_map] in H.
    destruct ((size =? ARM_LPAE_BLOCK_SIZE lvl d)
              && negb (Z.land size (pgsize_bitmap (cfg (iop d))) =? 0)) eqn:Hleaf.
    { (* a leaf at this level *)
      apply andb_prop in Hleaf. destruct Hleaf as [Hs _]. apply Z.eqb_eq in Hs.
      destruct (arm_lpae_init_pte _ _ _ _ _ _ _ _ _) as [[r st1]|] eqn:Hi; [|discriminate].
      injection H as -> _ <-.
      apply (map_installs_leaf (S n) lvl ptep prev true st st1); auto; lia. }
    destruct (Z.geb_spec lvl (ARM_LPAE_MAX_LEVELS - 1)) as [|Hlt]; [discriminate|].
    unfold ARM_LPAE_MAX_LEVELS in Hlt.
    clear L HL HsL HsLlow.
    assert (Hn' : levels_below (lvl + 1) = n).
    { rewrite (levels_below_step lvl) in Hn by (unfold ARM_LPAE_MAX_LEVELS; lia).
      now injection Hn. }
    assert (Hin_s : in_region (ptep + sizeof_iopte * ARM_LPAE_LVL_IDX iova lvl d)
                              (ptep, table_span d lvl)) by now apply slot_in_table.
    assert (Hspan : table_span d (lvl + 1) = Z.shiftl 1 (pg_shift d))
      by (apply table_span_inner; [assumption|lia]).
    set (s := ptep + sizeof_iopte * ARM_LPAE_LVL_IDX iova lvl d) in *.
    assert (Hs0 : s <> 0).
    { unfold in_region in Hin_s. cbn [fst snd] in Hin_s. lia. }
    (* the facts both branches draw from the call one level down *)
    assert (Hdown : forall c st2,
      __arm_lpae_map n d iova paddr size prot (lvl + 1) c s None st2
      = Ret (0, msr, st') ->
      separatedb (walk_tables n d (mem st2) iova (lvl + 1) c
                  ++ pool_chunks d (pool st2)) = true ->
      forallb (chunk_ok d) (pool_chunks d (pool st2)) = true ->
      outside s (walk_tables n d (mem st2) iova (lvl + 1) c
                 ++ pool_chunks d (pool st2)) ->
      iova_to_phys_walk n d (mem st2) (iova + 1) (lvl + 1) c = 0 ->
      iopte_deref (mem st2 s) d = c ->
      iopte_leaf (mem st2 s) lvl = false ->
      (forall a, a <> s ->
                 outside a (walk_tables n d (mem st2) iova (lvl + 1) c
                            ++ pool_chunks d (pool st2)) ->
                 mem st' a = mem st2 a)
      /\ (forall k, 0 <= k < size ->
             iova_to_phys_walk (S n) d (mem st') (iova + k) lvl ptep = paddr + k)).
    { intros c st2 Hrec Hsep2 Hok2 Hout2 Hun2 Hderef Hnl.
      assert (Hl2 : ARM_LPAE_START_LVL d <= lvl + 1 <= 3) by lia.
      destruct (IH (lvl + 1) c s st2 msr st' Hl2 Hn' Hsep2 Hok2 (or_intror Hout2)
                   Hun2 Hrec) as (Hfr & Hcnt & Htr).
      split; [exact Hfr|].
      intros k Hk.
      destruct (map_success_level _ _ _ _ _ _ _ _ _ _ _ _ _ (proj2 Hl2) Hrec)
        as (L & HL & HsL).
      rewrite block_size_eq in HsL by assumption.
      pose proof (lvl_shift_lower d Hgeo L (proj2 HL)) as HsLlow.
      rewrite HsL in Hia, Hk.
      destruct (walk_tables_head n d (mem st2) iova (lvl + 1) c) as [wr Hwr].
      rewrite Hwr in Hsep2. cbn [app] in Hsep2.
      apply separatedb_cons in Hsep2. destruct Hsep2 as (Hc & _). cbn [fst] in Hc.
      specialize (Hcnt Hs0).
      rewrite (walk_at_table n d (mem st') (iova + k) lvl ptep (mem st' s)).
      - rewrite (same_outside_deref _ _ d Hcnt), Hderef. apply Htr. lia.
      - lia.
      - rewrite (lvl_idx_add_small d Hgeo iova k lvl L); (assumption || lia || reflexivity).
      - apply (deref_nonzero _ d). rewrite (same_outside_deref _ _ d Hcnt), Hderef. lia.
      - now rewrite (same_outside_leaf _ _ lvl Hcnt).
      - unfold ARM_LPAE_MAX_LEVELS. lia. }
    assert (Hrefl : forall x, same_outside_reserved x x) by (intros x i _; reflexivity).
    destruct (Z.eqb_spec (mem st s) 0) as [Hz|Hnz].
    + (* a fresh table *)
      destruct (io_pgtable_alloc_pages_exact _ st) as [c st1] eqn:Ha.
      destruct (Z.eqb_spec c 0) as [|Hc]; [discriminate|].
      destruct (alloc_pages_some _ _ _ _ Ha Hc) as (rest & Hpool & Hpool1 & Hmem1).
      match type of H with
      | __arm_lpae_map _ _ _ _ _ _ _ _ _ _ ?x = _ => set (st2 := x) in H
      end.
      assert (Hmem2 : mem st2 = store (memzero (mem st) c (Z.shiftl 1 (pg_shift d)))
                                      s (table_desc d c))
        by (subst st2; cbn [mem set_mem emit]; now rewrite Hmem1).
      assert (Hpool2 : pool st2 = rest) by (subst st2; cbn [pool set_mem emit]; assumption).
      rewrite (walk_tables_end (S n) d (mem st) iova lvl ptep Hz) in *.
      rewrite Hpool, (pool_chunks_cons d c rest Hc) in *. cbn [app tl] in *.
      cbn [forallb] in Hok. apply andb_prop in Hok. destruct Hok as [Hokc Hok].
      pose proof Hsep as Hsep'. apply separatedb_cons in Hsep'.
      destruct Hsep' as (_ & _ & Hsepc).
      pose proof Hsepc as Hsepc'. apply separatedb_cons in Hsepc'.
      destruct Hsepc' as (Hcpos & _ & _). cbn [fst] in Hcpos.
      assert (Hzero : forall x, mem st2 (c + sizeof_iopte * ARM_LPAE_LVL_IDX x (lvl + 1) d) = 0).
      { intros x.
        pose proof (slot_in_table d Hgeo x (lvl + 1) c) as Hin. rewrite Hspan in Hin.
        rewrite Hmem2. unfold store, memzero.
        destruct (Z.eqb_spec (c + sizeof_iopte * ARM_LPAE_LVL_IDX x (lvl + 1) d) s) as [E|_].
        - exfalso. apply (Hsout (c, Z.shiftl 1 (pg_shift d))); [now left|].
          rewrite <- E. exact Hin.
        - unfold in_region in Hin. cbn [fst snd] in Hin.
          destruct (Z.leb_spec c (c + sizeof_iopte * ARM_LPAE_LVL_IDX x (lvl + 1) d)); [|lia].
          destruct (Z.ltb_spec (c + sizeof_iopte * ARM_LPAE_LVL_IDX x (lvl + 1) d)
                               (c + Z.shiftl 1 (pg_shift d))); [reflexivity|lia]. }
      assert (Hw2 : walk_tables n d (mem st2) iova (lvl + 1) c
                    = [(c, Z.shiftl 1 (pg_shift d))])
        by (rewrite (walk_tables_end n d (mem st2) iova (lvl + 1) c (Hzero iova));
            now rewrite Hspan).
      assert (Hs2 : mem st2 s = table_desc d c)
        by (rewrite Hmem2; unfold store; now rewrite Z.eqb_refl).
      destruct (Hdown c st2 H) as (Hfr2 & Htr).
      { now rewrite Hw2, Hpool2. }
      { now rewrite Hpool2. }
      { now rewrite Hw2, Hpool2. }
      { apply walk_at_empty. apply Hzero. }
      { rewrite Hs2. now apply table_desc_deref. }
      { rewrite Hs2. apply table_desc_not_leaf; unfold ARM_LPAE_MAX_LEVELS; assumption || lia. }
      rewrite Hw2, Hpool2 in Hfr2. cbn [app] in Hfr2.
      assert (Hfr : forall a, outside a ((ptep, table_span d lvl)
                                         :: (c, Z.shiftl 1 (pg_shift d))
                                         :: pool_chunks d rest) ->
                              mem st' a = mem st a).
      { intros a Hout. pose proof (outside_not_slot d Hgeo _ iova _ _ _ Hout) as Hne.
        apply outside_cons in Hout. destruct Hout as [_ Hout].
        rewrite (Hfr2 a Hne Hout), Hmem2. unfold store, memzero. fold s in Hne.
        destruct (Z.eqb_spec a s); [contradiction|].
        apply outside_cons in Hout. destruct Hout as [Hout _].
        unfold in_region in Hout. cbn [fst snd] in Hout.
        destruct (Z.leb_spec c a); [|reflexivity].
        destruct (Z.ltb_spec a (c + Z.shiftl 1 (pg_shift d))); [lia|reflexivity]. }
      split; [|split].
      * intros a _ Hout. now apply Hfr.
      * intros Hp0. destruct Hprev as [|Hout]; [contradiction|].
        rewrite (Hfr prev Hout). apply Hrefl.
      * exact Htr.
    + (* an existing table *)
      set (pte := mem st s) in *.
      assert (Hl3 : lvl + 1 <= 3) by lia.
      destruct (map_success_level _ _ _ _ _ _ _ _ _ _ _ _ _ Hl3 H) as (L & HL & HsL).
      rewrite block_size_eq in HsL by assumption.
      pose proof (lvl_shift_lower d Hgeo L (proj2 HL)) as HsLlow.
      assert (Hia' : iova mod 2 ^ ARM_LPAE_LVL_SHIFT L d = 0) by now rewrite <- HsL.
      assert (Hone : 0 <= 1 < 2 ^ ARM_LPAE_LVL_SHIFT L d).
      { split; [lia|]. apply Z.le_lt_trans with (2 ^ 0); [simpl; lia|].
        apply Z.pow_lt_mono_r; lia. }
      assert (Hslot1 : mem st (ptep + sizeof_iopte * ARM_LPAE_LVL_IDX (iova + 1) lvl d)
                       = pte).
      { subst pte s. rewrite (lvl_idx_add_small d Hgeo iova 1 lvl L);
          (assumption || lia || reflexivity). }
      assert (Hnl : iopte_leaf pte lvl = false).
      { destruct (iopte_leaf pte lvl) eqn:E; [exfalso|reflexivity].
        rewrite (walk_at_leaf (S n) d (mem st) (iova + 1) lvl ptep pte) in Hun;
          [|lia|exact Hslot1|exact E].
        revert Hun. apply lor_odd_nonzero.
        - pose proof (lvl_shift_lower d Hgeo lvl (proj2 Hl)). lia.
        - apply aligned_succ_odd with (n := ARM_LPAE_LVL_SHIFT L d); assumption || lia. }
      assert (Hlv4 : lvl + 1 < ARM_LPAE_MAX_LEVELS) by (unfold ARM_LPAE_MAX_LEVELS; lia).
      rewrite (walk_tables_table n d (mem st) iova lvl ptep pte eq_refl Hnz Hnl Hlv4) in *.
      cbn [app tl] in *.
      rewrite (walk_at_table n d (mem st) (iova + 1) lvl ptep pte) in Hun;
        [|lia|exact Hslot1|assumption|assumption|assumption].
      pose proof Hsep as Hsep'. apply separatedb_cons in Hsep'.
      destruct Hsep' as (_ & _ & Hsepc).
      destruct (Hdown (iopte_deref pte d) st H Hsepc Hok Hsout Hun eq_refl Hnl)
        as (Hfr2 & Htr).
      assert (Hfr : forall a, outside a ((ptep, table_span d lvl)
                                 :: walk_tables n d (mem st) iova (lvl + 1)
                                                (iopte_deref pte d)
                                 ++ pool_chunks d (pool st)) ->
                              mem st' a = mem st a).
      { intros a Hout. pose proof (outside_not_slot d Hgeo _ iova _ _ _ Hout) as Hne.
        apply outside_cons in Hout. destruct Hout as [_ Hout].
        now apply Hfr2. }
      split; [|split].
      * intros a _ Hout. now apply Hfr.
      * intros Hp0. destruct Hprev as [|Hout]; [contradiction|].
        rewrite (Hfr prev Hout). apply Hrefl.
      * exact Htr.
Qed.

End MapThenTranslate.

Lemma start_lvl_le d : geometry_ok d -> ARM_LPAE_START_LVL d <= 3.
Proof.
  intros (_ & _ & Hlv). unfold ARM_LPAE_START_LVL, ARM_LPAE_MAX_LEVELS. lia.
Qed.


(** C1. For every successful call [arm_lpae_map d iova paddr size prot]
    (return value 0) on a tree in which the range [[iova, iova + size)]
    was unmapped (every address of it translated to 0), and for every
    offset [k] with [0 <= k < size], a subsequent
    [arm_lpae_iova_to_phys d (iova + k)] returns [paddr + k].  The
    preconditions are those the interface puts on the caller: [iova]
    and [paddr] are multiples of [size], [paddr] fits the 48 bits of
    the output address, the protection set grants read or write, and
    the tables of the walk and the chunks the allocator hands out
    occupy memory of their own ([walk_separated]), in a domain with the
    geometry the format initialisers produce ([geometry_ok]). *)
Theorem map_then_translate d st iova paddr size prot st' :
  geometry_ok d ->
  has_access prot = true ->
  iova mod size = 0 -> paddr mod size = 0 -> 0 <= paddr < 2 ^ 48 ->
  walk_separated d st iova = true ->
  (forall j, 0 <= j < size -> arm_lpae_iova_to_phys d (iova + j) st = 0) ->
  arm_lpae_map d iova paddr size prot st = Ret (0, st') ->
  forall k, 0 <= k < size ->
            arm_lpae_iova_to_phys d (iova + k) st' = paddr + k.
Proof.
  intros Hgeo Hacc Hia Hpaa Hpa Hsep Hun H k Hk.
  unfold arm_lpae_map in H. unfold has_access in Hacc. rewrite Hacc in H.
  cbn [negb] in H.
  destruct (__arm_lpae_map _ _ _ _ _ _ _ _ _ _ _) as [[[r msr] st1]|] eqn:Hm;
    [|discriminate].
  assert (r = 0 /\ st1 = st') as [-> ->] by (split; congruence).
  pose proof (start_lvl_le d Hgeo) as Hst.
  destruct (map_success_level _ _ _ _ _ _ _ _ _ _ _ _ _ Hst Hm) as (L & HL & HsL).
  rewrite (block_size_eq d Hgeo) in HsL.
  pose proof (lvl_shift_lower d Hgeo L (proj2 HL)) as HsLlow.
  destruct Hgeo as (Hpg & Hbpl & Hlv) eqn:Eg.
  assert (Hone : 0 <= 1 < size).
  { rewrite HsL. split; [lia|]. apply Z.le_lt_trans with (2 ^ 0); [simpl; lia|].
    apply Z.pow_lt_mono_r; lia. }
  unfold walk_separated in Hsep. apply andb_prop in Hsep. destruct Hsep as [Hsep Hok].
  unfold arm_lpae_iova_to_phys.
  refine (proj2 (proj2 (map_installs d (conj Hpg (conj Hbpl Hlv)) iova paddr size _
            (prot_to_pte_ok d prot) Hpa Hia Hpaa _ _ _ 0 st msr st' _ eq_refl Hsep Hok
            (or_introl eq_refl) (Hun 1 Hone) Hm)) k Hk).
  lia.
Qed.

(** [map(0, 0x80000000, 4K)] on the selftest domain, read back at
    offset [0x123]. *)
Lemma map_then_translate_witness :
  exists st',
    arm_lpae_map selftest_data 0 0x80000000 SZ_4K RW selftest_machine = Ret (0, st')
    /\ arm_lpae_iova_to_phys selftest_data (0 + 0x123) st' = 0x80000000 + 0x123.
Proof.
  assert (E : result_of (arm_lpae_map selftest_data 0 0x80000000 SZ_4K RW
                                      selftest_machine) = Some 0)
    by (vm_compute; reflexivity).
  destruct (arm_lpae_map selftest_data 0 0x80000000 SZ_4K RW selftest_machine)
    as [[r st']|] eqn:Hm; cbn [result_of] in E; [|discriminate].
  injection E as ->. exists st'. split; [reflexivity|].
  apply (map_then_translate selftest_data selftest_machine 0 0x80000000 SZ_4K RW st').
  - unfold geometry_ok. cbn. lia.
  - reflexivity.
  - reflexivity.
  - reflexivity.
  - split; [lia | reflexivity].
  - vm_compute. reflexivity.
  - intros j Hj. unfold arm_lpae_iova_to_phys. apply walk_at_empty.
    unfold selftest_machine, memzero, boot. cbn [mem].
    destruct (_ && _); reflexivity.
  - exact Hm.
  - unfold SZ_4K. lia.
Defined.

(** ** Where [tlb_flush_all] is called *)

Lemma init_pte_flushes d iova paddr prot lvl ptep prev flush st r st' :
  arm_lpae_init_pte d iova paddr prot lvl ptep prev flush st = Ret (r, st') ->
  tlb_flushes (trace st') = tlb_flushes (trace st).
Proof.
  unfold arm_lpae_init_pte. intros H.
  destruct (negb _).
  - destruct (suppress_map_failures st); [|discriminate]. now injection H as _ <-.
  - injection H as _ <-. destruct flush, (prev =? 0); reflexivity.
Qed.

Lemma ms_flush_flushes s st :
  tlb_flushes (trace (ms_flush s st)) = tlb_flushes (trace st).
Proof. unfold ms_flush. destruct (pgtable s =? 0); reflexivity. Qed.

Lemma alloc_pages_trace size st c st1 :
  io_pgtable_alloc_pages_exact size st = (c, st1) -> trace st1 = trace st.
Proof.
  unfold io_pgtable_alloc_pages_exact. intros H.
  destruct (pool st) as [|p rest]; [now injection H as _ <-|].
  destruct (p =? 0); now injection H as _ <-.
Qed.

Lemma map_flushes d iova paddr size prot :
  forall fuel lvl ptep prev ms st r ms' st',
    __arm_lpae_map fuel d iova paddr size prot lvl ptep prev ms st = Ret (r, ms', st') ->
    tlb_flushes (trace st') = tlb_flushes (trace st).
Proof.
  induction fuel as [|fuel IH]; intros lvl ptep prev ms st r ms' st' H;
    cbn [__arm_lpae_map] in H; cbv zeta in H.
  - destruct (_ && _).
    + destruct ms as [s|].
      * destruct (lvl =? MAP_STATE_LVL);
          destruct (arm_lpae_init_pte _ _ _ _ _ _ _ _ _) as [[r1 st1]|] eqn:Hi;
          try discriminate; injection H as _ _ <-;
          rewrite (init_pte_flushes _ _ _ _ _ _ _ _ _ _ _ Hi); apply ms_flush_flushes.
      * destruct (arm_lpae_init_pte _ _ _ _ _ _ _ _ _) as [[r1 st1]|] eqn:Hi;
          try discriminate; injection H as _ _ <-.
        apply (init_pte_flushes _ _ _ _ _ _ _ _ _ _ _ Hi).
    + destruct (lvl >=? _); [|discriminate]. now injection H as _ _ <-.
  - destruct (_ && _).
    + destruct ms as [s|].
      * destruct (lvl =? MAP_STATE_LVL);
          destruct (arm_lpae_init_pte _ _ _ _ _ _ _ _ _) as [[r1 st1]|] eqn:Hi;
          try discriminate; injection H as _ _ <-;
          rewrite (init_pte_flushes _ _ _ _ _ _ _ _ _ _ _ Hi); apply ms_flush_flushes.
      * destruct (arm_lpae_init_pte _ _ _ _ _ _ _ _ _) as [[r1 st1]|] eqn:Hi;
          try discriminate; injection H as _ _ <-.
        apply (init_pte_flushes _ _ _ _ _ _ _ _ _ _ _ Hi).
    + destruct (lvl >=? _); [now injection H as _ _ <-|].
      destruct (mem st _ =? 0).
      * destruct (io_pgtable_alloc_pages_exact _ st) as [c st1] eqn:Ha.
        apply alloc_pages_trace in Ha.
        destruct (c =? 0); [injection H as _ _ <-; now rewrite Ha|].
        apply IH in H. rewrite H. cbn [trace emit set_mem tlb_flushes filter].
        now rewrite Ha.
      * now apply IH in H.
Qed.

Lemma free_pgtable_flushes d :
  forall fuel lvl ptep st st',
    __arm_lpae_free_pgtable fuel d lvl ptep st = Ret st' ->
    tlb_flushes (trace st') = tlb_flushes (trace st).
Proof.
  induction fuel as [|fuel IH]; intros lvl ptep st st' H;
    cbn [__arm_lpae_free_pgtable] in H; cbv zeta in H.
  - destruct (lvl =? ARM_LPAE_MAX_LEVELS - 1); [|discriminate].
    now injection H as <-.
  - destruct (lvl =? ARM_LPAE_MAX_LEVELS - 1); [now injection H as <-|].
    match type of H with
    | match fold_left ?f ?l0 _ with _ => _ end = _ =>
        assert (Hfold : forall ixs acc st1,
                  fold_left f ixs acc = Ret st1 ->
                  exists st0, acc = Ret st0
                              /\ tlb_flushes (trace st1) = tlb_flushes (trace st0));
        [|destruct (fold_left f l0 (Ret st)) as [st1|] eqn:Hw; [|discriminate]]
    end.
    { induction ixs as [|i l IHl]; intros acc st1 Hl; cbn [fold_left] in Hl.
      - exists st1. auto.
      - apply IHl in Hl. destruct Hl as (st0 & Hst0 & Hl).
        destruct acc as [st2|]; [|discriminate].
        exists st2. split; [reflexivity|]. rewrite Hl.
        destruct (_ || _); [now injection Hst0 as <-|].
        now apply IH in Hst0. }
    apply Hfold in Hw. destruct Hw as (st0 & Hst0 & Hw).
    injection Hst0 as <-. injection H as <-. exact Hw.
Qed.

Lemma split_blk_for_flushes d iova size prot lvl prev :
  forall fuel blk_start blk_end blk_paddr st b st',
    split_blk_for fuel d iova size prot lvl prev blk_start blk_end blk_paddr st
    = Ret (b, st') ->
    tlb_flushes (trace st') = tlb_flushes (trace st).
Proof.
  induction fuel as [|fuel IH]; intros blk_start blk_end blk_paddr st b st' H;
    cbn [split_blk_for] in H; cbv zeta in H;
    (destruct (blk_start <? blk_end); [|now injection H as _ <-]);
    [discriminate|].
  destruct (blk_start =? iova); [now apply IH in H|].
  destruct (__arm_lpae_map _ _ _ _ _ _ _ _ _ _ _) as [[[r ms] st1]|] eqn:Hm;
    [|discriminate].
  apply map_flushes in Hm.
  destruct (r <? 0); [|apply IH in H; congruence].
  destruct (negb _); [|injection H as _ <-; assumption].
  destruct (__arm_lpae_free_pgtable _ _ _ _ _) as [st2|] eqn:Hf; [|discriminate].
  apply free_pgtable_flushes in Hf. injection H as _ <-. congruence.
Qed.

Lemma split_blk_unmap_flushes d iova size prot lvl ptep prev blk_size st r st' :
  arm_lpae_split_blk_unmap d iova size prot lvl ptep prev blk_size st = Ret (r, st') ->
  tlb_flushes (trace st') = tlb_flushes (trace st).
Proof.
  unfold arm_lpae_split_blk_unmap. cbv zeta. intros H.
  destruct (split_blk_for _ _ _ _ _ _ _ _ _ _ _) as [[b st1]|] eqn:Hs; [|discriminate].
  apply split_blk_for_flushes in Hs. cbn [trace set_mem] in Hs.
  destruct b; injection H as _ <-; assumption.
Qed.

Lemma unmap_flushes d iova size :
  forall fuel lvl ptep prev st r st',
    __arm_lpae_unmap fuel d iova size lvl ptep prev st = Ret (r, st') ->
    tlb_flushes (trace st') = tlb_flushes (trace st).
Proof.
  induction fuel as [|fuel IH]; intros lvl ptep prev st r st' H;
    cbn [__arm_lpae_unmap] in H; cbv zeta in H.
  all: destruct (_ || _); [now injection H as _ <-|].
  all: destruct (size =? _);
    [destruct (negb _);
     [destruct (__arm_lpae_free_pgtable _ _ _ _ _) as [st2|] eqn:Hf; [|discriminate];
      apply free_pgtable_flushes in Hf; injection H as _ <-; exact Hf
     |now injection H as _ <-]|].
  all: destruct (_ && _);
    [injection H as _ <-; cbn [set_mem mem emit io_pgtable_free_pages_exact];
     destruct (iopte_tblcnt _ =? 0); reflexivity|].
  all: destruct (iopte_leaf _ lvl); [now apply split_blk_unmap_flushes in H|].
  - discriminate.
  - now apply IH in H.
Qed.

Lemma unmap_while_flushes d :
  forall fuel iova size unmapped lvl ptep st r st',
    unmap_while fuel d iova size unmapped lvl ptep st = Ret (r, st') ->
    tlb_flushes (trace st') = tlb_flushes (trace st).
Proof.
  induction fuel as [|fuel IH]; intros iova size unmapped lvl ptep st r st' H;
    cbn [unmap_while] in H; cbv zeta in H;
    (destruct (unmapped <? size); [|now injection H as _ <-]);
    [discriminate|].
  destruct (if _ <? SZ_2M then _ else _) as [sz|]; [|discriminate].
  destruct (__arm_lpae_unmap _ _ _ _ _ _ _ _) as [[ret st1]|] eqn:Hu; [|discriminate].
  apply unmap_flushes in Hu.
  destruct (ret =? 0); [now injection H as _ <-|].
  apply IH in H. congruence.
Qed.

(** [arm_lpae_unmap] calls [tlb_flush_all] once, as its last call to the
    collaborators, when the count it returns is not zero, and not at all
    when it returns zero. *)
Lemma unmap_flushes_iff_bytes d iova size st r st' :
  arm_lpae_unmap d iova size st = Ret (r, st') ->
  tlb_flushes (trace st')
  = (tlb_flushes (trace st) + if (r =? 0)%Z then 0 else 1)%nat
  /\ (r <> 0 -> exists t, trace st' = tlb_flush_all :: t).
Proof.
  unfold arm_lpae_unmap. cbv zeta. intros H.
  destruct (unmap_while _ _ _ _ _ _ _ _) as [[u st1]|] eqn:Hw; [|discriminate].
  apply unmap_while_flushes in Hw. injection H as <- <-.
  destruct (Z.eqb_spec u 0) as [->|Hu]; cbn [negb trace emit tlb_flushes filter length].
  - split; [lia|]. intros Hc. now contradiction Hc.
  - split; [fold (tlb_flushes (trace st1)); lia|]. intros _. now exists (trace st1).
Qed.

(** ** Splitting a block on unmap *)

(** ** One call of [__arm_lpae_map], step by step *)

Lemma init_pte_fields d iova paddr prot lvl ptep prev flush st r st' :
  arm_lpae_init_pte d iova paddr prot lvl ptep prev flush st = Ret (r, st') ->
  frame st' = frame st /\ pool st' = pool st.
Proof.
  unfold arm_lpae_init_pte. intros H.
  destruct (negb _).
  - destruct (suppress_map_failures st); [|discriminate]. injection H as _ <-. auto.
  - injection H as _ <-. destruct flush, (prev =? 0); auto.
Qed.

Lemma init_pte_returns d iova paddr prot lvl ptep prev flush st :
  Z.land (mem st ptep) ARM_LPAE_PTE_VALID = 0 ->
  exists st', arm_lpae_init_pte d iova paddr prot lvl ptep prev flush st = Ret (0, st').
Proof.
  intros H. unfold arm_lpae_init_pte. rewrite H. cbn [Z.eqb negb]. eauto.
Qed.

Lemma map_leaf_here d iova paddr size prot fuel lvl ptep prev st :
  size = ARM_LPAE_BLOCK_SIZE lvl d ->
  Z.land size (pgsize_bitmap (cfg (iop d))) <> 0 ->
  __arm_lpae_map fuel d iova paddr size prot lvl ptep prev None st =
  match arm_lpae_init_pte d iova paddr prot lvl
          (ptep + sizeof_iopte * ARM_LPAE_LVL_IDX iova lvl d) prev true st with
  | Ret (r, st') => Ret (r, None, st')
  | BUG => BUG
  end.
Proof.
  intros Hs Hb. apply Z.eqb_eq in Hs. apply Z.eqb_neq in Hb.
  destruct fuel; cbn [__arm_lpae_map]; cbv zeta; rewrite Hs, Hb; reflexivity.
Qed.

Lemma map_table_here d iova paddr size prot n lvl ptep prev st :
  size <> ARM_LPAE_BLOCK_SIZE lvl d -> lvl < 3 ->
  __arm_lpae_map (S n) d iova paddr size prot lvl ptep prev None st =
  let s := ptep + sizeof_iopte * ARM_LPAE_LVL_IDX iova lvl d in
  if mem st s =? 0 then
    let '(cptep, st1) := io_pgtable_alloc_pages_exact (Z.shiftl 1 (pg_shift d)) st in
    if cptep =? 0 then Ret (- ENOMEM, None, st1)
    else
      __arm_lpae_map n d iova paddr size prot (lvl + 1) cptep s None
        (emit (set_mem (emit st1 (flush_pgtable cptep (Z.shiftl 1 (pg_shift d))))
                       (store (mem st1) s (table_desc d cptep)))
              (flush_pgtable s sizeof_iopte))
  else __arm_lpae_map n d iova paddr size prot (lvl + 1)
                      (iopte_deref (mem st s) d) s None st.
Proof.
  intros Hs Hl. apply Z.eqb_neq in Hs.
  cbn [__arm_lpae_map]; cbv zeta. rewrite Hs. cbn [andb].
  destruct (Z.geb_spec lvl (ARM_LPAE_MAX_LEVELS - 1)) as [H|_];
    [unfold ARM_LPAE_MAX_LEVELS in H; lia|].
  destruct (mem st _ =? 0); [|reflexivity].
  destruct (io_pgtable_alloc_pages_exact _ st) as [c st1]. reflexivity.
Qed.

(** ** The calls [arm_lpae_split_blk_unmap] makes *)

Section SplitBlock.

Variable d : arm_lpae_io_pgtable.
Hypothesis Hgeo : geometry_ok d.
Variable L : Z.
Hypothesis HL : ARM_LPAE_START_LVL d <= L <= 2.
Hypothesis Hbit :
  Z.land (ARM_LPAE_BLOCK_SIZE (L + 1) d) (pgsize_bitmap (cfg (iop d))) <> 0.
Variable prot : Z.

Let B := ARM_LPAE_BLOCK_SIZE (L + 1) d.
Let G := Z.shiftl 1 (pg_shift d).

Lemma split_size_differs : B <> ARM_LPAE_BLOCK_SIZE L d.
Proof.
  subst B. rewrite !(block_size_eq d Hgeo), !(lvl_shift_eq d).
  destruct Hgeo as (Hpg & Hbpl & _). intros E.
  apply Z.pow_inj_r in E; nia.
Qed.

Lemma frame_slot fr x : fr - sizeof_iopte * x + sizeof_iopte * x = fr.
Proof. ring. Qed.

(** The first piece: the table is allocated, hooked into the stack cell
    and the leaf written into it. *)
Lemma split_map_alloc bs bp prev st c rest :
  mem st (frame st) = 0 -> pool st = c :: rest -> c <> 0 ->
  frame st <> 0 -> ~ in_region (frame st) (c, G) ->
  exists st1,
    __arm_lpae_map (levels_below L) d bs bp B prot L
      (frame st - sizeof_iopte * ARM_LPAE_LVL_IDX bs L d) prev None st
    = Ret (0, None, st1)
    /\ frame st1 = frame st /\ pool st1 = rest
    /\ mem st1 (frame st) = iopte_tblcnt_add (table_desc d c) 1
    /\ mem st1 (c + sizeof_iopte * ARM_LPAE_LVL_IDX bs (L + 1) d)
       = arm_lpae_init_pte_val d bp prot (L + 1)
    /\ (forall a, a <> frame st ->
                  a <> c + sizeof_iopte * ARM_LPAE_LVL_IDX bs (L + 1) d ->
                  mem st1 a = memzero (mem st) c G a).
Proof.
  intros Hfr Hpool Hc Hfr0 Hout.
  rewrite (levels_below_step L) by (unfold ARM_LPAE_MAX_LEVELS; lia).
  rewrite map_table_here by (apply split_size_differs || lia).
  cbv zeta. rewrite frame_slot, Hfr. cbn [Z.eqb].
  unfold io_pgtable_alloc_pages_exact. rewrite Hpool.
  destruct (Z.eqb_spec c 0) as [|_]; [contradiction|].
  destruct (Z.eqb_spec c 0) as [|_]; [contradiction|].
  rewrite map_leaf_here by (reflexivity || exact Hbit).
  match goal with
  | |- context [arm_lpae_init_pte _ _ _ _ _ ?s _ _ ?x] => set (st2 := x); set (slot := s)
  end.
  assert (Hin : in_region slot (c, G)).
  { pose proof (slot_in_table d Hgeo bs (L + 1) c) as Hin.
    rewrite (table_span_inner d Hgeo) in Hin by lia. exact Hin. }
  assert (Hne : frame st <> slot) by (intros E; apply Hout; now rewrite E).
  assert (Hm2 : forall a, a <> frame st -> mem st2 a = memzero (mem st) c G a).
  { intros a Ha. subst st2. cbn [mem emit set_mem]. unfold store.
    destruct (Z.eqb_spec a (frame st)); [contradiction|reflexivity]. }
  assert (Hz : mem st2 slot = 0).
  { rewrite Hm2 by congruence. unfold memzero, in_region in *. cbn [fst snd] in Hin.
    destruct (Z.leb_spec c slot); [|lia].
    destruct (Z.ltb_spec slot (c + G)); [reflexivity|lia]. }
  destruct (init_pte_returns d bs bp prot (L + 1) slot (frame st) true st2) as [st1 Hi].
  { now rewrite Hz. }
  rewrite Hi. exists st1. split; [reflexivity|].
  destruct (init_pte_fields _ _ _ _ _ _ _ _ _ _ _ Hi) as (Hf1 & Hp1).
  destruct (init_pte_installed _ _ _ _ _ _ _ _ _ _ Hi Hne) as (Hleaf & Hfrm & Hcnt & _).
  split; [exact Hf1|]. split; [exact Hp1|]. split; [|split].
  - rewrite (Hcnt Hfr0). subst st2. cbn [mem emit set_mem]. unfold store.
    now rewrite Z.eqb_refl.
  - exact Hleaf.
  - intros a Ha Hs. rewrite (Hfrm a Ha Hs). now apply Hm2.
Qed.

(** A later piece: the table is there, the leaf goes into its slot. *)
Lemma split_map_next bs bp prev st c :
  mem st (frame st) <> 0 -> iopte_deref (mem st (frame st)) d = c ->
  frame st <> 0 -> ~ in_region (frame st) (c, G) ->
  mem st (c + sizeof_iopte * ARM_LPAE_LVL_IDX bs (L + 1) d) = 0 ->
  exists st1,
    __arm_lpae_map (levels_below L) d bs bp B prot L
      (frame st - sizeof_iopte * ARM_LPAE_LVL_IDX bs L d) prev None st
    = Ret (0, None, st1)
    /\ frame st1 = frame st /\ pool st1 = pool st
    /\ mem st1 (frame st) = iopte_tblcnt_add (mem st (frame st)) 1
    /\ mem st1 (c + sizeof_iopte * ARM_LPAE_LVL_IDX bs (L + 1) d)
       = arm_lpae_init_pte_val d bp prot (L + 1)
    /\ (forall a, a <> frame st ->
                  a <> c + sizeof_iopte * ARM_LPAE_LVL_IDX bs (L + 1) d ->
                  mem st1 a = mem st a).
Proof.
  intros Hfr Hc Hfr0 Hout Hz.
  rewrite (levels_below_step L) by (unfold ARM_LPAE_MAX_LEVELS; lia).
  rewrite map_table_here by (apply split_size_differs || lia).
  cbv zeta. rewrite frame_slot.
  destruct (Z.eqb_spec (mem st (frame st)) 0) as [|_]; [contradiction|].
  rewrite Hc.
  rewrite map_leaf_here by (reflexivity || exact Hbit).
  set (slot := c + sizeof_iopte * ARM_LPAE_LVL_IDX bs (L + 1) d) in *.
  assert (Hin : in_region slot (c, G)).
  { pose proof (slot_in_table d Hgeo bs (L + 1) c) as Hin.
    rewrite (table_span_inner d Hgeo) in Hin by lia. exact Hin. }
  assert (Hne : frame st <> slot) by (intros E; apply Hout; now rewrite E).
  destruct (init_pte_returns d bs bp prot (L + 1) slot (frame st) true st) as [st1 Hi].
  { now rewrite Hz. }
  rewrite Hi. exists st1. split; [reflexivity|].
  destruct (init_pte_fields _ _ _ _ _ _ _ _ _ _ _ Hi) as (Hf1 & Hp1).
  destruct (init_pte_installed _ _ _ _ _ _ _ _ _ _ Hi Hne) as (Hleaf & Hfrm & Hcnt & _).
  split; [exact Hf1|]. split; [exact Hp1|]. split; [|split].
  - exact (Hcnt Hfr0).
  - exact Hleaf.
  - intros a Ha Hs. exact (Hfrm a Ha Hs).
Qed.

(** The allocator refuses: nothing is written. *)
Lemma split_map_refused bs bp prev st :
  mem st (frame st) = 0 ->
  (pool st = [] \/ exists rest, pool st = 0 :: rest) ->
  exists st1,
    __arm_lpae_map (levels_below L) d bs bp B prot L
      (frame st - sizeof_iopte * ARM_LPAE_LVL_IDX bs L d) prev None st
    = Ret (- ENOMEM, None, st1)
    /\ frame st1 = frame st /\ mem st1 = mem st.
Proof.
  intros Hfr Hpool.
  rewrite (levels_below_step L) by (unfold ARM_LPAE_MAX_LEVELS; lia).
  rewrite map_table_here by (apply split_size_differs || lia).
  cbv zeta. rewrite frame_slot, Hfr. cbn [Z.eqb].
  unfold io_pgtable_alloc_pages_exact.
  destruct Hpool as [->|[rest ->]]; cbn [Z.eqb]; eauto.
Qed.

End SplitBlock.

(** ** The walk down to a block *)

Section WalkToLeaf.

Variable d : arm_lpae_io_pgtable.
Hypothesis Hgeo : geometry_ok d.
Variable m : Z -> Z.
Variables iova L s : Z.

Lemma walk_to_leaf_step n lvl ptep :
  walk_to_leaf n d m iova lvl ptep = Some (L, s) ->
  ptep <> 0
  /\ m (ptep + sizeof_iopte * ARM_LPAE_LVL_IDX iova lvl d) <> 0
  /\ ((lvl = L /\ s = ptep + sizeof_iopte * ARM_LPAE_LVL_IDX iova lvl d
       /\ iopte_leaf (m s) L = true)
      \/ (iopte_leaf (m (ptep + sizeof_iopte * ARM_LPAE_LVL_IDX iova lvl d)) lvl = false
          /\ lvl + 1 < ARM_LPAE_MAX_LEVELS
          /\ exists n', n = S n'
             /\ walk_to_leaf n' d m iova (lvl + 1)
                  (iopte_deref (m (ptep + sizeof_iopte * ARM_LPAE_LVL_IDX iova lvl d)) d)
                = Some (L, s))).
Proof.
  intros H. destruct n as [|n']; cbn [walk_to_leaf] in H; cbv zeta in H;
    (destruct (Z.eqb_spec ptep 0); [discriminate|]);
    (destruct (Z.eqb_spec (m (ptep + sizeof_iopte * ARM_LPAE_LVL_IDX iova lvl d)) 0);
     [discriminate|]);
    (split; [assumption|split; [assumption|]]);
    destruct (iopte_leaf _ lvl) eqn:El.
  - left. injection H as <- <-. auto.
  - destruct (lvl + 1 <? _); discriminate.
  - left. injection H as <- <-. auto.
  - right. destruct (Z.ltb_spec (lvl + 1) ARM_LPAE_MAX_LEVELS); [|discriminate].
    split; [reflexivity|]. split; [assumption|]. eauto.
Qed.

Lemma walk_to_leaf_level :
  forall n lvl ptep, walk_to_leaf n d m iova lvl ptep = Some (L, s) -> lvl <= L.
Proof.
  induction n as [|n IH]; intros lvl ptep H;
    destruct (walk_to_leaf_step _ _ _ H) as (_ & _ & [(-> & _)|(_ & _ & n' & En & H')]);
    try lia; try discriminate.
  injection En as <-. apply IH in H'. lia.
Qed.

(** The slot of the leaf lies in one of the tables on the walk. *)
Lemma walk_leaf_in_tables :
  forall n lvl ptep,
    walk_to_leaf n d m iova lvl ptep = Some (L, s) ->
    exists r, In r (walk_tables n d m iova lvl ptep) /\ in_region s r.
Proof.
  induction n as [|n IH]; intros lvl ptep H;
    destruct (walk_to_leaf_step _ _ _ H) as (Hp & Hnz & [(-> & -> & Hl)|(Hl & Hlt & n' & En & H')]);
    try discriminate.
  - destruct (walk_tables_head 0 d m iova L ptep) as [rest ->].
    eexists. split; [now left|]. now apply slot_in_table.
  - destruct (walk_tables_head (S n) d m iova L ptep) as [rest ->].
    eexists. split; [now left|]. now apply slot_in_table.
  - injection En as <-.
    rewrite (walk_tables_table n d m iova lvl ptep _ eq_refl Hnz Hl Hlt).
    destruct (IH _ _ H') as (r & Hr & Hin). exists r. split; [now right|assumption].
Qed.

Variable m' : Z -> Z.
Variable a : Z.
Hypothesis Hidx : forall l, l <= L -> ARM_LPAE_LVL_IDX a l d = ARM_LPAE_LVL_IDX iova l d.

(** Memory that is the same in the tables of the walk gives the same
    translation, for every address with the indices of [iova] down to
    the level of the leaf. *)
Lemma walk_leaf_result :
  forall n lvl ptep,
    walk_to_leaf n d m iova lvl ptep = Some (L, s) ->
    (forall x r, In r (walk_tables n d m iova lvl ptep) -> in_region x r ->
                 m' x = m x) ->
    iova_to_phys_walk n d m' a lvl ptep
    = Z.lor (Z.shiftl (iopte_to_pfn (m s) d) (pg_shift d))
            (Z.land a (Z.shiftl 1 (ARM_LPAE_LVL_SHIFT L d) - 1)).
Proof.
  induction n as [|n IH]; intros lvl ptep H Hsame;
    pose proof (walk_to_leaf_level _ _ _ H) as Hle;
    destruct (walk_to_leaf_step _ _ _ H) as (Hp & Hnz & [(-> & -> & Hl)|(Hl & Hlt & n' & En & H')]);
    try discriminate.
  - apply walk_at_leaf; [assumption| |assumption].
    rewrite Hidx by lia. eapply Hsame; [|now apply slot_in_table].
    destruct (walk_tables_head 0 d m iova L ptep) as [rest ->]. now left.
  - apply walk_at_leaf; [assumption| |assumption].
    rewrite Hidx by lia. eapply Hsame; [|now apply slot_in_table].
    destruct (walk_tables_head (S n) d m iova L ptep) as [rest ->]. now left.
  - injection En as <-.
    rewrite (walk_tables_table n d m iova lvl ptep _ eq_refl Hnz Hl Hlt) in Hsame.
    assert (Hs : m' (ptep + sizeof_iopte * ARM_LPAE_LVL_IDX a lvl d)
                 = m (ptep + sizeof_iopte * ARM_LPAE_LVL_IDX iova lvl d)).
    { rewrite Hidx by lia. eapply Hsame; [now left|now apply slot_in_table]. }
    rewrite (walk_at_table n d m' a lvl ptep _ Hp Hs Hnz Hl Hlt).
    apply IH; [assumption|]. intros x r Hr. apply Hsame. now right.
Qed.

(** When the leaf has been replaced by a table, the walk goes on in
    it. *)
Lemma walk_reroute :
  forall n lvl ptep,
    levels_below lvl = n -> L <= 2 ->
    walk_to_leaf n d m iova lvl ptep = Some (L, s) ->
    separatedb (walk_tables n d m iova lvl ptep) = true ->
    (forall x r, In r (walk_tables n d m iova lvl ptep) -> in_region x r ->
                 x <> s -> m' x = m x) ->
    m' s <> 0 -> iopte_leaf (m' s) L = false ->
    iova_to_phys_walk n d m' a lvl ptep
    = iova_to_phys_walk (levels_below (L + 1)) d m' a (L + 1) (iopte_deref (m' s) d).
Proof.
  induction n as [|n IH]; intros lvl ptep Hn HL2 H Hsep Hsame Hnz' Hl';
    pose proof (walk_to_leaf_level _ _ _ H) as Hle;
    destruct (walk_to_leaf_step _ _ _ H) as (Hp & Hnz & [(-> & -> & Hl)|(Hl & Hlt & n' & En & H')]);
    try discriminate.
  - exfalso. unfold levels_below, ARM_LPAE_MAX_LEVELS in Hn. lia.
  - rewrite (levels_below_step L) in Hn by (unfold ARM_LPAE_MAX_LEVELS; lia).
    injection Hn as Hn. rewrite Hn.
    apply walk_at_table; try assumption.
    + now rewrite Hidx by lia.
    + unfold ARM_LPAE_MAX_LEVELS. lia.
  - injection En as <-.
    assert (Hn' : levels_below (lvl + 1) = n).
    { rewrite (levels_below_step lvl) in Hn by (unfold ARM_LPAE_MAX_LEVELS in *; lia).
      now injection Hn. }
    rewrite (walk_tables_table n d m iova lvl ptep _ eq_refl Hnz Hl Hlt) in Hsame, Hsep.
    destruct (walk_leaf_in_tables _ _ _ H') as (r & Hr & Hin).
    assert (Hne : ptep + sizeof_iopte * ARM_LPAE_LVL_IDX iova lvl d <> s).
    { intros E. pose proof (separatedb_head_outside _ _ _ Hsep
                              (slot_in_table d Hgeo iova lvl ptep)) as Ho.
      apply (Ho r Hr). now rewrite E. }
    assert (Hs : m' (ptep + sizeof_iopte * ARM_LPAE_LVL_IDX a lvl d)
                 = m (ptep + sizeof_iopte * ARM_LPAE_LVL_IDX iova lvl d)).
    { rewrite Hidx by lia. apply (Hsame _ _ (or_introl eq_refl)); [|assumption].
      now apply slot_in_table. }
    rewrite (walk_at_table n d m' a lvl ptep _ Hp Hs Hnz Hl Hlt).
    apply IH; try assumption.
    + apply separatedb_cons in Hsep. apply Hsep.
    + intros x r' Hr'. apply Hsame. now right.
Qed.

End WalkToLeaf.

Lemma land_ones_mod x n : 0 <= n -> Z.land x (Z.shiftl 1 n - 1) = x mod 2 ^ n.
Proof.
  intros Hn. rewrite Z.shiftl_1_l, <- Z.land_ones by assumption.
  now rewrite Z.ones_equiv.
Qed.

Lemma memzero_in m c len a : in_region a (c, len) -> memzero m c len a = 0.
Proof.
  unfold in_region, memzero. cbn [fst snd]. intros H.
  destruct (Z.leb_spec c a); [|lia]. destruct (Z.ltb_spec a (c + len)); [reflexivity|lia].
Qed.

Lemma memzero_out m c len a : ~ in_region a (c, len) -> memzero m c len a = m a.
Proof.
  unfold in_region, memzero. cbn [fst snd]. intros H.
  destruct (Z.leb_spec c a); [|reflexivity].
  destruct (Z.ltb_spec a (c + len)); [lia|reflexivity].
Qed.

Section SplitLoop.

Variable d : arm_lpae_io_pgtable.
Hypothesis Hgeo : geometry_ok d.
Variable L : Z.
Hypothesis HL : ARM_LPAE_START_LVL d <= L <= 2.
Hypothesis Hbit :
  Z.land (ARM_LPAE_BLOCK_SIZE (L + 1) d) (pgsize_bitmap (cfg (iop d))) <> 0.
Variable prot : Z.

Let B := ARM_LPAE_BLOCK_SIZE (L + 1) d.
Let G := Z.shiftl 1 (pg_shift d).
Let N := Z.shiftl 1 (bits_per_level d).

Lemma split_B_pos : 0 < B.
Proof.
  subst B. rewrite (block_size_eq d Hgeo). apply Z.pow_pos_nonneg; [lia|].
  pose proof (lvl_shift_lower d Hgeo (L + 1)). destruct Hgeo. lia.
Qed.

Lemma split_N_ge : 2 <= N.
Proof.
  subst N. rewrite Z.shiftl_1_l. destruct Hgeo as (Hpg & Hbpl & _).
  change 2 with (2 ^ 1). apply Z.pow_le_mono_r; lia.
Qed.

Lemma split_blk_size : ARM_LPAE_BLOCK_SIZE L d = N * B.
Proof.
  subst B N. rewrite !(block_size_eq d Hgeo), !(lvl_shift_eq d), Z.shiftl_1_l.
  destruct Hgeo as (Hpg & Hbpl & _).
  rewrite <- Z.pow_add_r by nia. f_equal. ring.
Qed.

Lemma split_G : G = sizeof_iopte * N.
Proof.
  subst G N. rewrite !Z.shiftl_1_l. destruct Hgeo as (Hpg & Hbpl & _).
  rewrite Hbpl. change sizeof_iopte with (2 ^ 3).
  rewrite <- Z.pow_add_r by lia. f_equal. ring.
Qed.

(** The index at the level below of the [j]-th piece of the block. *)
Lemma piece_idx bs0 j r :
  bs0 mod (N * B) = 0 -> 0 <= j < N -> 0 <= r < B ->
  ARM_LPAE_LVL_IDX (bs0 + j * B + r) (L + 1) d = j.
Proof.
  intros Hbs Hj Hr. unfold ARM_LPAE_LVL_IDX, ARM_LPAE_PGD_IDX.
  destruct (Z.eqb_spec (L + 1) (ARM_LPAE_START_LVL d)) as [E|_]; [lia|].
  destruct Hgeo as (Hpg & Hbpl & Hlv) eqn:Eg.
  pose proof (lvl_shift_lower d Hgeo (L + 1)) as Hlow.
  rewrite Z.add_0_r, land_ones_mod, Z.shiftr_div_pow2 by lia.
  rewrite <- (block_size_eq d Hgeo). fold B.
  apply Z.mod_divide in Hbs; [|pose proof split_B_pos; pose proof split_N_ge; nia].
  destruct Hbs as [q Hq]. subst bs0.
  replace (q * (N * B) + j * B + r) with (r + (q * N + j) * B) by ring.
  pose proof split_B_pos.
  rewrite Z.div_add by lia. rewrite (Z.div_small r B) by lia.
  replace (0 + (q * N + j)) with (j + q * N) by ring.
  fold N. subst N. rewrite Z.shiftl_1_l in *.
  rewrite Z.mod_add by lia. apply Z.mod_small. lia.
Qed.

Lemma table_slot_in c i : 0 <= i < N -> in_region (c + sizeof_iopte * i) (c, G).
Proof.
  intros Hi. unfold in_region. cbn [fst snd]. rewrite split_G.
  unfold sizeof_iopte. lia.
Qed.

(** *** The loop *)

Variables bs0 bp0 h fr c prev : Z.
Variable rest : list Z.
Variable m0 : Z -> Z.
Hypothesis Hbs : bs0 mod (N * B) = 0.
Hypothesis Hh : 0 <= h < N.
Hypothesis Hfr0 : fr <> 0.
Hypothesis Hout : ~ in_region fr (c, G).
Hypothesis Hc : 0 < c.
Hypothesis Hck : chunk_ok d (c, G) = true.

Let iova := bs0 + h * B.
Let leafval (i : Z) := arm_lpae_init_pte_val d (bp0 + i * B) prot (L + 1).

(** The table has been allocated and the pieces before the [j]-th are
    in it, the hole left out. *)
Let table_filled (j : Z) (st : machine) : Prop :=
  frame st = fr /\ pool st = rest
  /\ same_outside_reserved (mem st fr) (table_desc d c)
  /\ (forall i, 0 <= i < N ->
                mem st (c + sizeof_iopte * i)
                = if (i <? j) && negb (i =? h) then leafval i else 0)
  /\ (forall a, a <> fr -> ~ in_region a (c, G) -> mem st a = m0 a).

(** Nothing has been allocated yet. *)
Let table_absent (st : machine) : Prop :=
  frame st = fr /\ mem st fr = 0 /\ (forall a, a <> fr -> mem st a = m0 a).

Lemma split_blk_for_step fuel j st :
  0 <= j < N ->
  split_blk_for (S fuel) d iova B prot L prev
                (bs0 + j * B) (bs0 + N * B) (bp0 + j * B) st
  = if j =? h then
      split_blk_for fuel d iova B prot L prev
                    (bs0 + (j + 1) * B) (bs0 + N * B) (bp0 + (j + 1) * B) st
    else
      match __arm_lpae_map (levels_below L) d (bs0 + j * B) (bp0 + j * B) B prot L
              (frame st - sizeof_iopte * ARM_LPAE_LVL_IDX (bs0 + j * B) L d)
              prev None st with
      | BUG => BUG
      | Ret (r, _, st1) =>
          if r <? 0 then
            let table := mem st1 (frame st1) in
            if negb (table =? 0) then
              match __arm_lpae_free_pgtable (levels_below (L + 1)) d (L + 1)
                                            (iopte_deref table d) st1 with
              | BUG => BUG
              | Ret st2 => Ret (false, st2)
              end
            else Ret (false, st1)
          else
            split_blk_for fuel d iova B prot L prev
                          (bs0 + (j + 1) * B) (bs0 + N * B) (bp0 + (j + 1) * B) st1
      end.
Proof.
  intros Hj. pose proof split_B_pos as HB. fold B in HB.
  cbn [split_blk_for].
  destruct (Z.ltb_spec (bs0 + j * B) (bs0 + N * B)) as [_|H]; [|nia].
  replace (bs0 + j * B + B) with (bs0 + (j + 1) * B) by ring.
  replace (bp0 + j * B + B) with (bp0 + (j + 1) * B) by ring.
  subst iova.
  destruct (Z.eqb_spec (bs0 + j * B) (bs0 + h * B)) as [E|E],
           (Z.eqb_spec j h) as [E'|E']; try reflexivity; exfalso; nia.
Qed.

Lemma split_blk_for_end fuel st :
  split_blk_for fuel d iova B prot L prev
                (bs0 + N * B) (bs0 + N * B) (bp0 + N * B) st = Ret (true, st).
Proof.
  destruct fuel; cbn [split_blk_for]; rewrite Z.ltb_irrefl; reflexivity.
Qed.

Lemma table_filled_deref j st :
  table_filled j st ->
  mem st fr <> 0 /\ iopte_deref (mem st fr) d = c.
Proof.
  intros (_ & _ & Hso & _). destruct Hgeo as (Hpg & _).
  assert (E : iopte_deref (mem st fr) d = c).
  { rewrite (same_outside_deref _ _ d Hso). now apply table_desc_deref. }
  split; [|exact E]. apply (deref_nonzero _ d). rewrite E. lia.
Qed.

Lemma loop_filled :
  forall fuel j st,
    Z.of_nat fuel = N - j -> 0 <= j ->
    table_filled j st ->
    exists st',
      split_blk_for fuel d iova B prot L prev
                    (bs0 + j * B) (bs0 + N * B) (bp0 + j * B) st = Ret (true, st')
      /\ table_filled N st'.
Proof.
  induction fuel as [|fuel IH]; intros j st Hf Hj Hinv.
  - assert (j = N) by lia. subst j. rewrite split_blk_for_end. eauto.
  - rewrite split_blk_for_step by lia.
    destruct (Z.eqb_spec j h) as [E|E].
    + apply IH; [lia|lia|].
      destruct Hinv as (Hf1 & Hp1 & Hso & Hent & Hrest).
      repeat split; try assumption.
      intros i Hi. rewrite (Hent i Hi).
      destruct (Z.ltb_spec i j), (Z.ltb_spec i (j + 1)), (Z.eqb_spec i h);
        cbn [andb negb]; try reflexivity; lia.
    + destruct (table_filled_deref j st Hinv) as (Hnz & Hd).
      destruct Hinv as (Hf1 & Hp1 & Hso & Hent & Hrest).
      assert (Hidx : ARM_LPAE_LVL_IDX (bs0 + j * B) (L + 1) d = j).
      { rewrite <- (Z.add_0_r (bs0 + j * B)). apply piece_idx; try lia.
        pose proof split_B_pos. lia. }
      destruct (split_map_next d Hgeo L HL Hbit prot (bs0 + j * B) (bp0 + j * B)
                  prev st c) as (st1 & Hm & Hf2 & Hp2 & Hcnt & Hleaf & Hoth).
      { now rewrite Hf1. }
      { now rewrite Hf1. }
      { now rewrite Hf1. }
      { now rewrite Hf1. }
      { rewrite Hidx, (Hent j) by lia. now rewrite Z.ltb_irrefl. }
      fold B in Hm. rewrite Hm. cbn [Z.ltb Z.compare].
      rewrite Hidx, Hf1 in *.
      apply IH; [lia|lia|].
      split; [congruence|]. split; [congruence|]. split; [|split].
      * rewrite Hcnt. intros i Hi. rewrite tblcnt_add_same_outside by assumption.
        now apply Hso.
      * intros i Hi. destruct (Z.eqb_spec i j) as [->|Hij].
        -- rewrite Hleaf. destruct (Z.ltb_spec j (j + 1)); [|lia].
           destruct (Z.eqb_spec j h); [contradiction|reflexivity].
        -- rewrite Hoth.
           ++ rewrite (Hent i Hi).
              destruct (Z.ltb_spec i j), (Z.ltb_spec i (j + 1));
                try reflexivity; lia.
           ++ intros Ea. apply Hout. rewrite <- Ea. now apply table_slot_in.
           ++ unfold sizeof_iopte. lia.
      * intros a Ha Hreg. rewrite Hoth; [now apply Hrest|assumption|].
        intros Ea. apply Hreg. rewrite Ea. apply table_slot_in. lia.
Qed.

Lemma loop_absent_alloc fuel j st :
  Z.of_nat fuel = N - (j + 1) -> 0 <= j -> j <> h ->
  (forall i, 0 <= i < j -> i = h) ->
  table_absent st -> pool st = c :: rest ->
  exists st',
    split_blk_for (S fuel) d iova B prot L prev
                  (bs0 + j * B) (bs0 + N * B) (bp0 + j * B) st = Ret (true, st')
    /\ table_filled N st'.
Proof.
  intros Hf Hj Hjh Hbefore (Hf1 & Hz & Hrest) Hpool.
  rewrite split_blk_for_step by lia.
  destruct (Z.eqb_spec j h) as [|_]; [contradiction|].
  assert (Hidx : ARM_LPAE_LVL_IDX (bs0 + j * B) (L + 1) d = j).
  { rewrite <- (Z.add_0_r (bs0 + j * B)). apply piece_idx; try lia.
    pose proof split_B_pos. lia. }
  destruct (split_map_alloc d Hgeo L HL Hbit prot (bs0 + j * B) (bp0 + j * B)
              prev st c rest) as (st1 & Hm & Hf2 & Hp2 & Hcnt & Hleaf & Hoth);
    try (rewrite Hf1; assumption); try assumption; try lia.
  fold B in Hm. rewrite Hm. cbn [Z.ltb Z.compare].
  rewrite Hidx, Hf1 in *.
  apply loop_filled; [lia|lia|].
  split; [congruence|]. split; [assumption|]. split; [|split].
  - rewrite Hcnt. apply tblcnt_add_same_outside.
  - intros i Hi. destruct (Z.eqb_spec i j) as [->|Hij].
    + rewrite Hleaf. destruct (Z.ltb_spec j (j + 1)); [|lia].
      destruct (Z.eqb_spec j h); [contradiction|reflexivity].
    + rewrite Hoth.
      * rewrite memzero_in by now apply table_slot_in.
        destruct (Z.ltb_spec i (j + 1)); [|reflexivity].
        assert (i = h) by (apply Hbefore; lia).
        destruct (Z.eqb_spec i h); [reflexivity|contradiction].
      * intros Ea. apply Hout. rewrite <- Ea. now apply table_slot_in.
      * unfold sizeof_iopte. lia.
  - intros a Ha Hreg. rewrite Hoth.
    + rewrite memzero_out by assumption. now apply Hrest.
    + assumption.
    + intros Ea. apply Hreg. rewrite Ea. apply table_slot_in. lia.
Qed.

(** With a chunk at hand the loop goes through all the pieces. *)
Lemma split_loop_filled st :
  table_absent st -> pool st = c :: rest ->
  exists st',
    split_blk_for (Z.to_nat N) d iova B prot L prev
                  (bs0 + 0 * B) (bs0 + N * B) (bp0 + 0 * B) st = Ret (true, st')
    /\ table_filled N st'.
Proof.
  intros Habs Hpool. pose proof split_N_ge as HN. fold N in HN.
  destruct (Z.to_nat N) as [|[|fuel]] eqn:EN; try lia.
  destruct (Z.eq_dec h 0) as [Eh|Eh].
  - rewrite split_blk_for_step by lia.
    destruct (Z.eqb_spec 0 h) as [_|]; [|congruence].
    apply loop_absent_alloc; try assumption; lia.
  - apply loop_absent_alloc; try assumption; lia.
Qed.

Lemma loop_absent_refused fuel j st :
  0 <= j < N -> j <> h ->
  table_absent st -> (pool st = [] \/ exists rest', pool st = 0 :: rest') ->
  exists st',
    split_blk_for (S fuel) d iova B prot L prev
                  (bs0 + j * B) (bs0 + N * B) (bp0 + j * B) st = Ret (false, st')
    /\ table_absent st'.
Proof.
  intros Hj Hjh (Hf1 & Hz & Hrest) Hpool.
  rewrite split_blk_for_step by lia.
  destruct (Z.eqb_spec j h) as [|_]; [contradiction|].
  destruct (split_map_refused d Hgeo L HL prot (bs0 + j * B) (bp0 + j * B)
              prev st) as (st1 & Hm & Hf2 & Hm1);
    try (rewrite Hf1; assumption); try assumption.
  fold B in Hm. rewrite Hm. cbv zeta.
  change (- ENOMEM <? 0) with true. cbv iota.
  rewrite Hf2, Hm1, Hf1, Hz. cbn [Z.eqb negb].
  exists st1. split; [reflexivity|].
  split; [congruence|]. split; [now rewrite Hm1|]. intros a Ha. rewrite Hm1. now apply Hrest.
Qed.

(** When the allocator refuses, the loop stops at the first piece. *)
Lemma split_loop_refused st :
  table_absent st -> (pool st = [] \/ exists rest', pool st = 0 :: rest') ->
  exists st',
    split_blk_for (Z.to_nat N) d iova B prot L prev
                  (bs0 + 0 * B) (bs0 + N * B) (bp0 + 0 * B) st = Ret (false, st')
    /\ table_absent st'.
Proof.
  intros Habs Hpool. pose proof split_N_ge as HN. fold N in HN.
  destruct (Z.to_nat N) as [|[|fuel]] eqn:EN; try lia.
  destruct (Z.eq_dec h 0) as [Eh|Eh].
  - rewrite split_blk_for_step by lia.
    destruct (Z.eqb_spec 0 h) as [_|]; [|congruence].
    apply loop_absent_refused; try assumption; lia.
  - apply loop_absent_refused; try assumption; lia.
Qed.

(** *** Translation before and after *)

Variable s : Z.
Hypothesis Hwalk :
  walk_to_leaf (levels_below (ARM_LPAE_START_LVL d)) d m0 iova
               (ARM_LPAE_START_LVL d) (pgd d) = Some (L, s).
Hypothesis Hsepw :
  separatedb (walk_tables (levels_below (ARM_LPAE_START_LVL d)) d m0 iova
                          (ARM_LPAE_START_LVL d) (pgd d)) = true.
Hypothesis Hfr_out :
  outside fr (walk_tables (levels_below (ARM_LPAE_START_LVL d)) d m0 iova
                          (ARM_LPAE_START_LVL d) (pgd d)).
Hypothesis Hc_out :
  forall x, in_region x (c, G) ->
            outside x (walk_tables (levels_below (ARM_LPAE_START_LVL d)) d m0 iova
                                   (ARM_LPAE_START_LVL d) (pgd d)).
Hypothesis Hbp : Z.shiftl (iopte_to_pfn (m0 s) d) (pg_shift d) = bp0.
Hypothesis Hbpa : bp0 mod (N * B) = 0.
Hypothesis Hbpr : 0 <= bp0 /\ bp0 + N * B <= 2 ^ 48.
Hypothesis Hprot : prot_ok prot.

Lemma block_addr_idx i r l :
  0 <= i < N -> 0 <= r < B -> l <= L ->
  ARM_LPAE_LVL_IDX (bs0 + i * B + r) l d = ARM_LPAE_LVL_IDX iova l d.
Proof.
  intros Hi Hr Hl. pose proof split_B_pos as HB.
  assert (Hal : bs0 mod 2 ^ ARM_LPAE_LVL_SHIFT L d = 0)
    by (rewrite <- (block_size_eq d Hgeo), split_blk_size; exact Hbs).
  assert (Hsz : 2 ^ ARM_LPAE_LVL_SHIFT L d = N * B)
    by (rewrite <- (block_size_eq d Hgeo); apply split_blk_size).
  subst iova.
  replace (bs0 + i * B + r) with (bs0 + (i * B + r)) by ring.
  rewrite !(lvl_idx_add_small d Hgeo bs0 _ l L); try reflexivity; try lia;
    try assumption; rewrite Hsz; nia.
Qed.

Lemma block_addr_low i r :
  0 <= i < N -> 0 <= r < B ->
  Z.land (bs0 + i * B + r) (Z.shiftl 1 (ARM_LPAE_LVL_SHIFT L d) - 1) = i * B + r.
Proof.
  intros Hi Hr. pose proof split_B_pos as HB.
  pose proof (lvl_shift_lower d Hgeo L) as Hlow. destruct Hgeo as (Hpg & _).
  replace (bs0 + i * B + r) with (bs0 + (i * B + r)) by ring.
  apply land_add_small; [lia| |].
  - rewrite <- (block_size_eq d Hgeo), split_blk_size; exact Hbs.
  - rewrite <- (block_size_eq d Hgeo), split_blk_size. nia.
Qed.

(** Every address of the block translated through the block
    descriptor. *)
Lemma block_translation m' i r :
  0 <= i < N -> 0 <= r < B ->
  (forall x rg,
      In rg (walk_tables (levels_below (ARM_LPAE_START_LVL d)) d m0 iova
                         (ARM_LPAE_START_LVL d) (pgd d)) ->
      in_region x rg -> m' x = m0 x) ->
  iova_to_phys_walk (levels_below (ARM_LPAE_START_LVL d)) d m'
                    (bs0 + i * B + r) (ARM_LPAE_START_LVL d) (pgd d)
  = bp0 + i * B + r.
Proof.
  intros Hi Hr Hsame. pose proof split_B_pos as HB.
  rewrite (walk_leaf_result d Hgeo m0 iova L s m' (bs0 + i * B + r)
             (fun l Hl => block_addr_idx i r l Hi Hr Hl) _ _ _ Hwalk Hsame).
  rewrite Hbp, block_addr_low by assumption.
  pose proof (lvl_shift_lower d Hgeo L) as Hlow. destruct Hgeo as (Hpg & _).
  rewrite (lor_aligned_small bp0 (i * B + r) (ARM_LPAE_LVL_SHIFT L d)).
  - ring.
  - lia.
  - rewrite <- (block_size_eq d Hgeo), split_blk_size; exact Hbpa.
  - rewrite <- (block_size_eq d Hgeo), split_blk_size. nia.
Qed.

Lemma refused_translation st' i r :
  0 <= i < N -> 0 <= r < B ->
  table_absent st' ->
  iova_to_phys_walk (levels_below (ARM_LPAE_START_LVL d)) d (mem st')
                    (bs0 + i * B + r) (ARM_LPAE_START_LVL d) (pgd d)
  = iova_to_phys_walk (levels_below (ARM_LPAE_START_LVL d)) d m0
                      (bs0 + i * B + r) (ARM_LPAE_START_LVL d) (pgd d).
Proof.
  intros Hi Hr (_ & _ & Hrest).
  rewrite !block_translation; try assumption; try reflexivity.
  intros x rg Hrg Hin. apply Hrest. intros ->. exact (Hfr_out rg Hrg Hin).
Qed.

Hypothesis Hs_fr : s <> fr.
Hypothesis Hs_out : ~ in_region s (c, G).

(** Once the table is hooked into the slot of the block, the hole
    translates to nothing and every other piece as before. *)
Lemma filled_translation st1 i r :
  0 <= i < N -> 0 <= r < B ->
  table_filled N st1 ->
  iova_to_phys_walk (levels_below (ARM_LPAE_START_LVL d)) d
                    (store (mem st1) s (mem st1 fr))
                    (bs0 + i * B + r) (ARM_LPAE_START_LVL d) (pgd d)
  = if i =? h then 0 else bp0 + i * B + r.
Proof.
  intros Hi Hr Hfill. pose proof split_B_pos as HB.
  destruct (table_filled_deref N st1 Hfill) as (Hnz & Hd).
  destruct Hfill as (Hf1 & Hp1 & Hso & Hent & Hrest).
  pose proof Hgeo as (Hpg & Hbpl & Hlv).
  pose proof (lvl_shift_lower d Hgeo (L + 1)) as Hlow.
  set (m' := store (mem st1) s (mem st1 fr)).
  assert (Hms : m' s = mem st1 fr) by (subst m'; unfold store; now rewrite Z.eqb_refl).
  assert (Hmo : forall x, x <> s -> m' x = mem st1 x).
  { intros x Hx. subst m'. unfold store. destruct (Z.eqb_spec x s); [contradiction|reflexivity]. }
  rewrite (walk_reroute d Hgeo m0 iova L s m' (bs0 + i * B + r)
             (fun l Hl => block_addr_idx i r l Hi Hr Hl) _ _ _ eq_refl (proj2 HL)
             Hwalk Hsepw).
  - rewrite Hms, Hd.
    assert (Hidx : ARM_LPAE_LVL_IDX (bs0 + i * B + r) (L + 1) d = i)
      by (apply piece_idx; assumption).
    assert (Hslot : m' (c + sizeof_iopte * ARM_LPAE_LVL_IDX (bs0 + i * B + r) (L + 1) d)
                    = if negb (i =? h) then leafval i else 0).
    { rewrite Hidx, Hmo.
      - rewrite (Hent i Hi). destruct (Z.ltb_spec i N); [reflexivity|lia].
      - intros E. apply Hs_out. rewrite <- E. now apply table_slot_in. }
    destruct (Z.eqb_spec i h) as [E|E]; cbn [negb] in Hslot.
    + now apply walk_at_empty.
    + assert (Hal : (bp0 + i * B) mod 2 ^ ARM_LPAE_LVL_SHIFT (L + 1) d = 0).
      { rewrite <- (block_size_eq d Hgeo). fold B.
        apply Z.mod_divide in Hbpa; [|nia]. destruct Hbpa as [q ->].
        replace (q * (N * B) + i * B) with ((q * N + i) * B) by ring.
        apply Z.mod_mul. lia. }
      rewrite (walk_at_leaf _ d m' _ (L + 1) c _ ltac:(lia) Hslot).
      * subst leafval. cbv beta.
        rewrite init_pte_val_out; try assumption; try nia.
        -- replace (bs0 + i * B + r) with ((bs0 + i * B) + r) by ring.
           rewrite (land_add_small (bs0 + i * B) r (ARM_LPAE_LVL_SHIFT (L + 1) d)).
           ++ apply lor_aligned_small with (n := ARM_LPAE_LVL_SHIFT (L + 1) d);
                try assumption; try lia.
              rewrite <- (block_size_eq d Hgeo). exact Hr.
           ++ lia.
           ++ rewrite <- (block_size_eq d Hgeo). fold B.
              apply Z.mod_divide in Hbs; [|nia]. destruct Hbs as [q ->].
              replace (q * (N * B) + i * B) with ((q * N + i) * B) by ring.
              apply Z.mod_mul. lia.
           ++ rewrite <- (block_size_eq d Hgeo). exact Hr.
        -- apply aligned_weaken with (n := ARM_LPAE_LVL_SHIFT (L + 1) d); [lia|assumption].
      * subst leafval. cbv beta. now apply init_pte_val_leaf.
  - intros x rg Hrg Hin Hx. rewrite (Hmo x Hx). apply Hrest.
    + intros ->. exact (Hfr_out rg Hrg Hin).
    + intros Hreg. exact (Hc_out x Hreg rg Hrg Hin).
  - now rewrite Hms.
  - rewrite Hms, (same_outside_leaf _ _ L Hso).
    apply table_desc_not_leaf; try assumption. unfold ARM_LPAE_MAX_LEVELS. lia.
Qed.

(** *** [arm_lpae_split_blk_unmap] as a whole *)

Lemma split_blk_unmap_start st size :
  frame st = fr -> mem st = m0 ->
  Z.land iova (Z.lnot (ARM_LPAE_BLOCK_SIZE L d - 1)) = bs0 ->
  arm_lpae_split_blk_unmap d iova size prot L s prev (ARM_LPAE_BLOCK_SIZE L d) st
  = match split_blk_for (Z.to_nat N) d iova B prot L prev
            (bs0 + 0 * B) (bs0 + N * B) (bp0 + 0 * B)
            (set_mem st (store (mem st) (frame st) 0)) with
    | BUG => BUG
    | Ret (false, st1) => Ret (0, st1)
    | Ret (true, st1) =>
        Ret (B, emit (set_mem st1 (store (mem st1) s (mem st1 (frame st1))))
                     (flush_pgtable s sizeof_iopte))
    end.
Proof.
  intros Hf Hm Hland. pose proof split_B_pos as HB.
  unfold arm_lpae_split_blk_unmap. cbv zeta. rewrite Hland.
  cbn [mem set_mem]. unfold store at 1.
  rewrite Hf. destruct (Z.eqb_spec s fr) as [|_]; [contradiction|].
  rewrite Hm, Hbp. fold B. rewrite split_blk_size.
  rewrite Z.div_mul by lia.
  replace (bs0 + 0 * B) with bs0 by ring. replace (bp0 + 0 * B) with bp0 by ring.
  rewrite <- Hm, <- Hf. reflexivity.
Qed.

Lemma table_absent_start st :
  frame st = fr -> mem st = m0 ->
  table_absent (set_mem st (store (mem st) (frame st) 0)).
Proof.
  intros Hf Hm. split; [exact Hf|]. cbn [mem set_mem]. unfold store. rewrite Hf. split.
  - now rewrite Z.eqb_refl.
  - intros a Ha. destruct (Z.eqb_spec a fr); [contradiction|]. now rewrite Hm.
Qed.

Lemma split_blk_unmap_filled st size :
  frame st = fr -> mem st = m0 -> pool st = c :: rest ->
  Z.land iova (Z.lnot (ARM_LPAE_BLOCK_SIZE L d - 1)) = bs0 ->
  exists st',
    arm_lpae_split_blk_unmap d iova size prot L s prev (ARM_LPAE_BLOCK_SIZE L d) st
    = Ret (B, st')
    /\ forall i r, 0 <= i < N -> 0 <= r < B ->
         iova_to_phys_walk (levels_below (ARM_LPAE_START_LVL d)) d (mem st')
                           (bs0 + i * B + r) (ARM_LPAE_START_LVL d) (pgd d)
         = if i =? h then 0
           else iova_to_phys_walk (levels_below (ARM_LPAE_START_LVL d)) d (mem st)
                                  (bs0 + i * B + r) (ARM_LPAE_START_LVL d) (pgd d).
Proof.
  intros Hf Hm Hpool Hland.
  rewrite (split_blk_unmap_start st size Hf Hm Hland).
  destruct (split_loop_filled _ (table_absent_start st Hf Hm) Hpool) as (st1 & Hloop & Hfill).
  rewrite Hloop. eexists. split; [reflexivity|].
  intros i r Hi Hr. cbn [mem set_mem emit].
  destruct Hfill as (Hf1 & Hfill'). rewrite Hf1.
  rewrite (filled_translation st1 i r Hi Hr (conj Hf1 Hfill')).
  destruct (i =? h); [reflexivity|].
  rewrite Hm. symmetry. apply block_translation; auto.
Qed.

Lemma split_blk_unmap_refused st size :
  frame st = fr -> mem st = m0 ->
  (pool st = [] \/ exists rest', pool st = 0 :: rest') ->
  Z.land iova (Z.lnot (ARM_LPAE_BLOCK_SIZE L d - 1)) = bs0 ->
  exists st',
    arm_lpae_split_blk_unmap d iova size prot L s prev (ARM_LPAE_BLOCK_SIZE L d) st
    = Ret (0, st')
    /\ forall i r, 0 <= i < N -> 0 <= r < B ->
         iova_to_phys_walk (levels_below (ARM_LPAE_START_LVL d)) d (mem st')
                           (bs0 + i * B + r) (ARM_LPAE_START_LVL d) (pgd d)
         = iova_to_phys_walk (levels_below (ARM_LPAE_START_LVL d)) d (mem st)
                             (bs0 + i * B + r) (ARM_LPAE_START_LVL d) (pgd d).
Proof.
  intros Hf Hm Hpool Hland.
  rewrite (split_blk_unmap_start st size Hf Hm Hland).
  destruct (split_loop_refused _ (table_absent_start st Hf Hm) Hpool) as (st1 & Hloop & Habs).
  rewrite Hloop. eexists. split; [reflexivity|].
  intros i r Hi Hr. rewrite Hm. now apply refused_translation.
Qed.

End SplitLoop.

(** ** Unmapping a piece of a block *)

Lemma land_lnot_pow2 x n :
  0 <= n -> Z.land x (Z.lnot (2 ^ n - 1)) = x - x mod 2 ^ n.
Proof.
  intros Hn. rewrite <- Z.ldiff_land.
  replace (2 ^ n - 1) with (Z.ones n) by (rewrite Z.ones_equiv; lia).
  rewrite Z.ldiff_ones_r, Z.shiftl_mul_pow2, Z.shiftr_div_pow2 by assumption.
  pose proof (Z.div_mod x (2 ^ n)). assert (0 < 2 ^ n) by (apply Z.pow_pos_nonneg; lia).
  lia.
Qed.

Lemma iova_decompose iova N B :
  0 < N -> 0 < B -> iova mod B = 0 ->
  exists bs0 h,
    iova = bs0 + h * B /\ bs0 = iova - iova mod (N * B)
    /\ bs0 mod (N * B) = 0 /\ 0 <= h < N.
Proof.
  intros HN HB Hal.
  apply Z.mod_divide in Hal; [|lia]. destruct Hal as [q ->].
  exists (q * B - (q * B) mod (N * B)), (q mod N).
  rewrite Z.mul_mod_distr_r by lia.
  pose proof (Z.mod_pos_bound q N HN). pose proof (Z.div_mod q N).
  repeat split; try lia.
  replace (q * B - q mod N * B) with ((q / N) * (N * B)) by nia.
  apply Z.mod_mul. nia.
Qed.

Lemma addr_decompose bs0 a N B :
  0 < N -> 0 < B -> bs0 <= a < bs0 + N * B ->
  exists i r, a = bs0 + i * B + r /\ 0 <= i < N /\ 0 <= r < B.
Proof.
  intros HN HB Ha. exists ((a - bs0) / B), ((a - bs0) mod B).
  pose proof (Z.div_mod (a - bs0) B). pose proof (Z.mod_pos_bound (a - bs0) B HB).
  assert (0 <= (a - bs0) / B) by (apply Z.div_pos; lia).
  assert ((a - bs0) / B < N) by (apply Z.div_lt_upper_bound; nia).
  repeat split; lia.
Qed.

Lemma in_hole_iff bs0 h i r B :
  0 < B -> 0 <= r < B ->
  (bs0 + h * B <=? bs0 + i * B + r) && (bs0 + i * B + r <? bs0 + h * B + B)
  = (i =? h).
Proof.
  intros HB Hr.
  destruct (Z.leb_spec (bs0 + h * B) (bs0 + i * B + r)),
           (Z.ltb_spec (bs0 + i * B + r) (bs0 + h * B + B)),
           (Z.eqb_spec i h); cbn [andb]; try reflexivity; exfalso; nia.
Qed.

Lemma iopte_prot_ok pte : prot_ok (iopte_prot pte).
Proof.
  intros i Hi. unfold iopte_prot, ARM_LPAE_PTE_ATTR_MASK.
  rewrite Z.land_spec, Z.lor_spec.
  assert (Hlo : Z.testbit ARM_LPAE_PTE_ATTR_LO_MASK i = false)
    by (apply attr_const_bits; [reflexivity|split; [discriminate|reflexivity]|assumption]).
  assert (Hhi : Z.testbit ARM_LPAE_PTE_ATTR_HI_MASK i = false).
  { apply (testbit_aligned _ 52); [lia|reflexivity|lia]. }
  rewrite Hlo, Hhi. apply andb_false_r.
Qed.

Section UnmapWalk.

Variable d : arm_lpae_io_pgtable.
Hypothesis Hgeo : geometry_ok d.

Lemma block_size_smaller l l' :
  l < l' -> l' <= 3 -> ARM_LPAE_BLOCK_SIZE l' d < ARM_LPAE_BLOCK_SIZE l d.
Proof.
  intros Hl Hl'. rewrite !(block_size_eq d Hgeo), !(lvl_shift_eq d).
  destruct Hgeo as (Hpg & Hbpl & _). apply Z.pow_lt_mono_r; nia.
Qed.

(** The walk of [__arm_lpae_unmap] follows the tables down to the block
    and hands over to [arm_lpae_split_blk_unmap]. *)
Lemma unmap_reaches_split st iova size L s :
  L <= 2 -> size = ARM_LPAE_BLOCK_SIZE (L + 1) d ->
  forall n lvl ptep prev fuel,
    walk_to_leaf n d (mem st) iova lvl ptep = Some (L, s) ->
    L - lvl <= Z.of_nat fuel ->
    exists prev',
      __arm_lpae_unmap fuel d iova size lvl ptep prev st
      = arm_lpae_split_blk_unmap d iova size (iopte_prot (mem st s)) L s prev'
                                 (ARM_LPAE_BLOCK_SIZE L d) st.
Proof.
  intros HL2 Hsz.
  induction n as [|n IH]; intros lvl ptep prev fuel H Hfuel;
    pose proof (walk_to_leaf_level _ _ _ _ _ _ _ _ H) as Hle;
    destruct (walk_to_leaf_step _ _ _ _ _ _ _ _ H)
      as (Hp & Hnz & [(-> & -> & Hl)|(Hl & Hlt & n' & En & H')]);
    try discriminate.
  1, 2: exists prev; destruct fuel; cbn [__arm_lpae_unmap]; cbv zeta;
    (destruct (Z.eqb_spec (mem st (ptep + sizeof_iopte * ARM_LPAE_LVL_IDX iova L d)) 0);
     [contradiction|]);
    (destruct (Z.eqb_spec L ARM_LPAE_MAX_LEVELS) as [E|_];
     [unfold ARM_LPAE_MAX_LEVELS in E; lia|]); cbn [orb];
    (destruct (Z.eqb_spec size (ARM_LPAE_BLOCK_SIZE L d)) as [E|_];
     [pose proof (block_size_smaller L (L + 1)); lia|]);
    rewrite Hl; cbn [negb]; rewrite andb_false_r; reflexivity.
  injection En as <-.
  assert (Hlt2 : lvl < L).
  { apply walk_to_leaf_level in H'. lia. }
  destruct fuel as [|fuel]; [lia|].
  destruct (IH (lvl + 1) _ (ptep + sizeof_iopte * ARM_LPAE_LVL_IDX iova lvl d) fuel H')
    as [prev' Hrec]; [lia|].
  exists prev'. cbn [__arm_lpae_unmap]; cbv zeta.
  destruct (Z.eqb_spec (mem st (ptep + sizeof_iopte * ARM_LPAE_LVL_IDX iova lvl d)) 0);
    [contradiction|].
  destruct (Z.eqb_spec lvl ARM_LPAE_MAX_LEVELS) as [E|_];
    [unfold ARM_LPAE_MAX_LEVELS in E; lia|]. cbn [orb].
  destruct (Z.eqb_spec size (ARM_LPAE_BLOCK_SIZE lvl d)) as [E|_];
    [pose proof (block_size_smaller lvl (L + 1)); lia|].
  destruct (Z.eqb_spec lvl (ARM_LPAE_MAX_LEVELS - 2)) as [E|_];
    [unfold ARM_LPAE_MAX_LEVELS in E; lia|]. cbn [andb].
  rewrite Hl. exact Hrec.
Qed.

End UnmapWalk.

Lemma separatedb_app l1 l2 :
  separatedb (l1 ++ l2) = true ->
  separatedb l1 = true /\ separatedb l2 = true
  /\ forall r1 r2, In r1 l1 -> In r2 l2 -> disjointb r1 r2 = true.
Proof.
  induction l1 as [|r l1 IH]; cbn [app]; intros H.
  - split; [reflexivity|]. split; [assumption|]. intros r1 r2 [].
  - cbn [separatedb] in *. apply andb_prop in H. destruct H as [H H3].
    apply andb_prop in H. destruct H as [H1 H2].
    rewrite forallb_app in H2. apply andb_prop in H2. destruct H2 as [H2 H2'].
    destruct (IH H3) as (Ha & Hb & Hc).
    rewrite H1, H2, Ha. split; [reflexivity|]. split; [assumption|].
    intros r1 r2 [<-|Hr1] Hr2; [|now apply Hc].
    rewrite forallb_forall in H2'. now apply H2'.
Qed.

(** What separation gives at the block. *)
Lemma split_separated_facts d st iova L s :
  geometry_ok d ->
  walk_to_leaf (levels_below (ARM_LPAE_START_LVL d)) d (mem st) iova
               (ARM_LPAE_START_LVL d) (pgd d) = Some (L, s) ->
  split_separated d st iova = true ->
  separatedb (walk_tables (levels_below (ARM_LPAE_START_LVL d)) d (mem st) iova
                          (ARM_LPAE_START_LVL d) (pgd d)) = true
  /\ frame st <> 0
  /\ outside (frame st)
             (walk_tables (levels_below (ARM_LPAE_START_LVL d)) d (mem st) iova
                          (ARM_LPAE_START_LVL d) (pgd d))
  /\ s <> frame st
  /\ forall c rest, pool st = c :: rest -> c <> 0 ->
       0 < c /\ chunk_ok d (c, Z.shiftl 1 (pg_shift d)) = true
       /\ ~ in_region (frame st) (c, Z.shiftl 1 (pg_shift d))
       /\ ~ in_region s (c, Z.shiftl 1 (pg_shift d))
       /\ forall x, in_region x (c, Z.shiftl 1 (pg_shift d)) ->
            outside x (walk_tables (levels_below (ARM_LPAE_START_LVL d)) d (mem st)
                                   iova (ARM_LPAE_START_LVL d) (pgd d)).
Proof.
  intros Hgeo Hw Hsep. unfold split_separated in Hsep.
  apply andb_prop in Hsep. destruct Hsep as [Hsep Hok].
  apply separatedb_app in Hsep. destruct Hsep as (Hsw & Hsr & Hcross).
  pose proof Hsr as Hsr'. apply separatedb_cons in Hsr'.
  destruct Hsr' as (Hfpos & Hfch & _). cbn [fst] in Hfpos.
  assert (Hfin : in_region (frame st) (frame st, sizeof_iopte))
    by (unfold in_region, sizeof_iopte; cbn [fst snd]; lia).
  assert (Hfo : outside (frame st)
                  (walk_tables (levels_below (ARM_LPAE_START_LVL d)) d (mem st) iova
                               (ARM_LPAE_START_LVL d) (pgd d))).
  { intros r Hr Hin. apply (disjointb_outside _ _ _ Hin (Hcross r _ Hr (or_introl eq_refl))).
    exact Hfin. }
  destruct (walk_leaf_in_tables d Hgeo (mem st) iova L s _ _ _ Hw) as (rs & Hrs & Hins).
  split; [exact Hsw|]. split; [lia|]. split; [exact Hfo|]. split.
  { intros ->. exact (Hfo rs Hrs Hins). }
  intros c rest Hpool Hc. rewrite Hpool, (pool_chunks_cons d c rest Hc) in *.
  cbn [forallb] in Hok. apply andb_prop in Hok. destruct Hok as [Hokc _].
  pose proof Hsr as Hsr'. apply separatedb_cons in Hsr'. destruct Hsr' as (_ & _ & Hsc).
  apply separatedb_cons in Hsc. destruct Hsc as (Hcpos & _). cbn [fst] in Hcpos.
  split; [exact Hcpos|]. split; [exact Hokc|]. split; [|split].
  - apply (disjointb_outside _ _ _ Hfin). apply Hfch. now left.
  - apply (disjointb_outside _ _ _ Hins). apply (Hcross rs _ Hrs). right. now left.
  - intros x Hx r Hr Hin.
    apply (disjointb_outside _ _ _ Hin (Hcross r _ Hr (or_intror (or_introl eq_refl)))).
    exact Hx.
Qed.

Lemma block_out_nonneg d pte : 0 <= pg_shift d -> 0 <= block_out d pte.
Proof.
  intros Hpg. unfold block_out, iopte_to_pfn.
  apply Z.shiftl_nonneg, Z.shiftr_nonneg, Z.land_nonneg. right. now vm_compute.
Qed.

(** One round of the loop of [arm_lpae_unmap] that unmaps nothing or
    the whole request. *)
Lemma unmap_one_round d iova size st r st1 :
  0 < size ->
  (size < SZ_2M \/ iommu_pgsize (pgsize_bitmap (cfg (iop d))) iova size = Some size) ->
  __arm_lpae_unmap (Z.to_nat (ARM_LPAE_MAX_LEVELS - ARM_LPAE_START_LVL d)) d iova size
                   (ARM_LPAE_START_LVL d) (pgd d) 0 st = Ret (r, st1) ->
  r = 0 \/ r = size ->
  arm_lpae_unmap d iova size st
  = Ret (r, if r =? 0 then st1 else emit st1 tlb_flush_all).
Proof.
  intros Hsz Hpick Hu Hr. unfold arm_lpae_unmap. cbv zeta.
  destruct (Z.to_nat size) as [|fuel] eqn:Ef; [lia|].
  cbn [unmap_while]. cbv zeta.
  destruct (Z.ltb_spec 0 size); [|lia].
  rewrite Z.sub_0_r.
  assert (Hp : (if size <? SZ_2M then Some size
                else iommu_pgsize (pgsize_bitmap (cfg (iop d))) iova size) = Some size).
  { destruct (Z.ltb_spec size SZ_2M); [reflexivity|]. destruct Hpick; [lia|assumption]. }
  rewrite Hp, Hu.
  destruct Hr as [->| ->].
  - reflexivity.
  - destruct (Z.eqb_spec size 0) as [|_]; [lia|].
    destruct fuel; cbn [unmap_while]; rewrite Z.add_0_l, Z.ltb_irrefl;
      (destruct (Z.eqb_spec size 0) as [|_]; [lia|reflexivity]).
Qed.

(** C4 (amended).  For every [unmap(iova, size)] whose walk arrives at a
    block leaf one level above the request ([size] is the block size of
    the next level, a supported page size, and [iova] a multiple of
    it), the block mapping memory aligned to its size below [2^48], and
    the tables of the walk, the stack cell of
    [arm_lpae_split_blk_unmap] and the allocator's chunks in memory of
    their own: when the allocator hands out a table the call returns
    [size], the hole [[iova, iova + size)] translates to nothing and
    every other address of the original block translates to its
    original physical address; when the allocator refuses the call
    returns 0 and every address of the block translates as before. *)
Theorem unmap_splits_block d st iova size L s :
  geometry_ok d ->
  walk_to_leaf (levels_below (ARM_LPAE_START_LVL d)) d (mem st) iova
               (ARM_LPAE_START_LVL d) (pgd d) = Some (L, s) ->
  L <= 2 ->
  size = ARM_LPAE_BLOCK_SIZE (L + 1) d ->
  Z.land size (pgsize_bitmap (cfg (iop d))) <> 0 ->
  iova mod size = 0 ->
  (size < SZ_2M \/ iommu_pgsize (pgsize_bitmap (cfg (iop d))) iova size = Some size) ->
  block_out d (mem st s) mod ARM_LPAE_BLOCK_SIZE L d = 0 ->
  block_out d (mem st s) + ARM_LPAE_BLOCK_SIZE L d <= 2 ^ 48 ->
  split_separated d st iova = true ->
  exists st',
    arm_lpae_unmap d iova size st
    = Ret (if next_chunk (pool st) =? 0 then 0 else size, st')
    /\ forall a,
         block_base d iova L <= a < block_base d iova L + ARM_LPAE_BLOCK_SIZE L d ->
         arm_lpae_iova_to_phys d a st'
         = if negb (next_chunk (pool st) =? 0) && (iova <=? a) && (a <? iova + size)
           then 0 else arm_lpae_iova_to_phys d a st.
Proof.
  intros Hgeo Hw HL2 Hsz Hbit Hia Hpick Hpa Hpr Hsep.
  pose proof (walk_to_leaf_level _ _ _ _ _ _ _ _ Hw) as HL1.
  assert (HL : ARM_LPAE_START_LVL d <= L <= 2) by lia.
  destruct (split_separated_facts d st iova L s Hgeo Hw Hsep)
    as (Hsw & Hfr0 & Hfo & Hsfr & Hchunk).
  pose proof (split_B_pos d Hgeo L HL) as HB.
  pose proof (split_N_ge d Hgeo L) as HN.
  pose proof (split_blk_size d Hgeo L HL) as Hblk.
  rewrite <- Hsz in HB, Hblk.
  set (N := Z.shiftl 1 (bits_per_level d)) in *.
  assert (HN0 : 0 < N) by lia.
  destruct (iova_decompose iova N size HN0 HB Hia)
    as (bs0 & h & Eiova & Ebs & Hbs & Hh).
  assert (Hland : Z.land iova (Z.lnot (ARM_LPAE_BLOCK_SIZE L d - 1)) = bs0).
  { rewrite Ebs, <- Hblk, (block_size_eq d Hgeo). apply land_lnot_pow2.
    pose proof (lvl_shift_lower d Hgeo L). destruct Hgeo. lia. }
  unfold block_base. rewrite Hland.
  destruct (unmap_reaches_split d Hgeo st iova size L s HL2 Hsz _ _ _ 0
              (Z.to_nat (ARM_LPAE_MAX_LEVELS - ARM_LPAE_START_LVL d)) Hw)
    as [prev' Hreach].
  { unfold ARM_LPAE_MAX_LEVELS. lia. }
  pose proof (block_out_nonneg d (mem st s)) as Hbo.
  assert (Hpg : 0 <= pg_shift d) by (destruct Hgeo; lia).
  specialize (Hbo Hpg). unfold block_out in *.
  rewrite Hblk in Hpa, Hpr.
  (* the addresses of the block, piece by piece *)
  assert (Haddr : forall (P : Z -> Prop),
             (forall i r, 0 <= i < N -> 0 <= r < size -> P (bs0 + i * size + r)) ->
             forall a, bs0 <= a < bs0 + ARM_LPAE_BLOCK_SIZE L d -> P a).
  { intros P HP a Ha. rewrite Hblk in Ha.
    destruct (addr_decompose bs0 a N size HN0 HB Ha) as (i & r & -> & Hi & Hr).
    now apply HP. }
  rewrite Hsz in *. clear Hsz. subst iova.
  destruct (pool st) as [|c rest] eqn:Hpool; [|destruct (Z.eqb_spec c 0) as [->|Hc]].
  - destruct (split_blk_unmap_refused d Hgeo L HL (iopte_prot (mem st s)) bs0 _ h
                (frame st) prev' (mem st) Hbs Hh s Hw Hfo eq_refl Hpa (conj Hbo Hpr)
                Hsfr st (ARM_LPAE_BLOCK_SIZE (L + 1) d) eq_refl eq_refl
                (or_introl Hpool) Hland) as (st1 & Hsplit & Htr).
    rewrite Hsplit in Hreach.
    rewrite (unmap_one_round d _ _ st 0 st1 HB Hpick Hreach (or_introl eq_refl)).
    cbn [next_chunk Z.eqb negb andb]. eexists. split; [reflexivity|].
    apply Haddr. intros i r Hi Hr. unfold arm_lpae_iova_to_phys. now apply Htr.
  - destruct (split_blk_unmap_refused d Hgeo L HL (iopte_prot (mem st s)) bs0 _ h
                (frame st) prev' (mem st) Hbs Hh s Hw Hfo eq_refl Hpa (conj Hbo Hpr)
                Hsfr st (ARM_LPAE_BLOCK_SIZE (L + 1) d) eq_refl eq_refl
                (or_intror (ex_intro _ rest Hpool)) Hland) as (st1 & Hsplit & Htr).
    rewrite Hsplit in Hreach.
    rewrite (unmap_one_round d _ _ st 0 st1 HB Hpick Hreach (or_introl eq_refl)).
    cbn [next_chunk Z.eqb negb andb]. eexists. split; [reflexivity|].
    apply Haddr. intros i r Hi Hr. unfold arm_lpae_iova_to_phys. now apply Htr.
  - destruct (Hchunk c rest eq_refl Hc) as (Hcpos & Hck & Hfc & Hsc & Hcw).
    destruct (split_blk_unmap_filled d Hgeo L HL Hbit (iopte_prot (mem st s)) bs0 _ h
                (frame st) c prev' rest (mem st) Hbs Hh Hfr0 Hfc Hcpos Hck s Hw Hsw Hfo
                Hcw eq_refl Hpa (conj Hbo Hpr) (iopte_prot_ok _) Hsfr Hsc
                st (ARM_LPAE_BLOCK_SIZE (L + 1) d) eq_refl eq_refl Hpool Hland)
      as (st1 & Hsplit & Htr).
    rewrite Hsplit in Hreach.
    rewrite (unmap_one_round d _ _ st _ st1 HB Hpick Hreach (or_intror eq_refl)).
    cbn [next_chunk]. destruct (Z.eqb_spec c 0) as [|_]; [contradiction|].
    destruct (Z.eqb_spec (ARM_LPAE_BLOCK_SIZE (L + 1) d) 0) as [E|_]; [lia|].
    cbn [negb andb]. eexists. split; [reflexivity|].
    apply Haddr. intros i r Hi Hr. unfold arm_lpae_iova_to_phys. cbn [mem emit].
    rewrite in_hole_iff by assumption. now apply Htr.
Qed.

(** Selftest scenario 3: a 4 KiB page unmapped from the 2 MiB block at
    1 GiB. *)
Lemma unmap_splits_block_witness :
  exists st',
    arm_lpae_unmap selftest_data (SZ_1G + SZ_4K) SZ_4K (machine_of two_meg)
    = Ret (if next_chunk (pool (machine_of two_meg)) =? 0 then 0 else SZ_4K, st')
    /\ forall a,
         block_base selftest_data (SZ_1G + SZ_4K) 2 <= a
         < block_base selftest_data (SZ_1G + SZ_4K) 2
           + ARM_LPAE_BLOCK_SIZE 2 selftest_data ->
         arm_lpae_iova_to_phys selftest_data a st'
         = if negb (next_chunk (pool (machine_of two_meg)) =? 0)
              && (SZ_1G + SZ_4K <=? a) && (a <? SZ_1G + SZ_4K + SZ_4K)
           then 0 else arm_lpae_iova_to_phys selftest_data a (machine_of two_meg).
Proof.
  apply (unmap_splits_block selftest_data (machine_of two_meg) (SZ_1G + SZ_4K) SZ_4K
           2 0x120000).
  - unfold geometry_ok. cbn. lia.
  - vm_compute. reflexivity.
  - lia.
  - reflexivity.
  - vm_compute. discriminate.
  - reflexivity.
  - left. reflexivity.
  - vm_compute. reflexivity.
  - vm_compute. discriminate.
  - vm_compute. reflexivity.
Defined.

(** * Further properties *)

(** ** Which collaborators a call reaches *)

Lemma trace_grows_refl P st st' : trace st' = trace st -> trace_grows P st st'.
Proof. intros H. exists []. now rewrite H. Qed.

Lemma trace_grows_trans P st1 st2 st3 :
  trace_grows P st1 st2 -> trace_grows P st2 st3 -> trace_grows P st1 st3.
Proof.
  intros (n1 & H1 & F1) (n2 & H2 & F2). exists (n2 ++ n1).
  rewrite H2, H1, app_assoc, forallb_app, F1, F2. auto.
Qed.

Lemma trace_grows_cons P st st' e :
  P e = true -> trace st' = e :: trace st -> trace_grows P st st'.
Proof. intros He H. exists [e]. rewrite H. cbn. now rewrite He. Qed.


Lemma init_pte_trace d iova paddr prot lvl ptep prev flush st r st' :
  arm_lpae_init_pte d iova paddr prot lvl ptep prev flush st = Ret (r, st') ->
  trace_grows is_flush_pgtable st st'.
Proof.
  unfold arm_lpae_init_pte. intros H.
  destruct (negb _).
  - destruct (suppress_map_failures st); [|discriminate]. injection H as _ <-.
    now apply trace_grows_refl.
  - injection H as _ <-. destruct flush, (prev =? 0);
      (now apply trace_grows_refl) || (eapply trace_grows_cons; cycle 1; reflexivity).
Qed.

Lemma ms_flush_trace s st : trace_grows is_flush_pgtable st (ms_flush s st).
Proof.
  unfold ms_flush. destruct (pgtable s =? 0);
    [now apply trace_grows_refl|eapply trace_grows_cons; cycle 1; reflexivity].
Qed.

Lemma map_trace d iova paddr size prot :
  forall fuel lvl ptep prev ms st r ms' st',
    __arm_lpae_map fuel d iova paddr size prot lvl ptep prev ms st = Ret (r, ms', st') ->
    trace_grows is_flush_pgtable st st'.
Proof.
  assert (Hleaf : forall lvl ptep prev ms flush st r st',
             arm_lpae_init_pte d iova paddr prot lvl ptep prev flush (ms_flush ms st)
             = Ret (r, st') -> trace_grows is_flush_pgtable st st').
  { intros. eapply trace_grows_trans; [apply ms_flush_trace|eapply init_pte_trace; eauto]. }
  induction fuel as [|fuel IH]; intros lvl ptep prev ms st r ms' st' H;
    cbn [__arm_lpae_map] in H; cbv zeta in H.
  all: destruct (_ && _);
    [destruct ms as [s|];
     [destruct (lvl =? MAP_STATE_LVL);
      destruct (arm_lpae_init_pte _ _ _ _ _ _ _ _ _) as [[r1 st1]|] eqn:Hi;
      try discriminate; injection H as _ _ <-; eapply Hleaf; eauto
     |destruct (arm_lpae_init_pte _ _ _ _ _ _ _ _ _) as [[r1 st1]|] eqn:Hi;
      try discriminate; injection H as _ _ <-; eapply init_pte_trace; eauto]|].
  - destruct (lvl >=? _); [|discriminate]. injection H as _ _ <-.
    now apply trace_grows_refl.
  - destruct (lvl >=? _); [injection H as _ _ <-; now apply trace_grows_refl|].
    destruct (mem st _ =? 0).
    + destruct (io_pgtable_alloc_pages_exact _ st) as [c st1] eqn:Ha.
      apply alloc_pages_trace in Ha.
      destruct (c =? 0); [injection H as _ _ <-; now apply trace_grows_refl|].
      apply IH in H. eapply trace_grows_trans; [|exact H].
      exists [flush_pgtable (ptep + sizeof_iopte * ARM_LPAE_LVL_IDX iova lvl d) sizeof_iopte;
              flush_pgtable c (Z.shiftl 1 (pg_shift d))].
      cbn [trace emit set_mem app]. now rewrite Ha.
    + now apply IH in H.
Qed.

Lemma map_sg_while_trace d prot lvl ptep :
  forall fuel iova phys size mapped ms st,
    match map_sg_while fuel d prot lvl ptep iova phys size mapped ms st with
    | SgDone _ _ _ st' | SgErr _ st' => trace_grows is_flush_pgtable st st'
    | SgBug => True
    end.
Proof.
  induction fuel as [|fuel IH]; intros iova phys size mapped ms st;
    cbn [map_sg_while]; (destruct (size =? 0); [now apply trace_grows_refl|]);
    [exact I|].
  destruct (iommu_pgsize _ _ _) as [pgsz|]; [|exact I].
  destruct (_ && _).
  - destruct (arm_lpae_init_pte _ _ _ _ _ _ _ _ _) as [[ret st1]|] eqn:Hi; [|exact I].
    apply init_pte_trace in Hi.
    destruct (negb _); [assumption|].
    match goal with |- match ?x with _ => _ end => pose proof (IH (iova + pgsz) (phys + pgsz) (size - pgsz) (mapped + pgsz) {| iova_end := iova_end ms; pgsize := pgsize ms; pgtable := pgtable ms; prev_pgtable := prev_pgtable ms; pte_start := pte_start ms; num_pte := num_pte ms + 1 |} st1) as H end.
    destruct (map_sg_while _ _ _ _ _ _ _ _ _ _ _); try exact I;
      eapply trace_grows_trans; eauto.
  - destruct (__arm_lpae_map _ _ _ _ _ _ _ _ _ _ _) as [[[ret ms1] st1]|] eqn:Hm; [|exact I].
    apply map_trace in Hm.
    destruct (negb _); [assumption|].
    match goal with |- match map_sg_while _ _ _ _ _ ?a ?b ?c ?e ?m ?s with _ => _ end =>
      pose proof (IH a b c e m s) as H end.
    destruct (map_sg_while _ _ _ _ _ _ _ _ _ _ _); try exact I;
      eapply trace_grows_trans; eauto.
Qed.

Lemma map_sg_for_each_trace d prot lvl ptep min_pagesz :
  forall sg iova mapped ms st,
    match map_sg_for_each d prot lvl ptep min_pagesz sg iova mapped ms st with
    | SgDone _ _ _ st' | SgErr _ st' => trace_grows is_flush_pgtable st st'
    | SgBug => True
    end.
Proof.
  induction sg as [|s rest IH]; intros iova mapped ms st; cbn [map_sg_for_each].
  - now apply trace_grows_refl.
  - cbv zeta. destruct (negb _); [now apply trace_grows_refl|].
    pose proof (map_sg_while_trace d prot lvl ptep
                  (Z.to_nat (sg_length s / min_pagesz)) iova
                  (sg_page_phys s + sg_offset s) (sg_length s) mapped ms st) as H.
    destruct (map_sg_while _ _ _ _ _ _ _ _ _ _ _) as [i1 m1 ms1 st1|m1 st1|];
      try assumption.
    specialize (IH i1 m1 ms1 st1).
    destruct (map_sg_for_each _ _ _ _ _ _ _ _ _ _); try exact I;
      eapply trace_grows_trans; eauto.
Qed.

(** X1. [arm_lpae_map] and [arm_lpae_map_sg] only ever call
    [flush_pgtable]: whatever they return, the calls they add to the
    trace contain no [tlb_flush_all] and no [free_pages_exact]. *)
Theorem map_only_flushes_pgtable d iova st :
  (forall paddr size prot r st',
      arm_lpae_map d iova paddr size prot st = Ret (r, st') ->
      trace_grows is_flush_pgtable st st')
  /\ (forall sg prot r rem st',
         arm_lpae_map_sg d iova sg prot st = Ret (r, rem, st') ->
         trace_grows is_flush_pgtable st st').
Proof.
  split.
  - intros paddr size prot r st' H. unfold arm_lpae_map in H.
    destruct (negb _); [injection H as _ <-; now apply trace_grows_refl|].
    destruct (__arm_lpae_map _ _ _ _ _ _ _ _ _ _ _) as [[[r1 ms1] st1]|] eqn:Hm;
      [|discriminate].
    injection H as _ <-. eapply map_trace; eauto.
  - intros sg prot r rem st' H. unfold arm_lpae_map_sg in H.
    destruct (negb _); [injection H as _ _ <-; now apply trace_grows_refl|].
    match type of H with
    | match map_sg_for_each ?d ?p ?l ?pt ?mp ?sg ?i ?m ?ms ?s with _ => _ end = _ =>
        pose proof (map_sg_for_each_trace d p l pt mp sg i m ms s) as Hs
    end.
    destruct (map_sg_for_each _ _ _ _ _ _ _ _ _ _) as [i1 m1 ms1 st1|m1 st1|];
      [| |discriminate].
    + injection H as _ _ <-. eapply trace_grows_trans; [exact Hs|apply ms_flush_trace].
    + injection H as _ _ <-. exact Hs.
Qed.

(** ** What [arm_lpae_map] returns *)

Lemma init_pte_codes d iova paddr prot lvl ptep prev flush st r st' :
  arm_lpae_init_pte d iova paddr prot lvl ptep prev flush st = Ret (r, st') ->
  suppress_map_failures st' = suppress_map_failures st
  /\ (r = 0 \/ (r = - EEXIST /\ suppress_map_failures st = true)).
Proof.
  unfold arm_lpae_init_pte. intros H.
  destruct (negb _).
  - destruct (suppress_map_failures st) eqn:E; [|discriminate].
    injection H as <- <-. auto.
  - injection H as <- <-. split; [|now left]. destruct flush, (prev =? 0); reflexivity.
Qed.

Lemma ms_flush_suppress s st :
  suppress_map_failures (ms_flush s st) = suppress_map_failures st.
Proof. unfold ms_flush. destruct (pgtable s =? 0); reflexivity. Qed.

Lemma alloc_pages_suppress size st c st1 :
  io_pgtable_alloc_pages_exact size st = (c, st1) ->
  suppress_map_failures st1 = suppress_map_failures st.
Proof.
  unfold io_pgtable_alloc_pages_exact. intros H.
  destruct (pool st) as [|p rest]; [now injection H as _ <-|].
  destruct (p =? 0); now injection H as _ <-.
Qed.

Lemma map_codes d iova paddr size prot :
  forall fuel lvl ptep prev ms st r ms' st',
    __arm_lpae_map fuel d iova paddr size prot lvl ptep prev ms st = Ret (r, ms', st') ->
    suppress_map_failures st' = suppress_map_failures st
    /\ In r [0; - EEXIST; - EINVAL; - ENOMEM]
    /\ (r = - EEXIST -> suppress_map_failures st = true)
    /\ (r = 0 ->
        Z.land size (pgsize_bitmap (cfg (iop d))) <> 0
        /\ exists L, lvl <= L /\ (lvl <= 3 -> L <= 3)
                     /\ size = ARM_LPAE_BLOCK_SIZE L d).
Proof.
  assert (Hleaf : forall lvl ptep prev flush st0 st r st',
             suppress_map_failures st = suppress_map_failures st0 ->
             (size =? ARM_LPAE_BLOCK_SIZE lvl d)
             && negb (Z.land size (pgsize_bitmap (cfg (iop d))) =? 0) = true ->
             arm_lpae_init_pte d iova paddr prot lvl ptep prev flush st = Ret (r, st') ->
             suppress_map_failures st' = suppress_map_failures st0
             /\ In r [0; - EEXIST; - EINVAL; - ENOMEM]
             /\ (r = - EEXIST -> suppress_map_failures st0 = true)
             /\ (r = 0 ->
                 Z.land size (pgsize_bitmap (cfg (iop d))) <> 0
                 /\ exists L, lvl <= L /\ (lvl <= 3 -> L <= 3)
                              /\ size = ARM_LPAE_BLOCK_SIZE L d)).
  { intros lvl ptep prev flush st0 st r st' Hs Hc Hi.
    apply andb_prop in Hc. destruct Hc as [Hc1 Hc2].
    apply Z.eqb_eq in Hc1. apply negb_true_iff, Z.eqb_neq in Hc2.
    destruct (init_pte_codes _ _ _ _ _ _ _ _ _ _ _ Hi) as (Hsup & [->|[-> Ht]]).
    - split; [congruence|]. split; [now left|]. split; [discriminate|].
      intros _. split; [assumption|]. exists lvl. repeat split; auto; lia.
    - split; [congruence|]. split; [right; now left|]. split; [congruence|].
      unfold EEXIST. discriminate. }
  assert (Hinval : forall st, suppress_map_failures st = suppress_map_failures st
             /\ In (- EINVAL) [0; - EEXIST; - EINVAL; - ENOMEM]
             /\ (- EINVAL = - EEXIST -> suppress_map_failures st = true)
             /\ (- EINVAL = 0 ->
                 Z.land size (pgsize_bitmap (cfg (iop d))) <> 0
                 /\ exists L : Z, False)).
  { intros st. split; [reflexivity|]. split; [right; right; now left|].
    split; unfold EINVAL, EEXIST; discriminate. }
  induction fuel as [|fuel IH]; intros lvl ptep prev ms st r ms' st' H;
    cbn [__arm_lpae_map] in H; cbv zeta in H.
  all: destruct (_ && _) eqn:Hc;
    [destruct ms as [s|];
     [destruct (lvl =? MAP_STATE_LVL);
      destruct (arm_lpae_init_pte _ _ _ _ _ _ _ _ _) as [[r1 st1]|] eqn:Hi;
      try discriminate; injection H as <- _ <-;
      apply (Hleaf _ _ _ _ st _ _ _ (ms_flush_suppress s st) Hc Hi)
     |destruct (arm_lpae_init_pte _ _ _ _ _ _ _ _ _) as [[r1 st1]|] eqn:Hi;
      try discriminate; injection H as <- _ <-;
      apply (Hleaf _ _ _ _ st _ _ _ eq_refl Hc Hi)]|].
  - destruct (lvl >=? _); [|discriminate]. injection H as <- _ <-.
    split; [reflexivity|]. split; [right; right; now left|].
    split; unfold EINVAL, EEXIST; discriminate.
  - destruct (Z.geb_spec lvl (ARM_LPAE_MAX_LEVELS - 1)) as [|Hlt].
    { injection H as <- _ <-.
      split; [reflexivity|]. split; [right; right; now left|].
      split; unfold EINVAL, EEXIST; discriminate. }
    unfold ARM_LPAE_MAX_LEVELS in Hlt.
    assert (Hrec : forall c s st1,
               suppress_map_failures st1 = suppress_map_failures st ->
               __arm_lpae_map fuel d iova paddr size prot (lvl + 1) c s ms st1
               = Ret (r, ms', st') ->
               suppress_map_failures st' = suppress_map_failures st
               /\ In r [0; - EEXIST; - EINVAL; - ENOMEM]
               /\ (r = - EEXIST -> suppress_map_failures st = true)
               /\ (r = 0 ->
                   Z.land size (pgsize_bitmap (cfg (iop d))) <> 0
                   /\ exists L, lvl <= L /\ (lvl <= 3 -> L <= 3)
                                /\ size = ARM_LPAE_BLOCK_SIZE L d)).
    { intros c s st1 Hs1 Hr. apply IH in Hr. destruct Hr as (H1 & H2 & H3 & H4).
      split; [congruence|]. split; [assumption|]. split; [intros E; rewrite <- Hs1; auto|].
      intros E. destruct (H4 E) as (Hb & L & HL1 & HL2 & HL3).
      split; [assumption|]. exists L. repeat split; auto; lia. }
    destruct (mem st _ =? 0).
    + destruct (io_pgtable_alloc_pages_exact _ st) as [c st1] eqn:Ha.
      apply alloc_pages_suppress in Ha.
      destruct (c =? 0).
      * injection H as <- _ <-. split; [assumption|].
        split; [right; right; right; now left|].
        split; unfold ENOMEM, EEXIST; discriminate.
      * eapply Hrec; [|exact H]. exact Ha.
    + eapply Hrec; [|exact H]. reflexivity.
Qed.

(** X2. [arm_lpae_map] returns 0, [-EEXIST], [-EINVAL] or [-ENOMEM] and
    nothing else.  It returns [-EEXIST] only while the selftest switch
    [suppress_map_failures] is on, and when it returns 0 for a
    protection that grants access, [size] is a supported page size and
    the block size of one of the levels of the walk. *)
Theorem map_result_codes d iova paddr size prot st r st' :
  1 <= levels d ->
  arm_lpae_map d iova paddr size prot st = Ret (r, st') ->
  In r [0; - EEXIST; - EINVAL; - ENOMEM]
  /\ (r = - EEXIST -> suppress_map_failures st = true)
  /\ (has_access prot = true -> r = 0 ->
      Z.land size (pgsize_bitmap (cfg (iop d))) <> 0
      /\ exists L, ARM_LPAE_START_LVL d <= L <= 3
                   /\ size = ARM_LPAE_BLOCK_SIZE L d).
Proof.
  intros Hlv H. unfold arm_lpae_map in H. unfold has_access.
  destruct (has_cap prot IOMMU_READ || has_cap prot IOMMU_WRITE); cbn [negb] in H.
  - destruct (__arm_lpae_map _ _ _ _ _ _ _ _ _ _ _) as [[[r1 ms1] st1]|] eqn:Hm;
      [|discriminate].
    injection H as <- <-.
    destruct (map_codes _ _ _ _ _ _ _ _ _ _ _ _ _ _ Hm) as (_ & H2 & H3 & H4).
    split; [assumption|]. split; [assumption|]. intros _ E.
    destruct (H4 E) as (Hb & L & HL1 & HL2 & HL3). split; [assumption|].
    exists L. split; [|assumption].
    unfold ARM_LPAE_START_LVL, ARM_LPAE_MAX_LEVELS in *. lia.
  - injection H as <- <-. split; [now left|]. split; [|discriminate].
    unfold EEXIST. discriminate.
Qed.

Lemma map_result_codes_witness :
  Z.land SZ_4K (pgsize_bitmap (cfg (iop selftest_data))) <> 0
  /\ exists L, ARM_LPAE_START_LVL selftest_data <= L <= 3
               /\ SZ_4K = ARM_LPAE_BLOCK_SIZE L selftest_data.
Proof.
  assert (E : result_of (arm_lpae_map selftest_data 0 0x80000000 SZ_4K RW
                                      selftest_machine) = Some 0)
    by (vm_compute; reflexivity).
  destruct (arm_lpae_map selftest_data 0 0x80000000 SZ_4K RW selftest_machine)
    as [[r st']|] eqn:Hm; cbn [result_of] in E; [|discriminate].
  injection E as ->.
  assert (Hlv : 1 <= levels selftest_data) by (cbn; lia).
  exact (proj2 (proj2 (map_result_codes _ _ _ _ _ _ _ _ Hlv Hm)) eq_refl eq_refl).
Defined.

(** X3. A successful [arm_lpae_map] into an unmapped range writes only
    into the tables on the walk for [iova] and into the chunks the
    allocator had to hand out: every other cell of memory (apart from
    address 0) holds what it held before. *)
Theorem map_writes_only_tables d st iova paddr size prot st' a :
  geometry_ok d ->
  has_access prot = true ->
  iova mod size = 0 -> paddr mod size = 0 -> 0 <= paddr < 2 ^ 48 ->
  walk_separated d st iova = true ->
  (forall j, 0 <= j < size -> arm_lpae_iova_to_phys d (iova + j) st = 0) ->
  arm_lpae_map d iova paddr size prot st = Ret (0, st') ->
  a <> 0 ->
  outside a (walk_tables (levels_below (ARM_LPAE_START_LVL d)) d (mem st) iova
                         (ARM_LPAE_START_LVL d) (pgd d)
             ++ pool_chunks d (pool st)) ->
  mem st' a = mem st a.
Proof.
  intros Hgeo Hacc Hia Hpaa Hpa Hsep Hun H Ha Hout.
  unfold arm_lpae_map in H. unfold has_access in Hacc. rewrite Hacc in H.
  cbn [negb] in H.
  destruct (__arm_lpae_map _ _ _ _ _ _ _ _ _ _ _) as [[[r msr] st1]|] eqn:Hm;
    [|discriminate].
  assert (r = 0 /\ st1 = st') as [-> ->] by (split; congruence).
  pose proof (start_lvl_le d Hgeo) as Hst.
  destruct (map_success_level _ _ _ _ _ _ _ _ _ _ _ _ _ Hst Hm) as (L & HL & HsL).
  rewrite (block_size_eq d Hgeo) in HsL.
  pose proof (lvl_shift_lower d Hgeo L (proj2 HL)) as HsLlow.
  assert (Hone : 0 <= 1 < size).
  { rewrite HsL. split; [lia|]. apply Z.le_lt_trans with (2 ^ 0); [simpl; lia|].
    apply Z.pow_lt_mono_r; destruct Hgeo; lia. }
  unfold walk_separated in Hsep. apply andb_prop in Hsep. destruct Hsep as [Hsep Hok].
  assert (Hl : ARM_LPAE_START_LVL d <= ARM_LPAE_START_LVL d <= 3) by lia.
  exact (proj1 (map_installs d Hgeo iova paddr size _ (prot_to_pte_ok d prot) Hpa Hia
                  Hpaa _ _ _ 0 st msr st' Hl eq_refl Hsep Hok (or_introl eq_refl)
                  (Hun 1 Hone) Hm) a Ha Hout).
Qed.

Lemma map_writes_only_tables_witness :
  exists st',
    arm_lpae_map selftest_data 0 0x80000000 SZ_4K RW selftest_machine = Ret (0, st')
    /\ mem st' 0x200000 = mem selftest_machine 0x200000.
Proof.
  assert (E : result_of (arm_lpae_map selftest_data 0 0x80000000 SZ_4K RW
                                      selftest_machine) = Some 0)
    by (vm_compute; reflexivity).
  destruct (arm_lpae_map selftest_data 0 0x80000000 SZ_4K RW selftest_machine)
    as [[r st']|] eqn:Hm; cbn [result_of] in E; [|discriminate].
  injection E as ->. exists st'. split; [reflexivity|].
  apply (map_writes_only_tables selftest_data selftest_machine 0 0x80000000 SZ_4K RW st').
  - unfold geometry_ok. cbn. lia.
  - reflexivity.
  - reflexivity.
  - reflexivity.
  - split; [lia | reflexivity].
  - vm_compute. reflexivity.
  - intros j Hj. unfold arm_lpae_iova_to_phys. apply walk_at_empty.
    unfold selftest_machine, memzero, boot. cbn [mem].
    destruct (_ && _); reflexivity.
  - exact Hm.
  - discriminate.
  - intros r Hr. vm_compute in Hr.
    repeat (destruct Hr as [<-|Hr]; [unfold in_region; cbn [fst snd]; lia|]).
    destruct Hr.
Defined.

(** ** Arithmetic of the counter *)

Lemma tblcnt_range d : 0 <= iopte_tblcnt d < 2 ^ 17.
Proof.
  assert (H : iopte_tblcnt d = iopte_tblcnt d mod 2 ^ 17).
  { apply Z.bits_inj'. intros j Hj.
    rewrite Z.testbit_mod_pow2, testbit_iopte_tblcnt by lia.
    destruct (0 <=? j), (j <? 17); reflexivity. }
  rewrite H. apply Z.mod_pos_bound. lia.
Qed.

Lemma tblcnt_set_get_mod d v :
  iopte_tblcnt (iopte_tblcnt_set d v) = v mod 2 ^ 17.
Proof.
  apply Z.bits_inj'. intros j Hj.
  rewrite Z.testbit_mod_pow2, testbit_iopte_tblcnt by lia. unfold cnt_pos.
  destruct (Z.ltb_spec j 17).
  - rewrite testbit_iopte_tblcnt_set by (destruct (j <? 10); lia).
    bits_done.
  - replace (0 <=? j) with true by (symmetry; apply Z.leb_le; lia). reflexivity.
Qed.

Lemma to_int_u64_mod x : to_int (u64 x) mod 2 ^ 17 = x mod 2 ^ 17.
Proof.
  unfold to_int, u64.
  rewrite (Z.mod_eq (x mod 2 ^ 64 + 2 ^ 31) (2 ^ 32)) by lia.
  set (q := (x mod 2 ^ 64 + 2 ^ 31) / 2 ^ 32).
  rewrite (Z.mod_eq x (2 ^ 64)) by lia.
  set (p := x / 2 ^ 64).
  replace (x - 2 ^ 64 * p + 2 ^ 31 - 2 ^ 32 * q - 2 ^ 31)
    with (x + (- (2 ^ 47 * p) - 2 ^ 15 * q) * 2 ^ 17) by ring.
  apply Z.mod_add. lia.
Qed.

Lemma tblcnt_add_get d c :
  iopte_tblcnt (iopte_tblcnt_add d c) = (iopte_tblcnt d + c) mod 2 ^ 17.
Proof.
  unfold iopte_tblcnt_add. cbv zeta. now rewrite tblcnt_set_get_mod, to_int_u64_mod.
Qed.

Lemma tblcnt_sub_get d c :
  iopte_tblcnt (iopte_tblcnt_sub d c) = (iopte_tblcnt d - c) mod 2 ^ 17.
Proof.
  unfold iopte_tblcnt_sub. cbv zeta. now rewrite tblcnt_set_get_mod, to_int_u64_mod.
Qed.

(** X4. The counter hidden in a table descriptor is a number below
    [2^17], and [iopte_tblcnt_add] and [iopte_tblcnt_sub] count modulo
    [2^17]: reading the counter after adding (subtracting) [c] gives the
    old count plus (minus) [c], reduced modulo [2^17]; adding and then
    subtracting the same amount restores the count. *)
Theorem tblcnt_counts_mod d c :
  0 <= iopte_tblcnt d < 2 ^ 17
  /\ iopte_tblcnt (iopte_tblcnt_add d c) = (iopte_tblcnt d + c) mod 2 ^ 17
  /\ iopte_tblcnt (iopte_tblcnt_sub d c) = (iopte_tblcnt d - c) mod 2 ^ 17
  /\ iopte_tblcnt (iopte_tblcnt_sub (iopte_tblcnt_add d c) c) = iopte_tblcnt d.
Proof.
  pose proof (tblcnt_range d) as Hr.
  split; [exact Hr|]. split; [apply tblcnt_add_get|]. split; [apply tblcnt_sub_get|].
  rewrite tblcnt_sub_get, tblcnt_add_get, Zminus_mod_idemp_l.
  replace (iopte_tblcnt d + c - c) with (iopte_tblcnt d) by ring.
  apply Z.mod_small. exact Hr.
Qed.

(** X5. A successful [arm_lpae_init_pte] that is given the slot of the
    parent table ([prev_ptep] not NULL) leaves in that slot the same
    descriptor with its counter one higher (modulo [2^17]), stores the
    composed leaf in [ptep] and touches no other cell. *)
Theorem init_pte_counts_leaf d iova paddr prot lvl ptep prev flush st st' :
  arm_lpae_init_pte d iova paddr prot lvl ptep prev flush st = Ret (0, st') ->
  prev <> 0 -> prev <> ptep ->
  iopte_tblcnt (mem st' prev) = (iopte_tblcnt (mem st prev) + 1) mod 2 ^ 17
  /\ same_outside_reserved (mem st' prev) (mem st prev)
  /\ mem st' ptep = arm_lpae_init_pte_val d paddr prot lvl
  /\ (forall a, a <> prev -> a <> ptep -> mem st' a = mem st a).
Proof.
  intros H Hp Hne.
  destruct (init_pte_installed _ _ _ _ _ _ _ _ _ _ H Hne) as (Hleaf & Hfr & Hcnt & _).
  rewrite (Hcnt Hp). split; [apply tblcnt_add_get|].
  split; [apply tblcnt_add_same_outside|]. split; assumption.
Qed.

Lemma init_pte_counts_leaf_witness :
  exists st',
    arm_lpae_init_pte selftest_data 0 0x80000000 0 3 0x130000 0x120000 true
                      selftest_machine = Ret (0, st')
    /\ iopte_tblcnt (mem st' 0x120000)
       = (iopte_tblcnt (mem selftest_machine 0x120000) + 1) mod 2 ^ 17.
Proof.
  destruct (init_pte_returns selftest_data 0 0x80000000 0 3 0x130000 0x120000 true
              selftest_machine eq_refl) as [st' H].
  exists st'. split; [exact H|].
  apply (init_pte_counts_leaf _ _ _ _ _ _ _ _ _ _ H); discriminate.
Defined.

(** X6. The attribute word [arm_lpae_prot_to_pte] hands to the mapping
    code.  Stage 1: nG (bit 11) is always set, AP[2] (bit 7, read-only)
    is set exactly when WRITE is absent, AP[1] (bit 6, unprivileged
    access) exactly when PRIV is absent, and the MAIR index (bits 4..2)
    is 1 for CACHE, 2 for DEVICE and 3 for both.  Stage 2: bit 6 is
    READ, bit 7 is WRITE, and MEMATTR (bits 5..2) is [0xf] with CACHE
    and [0x5] without, whether or not DEVICE is asked for.  In both
    stages XN (bit 54) is set exactly when NOEXEC is asked for. *)
Theorem prot_to_pte_permissions d prot :
  let pte := arm_lpae_prot_to_pte d prot in
  Z.testbit pte 54 = has_cap prot IOMMU_NOEXEC
  /\ match fmt (iop d) with
     | ARM_64_LPAE_S1 | ARM_32_LPAE_S1 =>
         Z.testbit pte 11 = true
         /\ Z.testbit pte 7 = negb (has_cap prot IOMMU_WRITE)
         /\ Z.testbit pte 6 = negb (has_cap prot IOMMU_PRIV)
         /\ Z.land (Z.shiftr pte 2) 7
            = Z.lor (if has_cap prot IOMMU_CACHE then 1 else 0)
                    (if has_cap prot IOMMU_DEVICE then 2 else 0)
     | ARM_64_LPAE_S2 | ARM_32_LPAE_S2 =>
         Z.testbit pte 11 = false
         /\ Z.testbit pte 7 = has_cap prot IOMMU_WRITE
         /\ Z.testbit pte 6 = has_cap prot IOMMU_READ
         /\ Z.land (Z.shiftr pte 2) 15
            = if has_cap prot IOMMU_CACHE then 15 else 5
     end.
Proof.
  cbv zeta. unfold arm_lpae_prot_to_pte.
  destruct (fmt (iop d)), (has_cap prot IOMMU_NOEXEC), (has_cap prot IOMMU_WRITE),
    (has_cap prot IOMMU_PRIV), (has_cap prot IOMMU_CACHE), (has_cap prot IOMMU_DEVICE),
    (has_cap prot IOMMU_READ); vm_compute; repeat split.
Qed.

(** ** Freeing the tree *)

Lemma free_pgtable_returns d :
  forall fuel lvl ptep st,
    lvl <= 3 -> levels_below lvl = fuel ->
    exists st',
      __arm_lpae_free_pgtable fuel d lvl ptep st = Ret st'
      /\ mem st' = mem st /\ pool st' = pool st
      /\ trace_grows is_free_pages st st'
      /\ exists t,
           trace st'
           = free_pages_exact ptep (if lvl =? ARM_LPAE_START_LVL d then pgd_size d
                                    else Z.shiftl 1 (pg_shift d)) :: t.
Proof.
  assert (Hlast : forall (st st1 : machine) ptep sz,
             mem st1 = mem st -> pool st1 = pool st ->
             trace_grows is_free_pages st st1 ->
             exists st',
               Ret (io_pgtable_free_pages_exact ptep sz st1) = Ret st'
               /\ mem st' = mem st /\ pool st' = pool st
               /\ trace_grows is_free_pages st st'
               /\ exists t, trace st' = free_pages_exact ptep sz :: t).
  { intros st st1 ptep sz Hm Hp Ht. eexists. split; [reflexivity|].
    cbn [io_pgtable_free_pages_exact emit mem pool trace].
    split; [assumption|]. split; [assumption|]. split; [|eauto].
    eapply trace_grows_trans; [exact Ht|].
    eapply trace_grows_cons; cycle 1; reflexivity. }
  induction fuel as [|fuel IH]; intros lvl ptep st Hl Hf;
    cbn [__arm_lpae_free_pgtable]; cbv zeta.
  - assert (lvl = 3) by (unfold levels_below, ARM_LPAE_MAX_LEVELS in Hf; lia). subst lvl.
    cbn [Z.eqb ARM_LPAE_MAX_LEVELS Z.sub Z.add Z.opp Z.pos_sub Pos.eqb].
    apply Hlast; auto. now apply trace_grows_refl.
  - assert (Hlt : lvl < 3) by (unfold levels_below, ARM_LPAE_MAX_LEVELS in Hf; lia).
    destruct (Z.eqb_spec lvl (ARM_LPAE_MAX_LEVELS - 1)) as [E|_];
      [unfold ARM_LPAE_MAX_LEVELS in E; lia|].
    assert (Hf' : levels_below (lvl + 1) = fuel).
    { rewrite (levels_below_step lvl) in Hf by (unfold ARM_LPAE_MAX_LEVELS; lia).
      now injection Hf. }
    match goal with
    | |- exists st', match fold_left ?f ?l0 _ with _ => _ end = _ /\ _ =>
        assert (Hfold : forall ixs st0,
                  mem st0 = mem st -> pool st0 = pool st ->
                  trace_grows is_free_pages st st0 ->
                  exists st1, fold_left f ixs (Ret st0) = Ret st1
                              /\ mem st1 = mem st /\ pool st1 = pool st
                              /\ trace_grows is_free_pages st st1)
    end.
    { induction ixs as [|i ixs IHl]; intros st0 Hm Hp Ht; cbn [fold_left].
      - eauto.
      - destruct (_ || _); [now apply IHl|].
        destruct (IH (lvl + 1) (iopte_deref (mem st0 (ptep + sizeof_iopte * Z.of_nat i)) d)
                     st0 ltac:(lia) Hf') as (st2 & -> & Hm2 & Hp2 & Ht2 & _).
        apply IHl; [congruence|congruence|]. eapply trace_grows_trans; eauto. }
    match goal with
    | |- exists st', match fold_left ?f ?l0 _ with _ => _ end = _ /\ _ =>
        destruct (Hfold l0 st eq_refl eq_refl (trace_grows_refl _ _ _ eq_refl))
          as (st1 & -> & Hm1 & Hp1 & Ht1)
    end.
    now apply Hlast.
Qed.

(** X7. [arm_lpae_free_pgtable] on a domain with at least one level
    always returns; it writes nothing to memory (no descriptor is
    cleared), calls nothing but [free_pages_exact], and its last call
    hands back the root with its [pgd_size]. *)
Theorem free_pgtable_only_frees d st :
  1 <= levels d ->
  exists st',
    arm_lpae_free_pgtable d st = Ret st'
    /\ mem st' = mem st
    /\ trace_grows is_free_pages st st'
    /\ exists t, trace st' = free_pages_exact (pgd d) (pgd_size d) :: t.
Proof.
  intros Hlv. unfold arm_lpae_free_pgtable.
  destruct (free_pgtable_returns d (levels_below (ARM_LPAE_START_LVL d))
              (ARM_LPAE_START_LVL d) (pgd d) st) as
    (st' & H & Hm & _ & Ht & t & Hlast);
    [unfold ARM_LPAE_START_LVL, ARM_LPAE_MAX_LEVELS; lia|reflexivity|].
  rewrite Z.eqb_refl in Hlast. eauto 6.
Qed.

Lemma free_pgtable_only_frees_witness :
  exists st',
    arm_lpae_free_pgtable selftest_data (machine_of one_page) = Ret st'
    /\ mem st' = mem (machine_of one_page)
    /\ trace_grows is_free_pages (machine_of one_page) st'
    /\ exists t, trace st' = free_pages_exact (pgd selftest_data)
                                              (pgd_size selftest_data) :: t.
Proof.
  apply (free_pgtable_only_frees selftest_data (machine_of one_page)).
  cbn. lia.
Defined.

(** ** The geometry the initialisers compute *)


Lemma geometry_check_all pg i :
  pg = 12 \/ pg = 14 \/ pg = 16 -> pg < i <= 48 -> geometry_check pg i = true.
Proof.
  intros Hpg Hi.
  assert (H : forallb (fun k => geometry_check pg (pg + 1 + Z.of_nat k)) (seq 0 36)
              = true)
    by (destruct Hpg as [->|[->| ->]]; vm_compute; reflexivity).
  rewrite forallb_forall in H.
  specialize (H (Z.to_nat (i - pg - 1))).
  rewrite Z2Nat.id in H by lia.
  replace (pg + 1 + (i - pg - 1)) with i in H by ring.
  apply H. apply in_seq. lia.
Qed.

(** The numbers [arm_lpae_alloc_pgtable] arrives at. *)
Lemma alloc_pgtable_arith P c c' d :
  arm_lpae_alloc_pgtable P c = (c', Some d) ->
  pg_shift d < ias c ->
  let pb := u64 (u64 (ias c - pg_shift d) - bits_per_level d * (levels d - 1)) in
  (pg_shift d = 12 \/ pg_shift d = 14 \/ pg_shift d = 16)
  /\ bits_per_level d = pg_shift d - 3
  /\ 1 <= levels d <= 4
  /\ 1 <= pb <= bits_per_level d
  /\ pgd_size d = 2 ^ (pb + 3)
  /\ pg_shift d + bits_per_level d * (levels d - 1) + pb = ias c.
Proof.
  intros H Hi.
  destruct (alloc_pgtable_some P c c' d H) as (_ & Hias & _ & Hpg & Hbpl & Hlv & Hsz).
  pose proof (geometry_check_all (pg_shift d) (ias c) Hpg (conj Hi Hias)) as Hc.
  unfold geometry_check in Hc. cbv zeta in Hc.
  rewrite <- Hbpl, <- Hlv in Hc.
  repeat (apply andb_prop in Hc; destruct Hc as [Hc ?]).
  repeat match goal with
         | H : (_ <=? _) = true |- _ => apply Z.leb_le in H
         | H : (_ =? _) = true |- _ => apply Z.eqb_eq in H
         end.
  cbv zeta. rewrite Hsz. repeat split; try assumption; lia.
Qed.

(** X8. Whenever [arm_lpae_alloc_pgtable] succeeds for an [ias] above
    the granule's bits, the domain has between one and four levels, a
    granule of 4K, 16K or 64K with [bits_per_level = pg_shift - 3], and
    a root of [2^pgd_bits] descriptors with
    [1 <= pgd_bits <= bits_per_level], such that the page offset, the
    lower levels and the root together resolve exactly [ias] bits. *)
Theorem alloc_pgtable_covers_ias P c c' d :
  arm_lpae_alloc_pgtable P c = (c', Some d) ->
  pg_shift d < ias c ->
  geometry_ok d
  /\ 1 <= levels d <= 4
  /\ exists pgd_bits,
       1 <= pgd_bits <= bits_per_level d
       /\ pgd_size d = sizeof_iopte * 2 ^ pgd_bits
       /\ pg_shift d + bits_per_level d * (levels d - 1) + pgd_bits = ias c.
Proof.
  intros H Hi.
  destruct (alloc_pgtable_arith P c c' d H Hi) as (Hpg & Hbpl & Hlv & Hpb & Hsz & Hcov).
  split; [unfold geometry_ok; lia|]. split; [assumption|].
  eexists. split; [exact Hpb|]. split; [|exact Hcov].
  rewrite Hsz, Z.pow_add_r by lia. unfold sizeof_iopte. lia.
Qed.

Lemma alloc_pgtable_covers_ias_witness :
  exists c' d,
    arm_lpae_alloc_pgtable SZ_4K (selftest_cfg 48) = (c', Some d)
    /\ geometry_ok d /\ 1 <= levels d <= 4.
Proof.
  destruct (arm_lpae_alloc_pgtable SZ_4K (selftest_cfg 48)) as [c' [d|]] eqn:H.
  - exists c', d. split; [reflexivity|].
    assert (Hi : pg_shift d < ias (selftest_cfg 48)).
    { vm_compute in H. injection H as _ <-. reflexivity. }
    destruct (alloc_pgtable_covers_ias _ _ _ _ H Hi) as (Hg & Hl & _). auto.
  - vm_compute in H. discriminate.
Defined.

(** ** A freshly built domain *)

Lemma alloc_s1_root P c st c' st' d :
  arm_64_lpae_alloc_pgtable_s1 P c st = (c', st', Some d) ->
  exists c1 d0,
    arm_lpae_alloc_pgtable P c = (c1, Some d0)
    /\ d = set_pgd d0 (pgd d)
    /\ pgd d <> 0
    /\ pool st = pgd d :: pool st'
    /\ mem st' = memzero (mem st) (pgd d) (pgd_size d)
    /\ trace st' = flush_pgtable (pgd d) (pgd_size d) :: trace st
    /\ ttbr (arm_lpae_s1_cfg c') = (pgd d, 0).
Proof.
  unfold arm_64_lpae_alloc_pgtable_s1. intros H.
  destruct (arm_lpae_alloc_pgtable P c) as [c1 [d0|]] eqn:Ha; [|discriminate].
  exists c1, d0. split; [reflexivity|].
  destruct (oas_to_ps (oas c1)) as [ps|]; [|discriminate].
  destruct (io_pgtable_alloc_pages_exact (pgd_size d0) st) as [p st1] eqn:Hp.
  destruct (Z.eqb_spec p 0) as [|Hnz]; [discriminate|].
  destruct (alloc_pages_some _ _ _ _ Hp Hnz) as (rest & Hpool & Hpool1 & Hmem1).
  apply alloc_pages_trace in Hp.
  assert (Hd : d = set_pgd d0 p) by congruence.
  assert (Hs : st' = emit st1 (flush_pgtable p (pgd_size d0))) by congruence.
  assert (Hc : ttbr (arm_lpae_s1_cfg c') = (p, 0)).
  { injection H as <- _ _. reflexivity. }
  rewrite Hd, Hs. cbn [pgd pgd_size set_pgd pool mem trace emit].
  repeat split; try assumption; congruence.
Qed.

Lemma root_idx_bound d iova pgd_bits :
  geometry_ok d -> 1 <= pgd_bits ->
  0 <= iova < 2 ^ (pg_shift d + bits_per_level d * (levels d - 1) + pgd_bits) ->
  0 <= ARM_LPAE_LVL_IDX iova (ARM_LPAE_START_LVL d) d < 2 ^ pgd_bits.
Proof.
  intros Hgeo Hpb Hi. pose proof (lvl_idx_range d Hgeo iova (ARM_LPAE_START_LVL d)) as Hr.
  split; [lia|].
  pose proof (idx_width_nonneg d Hgeo (ARM_LPAE_START_LVL d)) as Hw.
  unfold ARM_LPAE_LVL_IDX in *. rewrite land_ones_mod by assumption.
  rewrite (lvl_shift_eq d), Z.shiftr_div_pow2
    by (destruct Hgeo as (? & ? & ?); unfold ARM_LPAE_START_LVL, ARM_LPAE_MAX_LEVELS; nia).
  unfold ARM_LPAE_START_LVL, ARM_LPAE_MAX_LEVELS in *.
  destruct Hgeo as (Hpg & Hbpl & Hlv).
  replace (3 - (4 - levels d)) with (levels d - 1) by ring.
  set (s := (levels d - 1) * bits_per_level d + pg_shift d) in *.
  assert (Hs : 0 <= s) by (subst s; nia).
  assert (Hq : iova / 2 ^ s < 2 ^ pgd_bits).
  { apply Z.div_lt_upper_bound; [apply Z.pow_pos_nonneg; lia|].
    rewrite <- Z.pow_add_r by lia.
    replace (s + pgd_bits)
      with (pg_shift d + bits_per_level d * (levels d - 1) + pgd_bits)
      by (subst s; ring).
    lia. }
  assert (Hq0 : 0 <= iova / 2 ^ s) by (apply Z.div_pos; [lia|apply Z.pow_pos_nonneg; lia]).
  eapply Z.le_lt_trans; [|exact Hq].
  apply Z.mod_le; [assumption|]. apply Z.pow_pos_nonneg; lia.
Qed.

(** X9. A domain that [arm_64_lpae_alloc_pgtable_s1] has just built
    (for an [ias] above the granule's bits) translates nothing: its
    root is a zero-filled chunk from the allocator, recorded in
    [ttbr[0]] and flushed, and [arm_lpae_iova_to_phys] returns 0 for
    every address below [2^ias]. *)
Theorem fresh_domain_translates_nothing P c st c' st' d iova :
  arm_64_lpae_alloc_pgtable_s1 P c st = (c', st', Some d) ->
  pg_shift d < ias c ->
  0 <= iova < 2 ^ ias c ->
  ttbr (arm_lpae_s1_cfg c') = (pgd d, 0)
  /\ trace st' = flush_pgtable (pgd d) (pgd_size d) :: trace st
  /\ arm_lpae_iova_to_phys d iova st' = 0.
Proof.
  intros H Hi Hiova.
  destruct (alloc_s1_root _ _ _ _ _ _ H)
    as (c1 & d0 & Ha & Hd & Hnz & _ & Hmem & Htr & Httbr).
  split; [assumption|]. split; [assumption|].
  assert (Hpg : pg_shift d = pg_shift d0) by (rewrite Hd; reflexivity).
  rewrite Hpg in Hi.
  destruct (alloc_pgtable_arith P c c1 d0 Ha Hi)
    as (Hpg0 & Hbpl & Hlv & Hpb & Hsz & Hcov).
  set (pb := u64 (u64 (ias c - pg_shift d0) - bits_per_level d0 * (levels d0 - 1))) in *.
  assert (Hgeo : geometry_ok d) by (rewrite Hd; unfold geometry_ok; cbn; lia).
  unfold arm_lpae_iova_to_phys. apply walk_at_empty. rewrite Hmem.
  apply memzero_in. unfold in_region. cbn [fst snd].
  assert (Hsz' : pgd_size d = sizeof_iopte * 2 ^ pb).
  { rewrite Hd. cbn [pgd_size set_pgd]. rewrite Hsz, Z.pow_add_r by lia.
    unfold sizeof_iopte. lia. }
  pose proof (root_idx_bound d iova pb Hgeo (proj1 Hpb)) as Hb.
  rewrite Hd in Hb at 1 2 3. cbn [pg_shift bits_per_level levels set_pgd] in Hb.
  rewrite Hcov in Hb. specialize (Hb Hiova).
  rewrite Hsz'. unfold sizeof_iopte. lia.
Qed.

Lemma fresh_domain_translates_nothing_witness :
  exists c' st' d,
    arm_64_lpae_alloc_pgtable_s1 SZ_4K (selftest_cfg 48) boot = (c', st', Some d)
    /\ arm_lpae_iova_to_phys d 0x12345678 st' = 0.
Proof.
  assert (E : pg_shift (data_of (arm_64_lpae_alloc_pgtable_s1 SZ_4K (selftest_cfg 48)
                                                              boot)) = 12
              /\ geometry_of (arm_64_lpae_alloc_pgtable_s1 SZ_4K (selftest_cfg 48) boot)
                 = Some (4, SZ_4K))
    by (vm_compute; split; reflexivity).
  destruct (arm_64_lpae_alloc_pgtable_s1 SZ_4K (selftest_cfg 48) boot)
    as [[c' st'] [d|]] eqn:H; cbn [data_of geometry_of] in E;
    [|destruct E; discriminate].
  exists c', st', d. split; [reflexivity|].
  destruct E as [E _].
  apply (fresh_domain_translates_nothing _ _ _ _ _ _ 0x12345678 H).
  - rewrite E. reflexivity.
  - split; [lia|reflexivity].
Defined.




Lemma sl0_value x :
  Z.land (Z.lnot x) ARM_LPAE_TCR_SL0_MASK = (3 - x) mod 4.
Proof.
  change ARM_LPAE_TCR_SL0_MASK with (Z.ones 2).
  rewrite Z.land_ones by lia. unfold Z.lnot, Z.pred.
  change (2 ^ 2) with 4.
  replace (3 - x) with (- x + -1 + 1 * 4) by lia.
  now rewrite Z.mod_add by lia.
Qed.

Lemma u64_mod4 x : u64 x mod 4 = x mod 4.
Proof.
  unfold u64. symmetry.
  rewrite (Z.div_mod x (2 ^ 64)) at 1 by lia.
  replace (2 ^ 64 * (x / 2 ^ 64) + x mod 2 ^ 64)
    with (x mod 2 ^ 64 + (2 ^ 62 * (x / 2 ^ 64)) * 4) by lia.
  now rewrite Z.mod_add by lia.
Qed.

Lemma sl_value s (b : bool) :
  Z.land (Z.lnot (if b then u64 (u64 s + 1) else u64 s)) ARM_LPAE_TCR_SL0_MASK
  = (3 - (s + if b then 1 else 0)) mod 4.
Proof.
  rewrite sl0_value.
  assert (H : forall a b, a mod 4 = b mod 4 -> (3 - a) mod 4 = (3 - b) mod 4).
  { intros a c E. rewrite <- (Zminus_mod_idemp_r 3 a), E, Zminus_mod_idemp_r. reflexivity. }
  apply H. destruct b.
  - rewrite u64_mod4, <- Zplus_mod_idemp_l, u64_mod4, Zplus_mod_idemp_l. reflexivity.
  - rewrite u64_mod4, Z.add_0_r. reflexivity.
Qed.

(** The VTCR word and the root of [arm_64_lpae_alloc_pgtable_s2], as
    composed in the source. *)
Lemma alloc_s2_vtcr P c st c' st' d :
  arm_64_lpae_alloc_pgtable_s2 P c st = (c', st', Some d) ->
  exists ps sl0,
    oas_to_ps (oas c) = Some ps
    /\ ias c <= 48
    /\ (pg_shift d = 12 \/ pg_shift d = 14 \/ pg_shift d = 16)
    /\ sl0 = (3 - (ARM_LPAE_START_LVL d + if pg_shift d =? 12 then 1 else 0)) mod 4
    /\ vttbr (arm_lpae_s2_cfg c') = pgd d
    /\ vtcr (arm_lpae_s2_cfg c') =
       Z.lor (Z.lor (Z.lor (Z.lor
         (Z.lor ARM_64_LPAE_S2_TCR_RES1
            (Z.lor (Z.shiftl ARM_LPAE_TCR_SH_IS ARM_LPAE_TCR_SH0_SHIFT)
               (Z.lor (Z.shiftl ARM_LPAE_TCR_RGN_WBWA ARM_LPAE_TCR_IRGN0_SHIFT)
                      (Z.shiftl ARM_LPAE_TCR_RGN_WBWA ARM_LPAE_TCR_ORGN0_SHIFT))))
         (tcr_tg0 (pg_shift d)))
         (Z.shiftl ps ARM_LPAE_TCR_PS_SHIFT))
         (Z.shiftl (u64 (64 - ias c)) ARM_LPAE_TCR_T0SZ_SHIFT))
         (Z.shiftl sl0 ARM_LPAE_TCR_SL0_SHIFT).
Proof.
  unfold arm_64_lpae_alloc_pgtable_s2. intros H.
  destruct (arm_lpae_alloc_pgtable P c) as [c1 [d1|]] eqn:Ha; [|discriminate].
  destruct (alloc_pgtable_some _ _ _ _ Ha) as (Hc1 & Hi & Ho & Hpg & _).
  destruct (restrict_pgsizes_cases P c) as (_ & Hi' & Ho' & _).
  rewrite <- Hc1 in Hi', Ho'. rewrite Hi', Ho' in H.
  destruct (oas_to_ps (oas c)) as [ps|]; [|discriminate].
  match type of H with
  | context [io_pgtable_alloc_pages_exact (pgd_size ?dd) st] => remember dd as d2 eqn:Hd2
  end.
  assert (Hpg2 : pg_shift d2 = pg_shift d1).
  { subst d2. destruct (levels d1 =? _); [destruct (_ <=? _)|]; reflexivity. }
  clear Hd2.
  destruct (io_pgtable_alloc_pages_exact (pgd_size d2) st) as [p st1].
  destruct (p =? 0); [discriminate|].
  pose proof (f_equal (fun x => fst (fst x)) H) as Hc.
  pose proof (f_equal snd H) as Hd. cbv beta in Hc, Hd. cbn [fst snd] in Hc, Hd.
  clear H. injection Hd as <-. subst c'.
  exists ps, ((3 - (ARM_LPAE_START_LVL d2 + if pg_shift d2 =? 12 then 1 else 0)) mod 4).
  split; [reflexivity|]. split; [assumption|].
  split; [cbn [pg_shift set_pgd]; rewrite Hpg2; assumption|].
  split; [reflexivity|]. split; [reflexivity|].
  cbn [vtcr arm_lpae_s2_cfg set_s2_cfg pg_shift set_pgd].
  assert (Hg : (Z.shiftl 1 (pg_shift d2) =? SZ_4K) = (pg_shift d2 =? 12)).
  { rewrite Hpg2. destruct Hpg as [E|[E|E]]; rewrite E; reflexivity. }
  rewrite Hg, sl_value. reflexivity.
Qed.

(** X14.  For every Stage-2 64-bit allocator that
    [arm_64_lpae_alloc_pgtable_s2] constructs (with a non-zero [ias]),
    the VTCR word has T0SZ (bits 5..0) equal to [64 - ias], SL0 (bits
    7..6) equal to 3 minus the start level (minus one more for the 4K
    granule) modulo 4, both cacheability fields write-back
    write-allocate, SH0 inner shareable, TG0 selecting the granule, PS
    encoding [oas], and the reserved bit 31 set; VTTBR holds the root.
    An [oas] outside the six supported widths makes construction
    fail. *)
Theorem s2_vtcr_fields :
  forall P c st,
    (forall c' st' d,
        arm_64_lpae_alloc_pgtable_s2 P c st = (c', st', Some d) ->
        0 < ias c ->
        let reg := vtcr (arm_lpae_s2_cfg c') in
        tcr_field reg ARM_LPAE_TCR_T0SZ_SHIFT 6 = 64 - ias c
        /\ tcr_field reg ARM_LPAE_TCR_SL0_SHIFT 2
           = (3 - (ARM_LPAE_START_LVL d + if pg_shift d =? 12 then 1 else 0)) mod 4
        /\ tcr_field reg ARM_LPAE_TCR_IRGN0_SHIFT 2 = ARM_LPAE_TCR_RGN_WBWA
        /\ tcr_field reg ARM_LPAE_TCR_ORGN0_SHIFT 2 = ARM_LPAE_TCR_RGN_WBWA
        /\ tcr_field reg ARM_LPAE_TCR_SH0_SHIFT 2 = ARM_LPAE_TCR_SH_IS
        /\ In (pg_shift d, tcr_field reg 14 2) [(12, 0); (14, 2); (16, 1)]
        /\ In (oas c, tcr_field reg ARM_LPAE_TCR_PS_SHIFT 3)
              [(32, 0); (36, 1); (40, 2); (42, 3); (44, 4); (48, 5)]
        /\ tcr_field reg 31 1 = 1
        /\ vttbr (arm_lpae_s2_cfg c') = pgd d)
    /\ (~ In (oas c) [32; 36; 40; 42; 44; 48] ->
        snd (arm_64_lpae_alloc_pgtable_s2 P c st) = None).
Proof.
  intros P c st. split.
  - intros c' st' d H Hias reg.
    destruct (alloc_s2_vtcr _ _ _ _ _ _ H) as (ps & v & Hps & Hi & Hpg & Hv & Hroot & Hreg).
    apply oas_to_ps_cases in Hps. subst reg. rewrite Hreg, <- Hv.
    assert (Hv4 : v = 0 \/ v = 1 \/ v = 2 \/ v = 3).
    { assert (0 <= v < 4) by (subst v; apply Z.mod_pos_bound; lia). lia. }
    clear Hv Hreg.
    assert (Ht : u64 (64 - ias c) = 64 - ias c) by (unfold u64; apply Z.mod_small; lia).
    rewrite Ht. unfold ARM_LPAE_TCR_T0SZ_SHIFT. rewrite Z.shiftl_0_r.
    rewrite !tcr_field_lor.
    rewrite (tcr_field_low (64 - ias c) 6) by lia.
    rewrite (tcr_field_below (64 - ias c) ARM_LPAE_TCR_SL0_SHIFT),
            (tcr_field_below (64 - ias c) ARM_LPAE_TCR_IRGN0_SHIFT),
            (tcr_field_below (64 - ias c) ARM_LPAE_TCR_ORGN0_SHIFT),
            (tcr_field_below (64 - ias c) ARM_LPAE_TCR_SH0_SHIFT),
            (tcr_field_below (64 - ias c) 14),
            (tcr_field_below (64 - ias c) ARM_LPAE_TCR_PS_SHIFT),
            (tcr_field_below (64 - ias c) 31)
      by (unfold ARM_LPAE_TCR_SL0_SHIFT, ARM_LPAE_TCR_IRGN0_SHIFT,
            ARM_LPAE_TCR_ORGN0_SHIFT, ARM_LPAE_TCR_SH0_SHIFT, ARM_LPAE_TCR_PS_SHIFT; lia).
    simpl in Hps.
    destruct Hpg as [E|[E|E]]; rewrite E;
      destruct Hps as [E'|[E'|[E'|[E'|[E'|[E'|[]]]]]]]; inversion E'; subst;
      destruct Hv4 as [Ev|[Ev|[Ev|Ev]]]; rewrite Ev;
      repeat match goal with
             | |- context [tcr_field ?a ?s ?w] =>
                 let v := eval vm_compute in (tcr_field a s w) in
                 change (tcr_field a s w) with v
             end;
      cbn [Z.lor]; rewrite ?Z.lor_0_r;
      repeat split; try reflexivity; try assumption; simpl; tauto.
  - intros Ho. unfold arm_64_lpae_alloc_pgtable_s2.
    destruct (arm_lpae_alloc_pgtable P c) as [c1 [d1|]] eqn:Ha; [|reflexivity].
    destruct (alloc_pgtable_some _ _ _ _ Ha) as (Hc1 & _).
    destruct (restrict_pgsizes_cases P c) as (_ & _ & Ho' & _).
    rewrite <- Hc1 in Ho'. rewrite Ho', (oas_to_ps_none _ Ho). reflexivity.
Qed.

Lemma s2_vtcr_fields_witness :
  tcr_field (vtcr (arm_lpae_s2_cfg
               (fst (fst (arm_64_lpae_alloc_pgtable_s2 SZ_4K (selftest_cfg 43) boot)))))
            ARM_LPAE_TCR_T0SZ_SHIFT 6 = 64 - ias (selftest_cfg 43).
Proof.
  destruct (s2_vtcr_fields SZ_4K (selftest_cfg 43) boot) as [H _].
  assert (Hi : 0 < ias (selftest_cfg 43)) by (cbn; lia).
  assert (Hb : arm_64_lpae_alloc_pgtable_s2 SZ_4K (selftest_cfg 43) boot
               = (fst (fst (arm_64_lpae_alloc_pgtable_s2 SZ_4K (selftest_cfg 43) boot)),
                  snd (fst (arm_64_lpae_alloc_pgtable_s2 SZ_4K (selftest_cfg 43) boot)),
                  Some (data_of (arm_64_lpae_alloc_pgtable_s2 SZ_4K (selftest_cfg 43) boot))))
    by reflexivity.
  exact (proj1 (H _ _ _ Hb Hi)).
Defined.

(** A bitmap cut down to the 4K regime leaves the allocator the 4K
    granule or nothing. *)
Lemma alloc_pgtable_4k P c bm c' d :
  pgsize_bitmap c = Z.land bm (Z.lor SZ_4K (Z.lor SZ_2M SZ_1G)) ->
  arm_lpae_alloc_pgtable P c = (c', Some d) ->
  pg_shift d = 12 /\ pgsize_bitmap c' = pgsize_bitmap c.
Proof.
  intros Hbm H.
  assert (Hd : pg_shift d = __ffs (pgsize_bitmap c')
               /\ c' = arm_lpae_restrict_pgsizes P c
               /\ Z.land (pgsize_bitmap c') (Z.lor SZ_4K (Z.lor SZ_16K SZ_64K)) <> 0).
  { unfold arm_lpae_alloc_pgtable in H.
    destruct (Z.eqb_spec (Z.land (pgsize_bitmap (arm_lpae_restrict_pgsizes P c))
                                 (Z.lor SZ_4K (Z.lor SZ_16K SZ_64K))) 0) as [|Hb];
      [discriminate|].
    destruct (_ >? _); [discriminate|]. destruct (_ >? _); [discriminate|].
    pose proof (f_equal fst H) as Hc. pose proof (f_equal snd H) as Hs.
    cbn [fst snd] in Hc, Hs. injection Hs as <-. subst c'.
    repeat split; assumption. }
  destruct Hd as (Hpg & Hc' & Hnz). rewrite Hpg. subst c'.
  destruct (restrict_pgsizes_cases P c) as (_ & _ & _ & _ & _ & [E|[E|[E|E]]]);
    rewrite E in *; rewrite Hbm in *; rewrite <- ?Z.land_assoc in *.
  - change (Z.land (Z.lor SZ_4K (Z.lor SZ_2M SZ_1G)) (Z.lor SZ_4K (Z.lor SZ_2M SZ_1G)))
      with (Z.shiftl 0x40201 12) in *.
    change (Z.lor SZ_4K (Z.lor SZ_2M SZ_1G)) with (Z.shiftl 0x40201 12).
    split; [|reflexivity].
    apply __ffs_land_shifted; [lia|].
    change (Z.land (Z.shiftl 262657 12) (Z.lor SZ_4K (Z.lor SZ_16K SZ_64K))) with (2 ^ 12) in Hnz.
    rewrite Z.land_spec. rewrite (land_pow2_nonzero _ 12) by (lia || assumption). reflexivity.
  - exfalso. apply Hnz.
    change (Z.land (Z.lor SZ_4K (Z.lor SZ_2M SZ_1G))
              (Z.land (Z.lor SZ_16K SZ_32M) (Z.lor SZ_4K (Z.lor SZ_16K SZ_64K)))) with 0.
    apply Z.land_0_r.
  - exfalso. apply Hnz.
    change (Z.land (Z.lor SZ_4K (Z.lor SZ_2M SZ_1G))
              (Z.land (Z.lor SZ_64K SZ_512M) (Z.lor SZ_4K (Z.lor SZ_16K SZ_64K)))) with 0.
    apply Z.land_0_r.
  - exfalso. apply Hnz. reflexivity.
Qed.

Lemma alloc_s1_bitmap P c st c' st' d :
  arm_64_lpae_alloc_pgtable_s1 P c st = (c', st', Some d) ->
  pgsize_bitmap c' = pgsize_bitmap (fst (arm_lpae_alloc_pgtable P c)).
Proof.
  unfold arm_64_lpae_alloc_pgtable_s1. intros H.
  destruct (arm_lpae_alloc_pgtable P c) as [c1 [d0|]]; [|discriminate].
  destruct (oas_to_ps (oas c1)) as [ps|]; [|discriminate].
  destruct (io_pgtable_alloc_pages_exact (pgd_size d0) st) as [p st1].
  destruct (p =? 0); [discriminate|].
  pose proof (f_equal (fun x => fst (fst x)) H) as Hc. cbv beta in Hc.
  cbn [fst] in Hc. subst c'. reflexivity.
Qed.

Lemma tcr_field_mask x s w :
  0 <= s -> 0 <= w -> s + w <= 32 ->
  tcr_field (Z.land x 0xffffffff) s w = tcr_field x s w.
Proof.
  intros Hs Hw Hsw. unfold tcr_field. change 0xffffffff with (Z.ones 32).
  apply Z.bits_inj'. intros i Hi.
  rewrite !Z.land_spec, !Z.shiftr_spec, Z.land_spec by lia.
  rewrite !Z.testbit_ones_nonneg by lia.
  destruct (Z.ltb_spec i w); [|now rewrite !andb_false_r].
  replace (i + s <? 32) with true by (symmetry; apply Z.ltb_lt; lia).
  now rewrite !andb_true_r.
Qed.

(** X15.  The 32-bit Stage-1 initialiser refuses an input range above
    32 bits or an output range above 40 bits without touching anything.
    When it builds a domain (with [ias] above 12), the page sizes are
    cut down to 4K, 2M and 1G, the granule is 4K with at most three
    levels, and the TCR fits 32 bits (so the IPS field of the 64-bit
    format is gone) with EAE (bit 31) and EPD1 (bit 23) set and T0SZ
    equal to [64 - ias]. *)
Theorem lpae32_s1_regime :
  forall P c st,
    ((32 < ias c \/ 40 < oas c) ->
     arm_32_lpae_alloc_pgtable_s1 P c st = (c, st, None))
    /\ (forall c' st' d,
           arm_32_lpae_alloc_pgtable_s1 P c st = (c', st', Some d) ->
           12 < ias c ->
           let reg := tcr (arm_lpae_s1_cfg c') in
           ias c <= 32 /\ oas c <= 40
           /\ pg_shift d = 12 /\ 1 <= levels d <= 3
           /\ pgsize_bitmap c'
              = Z.land (pgsize_bitmap c) (Z.lor SZ_4K (Z.lor SZ_2M SZ_1G))
           /\ 0 <= reg < 2 ^ 32
           /\ tcr_field reg 31 1 = 1
           /\ tcr_field reg ARM_LPAE_TCR_EPD1_SHIFT 1 = ARM_LPAE_TCR_EPD1_FAULT
           /\ tcr_field reg ARM_LPAE_TCR_T0SZ_SHIFT 6 = 64 - ias c).
Proof.
  intros P c st. split.
  - intros H. unfold arm_32_lpae_alloc_pgtable_s1.
    destruct (Z.gtb_spec (ias c) 32); [reflexivity|].
    destruct (Z.gtb_spec (oas c) 40); [reflexivity|]. lia.
  - intros c' st' d H Hias reg. unfold arm_32_lpae_alloc_pgtable_s1 in H.
    destruct (Z.gtb_spec (ias c) 32); [discriminate|].
    destruct (Z.gtb_spec (oas c) 40); [discriminate|]. cbn [orb] in H.
    set (c0 := set_pgsize_bitmap c _) in H.
    destruct (arm_64_lpae_alloc_pgtable_s1 P c0 st) as [[c1 st1] [d1|]] eqn:H64;
      [|discriminate].
    pose proof (f_equal (fun x => fst (fst x)) H) as Hc.
    pose proof (f_equal snd H) as Hd. cbv beta in Hc, Hd. cbn [fst snd] in Hc, Hd.
    clear H. injection Hd as ->. 
    destruct (alloc_s1_tcr _ _ _ _ _ _ H64) as (ps & Hps & _ & _ & Hreg).
    assert (Hgeo : pg_shift d = 12 /\ 1 <= levels d <= 3
                   /\ pgsize_bitmap c1 = pgsize_bitmap c0).
    { destruct (alloc_s1_root _ _ _ _ _ _ H64) as (c2 & d2 & Ha & Hd & _).
      destruct (alloc_pgtable_4k P c0 (pgsize_bitmap c) c2 d2 eq_refl Ha) as (Hpg & Hbm).
      assert (Hi0 : pg_shift d2 < ias c0) by (rewrite Hpg; exact Hias).
      destruct (alloc_pgtable_arith P c0 c2 d2 Ha Hi0) as (_ & Hbpl & Hlv & Hpb & _ & Hsum).
      change (ias c0) with (ias c) in Hsum, Hpb.
      rewrite (alloc_s1_bitmap _ _ _ _ _ _ H64), Ha, Hd. cbn [fst pg_shift levels set_pgd].
      rewrite Hbpl, Hpg in *. repeat split; try assumption; lia. }
    destruct Hgeo as (Hpg & Hlv & Hbm).
    subst reg c'. cbn [tcr arm_lpae_s1_cfg set_s1_cfg pgsize_bitmap].
    change 0xffffffff with (Z.ones 32) at 1 2. rewrite Z.land_ones by lia.
    change (Z.ones 32) with 0xffffffff.
    rewrite !tcr_field_mask by (unfold ARM_LPAE_TCR_EPD1_SHIFT, ARM_LPAE_TCR_T0SZ_SHIFT; lia).
    rewrite Hreg, Hpg. change (ias c0) with (ias c). change (oas c0) with (oas c) in Hps.
    apply oas_to_ps_cases in Hps.
    assert (Ht : u64 (64 - ias c) = 64 - ias c) by (unfold u64; apply Z.mod_small; lia).
    rewrite Ht. unfold ARM_LPAE_TCR_T0SZ_SHIFT. rewrite Z.shiftl_0_r.
    rewrite !tcr_field_lor.
    rewrite (tcr_field_low (64 - ias c) 6) by lia.
    rewrite (tcr_field_below (64 - ias c) ARM_LPAE_TCR_EPD1_SHIFT),
            (tcr_field_below (64 - ias c) 31)
      by (unfold ARM_LPAE_TCR_EPD1_SHIFT; lia).
    split; [lia|]. split; [lia|]. split; [reflexivity|]. split; [assumption|].
    split; [exact Hbm|].
    split; [apply Z.mod_pos_bound; lia|].
    simpl in Hps.
    destruct Hps as [E'|[E'|[E'|[E'|[E'|[E'|[]]]]]]]; inversion E'; subst;
      repeat match goal with
             | |- context [tcr_field ?a ?s ?w] =>
                 let v := eval vm_compute in (tcr_field a s w) in
                 change (tcr_field a s w) with v
             end;
      cbn [Z.lor]; rewrite ?Z.lor_0_r;
      repeat split; reflexivity.
Qed.

Lemma lpae32_s1_regime_witness :
  exists c' st' d,
    arm_32_lpae_alloc_pgtable_s1 SZ_4K
        {| quirks := []; pgsize_bitmap := Z.lor SZ_4K (Z.lor SZ_2M SZ_1G);
           ias := 32; oas := 40;
           arm_lpae_s1_cfg := arm_lpae_s1_cfg (selftest_cfg 32);
           arm_lpae_s2_cfg := arm_lpae_s2_cfg (selftest_cfg 32) |} boot = (c', st', Some d)
    /\ pg_shift d = 12 /\ 1 <= levels d <= 3
    /\ tcr_field (tcr (arm_lpae_s1_cfg c')) 31 1 = 1.
Proof.
  set (c := {| quirks := []; oas := 40 |}).
  assert (E : geometry_of (arm_32_lpae_alloc_pgtable_s1 SZ_4K c boot) = Some (3, 0x20))
    by (vm_compute; reflexivity).
  destruct (arm_32_lpae_alloc_pgtable_s1 SZ_4K c boot) as [[c' st'] [d|]] eqn:H;
    cbn [geometry_of] in E; [|discriminate].
  exists c', st', d. split; [reflexivity|].
  destruct (proj2 (lpae32_s1_regime SZ_4K c boot) c' st' d H)
    as (_ & _ & Hpg & Hlv & _ & _ & Hb & _).
  - subst c. cbn. lia.
  - auto.
Defined.





(** ** Walking to a table *)

Section WalkToTable.

Variable d : arm_lpae_io_pgtable.
Hypothesis Hgeo : geometry_ok d.
Variable m : Z -> Z.
Variables iova T pt : Z.

Lemma walk_to_table_step n lvl ptep :
  walk_to_table n d m iova lvl ptep T = Some pt ->
  ptep <> 0
  /\ ((lvl = T /\ pt = ptep)
      \/ (lvl <> T
          /\ m (ptep + sizeof_iopte * ARM_LPAE_LVL_IDX iova lvl d) <> 0
          /\ iopte_leaf (m (ptep + sizeof_iopte * ARM_LPAE_LVL_IDX iova lvl d)) lvl = false
          /\ lvl + 1 < ARM_LPAE_MAX_LEVELS
          /\ exists n', n = S n'
             /\ walk_to_table n' d m iova (lvl + 1)
                  (iopte_deref (m (ptep + sizeof_iopte * ARM_LPAE_LVL_IDX iova lvl d)) d) T
                = Some pt)).
Proof.
  intros H. destruct n as [|n']; cbn [walk_to_table] in H; cbv zeta in H;
    (destruct (Z.eqb_spec ptep 0); [discriminate|]); (split; [assumption|]);
    (destruct (Z.eqb_spec lvl T); [left; split; congruence|right]);
    (destruct (Z.eqb_spec (m (ptep + sizeof_iopte * ARM_LPAE_LVL_IDX iova lvl d)) 0);
     [discriminate|]); cbn [orb] in H;
    (destruct (iopte_leaf _ lvl) eqn:El; [discriminate|]); cbn [orb] in H;
    (destruct (Z.ltb_spec (lvl + 1) ARM_LPAE_MAX_LEVELS); [|discriminate]);
    cbn [negb] in H; [discriminate|].
  repeat split; try assumption. eauto.
Qed.

Lemma walk_to_table_level :
  forall n lvl ptep, walk_to_table n d m iova lvl ptep T = Some pt -> lvl <= T.
Proof.
  induction n as [|n IH]; intros lvl ptep H;
    destruct (walk_to_table_step _ _ _ H)
      as (_ & [(-> & _)|(_ & _ & _ & _ & n' & En & H')]);
    try lia; try discriminate.
  injection En as <-. apply IH in H'. lia.
Qed.

Lemma walk_to_table_nonzero :
  forall n lvl ptep, walk_to_table n d m iova lvl ptep T = Some pt -> pt <> 0.
Proof.
  induction n as [|n IH]; intros lvl ptep H;
    destruct (walk_to_table_step _ _ _ H)
      as (Hp & [(_ & ->)|(_ & _ & _ & _ & n' & En & H')]);
    try assumption; try discriminate.
  injection En as <-. now apply IH in H'.
Qed.

(** The tables from [pt] on are among those of the whole walk. *)
Lemma walk_to_table_tail :
  forall n lvl ptep,
    levels_below lvl = n -> T <= 3 ->
    walk_to_table n d m iova lvl ptep T = Some pt ->
    forall r, In r (walk_tables (levels_below T) d m iova T pt) ->
              In r (walk_tables n d m iova lvl ptep).
Proof.
  induction n as [|n IH]; intros lvl ptep Hn HT H r Hr;
    destruct (walk_to_table_step _ _ _ H)
      as (Hp & [(-> & ->)|(Hne & Hnz & Hl & Hlt & n' & En & H')]);
    try discriminate.
  - now rewrite Hn in Hr.
  - now rewrite Hn in Hr.
  - injection En as <-.
    assert (Hn' : levels_below (lvl + 1) = n).
    { rewrite (levels_below_step lvl) in Hn by (unfold ARM_LPAE_MAX_LEVELS in *; lia).
      now injection Hn. }
    rewrite (walk_tables_table n d m iova lvl ptep _ eq_refl Hnz Hl Hlt).
    right. now apply (IH _ _ Hn' HT H').
Qed.

Variable m' : Z -> Z.
Variable a : Z.
Hypothesis Hidx : forall l, l < T -> ARM_LPAE_LVL_IDX a l d = ARM_LPAE_LVL_IDX iova l d.

(** Memory that differs only inside the tables from [pt] on sends the
    translation of every address with the upper indices of [iova] to
    the table [pt]. *)
Lemma walk_follow :
  forall n lvl ptep,
    levels_below lvl = n -> T <= 3 ->
    walk_to_table n d m iova lvl ptep T = Some pt ->
    separatedb (walk_tables n d m iova lvl ptep) = true ->
    (forall x r, In r (walk_tables n d m iova lvl ptep) -> in_region x r ->
                 outside x (walk_tables (levels_below T) d m iova T pt) ->
                 m' x = m x) ->
    iova_to_phys_walk n d m' a lvl ptep
    = iova_to_phys_walk (levels_below T) d m' a T pt.
Proof.
  induction n as [|n IH]; intros lvl ptep Hn HT H Hsep Hsame;
    destruct (walk_to_table_step _ _ _ H)
      as (Hp & [(-> & ->)|(Hne & Hnz & Hl & Hlt & n' & En & H')]);
    try discriminate.
  - now rewrite Hn.
  - now rewrite Hn.
  - injection En as <-.
    pose proof (walk_to_table_level _ _ _ H') as Hle.
    assert (Hn' : levels_below (lvl + 1) = n).
    { rewrite (levels_below_step lvl) in Hn by (unfold ARM_LPAE_MAX_LEVELS in *; lia).
      now injection Hn. }
    rewrite (walk_tables_table n d m iova lvl ptep _ eq_refl Hnz Hl Hlt) in Hsame, Hsep.
    assert (Hs : m' (ptep + sizeof_iopte * ARM_LPAE_LVL_IDX a lvl d)
                 = m (ptep + sizeof_iopte * ARM_LPAE_LVL_IDX iova lvl d)).
    { rewrite Hidx by lia. apply (Hsame _ _ (or_introl eq_refl)).
      - now apply slot_in_table.
      - intros r Hr. apply (walk_to_table_tail _ _ _ Hn' HT H') in Hr.
        exact (separatedb_head_outside _ _ _ Hsep
                 (slot_in_table d Hgeo iova lvl ptep) r Hr). }
    rewrite (walk_at_table n d m' a lvl ptep _ Hp Hs Hnz Hl Hlt).
    apply IH; try assumption.
    + apply separatedb_cons in Hsep. apply Hsep.
    + intros x r' Hr'. apply Hsame. now right.
Qed.

(** The suffix of a separated walk is separated. *)
Lemma walk_to_table_separated :
  forall n lvl ptep,
    levels_below lvl = n -> T <= 3 ->
    walk_to_table n d m iova lvl ptep T = Some pt ->
    separatedb (walk_tables n d m iova lvl ptep) = true ->
    separatedb (walk_tables (levels_below T) d m iova T pt) = true.
Proof.
  induction n as [|n IH]; intros lvl ptep Hn HT H Hsep;
    destruct (walk_to_table_step _ _ _ H)
      as (Hp & [(-> & ->)|(Hne & Hnz & Hl & Hlt & n' & En & H')]);
    try discriminate.
  - now rewrite Hn.
  - now rewrite Hn.
  - injection En as <-.
    assert (Hn' : levels_below (lvl + 1) = n).
    { rewrite (levels_below_step lvl) in Hn by (unfold ARM_LPAE_MAX_LEVELS in *; lia).
      now injection Hn. }
    rewrite (walk_tables_table n d m iova lvl ptep _ eq_refl Hnz Hl Hlt) in Hsep.
    apply (IH _ _ Hn' HT H'). apply separatedb_cons in Hsep. apply Hsep.
Qed.

End WalkToTable.

(** [__arm_lpae_unmap] follows the tables down to the level where the
    size can match. *)
Lemma unmap_follow d st iova size T pt :
  T <= 2 ->
  forall n lvl ptep prev fuel,
    walk_to_table n d (mem st) iova lvl ptep T = Some pt ->
    (forall l, lvl <= l < T -> size <> ARM_LPAE_BLOCK_SIZE l d) ->
    T - lvl <= Z.of_nat fuel ->
    exists prev' fuel',
      __arm_lpae_unmap fuel d iova size lvl ptep prev st
      = __arm_lpae_unmap fuel' d iova size T pt prev' st.
Proof.
  intros HT.
  induction n as [|n IH]; intros lvl ptep prev fuel H Hsz Hfuel;
    destruct (walk_to_table_step _ _ _ _ _ _ _ _ H)
      as (Hp & [(-> & ->)|(Hne & Hnz & Hl & Hlt & n' & En & H')]);
    try discriminate.
  1, 2: eexists; eexists; reflexivity.
  injection En as <-.
  pose proof (walk_to_table_level _ _ _ _ _ _ _ _ H') as Hle.
  destruct fuel as [|fuel]; [lia|].
  destruct (IH (lvl + 1) _ (ptep + sizeof_iopte * ARM_LPAE_LVL_IDX iova lvl d) fuel H')
    as (prev' & fuel' & Hrec); [intros l Hl'; apply Hsz; lia|lia|].
  exists prev', fuel'. cbn [__arm_lpae_unmap]; cbv zeta.
  destruct (Z.eqb_spec (mem st (ptep + sizeof_iopte * ARM_LPAE_LVL_IDX iova lvl d)) 0);
    [contradiction|].
  destruct (Z.eqb_spec lvl ARM_LPAE_MAX_LEVELS) as [E|_];
    [unfold ARM_LPAE_MAX_LEVELS in E; lia|]. cbn [orb].
  destruct (Z.eqb_spec size (ARM_LPAE_BLOCK_SIZE lvl d)) as [E|_];
    [exfalso; apply (Hsz lvl); [lia|assumption]|].
  destruct (Z.eqb_spec lvl (ARM_LPAE_MAX_LEVELS - 2)) as [E|_];
    [unfold ARM_LPAE_MAX_LEVELS in E; lia|]. cbn [andb].
  rewrite Hl. exact Hrec.
Qed.






(** Every address of the block of level [L] around [iova] has the
    indices of [iova] down to that level. *)
Lemma block_same_idx d iova L a l :
  geometry_ok d -> l <= L -> L <= 3 ->
  block_base d iova L <= a < block_base d iova L + ARM_LPAE_BLOCK_SIZE L d ->
  ARM_LPAE_LVL_IDX a l d = ARM_LPAE_LVL_IDX iova l d.
Proof.
  intros Hgeo Hl HL Ha. unfold block_base in Ha.
  rewrite (block_size_eq d Hgeo) in Ha.
  assert (Hs : 0 <= ARM_LPAE_LVL_SHIFT L d).
  { pose proof (lvl_shift_lower d Hgeo L HL). destruct Hgeo. lia. }
  rewrite land_lnot_pow2 in Ha by assumption.
  set (B := 2 ^ ARM_LPAE_LVL_SHIFT L d) in *.
  assert (HB : 0 < B) by (apply Z.pow_pos_nonneg; lia).
  assert (Hb0 : (iova - iova mod B) mod B = 0).
  { rewrite Zminus_mod_idemp_r, Z.sub_diag. apply Z.mod_0_l. lia. }
  pose proof (Z.mod_pos_bound iova B HB) as Hm.
  transitivity (ARM_LPAE_LVL_IDX (iova - iova mod B) l d).
  - replace a with ((iova - iova mod B) + (a - (iova - iova mod B))) by lia.
    apply (lvl_idx_add_small d Hgeo _ _ l L); (assumption || lia).
  - symmetry.
    replace iova with ((iova - iova mod B) + iova mod B) at 1 by lia.
    apply (lvl_idx_add_small d Hgeo _ _ l L); (assumption || lia).
Qed.

(** The call of [__arm_lpae_unmap] that finds an entry of exactly the
    size asked for. *)
Lemma unmap_entry_body d st iova L pt :
  geometry_ok d ->
  walk_to_table (levels_below (ARM_LPAE_START_LVL d)) d (mem st) iova
                (ARM_LPAE_START_LVL d) (pgd d) L = Some pt ->
  L <= 2 ->
  mem st (pt + sizeof_iopte * ARM_LPAE_LVL_IDX iova L d) <> 0 ->
  exists st2,
    __arm_lpae_unmap (Z.to_nat (ARM_LPAE_MAX_LEVELS - ARM_LPAE_START_LVL d))
                     d iova (ARM_LPAE_BLOCK_SIZE L d) (ARM_LPAE_START_LVL d) (pgd d) 0 st
    = Ret (ARM_LPAE_BLOCK_SIZE L d, st2)
    /\ mem st2 = store (mem st) (pt + sizeof_iopte * ARM_LPAE_LVL_IDX iova L d) 0
    /\ pool st2 = pool st
    /\ exists freed,
         trace st2 = freed ++ flush_pgtable (pt + sizeof_iopte * ARM_LPAE_LVL_IDX iova L d)
                                            sizeof_iopte :: trace st
         /\ forallb is_free_pages freed = true.
Proof.
  intros Hgeo Hw HL Hnz.
  set (s := pt + sizeof_iopte * ARM_LPAE_LVL_IDX iova L d) in *.
  set (size := ARM_LPAE_BLOCK_SIZE L d) in *.
  pose proof (walk_to_table_level _ _ _ _ _ _ _ _ Hw) as Hle.
  set (st1 := emit (set_mem st (store (mem st) s 0)) (flush_pgtable s sizeof_iopte)).
  destruct (unmap_follow d st iova size L pt HL _ _ _ 0
              (Z.to_nat (ARM_LPAE_MAX_LEVELS - ARM_LPAE_START_LVL d)) Hw)
    as (prev' & fuel' & Hf).
  - intros l Hl E. pose proof (block_size_smaller d Hgeo l L). subst size. lia.
  - unfold ARM_LPAE_MAX_LEVELS. lia.
  - rewrite Hf.
    assert (Hbody : forall fuel,
               __arm_lpae_unmap fuel d iova size L pt prev' st
               = if negb (iopte_leaf (mem st s) L)
                 then match __arm_lpae_free_pgtable (levels_below (L + 1)) d (L + 1)
                              (iopte_deref (mem st s) d) st1 with
                      | BUG => BUG
                      | Ret st2 => Ret (size, st2)
                      end
                 else Ret (size, st1)).
    { intros fuel. destruct fuel; cbn [__arm_lpae_unmap]; cbv zeta; fold s;
        (destruct (Z.eqb_spec (mem st s) 0); [contradiction|]);
        (destruct (Z.eqb_spec L ARM_LPAE_MAX_LEVELS) as [E|_];
         [unfold ARM_LPAE_MAX_LEVELS in E; lia|]); cbn [orb];
        fold size; rewrite Z.eqb_refl; reflexivity. }
    rewrite Hbody. destruct (iopte_leaf (mem st s) L); cbn [negb].
    + exists st1. split; [reflexivity|]. split; [reflexivity|].
      split; [reflexivity|]. exists []. split; reflexivity.
    + destruct (free_pgtable_returns d (levels_below (L + 1)) (L + 1)
                  (iopte_deref (mem st s) d) st1)
        as (st2 & -> & Hm & Hp & (freed & Ht & Hfr) & _); [lia|reflexivity|].
      exists st2. split; [reflexivity|]. split; [assumption|].
      split; [assumption|]. exists freed. split; assumption.
Qed.

(** Once the entry is cleared, nothing in its reach translates. *)
Lemma cleared_entry_translation d st iova L pt m' a :
  geometry_ok d ->
  walk_to_table (levels_below (ARM_LPAE_START_LVL d)) d (mem st) iova
                (ARM_LPAE_START_LVL d) (pgd d) L = Some pt ->
  L <= 3 ->
  separatedb (walk_tables (levels_below (ARM_LPAE_START_LVL d)) d (mem st) iova
                          (ARM_LPAE_START_LVL d) (pgd d)) = true ->
  m' = store (mem st) (pt + sizeof_iopte * ARM_LPAE_LVL_IDX iova L d) 0 ->
  block_base d iova L <= a < block_base d iova L + ARM_LPAE_BLOCK_SIZE L d ->
  iova_to_phys_walk (levels_below (ARM_LPAE_START_LVL d)) d m' a
                    (ARM_LPAE_START_LVL d) (pgd d) = 0.
Proof.
  intros Hgeo Hw HL Hsep -> Ha.
  set (s := pt + sizeof_iopte * ARM_LPAE_LVL_IDX iova L d) in *.
  rewrite (walk_follow d Hgeo (mem st) iova L pt (store (mem st) s 0) a).
  - apply walk_at_empty.
    rewrite (block_same_idx d iova L a L Hgeo) by (assumption || lia).
    fold s. unfold store. now rewrite Z.eqb_refl.
  - intros l Hl. apply (block_same_idx d iova L a l Hgeo); (assumption || lia).
  - reflexivity.
  - lia.
  - assumption.
  - assumption.
  - intros x r Hr Hin Hout. unfold store.
    destruct (Z.eqb_spec x s) as [->|]; [|reflexivity].
    exfalso.
    destruct (walk_tables_head (levels_below L) d (mem st) iova L pt) as [rest Hh].
    apply (Hout (pt, table_span d L)); [rewrite Hh; now left|].
    apply slot_in_table. assumption.
Qed.



(** ** Unmapping a run of pages *)

Lemma block_size_last d : geometry_ok d -> ARM_LPAE_BLOCK_SIZE 3 d = Z.shiftl 1 (pg_shift d).
Proof.
  intros Hgeo. rewrite (block_size_eq d Hgeo), (lvl_shift_eq d), Z.shiftl_1_l.
  f_equal; lia.
Qed.

Lemma in_run_iff bs0 h n i r B :
  0 < B -> 0 <= r < B ->
  (bs0 + h * B <=? bs0 + i * B + r) && (bs0 + i * B + r <? bs0 + h * B + n * B)
  = (h <=? i) && (i <? h + n).
Proof.
  intros HB Hr.
  destruct (Z.leb_spec h i), (Z.ltb_spec i (h + n)); cbn [andb];
    repeat match goal with
           | |- context [?a <=? ?b] => destruct (Z.leb_spec a b)
           | |- context [?a <? ?b] => destruct (Z.ltb_spec a b)
           end; cbn [andb]; try reflexivity; exfalso; nia.
Qed.

(** The last level is read in one step. *)
Lemma walk_last m m' d a T :
  m' (T + sizeof_iopte * ARM_LPAE_LVL_IDX a 3 d)
  = m (T + sizeof_iopte * ARM_LPAE_LVL_IDX a 3 d) ->
  iova_to_phys_walk 0 d m' a 3 T = iova_to_phys_walk 0 d m a 3 T.
Proof. intros H. cbn [iova_to_phys_walk]. cbv zeta. now rewrite H. Qed.

Section UnmapPages.

Variable d : arm_lpae_io_pgtable.
Hypothesis Hgeo : geometry_ok d.
Variable st : machine.
Variables iova n pt pte : Z.

Let G := Z.shiftl 1 (pg_shift d).
Let N := Z.shiftl 1 (bits_per_level d).
Let s := pt + sizeof_iopte * ARM_LPAE_LVL_IDX iova 2 d.
Let T := iopte_deref pte d.
Let off := ARM_LPAE_LVL_IDX iova 3 d.
Let cnt := (iopte_tblcnt pte - n) mod 2 ^ 17.

Hypothesis Hw :
  walk_to_table (levels_below (ARM_LPAE_START_LVL d)) d (mem st) iova
                (ARM_LPAE_START_LVL d) (pgd d) 2 = Some pt.
Hypothesis Hpte : mem st s = pte.
Hypothesis Hnz : pte <> 0.
Hypothesis Hleaf : iopte_leaf pte 2 = false.
Hypothesis Hn : 1 <= n.
Hypothesis Hfit : off + n <= N.
Hypothesis Hpart : n < N.
Hypothesis Hsep :
  separatedb (walk_tables (levels_below (ARM_LPAE_START_LVL d)) d (mem st) iova
                          (ARM_LPAE_START_LVL d) (pgd d)) = true.

Let m4 : Z -> Z :=
  fun x => if (T + sizeof_iopte * off <=? x) && (x <? T + sizeof_iopte * (off + n))
           then 0
           else if x =? s then (if cnt =? 0 then 0 else iopte_tblcnt_sub pte n)
           else mem st x.

Lemma pages_start : ARM_LPAE_START_LVL d <= 2.
Proof. exact (walk_to_table_level _ _ _ _ _ _ _ _ Hw). Qed.

Lemma pages_G : 0 < G /\ 2 <= N /\ G = sizeof_iopte * N
                /\ ARM_LPAE_BLOCK_SIZE 2 d = N * G.
Proof.
  pose proof pages_start as Hs.
  assert (HL : ARM_LPAE_START_LVL d <= 2 <= 2) by lia.
  pose proof (split_B_pos d Hgeo 2 HL) as HB.
  pose proof (split_blk_size d Hgeo 2 HL) as Hb.
  change (2 + 1) with 3 in HB, Hb. rewrite (block_size_last d Hgeo) in HB, Hb.
  repeat split; try assumption.
  - exact (split_N_ge d Hgeo 0).
  - exact (split_G d Hgeo 0).
Qed.

Lemma pages_tail :
  walk_tables (levels_below 2) d (mem st) iova 2 pt = [(pt, table_span d 2); (T, G)].
Proof.
  change (levels_below 2) with 1%nat.
  rewrite (walk_tables_table 0 d (mem st) iova 2 pt pte Hpte Hnz Hleaf)
    by (unfold ARM_LPAE_MAX_LEVELS; lia).
  change (2 + 1) with 3. fold T. cbn [walk_tables].
  rewrite (table_span_inner d Hgeo 3) by (pose proof pages_start; lia).
  fold G. change (3 + 1 <? ARM_LPAE_MAX_LEVELS) with false.
  cbn [negb]. rewrite orb_true_r. reflexivity.
Qed.

Lemma pages_apart :
  0 < T /\ ~ in_region s (T, G)
  /\ forall x, T + sizeof_iopte * off <= x < T + sizeof_iopte * (off + n) ->
               in_region x (T, G).
Proof.
  pose proof (walk_to_table_separated d (mem st) iova 2 pt _ _ _ eq_refl
                ltac:(lia) Hw Hsep) as Ht.
  rewrite pages_tail in Ht.
  pose proof (separatedb_head_outside _ _ _ Ht (slot_in_table d Hgeo iova 2 pt)) as Ho.
  apply separatedb_cons in Ht. destruct Ht as (_ & _ & Ht).
  apply separatedb_cons in Ht. destruct Ht as (HT & _). cbn [fst] in HT.
  split; [assumption|]. split; [apply Ho; now left|].
  intros x Hx. unfold in_region. cbn [fst snd].
  destruct pages_G as (_ & _ & HG & _).
  pose proof (lvl_idx_range d Hgeo iova 3) as Hr. fold off in Hr.
  unfold sizeof_iopte in *. lia.
Qed.


Lemma pages_body fuel prev :
  exists st4,
    __arm_lpae_unmap fuel d iova (n * G) 2 pt prev st = Ret (n * G, st4)
    /\ (forall x, mem st4 x = m4 x)
    /\ pool st4 = pool st
    /\ trace st4
       = (if cnt =? 0
          then [free_pages_exact T (N * sizeof_iopte); flush_pgtable s sizeof_iopte]
          else [])
         ++ flush_pgtable (T + sizeof_iopte * off) (n * sizeof_iopte) :: trace st.
Proof.
  destruct pages_G as (HG & HN & HG8 & Hblk).
  destruct pages_apart as (HT & Hs & Hrun).
  set (st1 := set_mem st (memzero (mem st) (T + sizeof_iopte * off) (n * sizeof_iopte))).
  set (st2 := emit st1 (flush_pgtable (T + sizeof_iopte * off) (n * sizeof_iopte))).
  set (st3 := set_mem st2 (store (mem st2) s (iopte_tblcnt_sub (mem st2 s) n))).
  set (st4 := if iopte_tblcnt (mem st3 s) =? 0
              then io_pgtable_free_pages_exact T (N * sizeof_iopte)
                     (emit (set_mem st3 (store (mem st3) s 0))
                           (flush_pgtable s sizeof_iopte))
              else st3).
  assert (Hcall : __arm_lpae_unmap fuel d iova (n * G) 2 pt prev st = Ret (n * G, st4)).
  { assert (Hmax : ARM_LPAE_BLOCK_SIZE 2 d / G = N) by (rewrite Hblk; apply Z.div_mul; lia).
    assert (Hent : Z.min (n * G / G) (N - off) = n).
    { rewrite Z.div_mul by lia. apply Z.min_l. lia. }
    destruct fuel; cbn [__arm_lpae_unmap]; cbv zeta; fold s; rewrite Hpte;
      (destruct (Z.eqb_spec pte 0); [contradiction|]);
      change (2 =? ARM_LPAE_MAX_LEVELS) with false; cbn [orb];
      (destruct (Z.eqb_spec (n * G) (ARM_LPAE_BLOCK_SIZE 2 d)) as [E|_];
       [rewrite Hblk in E; nia|]);
      change (2 =? ARM_LPAE_MAX_LEVELS - 2) with true; rewrite Hleaf; cbn [andb negb];
      change (2 + 1) with 3; fold G T off; rewrite Hmax, Hent; reflexivity. }
  exists st4. split; [exact Hcall|].
  assert (Hm2 : mem st2 s = pte).
  { cbn [mem st2 st1 emit set_mem]. rewrite memzero_out; [assumption|].
    intros Hin. apply Hs. apply Hrun. unfold in_region in Hin. cbn [fst snd] in Hin.
    unfold sizeof_iopte in *. lia. }
  assert (Hc : iopte_tblcnt (mem st3 s) = cnt).
  { cbn [mem st3 set_mem]. unfold store. rewrite Z.eqb_refl, Hm2. apply tblcnt_sub_get. }
  subst st4. rewrite Hc. split; [|split].
  - intros x. unfold m4.
    destruct (Z.leb_spec (T + sizeof_iopte * off) x);
      [destruct (Z.ltb_spec x (T + sizeof_iopte * (off + n)))|]; cbn [andb].
    + assert (Hxs : x <> s) by (intros ->; apply Hs; apply Hrun; lia).
      destruct (cnt =? 0); cbn [mem io_pgtable_free_pages_exact emit set_mem st3 st2 st1];
        unfold store; (destruct (Z.eqb_spec x s); [contradiction|]);
        apply memzero_in; unfold in_region; cbn [fst snd]; unfold sizeof_iopte in *; lia.
    + destruct (cnt =? 0); cbn [mem io_pgtable_free_pages_exact emit set_mem st3];
        unfold store; (destruct (Z.eqb_spec x s); [try rewrite Hm2; reflexivity|]);
        cbn [mem st2 st1 emit set_mem]; apply memzero_out; unfold in_region;
        cbn [fst snd]; unfold sizeof_iopte in *; lia.
    + destruct (cnt =? 0); cbn [mem io_pgtable_free_pages_exact emit set_mem st3];
        unfold store; (destruct (Z.eqb_spec x s); [try rewrite Hm2; reflexivity|]);
        cbn [mem st2 st1 emit set_mem]; apply memzero_out; unfold in_region;
        cbn [fst snd]; unfold sizeof_iopte in *; lia.
  - destruct (cnt =? 0); reflexivity.
  - destruct (cnt =? 0); reflexivity.
Qed.

Hypothesis Hal : iova mod G = 0.

Lemma pages_translate m5 a :
  (forall x, m5 x = m4 x) ->
  block_base d iova 2 <= a < block_base d iova 2 + ARM_LPAE_BLOCK_SIZE 2 d ->
  iova_to_phys_walk (levels_below (ARM_LPAE_START_LVL d)) d m5 a
                    (ARM_LPAE_START_LVL d) (pgd d)
  = if (cnt =? 0) || ((iova <=? a) && (a <? iova + n * G)) then 0
    else iova_to_phys_walk (levels_below (ARM_LPAE_START_LVL d)) d (mem st) a
                           (ARM_LPAE_START_LVL d) (pgd d).
Proof.
  intros Hm5 Ha.
  destruct pages_G as (HG & HN & HG8 & Hblk).
  destruct pages_apart as (HT & Hs & Hrun).
  pose proof pages_start as Hst.
  assert (Hidx : forall l, l <= 2 -> ARM_LPAE_LVL_IDX a l d = ARM_LPAE_LVL_IDX iova l d).
  { intros l Hl. apply (block_same_idx d iova 2 a l Hgeo); (assumption || lia). }
  assert (Hpt : pt <> 0) by exact (walk_to_table_nonzero _ _ _ _ _ _ _ _ Hw).
  (* both walks arrive at the table of level 2 *)
  rewrite (walk_follow d Hgeo (mem st) iova 2 pt m5 a) ; try assumption;
    try reflexivity; try lia; cycle 1.
  { intros l Hl. apply Hidx. lia. }
  { intros x r Hr Hin Hout. rewrite pages_tail in Hout. rewrite Hm5. unfold m4.
    assert (Hx1 : ~ in_region x (T, G)) by (apply Hout; right; now left).
    assert (Hx2 : x <> s).
    { intros ->. apply (Hout (pt, table_span d 2)); [now left|].
      apply slot_in_table. assumption. }
    destruct (Z.leb_spec (T + sizeof_iopte * off) x);
      [destruct (Z.ltb_spec x (T + sizeof_iopte * (off + n)))|]; cbn [andb];
      try (exfalso; apply Hx1; apply Hrun; lia);
      (destruct (Z.eqb_spec x s); [contradiction|reflexivity]). }
  rewrite (walk_follow d Hgeo (mem st) iova 2 pt (mem st) a); try assumption;
    try reflexivity; try lia; cycle 1.
  { intros l Hl. apply Hidx. lia. }
  change (levels_below 2) with 1%nat.
  assert (Hs0 : mem st (pt + sizeof_iopte * ARM_LPAE_LVL_IDX a 2 d) = pte).
  { rewrite Hidx by lia. exact Hpte. }
  rewrite (walk_at_table 0 d (mem st) a 2 pt pte Hpt Hs0 Hnz Hleaf)
    by (unfold ARM_LPAE_MAX_LEVELS; lia).
  change (2 + 1) with 3. fold T.
  assert (Hs5 : m5 (pt + sizeof_iopte * ARM_LPAE_LVL_IDX a 2 d)
                = if cnt =? 0 then 0 else iopte_tblcnt_sub pte n).
  { rewrite Hidx by lia. fold s. rewrite Hm5. unfold m4.
    destruct (Z.leb_spec (T + sizeof_iopte * off) s);
      [destruct (Z.ltb_spec s (T + sizeof_iopte * (off + n)))|]; cbn [andb];
      try (exfalso; apply Hs; apply Hrun; lia); now rewrite Z.eqb_refl. }
  destruct (Z.eqb_spec cnt 0) as [Hc|Hc]; cbn [orb].
  { now apply walk_at_empty. }
  assert (Hnz' : iopte_tblcnt_sub pte n <> 0).
  { intros E. apply Hc. unfold cnt. rewrite <- (tblcnt_sub_get pte n), E. reflexivity. }
  rewrite (walk_at_table 0 d m5 a 2 pt _ Hpt Hs5 Hnz')
    by (rewrite ?(same_outside_leaf _ _ _ (tblcnt_sub_same_outside pte n));
        (assumption || (unfold ARM_LPAE_MAX_LEVELS; lia))).
  rewrite (same_outside_deref _ _ d (tblcnt_sub_same_outside pte n)).
  change (2 + 1) with 3. fold T.
  (* the pieces of the block *)
  assert (HN0 : 0 < N) by lia.
  destruct (iova_decompose iova N G HN0 HG Hal) as (bs0 & h & Eiova & Ebs & Hbs & Hh).
  assert (Hbase : block_base d iova 2 = bs0).
  { unfold block_base. rewrite Ebs, (block_size_eq d Hgeo), land_lnot_pow2.
    - now rewrite <- (block_size_eq d Hgeo), Hblk.
    - pose proof (lvl_shift_lower d Hgeo 2). destruct Hgeo. lia. }
  rewrite Hbase, Hblk in Ha.
  destruct (addr_decompose bs0 a N G HN0 HG Ha) as (i & r & Ea & Hi & Hr).
  assert (Hpiece : forall j q, 0 <= j < N -> 0 <= q < G ->
                               ARM_LPAE_LVL_IDX (bs0 + j * G + q) 3 d = j).
  { intros j q Hj Hq.
    pose proof (piece_idx d Hgeo 2 ltac:(lia) bs0 j q) as Hp.
    change (2 + 1) with 3 in Hp. rewrite (block_size_last d Hgeo) in Hp.
    apply Hp; assumption. }
  assert (Hoff : off = h).
  { unfold off. rewrite Eiova. rewrite <- (Z.add_0_r (bs0 + h * G)). apply Hpiece; lia. }
  assert (Hia : ARM_LPAE_LVL_IDX a 3 d = i) by (rewrite Ea; now apply Hpiece).
  rewrite Ea, Eiova, (in_run_iff bs0 h n i r G HG Hr). rewrite <- Ea.
  destruct (Z.leb_spec h i); [destruct (Z.ltb_spec i (h + n))|]; cbn [andb].
  - apply walk_at_empty. rewrite Hia, Hm5. unfold m4. rewrite Hoff.
    destruct (Z.leb_spec (T + sizeof_iopte * h) (T + sizeof_iopte * i));
      [|unfold sizeof_iopte in *; lia].
    destruct (Z.ltb_spec (T + sizeof_iopte * i) (T + sizeof_iopte * (h + n)));
      [reflexivity|unfold sizeof_iopte in *; lia].
  - apply walk_last. rewrite Hia, Hm5. unfold m4. rewrite Hoff.
    destruct (Z.ltb_spec (T + sizeof_iopte * i) (T + sizeof_iopte * (h + n)));
      [unfold sizeof_iopte in *; lia|]. rewrite andb_false_r.
    destruct (Z.eqb_spec (T + sizeof_iopte * i) s) as [E|]; [|reflexivity].
    exfalso. apply Hs. rewrite <- E. unfold in_region. cbn [fst snd].
    unfold sizeof_iopte in *. lia.
  - apply walk_last. rewrite Hia, Hm5. unfold m4. rewrite Hoff.
    destruct (Z.leb_spec (T + sizeof_iopte * h) (T + sizeof_iopte * i));
      [unfold sizeof_iopte in *; lia|]. cbn [andb].
    destruct (Z.eqb_spec (T + sizeof_iopte * i) s) as [E|]; [|reflexivity].
    exfalso. apply Hs. rewrite <- E. unfold in_region. cbn [fst snd].
    unfold sizeof_iopte in *. lia.
Qed.

End UnmapPages.



(** ** Mapping leaves other translations alone *)

Lemma outside_app a l1 l2 :
  outside a (l1 ++ l2) <-> outside a l1 /\ outside a l2.
Proof.
  unfold outside. split.
  - intros H. split; intros r Hr; apply H; apply in_or_app; auto.
  - intros [H1 H2] r Hr. apply in_app_or in Hr. destruct Hr; auto.
Qed.

Lemma disjointb_sym r r' : disjointb r r' = disjointb r' r.
Proof. unfold disjointb. apply orb_comm. Qed.

Lemma separatedb_drop_middle l1 l2 l3 :
  separatedb (l1 ++ l2 ++ l3) = true -> separatedb (l1 ++ l3) = true.
Proof.
  induction l1 as [|r l1 IH]; cbn [app].
  - intros H. apply separatedb_app in H. apply H.
  - intros H. cbn [separatedb] in *.
    apply andb_prop in H. destruct H as [H H3].
    apply andb_prop in H. destruct H as [H1 H2].
    rewrite H1, (IH H3). cbn [andb]. rewrite andb_true_r.
    rewrite forallb_forall in *. intros x Hx. apply H2.
    apply in_app_or in Hx. apply in_or_app.
    destruct Hx; [now left|right; apply in_or_app; now right].
Qed.

(** A cell of one of the middle regions lies outside the others. *)
Lemma separatedb_middle_outside l1 l2 l3 r x :
  separatedb (l1 ++ l2 ++ l3) = true ->
  In r l2 -> in_region x r -> outside x (l1 ++ l3).
Proof.
  intros H Hr Hx. apply separatedb_app in H. destruct H as (_ & H23 & H1).
  apply separatedb_app in H23. destruct H23 as (_ & _ & H2).
  apply outside_app. split; intros r' Hr'.
  - apply (disjointb_outside x r r' Hx). rewrite disjointb_sym.
    apply H1; [assumption|apply in_or_app; now left].
  - apply (disjointb_outside x r r' Hx). now apply H2.
Qed.

Lemma other_tables_end n d m a b lvl ptep :
  m (ptep + sizeof_iopte * ARM_LPAE_LVL_IDX a lvl d) = 0 ->
  m (ptep + sizeof_iopte * ARM_LPAE_LVL_IDX b lvl d) = 0 ->
  other_tables n d m a b lvl ptep = [].
Proof.
  intros Ha Hb. destruct n; cbn [other_tables]; rewrite Ha, Hb;
    destruct (_ =? _); reflexivity.
Qed.

Lemma other_tables_same n d m a b lvl ptep pte :
  ARM_LPAE_LVL_IDX b lvl d = ARM_LPAE_LVL_IDX a lvl d ->
  m (ptep + sizeof_iopte * ARM_LPAE_LVL_IDX a lvl d) = pte ->
  pte <> 0 -> iopte_leaf pte lvl = false ->
  lvl + 1 < ARM_LPAE_MAX_LEVELS ->
  other_tables (S n) d m a b lvl ptep
  = other_tables n d m a b (lvl + 1) (iopte_deref pte d).
Proof.
  intros Hi Hm Hnz Hl Hlt. cbn [other_tables]. rewrite Hi, Z.eqb_refl, Hm, Hl.
  destruct (Z.eqb_spec pte 0); [contradiction|].
  destruct (Z.ltb_spec (lvl + 1) ARM_LPAE_MAX_LEVELS); [reflexivity|lia].
Qed.

Lemma other_tables_apart n d m a b lvl ptep pte :
  ARM_LPAE_LVL_IDX b lvl d <> ARM_LPAE_LVL_IDX a lvl d ->
  m (ptep + sizeof_iopte * ARM_LPAE_LVL_IDX b lvl d) = pte ->
  pte <> 0 -> iopte_leaf pte lvl = false ->
  lvl + 1 < ARM_LPAE_MAX_LEVELS ->
  other_tables (S n) d m a b lvl ptep
  = walk_tables n d m b (lvl + 1) (iopte_deref pte d).
Proof.
  intros Hi Hm Hnz Hl Hlt. cbn [other_tables].
  destruct (Z.eqb_spec (ARM_LPAE_LVL_IDX b lvl d) (ARM_LPAE_LVL_IDX a lvl d));
    [contradiction|].
  rewrite Hm, Hl. destruct (Z.eqb_spec pte 0); [contradiction|].
  destruct (Z.ltb_spec (lvl + 1) ARM_LPAE_MAX_LEVELS); [reflexivity|lia].
Qed.

(** Memory that is the same in the tables of a walk gives the same
    translation. *)
Lemma walk_cong d (Hgeo : geometry_ok d) m m' b :
  forall n lvl ptep,
    (forall x r, In r (walk_tables n d m b lvl ptep) -> in_region x r -> m' x = m x) ->
    iova_to_phys_walk n d m' b lvl ptep = iova_to_phys_walk n d m b lvl ptep.
Proof.
  assert (Hslot : forall n lvl ptep,
             (forall x r, In r (walk_tables n d m b lvl ptep) -> in_region x r ->
                          m' x = m x) ->
             m' (ptep + sizeof_iopte * ARM_LPAE_LVL_IDX b lvl d)
             = m (ptep + sizeof_iopte * ARM_LPAE_LVL_IDX b lvl d)).
  { intros n lvl ptep Hsame.
    destruct (walk_tables_head n d m b lvl ptep) as [rest Hh].
    apply (Hsame _ (ptep, table_span d lvl)); [rewrite Hh; now left|].
    now apply slot_in_table. }
  induction n as [|n IH]; intros lvl ptep Hsame;
    pose proof (Hslot _ _ _ Hsame) as Hs;
    cbn [iova_to_phys_walk]; cbv zeta; rewrite Hs; try reflexivity.
  destruct (ptep =? 0); [reflexivity|].
  destruct (Z.eqb_spec (m (ptep + sizeof_iopte * ARM_LPAE_LVL_IDX b lvl d)) 0) as [|Hnz];
    [reflexivity|].
  destruct (iopte_leaf _ lvl) eqn:El; [reflexivity|].
  destruct (Z.ltb_spec (lvl + 1) ARM_LPAE_MAX_LEVELS) as [Hlt|]; [|reflexivity].
  apply IH. intros x r Hr. apply Hsame.
  rewrite (walk_tables_table n d m b lvl ptep _ eq_refl Hnz El Hlt). now right.
Qed.

(** One step of two walks that read the same entry. *)
Lemma walk_cong_step d m m' b n lvl ptep :
  m' (ptep + sizeof_iopte * ARM_LPAE_LVL_IDX b lvl d)
  = m (ptep + sizeof_iopte * ARM_LPAE_LVL_IDX b lvl d) ->
  (forall n' pte, n = S n' ->
     pte = m (ptep + sizeof_iopte * ARM_LPAE_LVL_IDX b lvl d) ->
     pte <> 0 -> iopte_leaf pte lvl = false -> lvl + 1 < ARM_LPAE_MAX_LEVELS ->
     iova_to_phys_walk n' d m' b (lvl + 1) (iopte_deref pte d)
     = iova_to_phys_walk n' d m b (lvl + 1) (iopte_deref pte d)) ->
  iova_to_phys_walk n d m' b lvl ptep = iova_to_phys_walk n d m b lvl ptep.
Proof.
  intros Hs Hnext. destruct n as [|n]; cbn [iova_to_phys_walk]; cbv zeta; rewrite Hs;
    try reflexivity.
  destruct (ptep =? 0); [reflexivity|].
  destruct (Z.eqb_spec (m (ptep + sizeof_iopte * ARM_LPAE_LVL_IDX b lvl d)) 0) as [|Hnz];
    [reflexivity|].
  destruct (iopte_leaf _ lvl) eqn:El; [reflexivity|].
  destruct (Z.ltb_spec (lvl + 1) ARM_LPAE_MAX_LEVELS) as [Hlt|]; [|reflexivity].
  now apply (Hnext n _ eq_refl eq_refl).
Qed.

Lemma init_pte_frame d iova paddr prot lvl ptep prev flush st st' :
  arm_lpae_init_pte d iova paddr prot lvl ptep prev flush st = Ret (0, st') ->
  forall a, a <> prev -> a <> ptep -> mem st' a = mem st a.
Proof.
  unfold arm_lpae_init_pte. intros H a Hp Hs.
  destruct (negb _).
  { destruct (suppress_map_failures st); [|discriminate].
    injection H as E _. unfold EEXIST in E. lia. }
  injection H as <-.
  destruct flush, (Z.eqb_spec prev 0); cbn [mem set_mem emit]; unfold store;
    repeat (match goal with
            | |- context [a =? ?y] => destruct (Z.eqb_spec a y); [contradiction|]
            end); reflexivity.
Qed.

Section MapKeeps.

Variable d : arm_lpae_io_pgtable.
Hypothesis Hgeo : geometry_ok d.
Variables iova paddr size prot : Z.
Hypothesis Hprot : prot_ok prot.
Hypothesis Hpa : 0 <= paddr < 2 ^ 48.
Hypothesis Hia : iova mod size = 0.
Hypothesis Hpaa : paddr mod size = 0.

(** What [__arm_lpae_map] has set up when it calls itself one level
    down. *)
Lemma map_descend n lvl ptep prev st msr st' :
  ARM_LPAE_START_LVL d <= lvl <= 3 ->
  separatedb (walk_tables (S n) d (mem st) iova lvl ptep
              ++ pool_chunks d (pool st)) = true ->
  forallb (chunk_ok d) (pool_chunks d (pool st)) = true ->
  iova_to_phys_walk (S n) d (mem st) (iova + 1) lvl ptep = 0 ->
  __arm_lpae_map (S n) d iova paddr size prot lvl ptep prev None st
  = Ret (0, msr, st') ->
  (size =? ARM_LPAE_BLOCK_SIZE lvl d)
  && negb (Z.land size (pgsize_bitmap (cfg (iop d))) =? 0) = false ->
  let s := ptep + sizeof_iopte * ARM_LPAE_LVL_IDX iova lvl d in
  lvl < 3
  /\ exists c st2,
      __arm_lpae_map n d iova paddr size prot (lvl + 1) c s None st2
      = Ret (0, msr, st')
      /\ separatedb (walk_tables n d (mem st2) iova (lvl + 1) c
                     ++ pool_chunks d (pool st2)) = true
      /\ forallb (chunk_ok d) (pool_chunks d (pool st2)) = true
      /\ outside s (walk_tables n d (mem st2) iova (lvl + 1) c
                    ++ pool_chunks d (pool st2))
      /\ iova_to_phys_walk n d (mem st2) (iova + 1) (lvl + 1) c = 0
      /\ iopte_deref (mem st2 s) d = c
      /\ iopte_leaf (mem st2 s) lvl = false
      /\ 0 < c
      /\ ((mem st s <> 0 /\ st2 = st
           /\ walk_tables (S n) d (mem st) iova lvl ptep
              = (ptep, table_span d lvl) :: walk_tables n d (mem st) iova (lvl + 1) c)
          \/ (mem st s = 0
              /\ walk_tables (S n) d (mem st) iova lvl ptep = [(ptep, table_span d lvl)]
              /\ exists rest,
                  pool_chunks d (pool st)
                  = (c, Z.shiftl 1 (pg_shift d)) :: pool_chunks d rest
                  /\ pool st2 = rest
                  /\ mem st2 = store (memzero (mem st) c (Z.shiftl 1 (pg_shift d)))
                                     s (table_desc d c)
                  /\ walk_tables n d (mem st2) iova (lvl + 1) c
                     = [(c, Z.shiftl 1 (pg_shift d))]
                  /\ forall x,
                       mem st2 (c + sizeof_iopte * ARM_LPAE_LVL_IDX x (lvl + 1) d) = 0)).
Proof.
  destruct Hgeo as (Hpg & Hbpl & Hlv).
  intros Hl Hsep Hok Hun H Hleaf s.
  cbn [__arm_lpae_map] in H. rewrite Hleaf in H.
  destruct (Z.geb_spec lvl (ARM_LPAE_MAX_LEVELS - 1)) as [|Hlt]; [discriminate|].
  unfold ARM_LPAE_MAX_LEVELS in Hlt. split; [lia|].
  assert (Hin_s : in_region s (ptep, table_span d lvl)) by now apply slot_in_table.
  assert (Hspan : table_span d (lvl + 1) = Z.shiftl 1 (pg_shift d))
    by (apply table_span_inner; [assumption|lia]).
  destruct (walk_tables_head (S n) d (mem st) iova lvl ptep) as [wrest Hw].
  assert (Hsout : outside s (tl (walk_tables (S n) d (mem st) iova lvl ptep)
                             ++ pool_chunks d (pool st))).
  { rewrite Hw in *. cbn [tl app] in *.
    eapply separatedb_head_outside; [exact Hsep|]. exact Hin_s. }
  fold s in H.
  destruct (Z.eqb_spec (mem st s) 0) as [Hz|Hnz].
  - (* a fresh table *)
    destruct (io_pgtable_alloc_pages_exact _ st) as [c st1] eqn:Ha.
    destruct (Z.eqb_spec c 0) as [|Hc]; [discriminate|].
    destruct (alloc_pages_some _ _ _ _ Ha Hc) as (rest & Hpool & Hpool1 & Hmem1).
    match type of H with
    | __arm_lpae_map _ _ _ _ _ _ _ _ _ _ ?x = _ => set (st2 := x) in H
    end.
    assert (Hmem2 : mem st2 = store (memzero (mem st) c (Z.shiftl 1 (pg_shift d)))
                                    s (table_desc d c))
      by (subst st2; cbn [mem set_mem emit]; now rewrite Hmem1).
    assert (Hpool2 : pool st2 = rest) by (subst st2; cbn [pool set_mem emit]; assumption).
    rewrite (walk_tables_end (S n) d (mem st) iova lvl ptep Hz) in *.
    rewrite Hpool, (pool_chunks_cons d c rest Hc) in *. cbn [app tl] in *.
    cbn [forallb] in Hok. apply andb_prop in Hok. destruct Hok as [Hokc Hok].
    pose proof Hsep as Hsep'. apply separatedb_cons in Hsep'.
    destruct Hsep' as (_ & _ & Hsepc).
    pose proof Hsepc as Hsepc'. apply separatedb_cons in Hsepc'.
    destruct Hsepc' as (Hcpos & _ & _). cbn [fst] in Hcpos.
    assert (Hzero : forall x, mem st2 (c + sizeof_iopte * ARM_LPAE_LVL_IDX x (lvl + 1) d) = 0).
    { intros x.
      pose proof (slot_in_table d (conj Hpg (conj Hbpl Hlv)) x (lvl + 1) c) as Hin.
      rewrite Hspan in Hin.
      rewrite Hmem2. unfold store, memzero.
      destruct (Z.eqb_spec (c + sizeof_iopte * ARM_LPAE_LVL_IDX x (lvl + 1) d) s) as [E|_].
      - exfalso. apply (Hsout (c, Z.shiftl 1 (pg_shift d))); [now left|].
        rewrite <- E. exact Hin.
      - unfold in_region in Hin. cbn [fst snd] in Hin.
        destruct (Z.leb_spec c (c + sizeof_iopte * ARM_LPAE_LVL_IDX x (lvl + 1) d)); [|lia].
        destruct (Z.ltb_spec (c + sizeof_iopte * ARM_LPAE_LVL_IDX x (lvl + 1) d)
                             (c + Z.shiftl 1 (pg_shift d))); [reflexivity|lia]. }
    assert (Hw2 : walk_tables n d (mem st2) iova (lvl + 1) c
                  = [(c, Z.shiftl 1 (pg_shift d))])
      by (rewrite (walk_tables_end n d (mem st2) iova (lvl + 1) c (Hzero iova));
          now rewrite Hspan).
    assert (Hs2 : mem st2 s = table_desc d c)
      by (rewrite Hmem2; unfold store; now rewrite Z.eqb_refl).
    exists c, st2. rewrite Hw2, Hpool2, Hs2. cbn [app].
    split; [exact H|]. split; [exact Hsepc|]. split; [exact Hok|].
    split; [exact Hsout|]. split; [apply walk_at_empty; apply Hzero|].
    split; [now apply table_desc_deref|].
    split; [apply table_desc_not_leaf; unfold ARM_LPAE_MAX_LEVELS; assumption || lia|].
    split; [assumption|]. right.
    split; [assumption|]. split; [reflexivity|]. exists rest.
    repeat split; try assumption; reflexivity.
  - (* an existing table *)
    set (pte := mem st s) in *.
    assert (Hl3 : lvl + 1 <= 3) by lia.
    destruct (map_success_level _ _ _ _ _ _ _ _ _ _ _ _ _ Hl3 H) as (L & HL & HsL).
    rewrite (block_size_eq d (conj Hpg (conj Hbpl Hlv))) in HsL.
    pose proof (lvl_shift_lower d (conj Hpg (conj Hbpl Hlv)) L (proj2 HL)) as HsLlow.
    assert (Hia' : iova mod 2 ^ ARM_LPAE_LVL_SHIFT L d = 0) by now rewrite <- HsL.
    assert (Hone : 0 <= 1 < 2 ^ ARM_LPAE_LVL_SHIFT L d).
    { split; [lia|]. apply Z.le_lt_trans with (2 ^ 0); [simpl; lia|].
      apply Z.pow_lt_mono_r; lia. }
    assert (Hslot1 : mem st (ptep + sizeof_iopte * ARM_LPAE_LVL_IDX (iova + 1) lvl d)
                     = pte).
    { subst pte s. rewrite (lvl_idx_add_small d (conj Hpg (conj Hbpl Hlv)) iova 1 lvl L);
        (assumption || lia || reflexivity). }
    assert (Hp : 0 < ptep).
    { rewrite Hw in Hsep. cbn [app] in Hsep. apply separatedb_cons in Hsep. apply Hsep. }
    assert (Hnl : iopte_leaf pte lvl = false).
    { destruct (iopte_leaf pte lvl) eqn:E; [exfalso|reflexivity].
      rewrite (walk_at_leaf (S n) d (mem st) (iova + 1) lvl ptep pte) in Hun;
        [|lia|exact Hslot1|exact E].
      revert Hun. apply lor_odd_nonzero.
      - pose proof (lvl_shift_lower d (conj Hpg (conj Hbpl Hlv)) lvl (proj2 Hl)). lia.
      - apply aligned_succ_odd with (n := ARM_LPAE_LVL_SHIFT L d); assumption || lia. }
    assert (Hlv4 : lvl + 1 < ARM_LPAE_MAX_LEVELS) by (unfold ARM_LPAE_MAX_LEVELS; lia).
    rewrite (walk_tables_table n d (mem st) iova lvl ptep pte eq_refl Hnz Hnl Hlv4) in *.
    cbn [app tl] in *.
    rewrite (walk_at_table n d (mem st) (iova + 1) lvl ptep pte) in Hun;
      [|lia|exact Hslot1|assumption|assumption|assumption].
    pose proof Hsep as Hsep'. apply separatedb_cons in Hsep'.
    destruct Hsep' as (_ & _ & Hsepc).
    exists (iopte_deref pte d), st.
    split; [exact H|]. split; [exact Hsepc|]. split; [exact Hok|].
    split; [exact Hsout|]. split; [exact Hun|]. split; [reflexivity|].
    split; [exact Hnl|]. split.
    { destruct (walk_tables_head n d (mem st) iova (lvl + 1) (iopte_deref pte d))
        as [wr Hwr].
      rewrite Hwr in Hsepc. cbn [app] in Hsepc. apply separatedb_cons in Hsepc.
      apply Hsepc. }
    left. split; [assumption|]. split; reflexivity.
Qed.

(** In the table it is called on, [__arm_lpae_map] changes the slot of
    [iova] only. *)
Lemma map_keeps_slot n lvl ptep prev st msr st' x :
  ARM_LPAE_START_LVL d <= lvl <= 3 ->
  levels_below lvl = n ->
  separatedb (walk_tables n d (mem st) iova lvl ptep
              ++ pool_chunks d (pool st)) = true ->
  forallb (chunk_ok d) (pool_chunks d (pool st)) = true ->
  iova_to_phys_walk n d (mem st) (iova + 1) lvl ptep = 0 ->
  __arm_lpae_map n d iova paddr size prot lvl ptep prev None st = Ret (0, msr, st') ->
  in_region x (ptep, table_span d lvl) ->
  x <> ptep + sizeof_iopte * ARM_LPAE_LVL_IDX iova lvl d ->
  x <> prev ->
  mem st' x = mem st x.
Proof.
  intros Hl Hn Hsep Hok Hun H Hx Hxs Hxp.
  destruct ((size =? ARM_LPAE_BLOCK_SIZE lvl d)
            && negb (Z.land size (pgsize_bitmap (cfg (iop d))) =? 0)) eqn:Hleaf.
  { (* a leaf at this level *)
    assert (Hi : arm_lpae_init_pte d iova paddr prot lvl
                   (ptep + sizeof_iopte * ARM_LPAE_LVL_IDX iova lvl d) prev true st
                 = Ret (0, st')).
    { destruct n; cbn [__arm_lpae_map] in H; rewrite Hleaf in H;
        (destruct (arm_lpae_init_pte _ _ _ _ _ _ _ _ _) as [[r st1]|]; [|discriminate]);
        congruence. }
    now apply (init_pte_frame _ _ _ _ _ _ _ _ _ _ Hi). }
  destruct n as [|n].
  { cbn [__arm_lpae_map] in H. rewrite Hleaf in H.
    destruct (Z.geb_spec lvl (ARM_LPAE_MAX_LEVELS - 1)) as [|Hlt]; [discriminate|].
    exfalso. unfold levels_below, ARM_LPAE_MAX_LEVELS in *. lia. }
  destruct (map_descend n lvl ptep prev st msr st' Hl Hsep Hok Hun H Hleaf)
    as (Hlt & c & st2 & Hrec & Hsep2 & Hok2 & Hout2 & Hun2 & Hderef & Hnl & Hc & Hcase).
  assert (Hn' : levels_below (lvl + 1) = n).
  { rewrite (levels_below_step lvl) in Hn by (unfold ARM_LPAE_MAX_LEVELS; lia).
    now injection Hn. }
  destruct (map_installs d Hgeo iova paddr size prot Hprot Hpa Hia Hpaa n (lvl + 1) c
              (ptep + sizeof_iopte * ARM_LPAE_LVL_IDX iova lvl d) st2 msr st'
              ltac:(lia) Hn' Hsep2 Hok2 (or_intror Hout2) Hun2 Hrec) as (Hfr2 & _).
  destruct Hcase as [(Hnz & -> & Hw)|(Hz & Hw & rest & Hpc & Hp2 & Hm2 & Hw2 & _)].
  - apply Hfr2; [assumption|].
    rewrite Hw in Hsep. cbn [app] in Hsep.
    exact (separatedb_head_outside _ _ _ Hsep Hx).
  - rewrite Hw, Hpc in Hsep. cbn [app] in Hsep.
    pose proof (separatedb_head_outside _ _ _ Hsep Hx) as Ho.
    rewrite Hfr2; [|assumption|rewrite Hw2, Hp2; exact Ho].
    rewrite Hm2. unfold store, memzero.
    destruct (Z.eqb_spec x (ptep + sizeof_iopte * ARM_LPAE_LVL_IDX iova lvl d));
      [contradiction|].
    apply outside_cons in Ho. destruct Ho as [Ho _].
    unfold in_region in Ho. cbn [fst snd] in Ho.
    destruct (Z.leb_spec c x); [|reflexivity].
    destruct (Z.ltb_spec x (c + Z.shiftl 1 (pg_shift d))); [lia|reflexivity].
Qed.

Variables b L : Z.
Hypothesis HsL : size = ARM_LPAE_BLOCK_SIZE L d.
Hypothesis HL3 : L <= 3.

Lemma leaf_level_unique lvl :
  lvl <= 3 -> size = ARM_LPAE_BLOCK_SIZE lvl d -> lvl = L.
Proof.
  intros Hl Hs.
  destruct (Z.lt_trichotomy lvl L) as [Hlt|[E|Hgt]]; [exfalso|assumption|exfalso].
  - pose proof (block_size_smaller d Hgeo lvl L Hlt HL3). lia.
  - pose proof (block_size_smaller d Hgeo L lvl Hgt Hl). lia.
Qed.

Lemma map_keeps_common n lvl ptep prev st msr st' :
  ARM_LPAE_START_LVL d <= lvl <= 3 ->
  levels_below lvl = n ->
  separatedb (walk_tables n d (mem st) iova lvl ptep
              ++ other_tables n d (mem st) iova b lvl ptep
              ++ pool_chunks d (pool st)) = true ->
  forallb (chunk_ok d) (pool_chunks d (pool st)) = true ->
  (prev = 0 \/ outside prev (walk_tables n d (mem st) iova lvl ptep
                             ++ other_tables n d (mem st) iova b lvl ptep
                             ++ pool_chunks d (pool st))) ->
  iova_to_phys_walk n d (mem st) (iova + 1) lvl ptep = 0 ->
  __arm_lpae_map n d iova paddr size prot lvl ptep prev None st
  = Ret (0, msr, st') ->
  separatedb (walk_tables n d (mem st) iova lvl ptep ++ pool_chunks d (pool st)) = true
  /\ (forall x r, In r (other_tables n d (mem st) iova b lvl ptep) -> in_region x r ->
                  mem st' x = mem st x)
  /\ 0 < ptep
  /\ (ARM_LPAE_LVL_IDX b lvl d <> ARM_LPAE_LVL_IDX iova lvl d ->
      mem st' (ptep + sizeof_iopte * ARM_LPAE_LVL_IDX b lvl d)
      = mem st (ptep + sizeof_iopte * ARM_LPAE_LVL_IDX b lvl d)).
Proof.
  intros Hl Hn Hsep Hok Hprev Hun H.
  pose proof (separatedb_drop_middle _ _ _ Hsep) as Hsw.
  assert (Hprevw : prev = 0 \/ outside prev (walk_tables n d (mem st) iova lvl ptep
                                             ++ pool_chunks d (pool st))).
  { destruct Hprev as [|Ho]; [now left|right].
    destruct (proj1 (outside_app _ _ _) Ho) as [Ho1 Ho2].
    destruct (proj1 (outside_app _ _ _) Ho2) as [_ Ho3].
    exact (proj2 (outside_app _ _ _) (conj Ho1 Ho3)). }
  destruct (map_installs d Hgeo iova paddr size prot Hprot Hpa Hia Hpaa n lvl ptep
              prev st msr st' Hl Hn Hsw Hok Hprevw Hun H) as (Hfw & _).
  destruct (walk_tables_head n d (mem st) iova lvl ptep) as [wrest Hw].
  assert (Hp : 0 < ptep).
  { rewrite Hw in Hsw. cbn [app] in Hsw. apply separatedb_cons in Hsw. apply Hsw. }
  assert (Hhead : forall x, in_region x (ptep, table_span d lvl) -> x <> prev).
  { intros x Hx ->. destruct Hprevw as [->|Ho].
    - unfold in_region in Hx. cbn [fst snd] in Hx. lia.
    - apply (Ho (ptep, table_span d lvl)); [rewrite Hw; now left|assumption]. }
  split; [assumption|]. split; [|split; [assumption|]].
  - intros x r Hr Hx.
    pose proof (separatedb_middle_outside _ _ _ r x Hsep Hr Hx) as Ho.
    apply Hfw; [|assumption].
    intros ->. destruct Hprev as [->|Hop].
    + apply separatedb_app in Hsep. destruct Hsep as (_ & Hsep & _).
      apply separatedb_app in Hsep. destruct Hsep as (Hsep & _).
      assert (Hpos : forall l0, separatedb l0 = true ->
                                forall r0, In r0 l0 -> 0 < fst r0).
      { induction l0 as [|r0 l0 IHl]; intros Hs0 r1 Hr1; [contradiction|].
        apply separatedb_cons in Hs0. destruct Hs0 as (H0 & _ & Hs0).
        destruct Hr1 as [<-|Hr1]; [assumption|now apply IHl]. }
      pose proof (Hpos _ Hsep r Hr). unfold in_region in Hx. lia.
    + apply (Hop r); [|assumption]. apply in_or_app. right. apply in_or_app. now left.
  - intros Hne.
    apply (map_keeps_slot n lvl ptep prev st msr st' _ Hl Hn Hsw Hok Hun H).
    + now apply slot_in_table.
    + unfold sizeof_iopte. lia.
    + apply Hhead. now apply slot_in_table.
Qed.

(** The walk for an address that does not share all the indices of
    the new leaf ends as it did before the call. *)
Lemma map_keeps_walk :
  forall n lvl ptep prev st msr st',
    ARM_LPAE_START_LVL d <= lvl <= 3 ->
    levels_below lvl = n ->
    separatedb (walk_tables n d (mem st) iova lvl ptep
                ++ other_tables n d (mem st) iova b lvl ptep
                ++ pool_chunks d (pool st)) = true ->
    forallb (chunk_ok d) (pool_chunks d (pool st)) = true ->
    (prev = 0 \/ outside prev (walk_tables n d (mem st) iova lvl ptep
                               ++ other_tables n d (mem st) iova b lvl ptep
                               ++ pool_chunks d (pool st))) ->
    iova_to_phys_walk n d (mem st) (iova + 1) lvl ptep = 0 ->
    (exists l, lvl <= l <= L
               /\ ARM_LPAE_LVL_IDX b l d <> ARM_LPAE_LVL_IDX iova l d) ->
    __arm_lpae_map n d iova paddr size prot lvl ptep prev None st
    = Ret (0, msr, st') ->
    iova_to_phys_walk n d (mem st') b lvl ptep
    = iova_to_phys_walk n d (mem st) b lvl ptep.
Proof.
  induction n as [|n IH]; intros lvl ptep prev st msr st' Hl Hn Hsep Hok Hprev Hun Hdiff H;
    destruct (map_keeps_common _ lvl ptep prev st msr st' Hl Hn Hsep Hok Hprev Hun H)
      as (Hsw & Hoff & Hp & Hslotb).
  - (* the last level: a leaf here, and [b] reads another slot *)
    assert (Hs : size = ARM_LPAE_BLOCK_SIZE lvl d).
    { cbn [__arm_lpae_map] in H.
      destruct (Z.eqb_spec size (ARM_LPAE_BLOCK_SIZE lvl d)); [assumption|].
      cbn [andb] in H. destruct (lvl >=? ARM_LPAE_MAX_LEVELS - 1); discriminate. }
    apply leaf_level_unique in Hs; [|lia]. subst lvl.
    destruct Hdiff as (l & Hl' & Hne). assert (l = L) by lia. subst l.
    apply walk_cong_step; [now apply Hslotb|]. intros n' pte E. discriminate.
  - destruct (Z.eq_dec (ARM_LPAE_LVL_IDX b lvl d) (ARM_LPAE_LVL_IDX iova lvl d))
      as [Hsame|Hne].
    2:{ (* [b] leaves the walk here *)
      apply walk_cong_step; [now apply Hslotb|].
      intros n' pte En Hpte Hnz Hnl Hlt. injection En as <-.
      apply (walk_cong d Hgeo). intros x r Hr Hx.
      rewrite <- (other_tables_apart n d (mem st) iova b lvl ptep pte Hne
                    (eq_sym Hpte) Hnz Hnl Hlt) in Hr.
      exact (Hoff x r Hr Hx). }
    (* [b] reads the slot of [iova] *)
    destruct ((size =? ARM_LPAE_BLOCK_SIZE lvl d)
              && negb (Z.land size (pgsize_bitmap (cfg (iop d))) =? 0)) eqn:Hleaf.
    { exfalso. apply andb_prop in Hleaf. destruct Hleaf as [Hs _]. apply Z.eqb_eq in Hs.
      apply leaf_level_unique in Hs; [|lia]. subst lvl.
      destruct Hdiff as (l & Hl' & Hne). assert (l = L) by lia. subst l. contradiction. }
    destruct (map_descend n lvl ptep prev st msr st' Hl Hsw Hok Hun H Hleaf)
      as (Hlt & c & st2 & Hrec & Hsep2 & Hok2 & Hout2 & Hun2 & Hderef & Hnl & Hc & Hcase).
    assert (Hn' : levels_below (lvl + 1) = n).
    { rewrite (levels_below_step lvl) in Hn by (unfold ARM_LPAE_MAX_LEVELS; lia).
      now injection Hn. }
    set (s := ptep + sizeof_iopte * ARM_LPAE_LVL_IDX iova lvl d) in *.
    assert (Hs0 : s <> 0).
    { pose proof (slot_in_table d Hgeo iova lvl ptep) as Hin. fold s in Hin.
      unfold in_region in Hin. cbn [fst snd] in Hin. lia. }
    destruct (map_installs d Hgeo iova paddr size prot Hprot Hpa Hia Hpaa n (lvl + 1) c
                s st2 msr st' ltac:(lia) Hn' Hsep2 Hok2 (or_intror Hout2) Hun2 Hrec)
      as (_ & Hcnt & _).
    specialize (Hcnt Hs0).
    assert (Hdiff' : exists l, lvl + 1 <= l <= L
                               /\ ARM_LPAE_LVL_IDX b l d <> ARM_LPAE_LVL_IDX iova l d).
    { destruct Hdiff as (l & Hl' & Hne). exists l. split; [|assumption].
      destruct (Z.eq_dec l lvl) as [->|]; [contradiction|lia]. }
    assert (Hlv4 : lvl + 1 < ARM_LPAE_MAX_LEVELS) by (unfold ARM_LPAE_MAX_LEVELS; lia).
    assert (Hnew : iova_to_phys_walk (S n) d (mem st') b lvl ptep
                   = iova_to_phys_walk n d (mem st') b (lvl + 1) c).
    { rewrite (walk_at_table n d (mem st') b lvl ptep (mem st' s)).
      - now rewrite (same_outside_deref _ _ d Hcnt), Hderef.
      - lia.
      - now rewrite Hsame.
      - apply (deref_nonzero _ d). rewrite (same_outside_deref _ _ d Hcnt), Hderef. lia.
      - now rewrite (same_outside_leaf _ _ lvl Hcnt).
      - assumption. }
    rewrite Hnew.
    destruct Hcase as [(Hnz & -> & Hw')|(Hz & Hw' & rest & Hpc & Hp2 & Hm2 & Hw2 & Hzero)].
    + (* an existing table *)
      rewrite (walk_at_table n d (mem st) b lvl ptep (mem st s));
        [|lia|now rewrite Hsame|assumption|assumption|assumption].
      rewrite Hderef.
      rewrite Hw', (other_tables_same n d (mem st) iova b lvl ptep (mem st s)
                                      Hsame eq_refl Hnz Hnl Hlv4), Hderef in Hsep, Hprev.
      cbn [app] in Hsep, Hprev.
      apply (IH (lvl + 1) c s st msr st'); try assumption; try lia.
      * apply separatedb_cons in Hsep. apply Hsep.
      * right. exact (separatedb_head_outside _ _ _ Hsep (slot_in_table d Hgeo iova lvl ptep)).
    + (* a fresh table: nothing was and nothing is mapped there *)
      rewrite (walk_at_empty (S n) d (mem st) b lvl ptep) by (now rewrite Hsame).
      assert (Ho2 : other_tables n d (mem st2) iova b (lvl + 1) c = [])
        by (apply other_tables_end; apply Hzero).
      rewrite (IH (lvl + 1) c s st2 msr st'); try assumption; try lia.
      * apply walk_at_empty. apply Hzero.
      * now rewrite Ho2.
      * right. now rewrite Ho2.
Qed.

End MapKeeps.

(** X17.  A successful [arm_lpae_map] leaves every other translation
    as it was: for an address [b] whose table index differs from that of
    [iova] at some level down to the one where the new leaf is
    installed, [arm_lpae_iova_to_phys] answers after the call what it
    answered before, whether [b] was mapped or not. *)
Theorem map_keeps_other_translations d st iova paddr size prot st' b L :
  geometry_ok d ->
  has_access prot = true ->
  iova mod size = 0 -> paddr mod size = 0 -> 0 <= paddr < 2 ^ 48 ->
  walks_separated d st iova b = true ->
  (forall j, 0 <= j < size -> arm_lpae_iova_to_phys d (iova + j) st = 0) ->
  size = ARM_LPAE_BLOCK_SIZE L d -> L <= 3 ->
  (exists l, ARM_LPAE_START_LVL d <= l <= L
             /\ ARM_LPAE_LVL_IDX b l d <> ARM_LPAE_LVL_IDX iova l d) ->
  arm_lpae_map d iova paddr size prot st = Ret (0, st') ->
  arm_lpae_iova_to_phys d b st' = arm_lpae_iova_to_phys d b st.
Proof.
  intros Hgeo Hacc Hia Hpaa Hpa Hsep Hun HsL HL3 Hdiff H.
  unfold arm_lpae_map in H. unfold has_access in Hacc. rewrite Hacc in H.
  cbn [negb] in H.
  destruct (__arm_lpae_map _ _ _ _ _ _ _ _ _ _ _) as [[[r msr] st1]|] eqn:Hm;
    [|discriminate].
  assert (r = 0 /\ st1 = st') as [-> ->] by (split; congruence).
  pose proof (start_lvl_le d Hgeo) as Hst.
  assert (Hone : 0 <= 1 < size).
  { rewrite HsL, (block_size_eq d Hgeo).
    pose proof (lvl_shift_lower d Hgeo L HL3). destruct Hgeo as (Hpg & _).
    split; [lia|]. apply Z.le_lt_trans with (2 ^ 0); [simpl; lia|].
    apply Z.pow_lt_mono_r; lia. }
  unfold walks_separated in Hsep. apply andb_prop in Hsep. destruct Hsep as [Hsep Hok].
  unfold arm_lpae_iova_to_phys.
  apply (map_keeps_walk d Hgeo iova paddr size _ (prot_to_pte_ok d prot) Hpa Hia Hpaa
           b L HsL HL3 _ _ _ 0 st msr st'); try assumption.
  - lia.
  - reflexivity.
  - now left.
  - exact (Hun 1 Hone).
Qed.

Lemma map_keeps_other_translations_witness :
  exists st',
    arm_lpae_map selftest_data 0x1000 0x80001000 SZ_4K RW (machine_of one_page)
    = Ret (0, st')
    /\ arm_lpae_iova_to_phys selftest_data 0x123 st'
       = arm_lpae_iova_to_phys selftest_data 0x123 (machine_of one_page).
Proof.
  assert (E : result_of (arm_lpae_map selftest_data 0x1000 0x80001000 SZ_4K RW
                                      (machine_of one_page)) = Some 0)
    by (vm_compute; reflexivity).
  destruct (arm_lpae_map selftest_data 0x1000 0x80001000 SZ_4K RW (machine_of one_page))
    as [[r st']|] eqn:Hm; cbn [result_of] in E; [|discriminate].
  injection E as ->. exists st'. split; [reflexivity|].
  assert (Hgeo : geometry_ok selftest_data) by (unfold geometry_ok; cbn; lia).
  apply (map_keeps_other_translations selftest_data (machine_of one_page)
           0x1000 0x80001000 SZ_4K RW st' 0x123 3).
  - exact Hgeo.
  - reflexivity.
  - reflexivity.
  - reflexivity.
  - split; [lia | reflexivity].
  - vm_compute. reflexivity.
  - intros j Hj. unfold arm_lpae_iova_to_phys.
    rewrite (walk_follow selftest_data Hgeo (mem (machine_of one_page)) 0x1000 3 0x130000
               (mem (machine_of one_page)) (0x1000 + j)).
    + apply walk_at_empty.
      rewrite (lvl_idx_add_small selftest_data Hgeo 0x1000 j 3 3);
        [vm_compute; reflexivity|lia|lia|reflexivity|].
      change (2 ^ ARM_LPAE_LVL_SHIFT 3 selftest_data) with SZ_4K. exact Hj.
    + intros l Hl. apply (lvl_idx_add_small selftest_data Hgeo 0x1000 j l 3);
        [lia|lia|reflexivity|].
      change (2 ^ ARM_LPAE_LVL_SHIFT 3 selftest_data) with SZ_4K. exact Hj.
    + reflexivity.
    + lia.
    + vm_compute. reflexivity.
    + vm_compute. reflexivity.
    + reflexivity.
  - vm_compute. reflexivity.
  - lia.
  - exists 3. split; [vm_compute; split; discriminate|]. vm_compute. discriminate.
  - exact Hm.
Defined.

(** ** What [arm_lpae_map_sg] reports *)





(** ** Which collaborators unmapping reaches *)










(** ** Map, then unmap *)

(** The walk to a leaf passes the table of every level above it. *)
Lemma walk_leaf_to_table d m iova L s T :
  forall n lvl ptep,
    walk_to_leaf n d m iova lvl ptep = Some (L, s) ->
    lvl <= T <= L ->
    exists pt,
      walk_to_table n d m iova lvl ptep T = Some pt
      /\ m (pt + sizeof_iopte * ARM_LPAE_LVL_IDX iova T d) <> 0
      /\ (T = L -> s = pt + sizeof_iopte * ARM_LPAE_LVL_IDX iova L d)
      /\ (T < L -> iopte_leaf (m (pt + sizeof_iopte * ARM_LPAE_LVL_IDX iova T d)) T = false).
Proof.
  induction n as [|n IH]; intros lvl ptep H HT;
    pose proof (walk_to_leaf_level _ _ _ _ _ _ _ _ H) as Hle;
    destruct (walk_to_leaf_step _ _ _ _ _ _ _ _ H)
      as (Hp & Hnz & [(-> & -> & Hl)|(Hl & Hlt & n' & En & H')]);
    try discriminate.
  - assert (T = L) by lia. subst T. exists ptep. cbn [walk_to_table].
    destruct (Z.eqb_spec ptep 0); [contradiction|]. rewrite Z.eqb_refl.
    repeat split; try assumption; try reflexivity. lia.
  - assert (T = L) by lia. subst T. exists ptep. cbn [walk_to_table].
    destruct (Z.eqb_spec ptep 0); [contradiction|]. rewrite Z.eqb_refl.
    repeat split; try assumption; try reflexivity. lia.
  - injection En as <-.
    pose proof (walk_to_leaf_level _ _ _ _ _ _ _ _ H') as Hle'.
    destruct (Z.eq_dec lvl T) as [->|Hne].
    + exists ptep. cbn [walk_to_table].
      destruct (Z.eqb_spec ptep 0); [contradiction|]. rewrite Z.eqb_refl.
      split; [reflexivity|]. split; [assumption|]. split; [lia|]. intros _. assumption.
    + destruct (IH (lvl + 1) _ H' ltac:(lia)) as (pt & Hw & Hrest).
      exists pt. split; [|exact Hrest]. cbn [walk_to_table]. cbv zeta.
      destruct (Z.eqb_spec ptep 0); [contradiction|].
      destruct (Z.eqb_spec lvl T); [contradiction|].
      destruct (Z.eqb_spec (m (ptep + sizeof_iopte * ARM_LPAE_LVL_IDX iova lvl d)) 0);
        [contradiction|].
      rewrite Hl. destruct (Z.ltb_spec (lvl + 1) ARM_LPAE_MAX_LEVELS); [|lia].
      exact Hw.
Qed.

Lemma walk_tables_leaf n d m a lvl ptep :
  iopte_leaf (m (ptep + sizeof_iopte * ARM_LPAE_LVL_IDX a lvl d)) lvl = true ->
  walk_tables n d m a lvl ptep = [(ptep, table_span d lvl)].
Proof.
  intros H. destruct n; cbn [walk_tables]; rewrite H;
    rewrite orb_true_r; reflexivity.
Qed.

Lemma separatedb_build r l :
  0 < fst r -> (forall r', In r' l -> disjointb r r' = true) ->
  separatedb l = true -> separatedb (r :: l) = true.
Proof.
  intros H0 Hd Hl. cbn [separatedb]. rewrite Hl, andb_true_r.
  apply andb_true_intro. split; [now apply Z.ltb_lt|].
  apply forallb_forall. assumption.
Qed.

Section MapLeaves.

Variable d : arm_lpae_io_pgtable.
Hypothesis Hgeo : geometry_ok d.
Variables iova paddr size prot : Z.
Hypothesis Hprot : prot_ok prot.
Hypothesis Hpa : 0 <= paddr < 2 ^ 48.
Hypothesis Hia : iova mod size = 0.
Hypothesis Hpaa : paddr mod size = 0.

(** After a successful call the walk for [iova] ends in the new leaf,
    through tables that are those of before or chunks of the allocator,
    and still apart from one another. *)
Lemma map_leaves_walk :
  forall n lvl ptep prev st msr st',
    ARM_LPAE_START_LVL d <= lvl <= 3 ->
    levels_below lvl = n ->
    separatedb (walk_tables n d (mem st) iova lvl ptep
                ++ pool_chunks d (pool st)) = true ->
    forallb (chunk_ok d) (pool_chunks d (pool st)) = true ->
    (prev = 0 \/ outside prev (walk_tables n d (mem st) iova lvl ptep
                               ++ pool_chunks d (pool st))) ->
    iova_to_phys_walk n d (mem st) (iova + 1) lvl ptep = 0 ->
    __arm_lpae_map n d iova paddr size prot lvl ptep prev None st
    = Ret (0, msr, st') ->
    (exists L s, walk_to_leaf n d (mem st') iova lvl ptep = Some (L, s)
                 /\ size = ARM_LPAE_BLOCK_SIZE L d)
    /\ separatedb (walk_tables n d (mem st') iova lvl ptep) = true
    /\ (forall r, In r (walk_tables n d (mem st') iova lvl ptep) ->
                  In r (walk_tables n d (mem st) iova lvl ptep
                        ++ pool_chunks d (pool st))).
Proof.
  assert (Hleafcase : forall n lvl ptep prev st st',
    lvl <= 3 ->
    separatedb (walk_tables n d (mem st) iova lvl ptep
                ++ pool_chunks d (pool st)) = true ->
    (prev = 0 \/ outside prev (walk_tables n d (mem st) iova lvl ptep
                               ++ pool_chunks d (pool st))) ->
    size = ARM_LPAE_BLOCK_SIZE lvl d ->
    arm_lpae_init_pte d iova paddr prot lvl
      (ptep + sizeof_iopte * ARM_LPAE_LVL_IDX iova lvl d) prev true st = Ret (0, st') ->
    (exists L s, walk_to_leaf n d (mem st') iova lvl ptep = Some (L, s)
                 /\ size = ARM_LPAE_BLOCK_SIZE L d)
    /\ separatedb (walk_tables n d (mem st') iova lvl ptep) = true
    /\ (forall r, In r (walk_tables n d (mem st') iova lvl ptep) ->
                  In r (walk_tables n d (mem st) iova lvl ptep
                        ++ pool_chunks d (pool st)))).
  { intros n lvl ptep prev st st' Hl Hsep Hprev Hs Hi.
    destruct (walk_tables_head n d (mem st) iova lvl ptep) as [wrest Hw].
    rewrite Hw in *. cbn [app] in *.
    assert (Hp : 0 < ptep) by (apply separatedb_cons in Hsep; apply Hsep).
    assert (Hne : prev <> ptep + sizeof_iopte * ARM_LPAE_LVL_IDX iova lvl d).
    { destruct Hprev as [->|Hout].
      - pose proof (lvl_idx_range d Hgeo iova lvl). unfold sizeof_iopte. lia.
      - eapply outside_not_slot; eauto. }
    destruct (init_pte_installed _ _ _ _ _ _ _ _ _ _ Hi Hne) as (Hv & _).
    assert (Hlf : iopte_leaf (mem st' (ptep + sizeof_iopte * ARM_LPAE_LVL_IDX iova lvl d))
                             lvl = true)
      by (rewrite Hv; apply init_pte_val_leaf; [apply Hgeo|assumption]).
    rewrite (walk_tables_leaf n d (mem st') iova lvl ptep Hlf).
    split; [|split].
    - exists lvl, (ptep + sizeof_iopte * ARM_LPAE_LVL_IDX iova lvl d).
      split; [|assumption].
      destruct n; cbn [walk_to_leaf]; cbv zeta;
        (destruct (Z.eqb_spec ptep 0); [lia|]); rewrite Hlf;
        (destruct (Z.eqb_spec (mem st' (ptep + sizeof_iopte * ARM_LPAE_LVL_IDX iova lvl d)) 0)
          as [E|]; [|reflexivity]);
        exfalso; exact (leaf_nonzero _ _ Hlf E).
    - cbn [separatedb forallb fst]. rewrite andb_true_r, andb_true_r. now apply Z.ltb_lt.
    - intros r [<-|[]]. now left. }
  induction n as [|n IH]; intros lvl ptep prev st msr st' Hl Hn Hsep Hok Hprev Hun H.
  - (* the last level *)
    cbn [__arm_lpae_map] in H.
    destruct (Z.eqb_spec size (ARM_LPAE_BLOCK_SIZE lvl d)) as [Hs|]; cbn [andb] in H.
    2:{ destruct (lvl >=? ARM_LPAE_MAX_LEVELS - 1); discriminate. }
    destruct (negb (Z.land size _ =? 0)).
    2:{ destruct (lvl >=? ARM_LPAE_MAX_LEVELS - 1); discriminate. }
    destruct (arm_lpae_init_pte _ _ _ _ _ _ _ _ _) as [[r st1]|] eqn:Hi; [|discriminate].
    injection H as -> _ <-.
    apply (Hleafcase 0%nat lvl ptep prev st st1); auto; lia.
  - destruct ((size =? ARM_LPAE_BLOCK_SIZE lvl d)
              && negb (Z.land size (pgsize_bitmap (cfg (iop d))) =? 0)) eqn:Hleaf.
    { pose proof Hleaf as Hleaf'.
      apply andb_prop in Hleaf'. destruct Hleaf' as [Hs _]. apply Z.eqb_eq in Hs.
      cbn [__arm_lpae_map] in H. rewrite Hleaf in H.
      destruct (arm_lpae_init_pte _ _ _ _ _ _ _ _ _) as [[r st1]|] eqn:Hi; [|discriminate].
      injection H as -> _ <-.
      apply (Hleafcase (S n) lvl ptep prev st st1); auto; lia. }
    destruct (map_descend d Hgeo iova paddr size prot Hia n lvl ptep prev st msr st'
                Hl Hsep Hok Hun H Hleaf)
      as (Hlt & c & st2 & Hrec & Hsep2 & Hok2 & Hout2 & Hun2 & Hderef & Hnl & Hc & Hcase).
    assert (Hn' : levels_below (lvl + 1) = n).
    { rewrite (levels_below_step lvl) in Hn by (unfold ARM_LPAE_MAX_LEVELS; lia).
      now injection Hn. }
    set (s := ptep + sizeof_iopte * ARM_LPAE_LVL_IDX iova lvl d) in *.
    destruct (walk_tables_head (S n) d (mem st) iova lvl ptep) as [wrest Hw].
    assert (Hp : 0 < ptep).
    { rewrite Hw in Hsep. cbn [app] in Hsep. apply separatedb_cons in Hsep. apply Hsep. }
    assert (Hs0 : s <> 0).
    { pose proof (slot_in_table d Hgeo iova lvl ptep) as Hin. fold s in Hin.
      unfold in_region in Hin. cbn [fst snd] in Hin. lia. }
    destruct (map_installs d Hgeo iova paddr size prot Hprot Hpa Hia Hpaa n (lvl + 1) c
                s st2 msr st' ltac:(lia) Hn' Hsep2 Hok2 (or_intror Hout2) Hun2 Hrec)
      as (_ & Hcnt & _).
    specialize (Hcnt Hs0).
    destruct (IH (lvl + 1) c s st2 msr st' ltac:(lia) Hn' Hsep2 Hok2 (or_intror Hout2)
                 Hun2 Hrec) as ((L & s' & Hwl & HsL) & Hsep' & Hincl).
    assert (Hlv4 : lvl + 1 < ARM_LPAE_MAX_LEVELS) by (unfold ARM_LPAE_MAX_LEVELS; lia).
    assert (Hd' : iopte_deref (mem st' s) d = c)
      by (now rewrite (same_outside_deref _ _ d Hcnt)).
    assert (Hnz' : mem st' s <> 0) by (apply (deref_nonzero _ d); rewrite Hd'; lia).
    assert (Hnl' : iopte_leaf (mem st' s) lvl = false)
      by (now rewrite (same_outside_leaf _ _ lvl Hcnt)).
    rewrite (walk_tables_table n d (mem st') iova lvl ptep (mem st' s) eq_refl
               Hnz' Hnl' Hlv4), Hd'.
    assert (Hincl2 : forall r, In r (walk_tables n d (mem st2) iova (lvl + 1) c
                                     ++ pool_chunks d (pool st2)) ->
                               In r (wrest ++ pool_chunks d (pool st))).
    { destruct Hcase as [(Hnz & -> & Hw')|(Hz & Hw' & rest & Hpc & Hp2 & Hm2 & Hw2 & _)].
      - rewrite Hw' in Hw. injection Hw as <-. auto.
      - rewrite Hw' in Hw. injection Hw as <-. rewrite Hw2, Hp2, Hpc. cbn [app]. auto. }
    split; [|split].
    + exists L, s'. split; [|assumption].
      cbn [walk_to_leaf]. cbv zeta. fold s.
      destruct (Z.eqb_spec ptep 0); [lia|].
      destruct (Z.eqb_spec (mem st' s) 0); [contradiction|].
      rewrite Hnl'. destruct (Z.ltb_spec (lvl + 1) ARM_LPAE_MAX_LEVELS); [|lia].
      now rewrite Hd'.
    + apply separatedb_build; [assumption| |assumption].
      intros r' Hr'. rewrite Hw in Hsep. cbn [app] in Hsep.
      apply separatedb_cons in Hsep. destruct Hsep as (_ & Hd & _).
      apply Hd. apply Hincl2. now apply Hincl.
    + intros r [<-|Hr]; [rewrite Hw; now left|].
      rewrite Hw. cbn [app]. right. apply Hincl2. now apply Hincl.
Qed.

End MapLeaves.

Lemma walk_to_leaf_last d m iova L s :
  forall n lvl ptep,
    walk_to_leaf n d m iova lvl ptep = Some (L, s) -> lvl <= 3 -> L <= 3.
Proof.
  induction n as [|n IH]; intros lvl ptep H Hl;
    destruct (walk_to_leaf_step _ _ _ _ _ _ _ _ H)
      as (_ & _ & [(-> & _)|(_ & Hlt & n' & En & H')]);
    try lia; try discriminate.
  injection En as <-. apply (IH _ _ H'). unfold ARM_LPAE_MAX_LEVELS in Hlt. lia.
Qed.

(** X20.  Unmap undoes map: after a successful [arm_lpae_map] of an
    unmapped, aligned range in a domain of at least two levels,
    [arm_lpae_unmap] of the same range returns its size, and no address
    of the range translates any more. *)
Theorem map_then_unmap d st iova paddr size prot st' :
  geometry_ok d ->
  ARM_LPAE_START_LVL d <= 2 ->
  has_access prot = true ->
  iova mod size = 0 -> paddr mod size = 0 -> 0 <= paddr < 2 ^ 48 ->
  walk_separated d st iova = true ->
  (forall j, 0 <= j < size -> arm_lpae_iova_to_phys d (iova + j) st = 0) ->
  (size < SZ_2M
   \/ iommu_pgsize (pgsize_bitmap (cfg (iop d))) iova size = Some size) ->
  arm_lpae_map d iova paddr size prot st = Ret (0, st') ->
  exists st'',
    arm_lpae_unmap d iova size st' = Ret (size, st'')
    /\ forall k, 0 <= k < size -> arm_lpae_iova_to_phys d (iova + k) st'' = 0.
Proof.
  intros Hgeo Hst2 Hacc Hia Hpaa Hpa Hsep Hun Hpick H.
  unfold arm_lpae_map in H. unfold has_access in Hacc. rewrite Hacc in H.
  cbn [negb] in H.
  destruct (__arm_lpae_map _ _ _ _ _ _ _ _ _ _ _) as [[[r msr] st1]|] eqn:Hm;
    [|discriminate].
  assert (r = 0 /\ st1 = st') as [-> ->] by (split; congruence).
  pose proof (start_lvl_le d Hgeo) as Hst.
  destruct (map_success_level _ _ _ _ _ _ _ _ _ _ _ _ _ Hst Hm) as (L0 & HL0 & HsL0).
  assert (Hone : 0 <= 1 < size).
  { rewrite HsL0, (block_size_eq d Hgeo).
    pose proof (lvl_shift_lower d Hgeo L0 (proj2 HL0)). destruct Hgeo as (Hpg & _).
    split; [lia|]. apply Z.le_lt_trans with (2 ^ 0); [simpl; lia|].
    apply Z.pow_lt_mono_r; lia. }
  unfold walk_separated in Hsep. apply andb_prop in Hsep. destruct Hsep as [Hsep Hok].
  destruct (map_leaves_walk d Hgeo iova paddr size _ (prot_to_pte_ok d prot) Hpa Hia Hpaa
              _ _ _ 0 st msr st' (conj (Z.le_refl _) Hst) eq_refl Hsep Hok
              (or_introl eq_refl) (Hun 1 Hone) Hm) as ((L & s & Hwl & HsL) & Hsep' & _).
  pose proof (walk_to_leaf_level _ _ _ _ _ _ _ _ Hwl) as HL1.
  pose proof (walk_to_leaf_last _ _ _ _ _ _ _ _ Hwl Hst) as HL3.
  assert (Hsz : 0 < size) by lia.
  assert (Hbase : block_base d iova L = iova).
  { unfold block_base. rewrite (block_size_eq d Hgeo), land_lnot_pow2.
    - rewrite <- (block_size_eq d Hgeo), <- HsL, Hia. lia.
    - pose proof (lvl_shift_lower d Hgeo L HL3). destruct Hgeo. lia. }
  destruct (Z.le_gt_cases L 2) as [HL2|HLgt].
  - (* a block: the entry is cleared *)
    destruct (walk_leaf_to_table d (mem st') iova L s L _ _ _ Hwl ltac:(lia))
      as (pt & Hwt & Hnz & _).
    destruct (unmap_entry_body d st' iova L pt Hgeo Hwt HL2 Hnz)
      as (st2 & Hu & Hm2 & _).
    rewrite <- HsL in Hu.
    rewrite (unmap_one_round d iova size st' size st2 Hsz Hpick Hu (or_intror eq_refl)).
    destruct (Z.eqb_spec size 0); [lia|].
    eexists. split; [reflexivity|].
    intros k Hk. unfold arm_lpae_iova_to_phys. cbn [mem emit].
    apply (cleared_entry_translation d st' iova L pt (mem st2) (iova + k) Hgeo Hwt);
      try assumption.
    rewrite Hbase, <- HsL. lia.
  - (* a page: one entry of the last table is zeroed *)
    assert (L = 3) by lia. subst L.
    destruct (walk_leaf_to_table d (mem st') iova 3 s 2 _ _ _ Hwl ltac:(lia))
      as (pt & Hwt & Hnz & _ & Hnl).
    specialize (Hnl ltac:(lia)).
    rewrite (block_size_last d Hgeo) in HsL.
    assert (HsG : size = 1 * Z.shiftl 1 (pg_shift d)) by lia.
    destruct (pages_G d Hgeo st' iova 1 pt
                (mem st' (pt + sizeof_iopte * ARM_LPAE_LVL_IDX iova 2 d)) Hwt)
      as (HG & HN & _ & Hblk).
    assert (Hfit : ARM_LPAE_LVL_IDX iova 3 d + 1 <= Z.shiftl 1 (bits_per_level d)).
    { pose proof (lvl_idx_range d Hgeo iova 3) as Hr. unfold ARM_LPAE_PGD_IDX in Hr.
      destruct (Z.eqb_spec 3 (ARM_LPAE_START_LVL d)); [lia|].
      rewrite Z.add_0_r in Hr. lia. }
    assert (Hal : iova mod Z.shiftl 1 (pg_shift d) = 0) by (now rewrite <- HsL).
    destruct (unmap_follow d st' iova size 2 pt ltac:(lia) _ _ _ 0
                (Z.to_nat (ARM_LPAE_MAX_LEVELS - ARM_LPAE_START_LVL d)) Hwt)
      as (prev' & fuel' & Hf).
    { intros l Hl E. pose proof (block_size_smaller d Hgeo l 2). rewrite Hblk in *. nia. }
    { unfold ARM_LPAE_MAX_LEVELS. lia. }
    destruct (pages_body d Hgeo st' iova 1 pt _ Hwt eq_refl Hnz Hnl ltac:(lia) Hfit
                ltac:(lia) Hsep' fuel' prev') as (st4 & Hb & Hm4 & _).
    rewrite <- HsG in Hb. rewrite Hb in Hf.
    rewrite (unmap_one_round d iova size st' size st4 Hsz Hpick Hf (or_intror eq_refl)).
    destruct (Z.eqb_spec size 0); [lia|].
    eexists. split; [reflexivity|].
    intros k Hk. unfold arm_lpae_iova_to_phys. cbn [mem emit].
    rewrite (pages_translate d Hgeo st' iova 1 pt _ Hwt eq_refl Hnz Hnl Hfit Hsep' Hal
               (mem st4) (iova + k) Hm4).
    + rewrite <- HsG.
      destruct (Z.leb_spec iova (iova + k)); [|lia].
      destruct (Z.ltb_spec (iova + k) (iova + size)); [|lia].
      now rewrite orb_true_r.
    + destruct (iova_decompose iova (Z.shiftl 1 (bits_per_level d))
                  (Z.shiftl 1 (pg_shift d)) ltac:(lia) HG Hal)
        as (bs0 & h & Eiova & Ebs & _ & Hh).
      assert (Hb2 : block_base d iova 2 = bs0).
      { unfold block_base. rewrite Ebs, (block_size_eq d Hgeo), land_lnot_pow2.
        - now rewrite <- (block_size_eq d Hgeo), Hblk.
        - pose proof (lvl_shift_lower d Hgeo 2). destruct Hgeo. lia. }
      rewrite Hb2, Hblk. nia.
Qed.

Lemma map_then_unmap_witness :
  exists st' st'',
    arm_lpae_map selftest_data 0 0x80000000 SZ_4K RW selftest_machine = Ret (0, st')
    /\ arm_lpae_unmap selftest_data 0 SZ_4K st' = Ret (SZ_4K, st'')
    /\ arm_lpae_iova_to_phys selftest_data (0 + 0x123) st'' = 0.
Proof.
  assert (E : result_of (arm_lpae_map selftest_data 0 0x80000000 SZ_4K RW
                                      selftest_machine) = Some 0)
    by (vm_compute; reflexivity).
  destruct (arm_lpae_map selftest_data 0 0x80000000 SZ_4K RW selftest_machine)
    as [[r st']|] eqn:Hm; cbn [result_of] in E; [|discriminate].
  injection E as ->.
  destruct (map_then_unmap selftest_data selftest_machine 0 0x80000000 SZ_4K RW st')
    as (st'' & Hu & Ht).
  - unfold geometry_ok. cbn. lia.
  - vm_compute. discriminate.
  - reflexivity.
  - reflexivity.
  - reflexivity.
  - split; [lia | reflexivity].
  - vm_compute. reflexivity.
  - intros j Hj. unfold arm_lpae_iova_to_phys. apply walk_at_empty.
    unfold selftest_machine, memzero, boot. cbn [mem].
    destruct (_ && _); reflexivity.
  - left. reflexivity.
  - exact Hm.
  - exists st', st''. split; [reflexivity|]. split; [exact Hu|].
    apply Ht. unfold SZ_4K. lia.
Defined.

(** ** Unmapping leaves other translations alone *)

Section UnmapKeeps.

Variable d : arm_lpae_io_pgtable.
Hypothesis Hgeo : geometry_ok d.
Variables m m' : Z -> Z.
Variables iova b T pt : Z.
Hypothesis HT : T <= 3.


End UnmapKeeps.



